(** * headless-coder: adapter runtime

    A shallow embedding of the three provider adapters
    (packages/gemini-adapter, packages/codex-adapter and the Claude adapter)
    and of the properties the specification states about them: terminal
    events of a streamed run, cancellation, the one-run-per-thread guard,
    resume-token resolution and structured-output extraction.

    Conventions.
    - A JavaScript value that came out of [JSON.parse] is a [json]; the value
      [undefined] is [None] in [jsval := option json].
    - Strings are Rocq strings, read as sequences of code units below 256.
    - [JSON.parse] itself is a built-in of the language, not code of the
      repository: the development takes it as a parameter [JSON_parse]
      ([None] when it throws).
    - The [ts: now()] field of an event is left out: wall-clock time is not
      modelled.  The kill timers are modelled with explicit deadlines on a
      virtual clock. *)

From Stdlib Require Import ZArith Bool Ascii String List Lia DecimalString.
From stdpp Require Import base option list.
Import ListNotations.
Local Open Scope string_scope.
Local Open Scope Z_scope.
#[local] Set Warnings "-register-all".

(** ** JavaScript values and the string primitives the adapters use *)

Module JS.

(** A number as [JSON.parse] produces it.  A finite number is kept as the
    text [String(n)] prints for it (so [String] is the projection, and the
    number zero is ["0"]). *)
Inductive number : Type :=
| Finite (shown : string)
| Infinite (negative : bool).

Inductive json : Type :=
| JNull
| JBool (b : bool)
| JNum (n : number)
| JStr (s : string)
| JArr (items : list json)
| JObj (fields : list (string * json)).

Definition jsval : Type := option json.
Definition undefined : jsval := None.

Fixpoint assoc (k : string) (fields : list (string * json)) : jsval :=
  match fields with
  | [] => None
  | (k', v) :: rest => if String.eqb k k' then Some v else assoc k rest
  end.

(** [v?.k] for a property name that is no built-in of strings, numbers or
    arrays: only an object can carry it. *)
Definition get (v : jsval) (k : string) : jsval :=
  match v with
  | Some (JObj fields) => assoc k fields
  | _ => None
  end.

(** [a ?? b] *)
Definition nullish (a : jsval) : bool :=
  match a with
  | None | Some JNull => true
  | _ => false
  end.

Definition coalesce (a b : jsval) : jsval := if nullish a then b else a.

Infix "??" := coalesce (at level 45, right associativity).

Definition nonempty (s : string) : bool :=
  match s with EmptyString => false | String _ _ => true end.

(** [!!v], the test of [if (v)]. *)
Definition truthy (v : jsval) : bool :=
  match v with
  | None | Some JNull => false
  | Some (JBool b) => b
  | Some (JNum (Finite s)) => negb (String.eqb s "0")
  | Some (JNum (Infinite _)) => true
  | Some (JStr s) => nonempty s
  | Some (JArr _) | Some (JObj _) => true
  end.

(** The test of [if (s)] for [s : string | undefined]. *)
Definition truthy_str (s : option string) : bool :=
  match s with Some t => nonempty t | None => false end.

(** [typeof v === 'string'] *)
Definition as_string (v : jsval) : option string :=
  match v with Some (JStr s) => Some s | _ => None end.

(** White space of [\s] and of [String.prototype.trim], below 256. *)
Definition is_ws (c : ascii) : bool :=
  let n := nat_of_ascii c in
  (Nat.eqb n 9 || Nat.eqb n 10 || Nat.eqb n 11 || Nat.eqb n 12
   || Nat.eqb n 13 || Nat.eqb n 32 || Nat.eqb n 160)%bool.

Fixpoint trimStart (s : string) : string :=
  match s with
  | String c r => if is_ws c then trimStart r else s
  | EmptyString => EmptyString
  end.

(** Drops the trailing white space: a character stays when it is no white
    space or something that stays follows it. *)
Fixpoint trimEnd (s : string) : string :=
  match s with
  | EmptyString => EmptyString
  | String c r =>
      match trimEnd r with
      | EmptyString => if is_ws c then EmptyString else String c EmptyString
      | r' => String c r'
      end
  end.

Definition trim (s : string) : string := trimEnd (trimStart s).

Fixpoint indexOf_from (c : ascii) (s : string) (i : Z) : Z :=
  match s with
  | EmptyString => -1
  | String a r => if Ascii.eqb a c then i else indexOf_from c r (i + 1)
  end.

(** [s.indexOf(c)], -1 when [c] does not occur. *)
Definition indexOf (c : ascii) (s : string) : Z := indexOf_from c s 0.

Fixpoint lastIndexOf_from (c : ascii) (s : string) (i found : Z) : Z :=
  match s with
  | EmptyString => found
  | String a r => lastIndexOf_from c r (i + 1) (if Ascii.eqb a c then i else found)
  end.

(** [s.lastIndexOf(c)], -1 when [c] does not occur. *)
Definition lastIndexOf (c : ascii) (s : string) : Z := lastIndexOf_from c s 0 (-1).

Definition strlen (s : string) : Z := Z.of_nat (String.length s).

(** [s.slice(from, to)], with the clamping of negative and large indices. *)
Definition slice (s : string) (from to : Z) : string :=
  let len := strlen s in
  let clamp i := if i <? 0 then Z.max (len + i) 0 else Z.min i len in
  let a := clamp from in
  let b := clamp to in
  substring (Z.to_nat a) (Z.to_nat (Z.max (b - a) 0)) s.

Definition lower (c : ascii) : ascii :=
  let n := nat_of_ascii c in
  if (Nat.leb 65 n && Nat.leb n 90)%bool then ascii_of_nat (n + 32) else c.

(** Strips [p] from the front of [s], comparing letters without case. *)
Fixpoint strip_prefix_ci (p s : string) : option string :=
  match p, s with
  | EmptyString, _ => Some s
  | String a p', String b s' =>
      if Ascii.eqb (lower a) (lower b) then strip_prefix_ci p' s' else None
  | String _ _, EmptyString => None
  end.

Definition fence : string := "```".

(** The lazy group [([\s\S]+?)] followed by the closing fence: the shortest
    non-empty run of characters after which the fence stands. *)
Fixpoint lazy_until_fence (s : string) : option string :=
  match s with
  | EmptyString => None
  | String c r =>
      if String.prefix fence r then Some (String c EmptyString)
      else option_map (String c) (lazy_until_fence r)
  end.

(** [\s*] is greedy: it first takes all the white space, and gives one
    character back at a time while the rest of the pattern fails. *)
Fixpoint ws_then_group (s : string) : option string :=
  match s with
  | String c r =>
      if is_ws c then
        match ws_then_group r with
        | Some g => Some g
        | None => lazy_until_fence s
        end
      else lazy_until_fence s
  | EmptyString => None
  end.

(** [text.match(/```json\s*([\s\S]+?)```/i)]: group 1 of the leftmost match. *)
Fixpoint match_fenced (text : string) : option string :=
  let here :=
    match strip_prefix_ci "```json" text with
    | Some rest => ws_then_group rest
    | None => None
    end in
  match here with
  | Some g => Some g
  | None =>
      match text with
      | EmptyString => None
      | String _ r => match_fenced r
      end
  end.

Fixpoint join_with (sep : string) (parts : list string) : string :=
  match parts with
  | [] => EmptyString
  | [p] => p
  | p :: rest => p ++ sep ++ join_with sep rest
  end.

(** [String(v)] and the conversion of a template literal, for plain data
    (no own [toString]).  In [Array.prototype.join] a [null] element prints
    as the empty string. *)
Fixpoint toString (v : json) : string :=
  match v with
  | JNull => "null"
  | JBool true => "true"
  | JBool false => "false"
  | JNum (Finite shown) => shown
  | JNum (Infinite false) => "Infinity"
  | JNum (Infinite true) => "-Infinity"
  | JStr s => s
  | JArr items =>
      join_with ","
        (map (fun x => match x with JNull => EmptyString | _ => toString x end) items)
  | JObj _ => "[object Object]"
  end.

(** [array.join(sep)] *)
Definition join_array (sep : string) (items : list json) : string :=
  join_with sep
    (map (fun x => match x with JNull => EmptyString | _ => toString x end) items).

(** [s.toLowerCase()], on the letters A to Z. *)
Fixpoint toLowerCase (s : string) : string :=
  match s with
  | EmptyString => EmptyString
  | String c r => String (lower c) (toLowerCase r)
  end.

(** [s.includes(needle)] *)
Fixpoint includes (needle s : string) : bool :=
  if String.prefix needle s then true
  else
    match s with
    | EmptyString => false
    | String _ r => includes needle r
    end.

Definition startsWith (p s : string) : bool := String.prefix p s.

(** [s.endsWith(p)] *)
Definition endsWith (p s : string) : bool :=
  let n := String.length s in
  let k := String.length p in
  (Nat.leb k n && String.eqb (substring (n - k) k s) p)%bool.

End JS.
Export JS.

(** ** Shared types of the adapters (core/types.ts) *)

Module Core.

Inductive Provider : Type := codex | claude | gemini.

(** A thrown [Error]: the fields the adapters read. *)
Record JsError : Type := mkError
  { err_name : string; err_code : option string; err_message : string }.

(** [new Error(message)] *)
Definition new_Error (message : string) : JsError :=
  {| err_name := "Error"; err_code := None; err_message := message |}.

Definition TypeError (message : string) : JsError :=
  {| err_name := "TypeError"; err_code := None; err_message := message |}.

(** The tagged union [CoderStreamEvent].  The last argument is the native
    event the adapter attaches ([originalItem], [raw] in the older adapters).
    A field an adapter does not set is [undefined]. *)
Inductive CoderStreamEvent : Type :=
| EvInit (provider : Provider) (threadId model : jsval) (originalItem : jsval)
| EvMessage (provider : Provider) (role text : jsval) (delta : option bool)
    (originalItem : jsval)
| EvToolUse (provider : Provider) (name callId args : jsval) (originalItem : jsval)
| EvToolResult (provider : Provider) (name callId result exitCode error : jsval)
    (originalItem : jsval)
| EvProgress (provider : Provider) (label detail : jsval) (originalItem : jsval)
| EvPermission (provider : Provider) (request decision : jsval) (originalItem : jsval)
| EvUsage (provider : Provider) (stats : jsval) (originalItem : jsval)
| EvError (provider : Provider) (code message : jsval) (originalItem : jsval)
| EvCancelled (provider : Provider) (originalItem : jsval)
| EvDone (provider : Provider) (originalItem : jsval).

Inductive EventType : Type :=
| init | message | tool_use | tool_result | progress | permission | usage
| error | cancelled | done.

(** The [type] tag of an event. *)
Definition type_of (e : CoderStreamEvent) : EventType :=
  match e with
  | EvInit _ _ _ _ => init
  | EvMessage _ _ _ _ _ => message
  | EvToolUse _ _ _ _ _ => tool_use
  | EvToolResult _ _ _ _ _ _ _ => tool_result
  | EvProgress _ _ _ _ => progress
  | EvPermission _ _ _ _ => permission
  | EvUsage _ _ _ => usage
  | EvError _ _ _ _ => error
  | EvCancelled _ _ => cancelled
  | EvDone _ _ => done
  end.

Definition EventType_eqb (a b : EventType) : bool :=
  match a, b with
  | init, init | message, message | tool_use, tool_use
  | tool_result, tool_result | progress, progress | permission, permission
  | usage, usage | error, error | cancelled, cancelled | done, done => true
  | _, _ => false
  end.

Definition is_type (t : EventType) (e : CoderStreamEvent) : bool :=
  EventType_eqb (type_of e) t.

(** [done] and [error] are the terminal tags. *)
Definition is_terminal (e : CoderStreamEvent) : bool :=
  (is_type done e || is_type error e)%bool.

Inductive PromptInput : Type :=
| PromptText (text : string)
| PromptMessages (messages : list (string * string)).

Record StartOpts : Type := mkStartOpts
  { model : option string;
    workingDirectory : option string;
    sandboxMode : option string;
    skipGitRepoCheck : option bool;
    codexExecutablePath : option string;
    allowedTools : option (list string);
    mcpServers : jsval;
    continue : option bool;
    resume : option string;
    forkSession : option bool;
    geminiBinaryPath : option string;
    includeDirectories : option (list string);
    yolo : option bool;
    permissionMode : option string;
    permissionPromptToolName : option string }.

Definition no_opts : StartOpts :=
  mkStartOpts None None None None None None None None None None None None None
    None None.

Definition over {A} (b a : option A) : option A :=
  match b with Some _ => b | None => a end.

(** [{ ...defaults, ...opts }]: a field that [opts] sets wins. *)
Definition merge_opts (defaults opts : StartOpts) : StartOpts :=
  {| model := over (model opts) (model defaults);
     workingDirectory := over (workingDirectory opts) (workingDirectory defaults);
     sandboxMode := over (sandboxMode opts) (sandboxMode defaults);
     skipGitRepoCheck := over (skipGitRepoCheck opts) (skipGitRepoCheck defaults);
     codexExecutablePath :=
       over (codexExecutablePath opts) (codexExecutablePath defaults);
     allowedTools := over (allowedTools opts) (allowedTools defaults);
     mcpServers := over (mcpServers opts) (mcpServers defaults);
     continue := over (continue opts) (continue defaults);
     resume := over (resume opts) (resume defaults);
     forkSession := over (forkSession opts) (forkSession defaults);
     geminiBinaryPath := over (geminiBinaryPath opts) (geminiBinaryPath defaults);
     includeDirectories :=
       over (includeDirectories opts) (includeDirectories defaults);
     yolo := over (yolo opts) (yolo defaults);
     permissionMode := over (permissionMode opts) (permissionMode defaults);
     permissionPromptToolName :=
       over (permissionPromptToolName opts) (permissionPromptToolName defaults) |}.

(** [RunOpts]; [signal] tells whether the caller handed in an [AbortSignal]. *)
Record RunOpts : Type := mkRunOpts
  { outputSchema : jsval;
    streamPartialMessages : option bool;
    signal : bool }.

Definition no_run_opts : RunOpts := mkRunOpts None None false.

Module RunResult.
Record t : Type := make
  { threadId : option string;
    text : jsval;
    json : jsval;
    usage : jsval;
    raw : jsval }.
End RunResult.

(** How an awaited call ends. *)
Inductive Settled (A : Type) : Type :=
| Resolved (value : A)
| Rejected (reason : JsError).
Arguments Resolved {A} value.
Arguments Rejected {A} reason.

Definition newline : string := String (ascii_of_nat 10) EmptyString.

(** [parts.join(sep)] on an array of strings *)
Definition join (sep : string) (parts : list string) : string :=
  join_with sep parts.

(** [`${n}`] for an exit code: a number, or [null] for a signalled child. *)
Definition show_code (code : option Z) : string :=
  match code with
  | Some z => NilZero.string_of_int (Z.to_int z)
  | None => "null"
  end.

(** The attempts in the words of the specification: parsing the outermost
    [{...}] span of a text, tried on the fenced block and on the raw text. *)
Definition outermost_span (JSON_parse : string -> jsval) (text : string) : jsval :=
  let candidate := trim text in
  let start := indexOf "{" candidate in
  let end_ := lastIndexOf "}" candidate in
  if ((start =? -1) || (end_ =? -1) || (end_ <? start))%bool then None
  else JSON_parse (slice candidate start (end_ + 1)).

Definition fenced_attempt (JSON_parse : string -> jsval) (text : string) : jsval :=
  match match_fenced text with
  | Some block => outermost_span JSON_parse block
  | None => None
  end.

Definition raw_attempt (JSON_parse : string -> jsval) (text : string) : jsval :=
  outermost_span JSON_parse text.

(** The extraction as the specification words it: the attempt on the fenced
    block and, failing that, the attempt on the raw text. *)
Definition extraction_as_specified (JSON_parse : string -> jsval) (text : string) :
    jsval :=
  match fenced_attempt JSON_parse text with
  | Some v => Some v
  | None => raw_attempt JSON_parse text
  end.

(** The one text the code examines: the fenced block when there is one, the
    raw text otherwise. *)
Definition candidate_of (text : string) : string :=
  match match_fenced text with
  | Some block => block
  | None => text
  end.

(** [extractJsonPayload], the same text in the three adapters.  [JSON_parse]
    is the built-in, [None] when it throws. *)
Definition extractJsonPayload (JSON_parse : string -> jsval)
    (text : option string) : jsval :=
  match text with
  | None => None
  | Some text =>
      if negb (nonempty text) then None
      else
        let fenced := match_fenced text in
        let candidate := trim (match fenced with Some g => g | None => text end) in
        let start := indexOf "{" candidate in
        let end_ := lastIndexOf "}" candidate in
        if ((start =? -1) || (end_ =? -1) || (end_ <? start))%bool then None
        else JSON_parse (slice candidate start (end_ + 1))
  end.

End Core.
Export Core.

(** ** The Gemini adapter (packages/gemini-adapter/src/index.ts) *)

Module Gemini.

Definition CODER_NAME : Provider := gemini.

Definition STRUCTURED_OUTPUT_SUFFIX : string :=
  "Respond with JSON that matches the provided schema. Do not include explanatory text outside the JSON.".

Definition SOFT_KILL_DELAY_MS : Z := 250.
Definition HARD_KILL_DELAY_MS : Z := 1500.

(** *** The child process, as node:child_process presents it

    [killed] is Node's flag: it turns true when [kill] has delivered a
    signal, and says nothing about the process having ended.  [running]
    tells whether the process is still there; [exitCode] stays [null] until
    it exits, and also when a signal ended it.  [stdin] is [null] for the
    stdio setting ['ignore'], which is how the adapter spawns. *)

Inductive Signal : Type := SIGTERM | SIGKILL.

Record ChildProcess : Type := mkChild
  { spawnfile : string;
    spawnargs : list string;
    stdin : option bool;
    killed : bool;
    exitCode : option Z;
    running : bool;
    received : list Signal;
    destroyed : bool }.

(** [child.kill(sig)]: a process that is gone gets nothing and [killed]
    stays as it is. *)
Definition kill (sig : Signal) (c : ChildProcess) : ChildProcess :=
  if running c then
    mkChild (spawnfile c) (spawnargs c) (stdin c) true (exitCode c) (running c)
      (received c ++ [sig])%list (destroyed c)
  else c.

(** The process ends: Node records the exit code ([None] for a signal). *)
Definition exits (code : option Z) (c : ChildProcess) : ChildProcess :=
  mkChild (spawnfile c) (spawnargs c) (stdin c) (killed c) code false
    (received c) (destroyed c).

(** [child.stdin?.end()] *)
Definition end_stdin (c : ChildProcess) : ChildProcess :=
  mkChild (spawnfile c) (spawnargs c) (option_map (fun _ => true) (stdin c))
    (killed c) (exitCode c) (running c) (received c) (destroyed c).

Definition destroyChildStreams (c : ChildProcess) : ChildProcess :=
  mkChild (spawnfile c) (spawnargs c) (stdin c) (killed c) (exitCode c)
    (running c) (received c) true.

(** A [setTimeout] handle: when it is due and whether it can still fire. *)
Record Timeout : Type := mkTimeout { due : Z; pending : bool }.

(** [controller] is [abortController.signal]: [Some reason] once aborted.
    [linked] tells whether the listener on the caller's signal is attached. *)
Record ActiveRun : Type := mkActive
  { child : ChildProcess;
    controller : option string;
    linked : bool;
    aborted : bool;
    abortReason : option string;
    softKillTimer : option Timeout;
    hardKillTimer : option Timeout }.

Definition set_child (c : ChildProcess) (a : ActiveRun) : ActiveRun :=
  mkActive c (controller a) (linked a) (aborted a) (abortReason a)
    (softKillTimer a) (hardKillTimer a).

(** [currentRun] refers to an [ActiveRun] in the store of the world. *)
Record GeminiThreadState : Type := mkState
  { id : option string;
    resumeToken : option string;
    opts : StartOpts;
    currentRun : option nat }.

Module ThreadHandle.
Record t : Type := make
  { provider : Provider;
    id : option string;
    internal : GeminiThreadState }.
End ThreadHandle.

Record GeminiSessionEntry : Type := mkEntry
  { index : number; entry_id : option string }.

(** The thread handle (whose [internal] is the thread state), the store of
    the runs ever spawned, and the clock in milliseconds. *)
Record World : Type := mkWorld
  { thread : ThreadHandle.t;
    runs : list ActiveRun;
    clock : Z }.

Definition state_of (w : World) : GeminiThreadState :=
  ThreadHandle.internal (thread w).

Definition set_state (s : GeminiThreadState) (w : World) : World :=
  mkWorld (ThreadHandle.make (ThreadHandle.provider (thread w))
             (ThreadHandle.id (thread w)) s)
    (runs w) (clock w).

Definition set_currentRun (r : option nat) (s : GeminiThreadState) :
    GeminiThreadState :=
  mkState (id s) (resumeToken s) (opts s) r.

Definition update_run (r : nat) (f : ActiveRun -> ActiveRun) (w : World) : World :=
  mkWorld (thread w) (alter f r (runs w)) (clock w).

Definition geminiPath (override : option string) : string :=
  match override with
  | Some p => if nonempty p then p else "gemini"
  | None => "gemini"
  end.

Definition toPrompt (input : PromptInput) : string :=
  match input with
  | PromptText s => s
  | PromptMessages ms =>
      join newline (map (fun m => fst m ++ ": " ++ snd m) ms)
  end.

Section Builtins.

(** [JSON.parse] ([None] when it throws) and [JSON.stringify(v, null, 2)]. *)
Variable JSON_parse : string -> jsval.
Variable JSON_stringify : json -> string.

Definition applyOutputSchemaPrompt (input : PromptInput) (schema : jsval) : string :=
  match schema with
  | None => toPrompt input
  | Some schema =>
      let schemaText := JSON_stringify schema in
      let instruction :=
        STRUCTURED_OUTPUT_SUFFIX ++ newline ++ "Schema:" ++ newline ++ schemaText in
      match input with
      | PromptText s => s ++ newline ++ newline ++ instruction
      | PromptMessages ms => toPrompt (PromptMessages (("system", instruction) :: ms))
      end
  end.

Definition extractSessionId (payload : jsval) : option string :=
  let candidate :=
    get payload "session_id" ??
    get payload "sessionId" ??
    get (get payload "session") "id" ??
    get (get payload "session") "session_id" ??
    get (get payload "metadata") "session_id" in
  match candidate with
  | Some (JStr s) => if nonempty s then Some s else None
  | _ => None
  end.

Definition extractSessionIndex (payload : jsval) : option string :=
  let candidate :=
    get payload "session_index" ??
    get payload "sessionIndex" ??
    get payload "index" ??
    get (get payload "session") "index" ??
    get (get payload "session") "session_index" ??
    get (get payload "metadata") "session_index" in
  match candidate with
  | Some (JNum (Finite shown)) => Some shown
  | Some (JStr s) => if nonempty (trim s) then Some (trim s) else None
  | _ => None
  end.

(** Writes the session id into the state and into the handle. *)
Definition adopt (sessionId : string) (h : ThreadHandle.t) : ThreadHandle.t :=
  let s := ThreadHandle.internal h in
  ThreadHandle.make (ThreadHandle.provider h) (Some sessionId)
    (mkState (Some sessionId) (Some sessionId) (opts s) (currentRun s)).

Definition set_resumeToken (token : string) (h : ThreadHandle.t) : ThreadHandle.t :=
  let s := ThreadHandle.internal h in
  ThreadHandle.make (ThreadHandle.provider h) (ThreadHandle.id h)
    (mkState (id s) (Some token) (opts s) (currentRun s)).

(** [captureGeminiSessionMetadata(state, handle, payload)]; every caller
    passes the handle whose [internal] is [state]. *)
Definition captureGeminiSessionMetadata (h : ThreadHandle.t) (payload : jsval) :
    ThreadHandle.t :=
  match extractSessionId payload with
  | Some sessionId => adopt sessionId h
  | None =>
      if truthy_str (id (ThreadHandle.internal h)) then h
      else
        match extractSessionIndex payload with
        | Some resumeIndex =>
            if nonempty resumeIndex then set_resumeToken resumeIndex h else h
        | None => h
        end
  end.

Definition resolveResumeTarget (state : GeminiThreadState) : option string :=
  if truthy_str (resumeToken state) then resumeToken state
  else if truthy_str (id state) then id state
  else
    match resume (opts state) with
    | Some candidate => if nonempty candidate then Some candidate else None
    | None => None
    end.

(** [updateSessionMetadataFromList]; [entries] is what [listGeminiSessions]
    returns at that moment (it runs [gemini --list-sessions]). *)
Definition updateSessionMetadataFromList (entries : list GeminiSessionEntry)
    (h : ThreadHandle.t) : ThreadHandle.t :=
  match last entries with
  | None => h
  | Some latest =>
      if truthy_str (entry_id latest) then
        match entry_id latest with
        | Some i => adopt i h
        | None => h
        end
      else
        match index latest with
        | Finite shown =>
            if negb (truthy_str (id (ThreadHandle.internal h)))
            then set_resumeToken shown h else h
        | Infinite _ => h
        end
  end.

(** The resolution order in the words of the specification: the first
    candidate that is a non-empty string. *)
Definition first_present (candidates : list (option string)) : option string :=
  match find truthy_str candidates with
  | Some c => c
  | None => None
  end.

(** The session data of the thread: its id, its resume token, its options. *)
Definition session (w : World) : option string * option string * StartOpts :=
  (id (state_of w), resumeToken (state_of w), opts (state_of w)).

Definition createThreadHandle (state : GeminiThreadState) : ThreadHandle.t :=
  ThreadHandle.make CODER_NAME (id state) state.

Definition startThread (defaultOpts opts : StartOpts) : ThreadHandle.t :=
  let options := merge_opts defaultOpts opts in
  createThreadHandle (mkState (resume options) (resume options) options None).

Definition with_resume (r : string) (o : StartOpts) : StartOpts :=
  mkStartOpts (model o) (workingDirectory o) (sandboxMode o) (skipGitRepoCheck o)
    (codexExecutablePath o) (allowedTools o) (mcpServers o) (continue o) (Some r)
    (forkSession o) (geminiBinaryPath o) (includeDirectories o) (yolo o)
    (permissionMode o) (permissionPromptToolName o).

Definition resumeThread (defaultOpts : StartOpts) (threadId : string)
    (opts : StartOpts) : ThreadHandle.t :=
  let options := with_resume threadId (merge_opts defaultOpts opts) in
  createThreadHandle (mkState (Some threadId) (Some threadId) options None).

Definition getThreadId (h : ThreadHandle.t) : option string :=
  id (ThreadHandle.internal h).

Definition type_is (ev : jsval) (tag : string) : bool :=
  match get ev "type" with
  | Some (JStr s) => String.eqb s tag
  | _ => false
  end.

Definition str (s : string) : jsval := Some (JStr s).
Definition null : jsval := Some JNull.

Definition normalizeGeminiEvent (event : jsval) : list CoderStreamEvent :=
  let provider := CODER_NAME in
  let ev := event ?? Some (JObj []) in
  if type_is ev "init" then
    [EvInit provider (get ev "session_id") (get ev "model") ev]
  else if type_is ev "message" then
    [EvMessage provider (get ev "role" ?? str "assistant") (get ev "content")
       (Some (truthy (get ev "delta"))) ev]
  else if type_is ev "tool_use" then
    [EvToolUse provider
       (get ev "tool_name" ?? get ev "name" ?? str "tool")
       (get ev "tool_id" ?? get ev "call_id" ?? get ev "id" ?? null)
       (get ev "parameters" ?? get ev "args" ?? get ev "input" ?? null) ev]
  else if type_is ev "tool_result" then
    [EvToolResult provider
       (get ev "tool_name" ?? get ev "name" ?? str "tool")
       (get ev "tool_id" ?? get ev "call_id" ?? get ev "id" ?? null)
       (get ev "output" ?? get ev "result" ?? get ev "response" ?? null)
       (get ev "exit_code" ?? get ev "status" ?? null)
       (get ev "error" ?? null) ev]
  else if type_is ev "error" then
    [EvError provider None (get ev "message" ?? str "gemini error") ev]
  else if type_is ev "result" then
    ((if truthy (get ev "stats") then [EvUsage provider (get ev "stats") ev] else [])
     ++ [EvDone provider ev])%list
  else
    [EvProgress provider
       (match get ev "type" with
        | Some (JStr s) => str s
        | _ => str "gemini.event"
        end) None ev].

Inductive Format : Type := json_format | stream_json.

Definition format_name (f : Format) : string :=
  match f with json_format => "json" | stream_json => "stream-json" end.

Definition buildGeminiArgs (opts : StartOpts) (prompt : string) (format : Format)
    (resumeTarget : option string) : list string :=
  let args := ["--output-format"; format_name format; "--prompt"; prompt] in
  let args :=
    if truthy_str (model opts)
    then (args ++ ["--model"; default "" (model opts)])%list else args in
  let args :=
    match includeDirectories opts with
    | Some (d :: ds) =>
        (args ++ ["--include-directories"; join "," (d :: ds)])%list
    | _ => args
    end in
  let args :=
    if default false (yolo opts) then (args ++ ["--yolo"])%list else args in
  if truthy_str resumeTarget
  then (args ++ ["--resume"; default "" resumeTarget])%list else args.

(** [assertIdle]: the error it throws, if any. *)
Definition assertIdle (state : GeminiThreadState) : option JsError :=
  match currentRun state with
  | Some _ => Some (new_Error "Gemini adapter only supports one in-flight run per thread.")
  | None => None
  end.

(** [spawnGeminiProcess]: spawns the child, allocates the [ActiveRun] and
    stores it in [state.currentRun].  Returns the reference to the run. *)
Definition spawnGeminiProcess (w : World) (prompt : string) (mode : Format)
    (ropts : RunOpts) : World * nat :=
  let state := state_of w in
  let startOpts := opts state in
  let resumeTarget := resolveResumeTarget state in
  let args := buildGeminiArgs startOpts prompt mode resumeTarget in
  let child :=
    mkChild (geminiPath (geminiBinaryPath startOpts)) args None false None true
      [] false in
  let active := mkActive child None (signal ropts) false None None None in
  let r := length (runs w) in
  (set_state (set_currentRun (Some r) state)
     (mkWorld (thread w) (runs w ++ [active])%list (clock w)), r).

(** The body of [abortChild] on the run found in [state.currentRun]. *)
Definition abort_active (now : Z) (reason : option string) (a : ActiveRun) :
    ActiveRun :=
  mkActive (end_stdin (child a)) (controller a) (linked a) true
    (Some (default "Interrupted" reason))
    (match softKillTimer a with
     | Some t => Some t
     | None => Some (mkTimeout (now + SOFT_KILL_DELAY_MS) true)
     end)
    (match hardKillTimer a with
     | Some t => Some t
     | None => Some (mkTimeout (now + HARD_KILL_DELAY_MS) true)
     end).

Definition abortChild (w : World) (reason : option string) : World :=
  match currentRun (state_of w) with
  | None => w
  | Some r =>
      match runs w !! r with
      | None => w
      | Some active =>
          if aborted active then w
          else update_run r (abort_active (clock w) reason) w
      end
  end.

(** [handle.interrupt(reason)] *)
Definition interrupt (w : World) (reason : option string) : World :=
  abortChild w (Some (default "Interrupted" reason)).

(** No run is in flight, or the current run is already aborted. *)
Definition no_live_run (w : World) : bool :=
  match currentRun (state_of w) with
  | None => true
  | Some r =>
      match runs w !! r with
      | Some active => aborted active
      | None => true
      end
  end.

(** The listener [linkSignal] puts on the caller's signal, for run [r]. *)
Definition external_abort (r : nat) (reason : option string) (w : World) : World :=
  match runs w !! r with
  | Some active =>
      if linked active then
        let w := update_run r (fun a =>
                   mkActive (child a) (controller a) false (aborted a)
                     (abortReason a) (softKillTimer a) (hardKillTimer a)) w in
        match controller active with
        | Some _ => w
        | None =>
            abortChild
              (update_run r (fun a =>
                 mkActive (child a) (Some (default "Interrupted" reason)) (linked a)
                   (aborted a) (abortReason a) (softKillTimer a) (hardKillTimer a)) w)
              reason
        end
      else w
  | None => w
  end.

Definition clearKillTimers (a : ActiveRun) : ActiveRun :=
  mkActive (child a) (controller a) (linked a) (aborted a) (abortReason a) None None.

(** The callback of a kill timer. *)
Definition kill_unless_killed (sig : Signal) (c : ChildProcess) : ChildProcess :=
  if killed c then c else kill sig c.

Definition is_due (now : Z) (t : option Timeout) : bool :=
  match t with
  | Some t => (pending t && (due t <=? now))%bool
  | None => false
  end.

Definition fired (t : option Timeout) : option Timeout :=
  option_map (fun t => mkTimeout (due t) false) t.

(** The timers of one run that are due at [now] fire, the soft one first. *)
Definition fire_timers (now : Z) (a : ActiveRun) : ActiveRun :=
  let a :=
    if is_due now (softKillTimer a) then
      mkActive (kill_unless_killed SIGTERM (child a)) (controller a) (linked a)
        (aborted a) (abortReason a) (fired (softKillTimer a)) (hardKillTimer a)
    else a in
  if is_due now (hardKillTimer a) then
    mkActive (kill_unless_killed SIGKILL (child a)) (controller a) (linked a)
      (aborted a) (abortReason a) (softKillTimer a) (fired (hardKillTimer a))
  else a.

(** [ms] milliseconds pass. *)
Definition elapse (ms : Z) (w : World) : World :=
  let now := clock w + Z.max ms 0 in
  mkWorld (thread w) (map (fire_timers now) (runs w)) now.

(** The part of [cleanup] that does not concern the stream listeners. *)
Definition cleanup_active (a : ActiveRun) : ActiveRun :=
  let a := clearKillTimers a in
  let c := destroyChildStreams (child a) in
  let c :=
    match killed c, exitCode c with
    | false, None => kill SIGTERM c
    | _, _ => c
    end in
  mkActive c (controller a) false (aborted a) (abortReason a)
    (softKillTimer a) (hardKillTimer a).

Definition cleanup (r : nat) (w : World) : World :=
  let w :=
    match currentRun (state_of w) with
    | Some r' =>
        if Nat.eqb r' r then set_state (set_currentRun None (state_of w)) w else w
    | None => w
    end in
  update_run r cleanup_active w.

Definition run_aborted (w : World) (r : nat) : bool :=
  match runs w !! r with Some a => aborted a | None => false end.

Definition run_abortReason (w : World) (r : nat) : option string :=
  match runs w !! r with Some a => abortReason a | None => None end.

Definition reason_object (reason : option string) : jsval :=
  Some (JObj (match reason with Some r => [("reason", JStr r)] | None => [] end)).

Definition cancelledEvent (reason : string) : CoderStreamEvent :=
  EvCancelled CODER_NAME (reason_object (Some reason)).

Definition interruptedErrorEvent (reason : option string) : CoderStreamEvent :=
  EvError CODER_NAME (str "interrupted")
    (str (default "Operation was interrupted" reason)) (reason_object reason).

Definition createAbortError (reason : option string) : JsError :=
  {| err_name := "AbortError"; err_code := Some "interrupted";
     err_message := default "Operation was interrupted" reason |}.

Definition parseGeminiJson (output : string) : json :=
  match JSON_parse output with
  | Some v => v
  | None => JObj [("response", JStr output)]
  end.

(** *** [run]: the non-streamed path

    While [waitForChild] is pending the thread can be interrupted and time
    passes; then the child exits with what it wrote, or fails to run. *)

Inductive ChildOutcome : Type :=
| Exited (stdout stderr : string) (code : option Z)
| Failed (error : JsError).

Inductive Meanwhile : Type :=
| MInterrupt (reason : option string)
| MExternalAbort (reason : option string)
| MElapse (ms : Z).

Definition meanwhile_step (r : nat) (w : World) (m : Meanwhile) : World :=
  match m with
  | MInterrupt reason => interrupt w reason
  | MExternalAbort reason => external_abort r reason w
  | MElapse ms => elapse ms w
  end.

(** [extractJsonPayload(text)] on a value that need not be a string: a
    truthy value without a [match] method makes the call throw. *)
Definition extractJsonPayload_any (text : jsval) : Settled jsval :=
  if negb (truthy text) then Resolved None
  else
    match text with
    | Some (JStr s) => Resolved (extractJsonPayload JSON_parse (Some s))
    | _ => Rejected (TypeError "text.match is not a function")
    end.

(** The statements of [runInternal] after [waitForChild] resolved. *)
Definition after_exit (r : nat) (ropts : RunOpts) (stdout stderr : string)
    (code : option Z) (listing : list GeminiSessionEntry) (w : World) :
    World * Settled RunResult.t :=
  if run_aborted w r then (w, Rejected (createAbortError (run_abortReason w r)))
  else if negb (bool_decide (code = Some 0)) then
    (w, Rejected (new_Error ("gemini exited with code " ++ show_code code
                             ++ ": " ++ stderr)))
  else
    let parsed := parseGeminiJson stdout in
    let h := captureGeminiSessionMetadata (thread w) (Some parsed) in
    let h :=
      if (negb (truthy_str (id (ThreadHandle.internal h)))
          || negb (truthy_str (resumeToken (ThreadHandle.internal h))))%bool
      then updateSessionMetadataFromList listing h else h in
    let w := mkWorld h (runs w) (clock w) in
    match parsed with
    | JNull => (w, Rejected (TypeError "Cannot read properties of null"))
    | _ =>
        let text :=
          get (Some parsed) "response" ?? get (Some parsed) "text" ?? str stdout in
        let structured :=
          if truthy (outputSchema ropts) then extractJsonPayload_any text
          else Resolved None in
        match structured with
        | Rejected e => (w, Rejected e)
        | Resolved structured =>
            (w, Resolved
                  (RunResult.make (id (state_of w)) text
                     (structured ?? get (Some parsed) "json")
                     (get (Some parsed) "stats") (Some parsed)))
        end
    end.

(** The start of [runInternal] on an idle thread, up to the moment
    [waitForChild] settles. *)
Definition during (w : World) (input : PromptInput) (ropts : RunOpts)
    (meanwhile : list Meanwhile) : World * nat :=
  let prompt := applyOutputSchemaPrompt input (outputSchema ropts) in
  let '(w, r) := spawnGeminiProcess w prompt json_format ropts in
  (fold_left (meanwhile_step r) meanwhile w, r).

Definition runInternal (w : World) (input : PromptInput) (ropts : RunOpts)
    (meanwhile : list Meanwhile) (outcome : ChildOutcome)
    (listing : list GeminiSessionEntry) : World * Settled RunResult.t :=
  match assertIdle (state_of w) with
  | Some e => (w, Rejected e)
  | None =>
      let '(w, r) := during w input ropts meanwhile in
      let '(w, result) :=
        match outcome with
        | Failed e => (w, Rejected e)
        | Exited stdout stderr code =>
            after_exit r ropts stdout stderr code listing
              (update_run r (fun a => set_child (exits code (child a)) a) w)
        end in
      (cleanup r w, result)
  end.

(** *** [runStreamed]: the streamed path

    The closure of [runStreamedInternal]: the queue, whether the consumer's
    [next()] is parked in [waiters], the [finished] flag and the listeners
    still attached; and the consumer's side of the generator. *)

Inductive Entry : Type :=
| Ev (e : CoderStreamEvent)
| DONE
| Err (e : JsError).

Inductive Outcome : Type :=
| Completed
| Threw (e : JsError)
| Returned.

(** Where the generator stands: not entered yet, suspended at [yield],
    parked in [await next()], or over. *)
Inductive Status : Type :=
| NotStarted
| Suspended
| Waiting
| Ended (o : Outcome).

Record Stream : Type := mkStream
  { world : World;
    active : nat;
    queue : list Entry;
    finished : bool;
    lineOn : bool;
    closeOn : bool;
    exitOn : bool;
    errorOn : bool;
    status : Status;
    delivered : list CoderStreamEvent }.

Definition set_world (w : World) (s : Stream) : Stream :=
  mkStream w (active s) (queue s) (finished s) (lineOn s) (closeOn s) (exitOn s)
    (errorOn s) (status s) (delivered s).

Definition set_finished (s : Stream) : Stream :=
  mkStream (world s) (active s) (queue s) true (lineOn s) (closeOn s) (exitOn s)
    (errorOn s) (status s) (delivered s).

(** The [finally] block of the generator. *)
Definition finally (o : Outcome) (s : Stream) : Stream :=
  let w := cleanup (active s) (world s) in
  let w :=
    if (negb (finished s) && negb (run_aborted w (active s)))%bool
    then abortChild w (Some "Stream closed") else w in
  mkStream w (active s) (queue s) (finished s) false false false false (Ended o)
    (delivered s).

(** The generator takes [entry] from [await next()]. *)
Definition resume_with (entry : Entry) (s : Stream) : Stream :=
  match entry with
  | DONE => finally Completed s
  | Err e => finally (Threw e) s
  | Ev e =>
      mkStream (world s) (active s) (queue s) (finished s) (lineOn s) (closeOn s)
        (exitOn s) (errorOn s) Suspended (delivered s ++ [e])%list
  end.

Definition push (entry : Entry) (s : Stream) : Stream :=
  match status s with
  | Waiting => resume_with entry s
  | _ =>
      mkStream (world s) (active s) (queue s ++ [entry])%list (finished s)
        (lineOn s) (closeOn s) (exitOn s) (errorOn s) (status s) (delivered s)
  end.

Definition push_all (entries : list Entry) (s : Stream) : Stream :=
  fold_left (fun s e => push e s) entries s.

(** The consumer asks for the next event. *)
Definition next (s : Stream) : Stream :=
  match status s with
  | NotStarted | Suspended =>
      match queue s with
      | entry :: rest =>
          resume_with entry
            (mkStream (world s) (active s) rest (finished s) (lineOn s)
               (closeOn s) (exitOn s) (errorOn s) (status s) (delivered s))
      | [] =>
          if finished s then resume_with DONE s
          else
            mkStream (world s) (active s) [] (finished s) (lineOn s) (closeOn s)
              (exitOn s) (errorOn s) Waiting (delivered s)
      end
  | Waiting | Ended _ => s
  end.

(** The consumer leaves the loop: [return()] on the generator.  A generator
    that was never entered ends without running its [finally] block; a
    [return()] issued while [next()] is still pending is not modelled. *)
Definition abandon (s : Stream) : Stream :=
  match status s with
  | Suspended => finally Returned s
  | NotStarted =>
      mkStream (world s) (active s) (queue s) (finished s) (lineOn s) (closeOn s)
        (exitOn s) (errorOn s) (Ended Returned) (delivered s)
  | Waiting | Ended _ => s
  end.

Definition handleLine (line : string) (s : Stream) : Stream :=
  if finished s then s
  else
    match JSON_parse line with
    | None => s
    | Some event =>
        let w := world s in
        let h := captureGeminiSessionMetadata (thread w) (Some event) in
        push_all (map Ev (normalizeGeminiEvent (Some event)))
          (set_world (mkWorld h (runs w) (clock w)) s)
    end.

Definition cancelled_tail (s : Stream) : list Entry :=
  let reason := default "Interrupted" (run_abortReason (world s) (active s)) in
  [Ev (cancelledEvent reason); Ev (interruptedErrorEvent (Some reason)); DONE].

Definition handleClose (s : Stream) : Stream :=
  if (finished s || negb (run_aborted (world s) (active s)))%bool then s
  else push_all (cancelled_tail s) (set_finished s).

Definition onExit (code : option Z) (listing : list GeminiSessionEntry)
    (s : Stream) : Stream :=
  if finished s then s
  else
    let s := set_finished s in
    if run_aborted (world s) (active s) then push_all (cancelled_tail s) s
    else if negb (bool_decide (code = Some 0)) then
      push_all [Err (new_Error ("gemini exited with code " ++ show_code code)); DONE] s
    else
      let w := world s in
      let st := state_of w in
      let h :=
        if (negb (truthy_str (id st)) || negb (truthy_str (resumeToken st)))%bool
        then updateSessionMetadataFromList listing (thread w) else thread w in
      push DONE (set_world (mkWorld h (runs w) (clock w)) s).

Definition onError (e : JsError) (s : Stream) : Stream :=
  if finished s then s
  else push_all [Err e; DONE] (set_finished s).

(** No native session id shows in the output of the run. *)
Definition outcome_without_session_id (outcome : ChildOutcome) : Prop :=
  match outcome with
  | Exited stdout _ _ => extractSessionId (Some (parseGeminiJson stdout)) = None
  | Failed _ => True
  end.

Definition line_without_session_id (line : string) : Prop :=
  match JSON_parse line with
  | Some event => extractSessionId (Some event) = None
  | None => True
  end.

(** What happens to a streamed run: output lines, the close of the output,
    the exit of the process (with what [gemini --list-sessions] would print
    then), an error event of the child ([gone] when the process is not
    there, as after a failed spawn), interrupts, the passing of time, and the
    consumer asking for the next event or leaving. *)
Inductive Event : Type :=
| Line (line : string)
| Close
| Exit (code : option Z) (listing : list GeminiSessionEntry)
| ChildError (e : JsError) (gone : bool)
| Interrupt (reason : option string)
| ExternalAbort (reason : option string)
| Elapse (ms : Z)
| Next
| Return.

Definition step (s : Stream) (ev : Event) : Stream :=
  match ev with
  | Line line => if lineOn s then handleLine line s else s
  | Close =>
      if closeOn s then
        handleClose
          (mkStream (world s) (active s) (queue s) (finished s) (lineOn s) false
             (exitOn s) (errorOn s) (status s) (delivered s))
      else s
  | Exit code listing =>
      let s :=
        set_world
          (update_run (active s) (fun a => set_child (exits code (child a)) a)
             (world s)) s in
      if exitOn s then
        onExit code listing
          (mkStream (world s) (active s) (queue s) (finished s) (lineOn s)
             (closeOn s) false (errorOn s) (status s) (delivered s))
      else s
  | ChildError e gone =>
      let s :=
        if gone then
          set_world
            (update_run (active s)
               (fun a => set_child (exits (exitCode (child a)) (child a)) a)
               (world s)) s
        else s in
      if errorOn s then
        onError e
          (mkStream (world s) (active s) (queue s) (finished s) (lineOn s)
             (closeOn s) (exitOn s) false (status s) (delivered s))
      else s
  | Interrupt reason => set_world (interrupt (world s) reason) s
  | ExternalAbort reason => set_world (external_abort (active s) reason (world s)) s
  | Elapse ms => set_world (elapse ms (world s)) s
  | Next => next s
  | Return => abandon s
  end.

Definition run_events (s : Stream) (evs : list Event) : Stream :=
  fold_left step evs s.

Definition event_without_session_id (ev : Event) : Prop :=
  match ev with
  | Line line => line_without_session_id line
  | _ => True
  end.

(** [runStreamedInternal]: throws when the thread is busy, otherwise spawns
    and returns the iterator. *)
Definition runStreamedInternal (w : World) (input : PromptInput) (ropts : RunOpts) :
    Settled Stream :=
  match assertIdle (state_of w) with
  | Some e => Rejected e
  | None =>
      let prompt := applyOutputSchemaPrompt input (outputSchema ropts) in
      let '(w, r) := spawnGeminiProcess w prompt stream_json ropts in
      Resolved (mkStream w r [] false true true true true NotStarted [])
  end.

End Builtins.

End Gemini.

(** ** The Codex adapter (packages/codex-adapter/src/index.ts) *)

Module Codex.

Definition CODER_NAME : Provider := codex.

(** [controller] is [abortController.signal]: [Some reason] once aborted. *)
Record ActiveRun : Type := mkActive
  { controller : option string;
    linked : bool;
    aborted : bool;
    abortReason : option string }.

Record CodexThreadOptions : Type := mkOptions
  { o_model : option string;
    o_sandboxMode : option string;
    o_workingDirectory : option string;
    o_skipGitRepoCheck : option bool }.

Record CodexThreadState : Type := mkState
  { id : option string;
    options : CodexThreadOptions;
    codexExecutablePath : option string;
    currentRun : option nat }.

Module ThreadHandle.
Record t : Type := make
  { provider : Provider;
    id : option string;
    internal : CodexThreadState }.
End ThreadHandle.

(** What the adapter asks of the SDK. *)
Inductive SdkCall : Type :=
| StartThread (options : CodexThreadOptions)
| ResumeThread (id : string) (options : CodexThreadOptions)
| RunStreamed (input : string) (outputSchema : jsval).

Record World : Type := mkWorld
  { thread : ThreadHandle.t;
    runs : list ActiveRun;
    calls : list SdkCall }.

Definition state_of (w : World) : CodexThreadState :=
  ThreadHandle.internal (thread w).

Definition set_state (s : CodexThreadState) (w : World) : World :=
  mkWorld (ThreadHandle.make (ThreadHandle.provider (thread w))
             (ThreadHandle.id (thread w)) s)
    (runs w) (calls w).

Definition set_currentRun (r : option nat) (s : CodexThreadState) :
    CodexThreadState :=
  mkState (id s) (options s) (codexExecutablePath s) r.

Definition update_run (r : nat) (f : ActiveRun -> ActiveRun) (w : World) : World :=
  mkWorld (thread w) (alter f r (runs w)) (calls w).

Definition log (c : SdkCall) (w : World) : World :=
  mkWorld (thread w) (runs w) (calls w ++ [c])%list.

Definition extractThreadOptions (opts : StartOpts) : CodexThreadOptions :=
  mkOptions (model opts) (sandboxMode opts) (workingDirectory opts)
    (skipGitRepoCheck opts).

Definition createThreadHandle (state : CodexThreadState) : ThreadHandle.t :=
  ThreadHandle.make CODER_NAME (id state) state.

Definition startThread (defaultOpts opts : StartOpts) : ThreadHandle.t :=
  let merged := merge_opts defaultOpts opts in
  createThreadHandle
    (mkState None (extractThreadOptions merged) (Core.codexExecutablePath merged)
       None).

Definition resumeThread (defaultOpts : StartOpts) (threadId : string)
    (opts : StartOpts) : ThreadHandle.t :=
  let merged := merge_opts defaultOpts opts in
  createThreadHandle
    (mkState (Some threadId) (extractThreadOptions merged)
       (Core.codexExecutablePath merged) None).

Definition getThreadId (h : ThreadHandle.t) : option string :=
  id (ThreadHandle.internal h).

Definition assertIdle (state : CodexThreadState) : option JsError :=
  match currentRun state with
  | Some _ => Some (new_Error "Codex adapter only supports one in-flight run per thread.")
  | None => None
  end.

Definition abortCurrentRun (w : World) (reason : option string) : World :=
  match currentRun (state_of w) with
  | None => w
  | Some r =>
      match runs w !! r with
      | None => w
      | Some active =>
          match controller active with
          | Some _ => w
          | None =>
              let abortReason := default "Interrupted" reason in
              update_run r (fun a =>
                mkActive (Some abortReason) (linked a) true (Some abortReason)) w
          end
      end
  end.

(** [handle.interrupt(reason)] *)
Definition interrupt (w : World) (reason : option string) : World :=
  abortCurrentRun w (Some (default "Interrupted" reason)).

(** No run is in flight, or the signal of the current run is already
    aborted (the adapter sets [aborted] in the same step as the signal). *)
Definition no_live_run (w : World) : bool :=
  match currentRun (state_of w) with
  | None => true
  | Some r =>
      match runs w !! r with
      | Some active => bool_decide (is_Some (controller active))
      | None => true
      end
  end.

(** The listener [linkSignal] puts on the caller's signal, for run [r]. *)
Definition external_abort (r : nat) (reason : option string) (w : World) : World :=
  match runs w !! r with
  | Some active =>
      if linked active then
        abortCurrentRun
          (update_run r (fun a =>
             mkActive (controller a) false (aborted a) (abortReason a)) w)
          (Some (default "Interrupted" reason))
      else w
  | None => w
  end.

Definition stopExternal (r : nat) (w : World) : World :=
  update_run r (fun a => mkActive (controller a) false (aborted a) (abortReason a)) w.

Definition upper (c : ascii) : ascii :=
  let n := nat_of_ascii c in
  if (Nat.leb 97 n && Nat.leb n 122)%bool then ascii_of_nat (n - 32) else c.

(** [role.toUpperCase()]; a role is one of user, assistant, system. *)
Fixpoint toUpperCase (s : string) : string :=
  match s with
  | EmptyString => EmptyString
  | String c r => String (upper c) (toUpperCase r)
  end.

Definition normalizeInput (input : PromptInput) : string :=
  match input with
  | PromptText s => s
  | PromptMessages ms =>
      join newline (map (fun m => toUpperCase (fst m) ++ ": " ++ snd m) ms)
  end.

Definition str (s : string) : jsval := Some (JStr s).
Definition null : jsval := Some JNull.

Definition is_str (v : jsval) (tag : string) : bool :=
  match v with
  | Some (JStr s) => String.eqb s tag
  | _ => false
  end.

(** [`${v ?? fallback}`] *)
Definition show_or (v : jsval) (fallback : string) : string :=
  match v with
  | None | Some JNull => fallback
  | Some x => toString x
  end.

Definition normalizeCodexEvent (event : jsval) : list CoderStreamEvent :=
  let provider := CODER_NAME in
  let ev := event ?? Some (JObj []) in
  let type := get ev "type" in
  if is_str type "thread.started" then
    [EvInit provider (get ev "thread_id") None ev]
  else if is_str type "turn.started" then
    [EvProgress provider (str "turn.started") None ev]
  else if match type with
          | Some (JStr t) => startsWith "permission." t
          | _ => false
          end then
    let t := default "" (as_string type) in
    let decision :=
      if endsWith "granted" t then str "granted"
      else if endsWith "denied" t then str "denied" else None in
    [EvPermission provider (get ev "permission" ?? get ev "request") decision ev]
  else if is_str type "item.delta" then
    let item := get ev "item" ?? Some (JObj []) in
    if is_str (get item "type") "agent_message" then
      [EvMessage provider (str "assistant") (get ev "delta" ?? get item "text")
         (Some true) ev]
    else
      [EvProgress provider
         (str ("item.delta:" ++ show_or (get item "type") "event"))
         (match get ev "delta" with Some (JStr d) => str d | _ => None end) ev]
  else if is_str type "item.completed" then
    let item := get ev "item" ?? Some (JObj []) in
    if is_str (get item "type") "agent_message" then
      [EvMessage provider (str "assistant") (get item "text") None ev]
    else
      [EvProgress provider
         (str ("item.completed:" ++ show_or (get item "type") "event")) None ev]
  else if is_str type "tool_use" then
    [EvToolUse provider (get (get ev "item") "name" ?? str "tool")
       (get (get ev "item") "id") (get (get ev "item") "input") ev]
  else if is_str type "tool_result" then
    [EvToolResult provider (get (get ev "item") "name" ?? str "tool")
       (get (get ev "item") "id") (get (get ev "item") "output")
       (get (get ev "item") "exit_code" ?? null) None ev]
  else if is_str type "turn.completed" then
    [EvUsage provider (get ev "usage") ev; EvDone provider ev]
  else if is_str type "turn.failed" then
    [EvError provider (str "turn.failed")
       (get (get ev "error") "message" ?? str "Codex turn failed") ev]
  else
    [EvProgress provider (type ?? str "codex.event") None ev].

(** A thrown value: an [Error], or something that is no [Error]. *)
Inductive Thrown : Type :=
| ThrownError (e : JsError)
| ThrownOther.

Definition isAbortError (t : Thrown) : bool :=
  match t with
  | ThrownError e =>
      (String.eqb (err_name e) "AbortError"
       || match err_code e with
          | Some c => String.eqb c "interrupted"
          | None => false
          end)%bool
  | ThrownOther => false
  end.

Definition createAbortError (reason : option string) : JsError :=
  {| err_name := "AbortError"; err_code := Some "interrupted";
     err_message := default "Operation was interrupted" reason |}.

Definition reason_object (reason : option string) : jsval :=
  Some (JObj (match reason with Some r => [("reason", JStr r)] | None => [] end)).

Definition createInterruptedErrorEvent (reason : option string) : CoderStreamEvent :=
  EvError CODER_NAME (str "interrupted")
    (str (default "Operation was interrupted" reason)) (reason_object reason).

Definition createCancelledEvent (reason : string) : CoderStreamEvent :=
  EvCancelled CODER_NAME (reason_object (Some reason)).

(** *** The SDK as the adapter meets it

    What [createThread] and [thread.runStreamed] do (return, or throw), the
    [thread.id] the SDK reports, the native events of [run.events], and how
    that sequence ends: [None] when it ends, [Some t] when the iteration
    throws [t]. *)
Record Backend : Type := mkBackend
  { createThread_throws : option Thrown;
    runStreamed_throws : option Thrown;
    thread_id : option string;
    events : list jsval;
    ending : option Thrown }.

Inductive Result (A : Type) : Type :=
| Ok (value : A)
| Throw (t : Thrown).
Arguments Ok {A} value.
Arguments Throw {A} t.

(** [createThread]: resumes the thread when the state has an id. *)
Definition createThread (w : World) : World :=
  let state := state_of w in
  match id state with
  | Some i =>
      if nonempty i then log (ResumeThread i (options state)) w
      else log (StartThread (options state)) w
  | None => log (StartThread (options state)) w
  end.

(** [if (threadId) { state.id = threadId; handle.id = threadId }] *)
Definition adopt_thread_id (threadId : option string) (w : World) : World :=
  if truthy_str threadId then
    let s := state_of w in
    mkWorld (ThreadHandle.make (ThreadHandle.provider (thread w)) threadId
               (mkState threadId (options s) (codexExecutablePath s) (currentRun s)))
      (runs w) (calls w)
  else w.

Definition run_controller (w : World) (r : nat) : option string :=
  match runs w !! r with Some a => controller a | None => None end.

Definition run_abortReason (w : World) (r : nat) : option string :=
  match runs w !! r with Some a => abortReason a | None => None end.

Definition thrown_message (t : Thrown) : option string :=
  match t with ThrownError e => Some (err_message e) | ThrownOther => None end.

Inductive Outcome : Type :=
| Completed
| Threw (t : Thrown)
| Returned.

(** Where the generator stands: not entered, suspended at a [yield] of the
    [try] block, suspended at a [yield] of the [catch] block, or over. *)
Inductive Phase : Type :=
| NotStarted
| InTry
| InCatch
| Ended (o : Outcome).

(** The generator of [runStreamedInternal]: [buffer] holds the events of the
    current native event that are still to be yielded. *)
Record Stream : Type := mkStream
  { world : World;
    active : nat;
    input : string;
    ropts : RunOpts;
    backend : Backend;
    buffer : list CoderStreamEvent;
    phase : Phase;
    delivered : list CoderStreamEvent }.

Definition set_world (w : World) (s : Stream) : Stream :=
  mkStream w (active s) (input s) (ropts s) (backend s) (buffer s) (phase s)
    (delivered s).

(** The [finally] block. *)
Definition finally (completed threw : bool) (o : Outcome) (s : Stream) : Stream :=
  let w := world s in
  let r := active s in
  let w :=
    if (negb completed && negb (bool_decide (is_Some (run_controller w r)))
        && negb threw)%bool
    then abortCurrentRun w (Some "Stream closed") else w in
  let w := stopExternal r w in
  let w :=
    match currentRun (state_of w) with
    | Some r' => if Nat.eqb r' r then set_state (set_currentRun None (state_of w)) w else w
    | None => w
    end in
  mkStream w r (input s) (ropts s) (backend s) [] (Ended o) (delivered s).

Definition yield (e : CoderStreamEvent) (rest : list CoderStreamEvent)
    (ph : Phase) (s : Stream) : Stream :=
  mkStream (world s) (active s) (input s) (ropts s) (backend s) rest ph
    (delivered s ++ [e])%list.

(** The [catch] block, up to its first [yield]. *)
Definition catch (t : Thrown) (s : Stream) : Stream :=
  if isAbortError t then
    let reason :=
      default "Interrupted"
        (over (run_abortReason (world s) (active s))
           (over (run_controller (world s) (active s)) (thrown_message t))) in
    yield (createCancelledEvent reason) [createInterruptedErrorEvent (Some reason)]
      InCatch s
  else finally false true (Threw t) s.

(** The [for await] loop from the next native event on, up to the next
    [yield]. *)
Fixpoint pump (evs : list jsval) (s : Stream) : Stream :=
  let b := backend s in
  match evs with
  | [] =>
      let s :=
        mkStream (world s) (active s) (input s) (ropts s)
          (mkBackend (createThread_throws b) (runStreamed_throws b) (thread_id b) []
             (ending b))
          (buffer s) (phase s) (delivered s) in
      match ending b with
      | None => finally true false Completed s
      | Some t => catch t s
      end
  | ev :: rest =>
      match normalizeCodexEvent ev with
      | [] => pump rest s
      | e :: more =>
          yield e more InTry
            (mkStream (world s) (active s) (input s) (ropts s)
               (mkBackend (createThread_throws b) (runStreamed_throws b)
                  (thread_id b) rest (ending b))
               (buffer s) (phase s) (delivered s))
      end
  end.

(** The consumer asks for the next event. *)
Definition next (s : Stream) : Stream :=
  match phase s with
  | NotStarted =>
      match createThread_throws (backend s) with
      | Some t => catch t s
      | None =>
          let w := createThread (world s) in
          let w := log (RunStreamed (input s) (outputSchema (ropts s))) w in
          match runStreamed_throws (backend s) with
          | Some t => catch t (set_world w s)
          | None =>
              let w := adopt_thread_id (thread_id (backend s)) w in
              pump (events (backend s)) (set_world w s)
          end
      end
  | InTry =>
      match buffer s with
      | e :: more => yield e more InTry s
      | [] => pump (events (backend s)) s
      end
  | InCatch =>
      match buffer s with
      | e :: more => yield e more InCatch s
      | [] => finally false true Completed s
      end
  | Ended _ => s
  end.

(** The consumer leaves the loop: [return()] on the generator. *)
Definition abandon (s : Stream) : Stream :=
  match phase s with
  | NotStarted =>
      mkStream (world s) (active s) (input s) (ropts s) (backend s) (buffer s)
        (Ended Returned) (delivered s)
  | InTry => finally false false Returned s
  | InCatch => finally false true Returned s
  | Ended _ => s
  end.

Inductive Event : Type :=
| Interrupt (reason : option string)
| ExternalAbort (reason : option string)
| Next
| Return.

Definition step (s : Stream) (ev : Event) : Stream :=
  match ev with
  | Interrupt reason => set_world (interrupt (world s) reason) s
  | ExternalAbort reason => set_world (external_abort (active s) reason (world s)) s
  | Next => next s
  | Return => abandon s
  end.

Definition run_events (s : Stream) (evs : list Event) : Stream :=
  fold_left step evs s.

(** Allocates the [ActiveRun] and stores it in [state.currentRun]. *)
Definition begin_run (w : World) (ropts : RunOpts) : World * nat :=
  let r := length (runs w) in
  (set_state (set_currentRun (Some r) (state_of w))
     (mkWorld (thread w) (runs w ++ [mkActive None (signal ropts) false None])%list
        (calls w)), r).

(** [runStreamedInternal]: throws when the thread is busy, otherwise
    returns the iterator; the SDK is not called before the first [next()]. *)
Definition runStreamedInternal (w : World) (input : PromptInput) (ropts : RunOpts)
    (sdk : Backend) : Result Stream :=
  match assertIdle (state_of w) with
  | Some e => Throw (ThrownError e)
  | None =>
      let '(w, r) := begin_run w ropts in
      Ok (mkStream w r (normalizeInput input) ropts sdk [] NotStarted [])
  end.

(** *** [run]: the non-streamed path *)

Section Builtins.

Variable JSON_parse : string -> jsval.

Definition is_object (v : jsval) : bool :=
  match v with
  | Some (JObj _) | Some (JArr _) => true
  | _ => false
  end.

Definition firstStructured (candidates : list jsval) : jsval :=
  match find is_object candidates with
  | Some c => c
  | None => None
  end.

Definition extractStructuredFromItem (item : jsval) : jsval :=
  if negb (truthy item) then None
  else
    firstStructured
      [get item "output_json"; get item "json"; get item "output";
       get item "response_json"; get item "structured"; get item "data"].

Definition extractStructuredFromTurn (event : jsval) : jsval :=
  if negb (truthy event) then None
  else
    firstStructured
      [get event "output_json"; get event "json"; get event "result";
       get event "output"; get event "response_json"].

Record CodexRunSummary : Type := mkSummary
  { items : list jsval;
    finalResponse : string;
    structured : jsval;
    usage : jsval }.

(** One turn of the loop of [collectRunSummary]. *)
Definition collect_event (acc : CodexRunSummary) (event : jsval) :
    Result CodexRunSummary :=
  if nullish event then
    Throw (ThrownError (TypeError "Cannot read properties of undefined"))
  else
    let type := get event "type" in
    if is_str type "item.completed" then
      let item := get event "item" in
      Ok (mkSummary (items acc ++ [item])%list
            (match is_str (get item "type") "agent_message", get item "text" with
             | true, Some (JStr t) => t
             | _, _ => finalResponse acc
             end)
            (match structured acc with
             | None => extractStructuredFromItem item
             | Some v => Some v
             end)
            (usage acc))
    else if is_str type "turn.completed" then
      Ok (mkSummary (items acc) (finalResponse acc)
            (match structured acc with
             | None => extractStructuredFromTurn event
             | Some v => Some v
             end)
            (get event "usage"))
    else if is_str type "turn.failed" then
      Throw (ThrownError
               (new_Error (show_or (get (get event "error") "message")
                             "Codex turn failed")))
    else Ok acc.

Fixpoint collect_events (acc : CodexRunSummary) (evs : list jsval) :
    Result CodexRunSummary :=
  match evs with
  | [] => Ok acc
  | ev :: rest =>
      match collect_event acc ev with
      | Ok acc => collect_events acc rest
      | Throw t => Throw t
      end
  end.

(** [collectRunSummary], after [thread.runStreamed] returned. *)
Definition collectRunSummary (sdk : Backend) (outputSchema : jsval) :
    Result CodexRunSummary :=
  match collect_events (mkSummary [] "" None None) (events sdk) with
  | Throw t => Throw t
  | Ok acc =>
      match ending sdk with
      | Some t => Throw t
      | None =>
          Ok (if (truthy outputSchema && negb (bool_decide (is_Some (structured acc))))%bool
              then mkSummary (items acc) (finalResponse acc)
                     (extractJsonPayload JSON_parse (Some (finalResponse acc)))
                     (usage acc)
              else acc)
      end
  end.

Definition summary_object (summary : CodexRunSummary) : jsval :=
  Some (JObj
    ([("items", JArr (map (default JNull) (items summary)));
      ("finalResponse", JStr (finalResponse summary))]
     ++ match structured summary with Some v => [("structured", v)] | None => [] end
     ++ match usage summary with Some v => [("usage", v)] | None => [] end)%list).

Definition mapRunResult (summary : CodexRunSummary) (threadId : option string) :
    RunResult.t :=
  let finalResponse := finalResponse summary in
  let structured :=
    match structured summary with
    | None => extractJsonPayload JSON_parse (Some finalResponse)
    | Some v => Some v
    end in
  RunResult.make threadId
    (if nonempty finalResponse then str finalResponse else None)
    structured (usage summary) (summary_object summary).

(** The [try] block of [runInternal]. *)
Definition try_run (input : string) (ropts : RunOpts) (sdk : Backend) (w : World) :
    World * Result RunResult.t :=
  match createThread_throws sdk with
  | Some t => (w, Throw t)
  | None =>
      let w := createThread w in
      let w := log (RunStreamed input (outputSchema ropts)) w in
      match runStreamed_throws sdk with
      | Some t => (w, Throw t)
      | None =>
          match collectRunSummary sdk (outputSchema ropts) with
          | Throw t => (w, Throw t)
          | Ok summary =>
              let w := adopt_thread_id (thread_id sdk) w in
              (w, Ok (mapRunResult summary (thread_id sdk)))
          end
      end
  end.

(** [runInternal]; [interrupts] are the calls of [handle.interrupt] that
    arrive while the SDK works. *)
Definition runInternal (w : World) (input : PromptInput) (ropts : RunOpts)
    (sdk : Backend) (interrupts : list (option string)) :
    World * Result RunResult.t :=
  match assertIdle (state_of w) with
  | Some e => (w, Throw (ThrownError e))
  | None =>
      let '(w, r) := begin_run w ropts in
      let w := fold_left interrupt interrupts w in
      let '(w, result) := try_run (normalizeInput input) ropts sdk w in
      let result :=
        match result with
        | Throw t =>
            if isAbortError t then
              Throw (ThrownError
                       (createAbortError
                          (over (run_abortReason w r)
                             (over (run_controller w r) (thrown_message t)))))
            else Throw t
        | Ok v => Ok v
        end in
      let w := stopExternal r w in
      let w :=
        match currentRun (state_of w) with
        | Some r' =>
            if Nat.eqb r' r then set_state (set_currentRun None (state_of w)) w else w
        | None => w
        end in
      (w, result)
  end.

End Builtins.

End Codex.

(** ** The Claude adapter (the [ClaudeAdapter] class) *)

Module Claude.

Definition STRUCTURED_OUTPUT_SUFFIX : string :=
  "You must respond with valid JSON that satisfies the provided schema. Do not include prose before or after the JSON.".

Definition str (s : string) : jsval := Some (JStr s).

Definition toPrompt (input : PromptInput) : string :=
  match input with
  | PromptText s => s
  | PromptMessages ms =>
      join newline (map (fun m => fst m ++ ": " ++ snd m) ms)
  end.

(** The thread state of this adapter: it has no slot for a current run. *)
Record Internal : Type := mkInternal
  { sessionId : option string;
    opts : StartOpts;
    resume_ : bool }.

Module ThreadHandle.
Record t : Type := make
  { provider : Provider;
    id : option string;
    internal : Internal }.
End ThreadHandle.

(** [startThread]; [uuid] is what [randomUUID()] returns. *)
Definition startThread (defaultOpts opts : StartOpts) (uuid : string) :
    ThreadHandle.t :=
  let options := merge_opts defaultOpts opts in
  let id := default uuid (resume options) in
  ThreadHandle.make claude (Some id) (mkInternal (Some id) options false).

Definition resumeThread (defaultOpts : StartOpts) (threadId : string)
    (opts : StartOpts) : ThreadHandle.t :=
  let options := merge_opts defaultOpts opts in
  ThreadHandle.make claude (Some threadId) (mkInternal (Some threadId) options true).

Definition getThreadId (h : ThreadHandle.t) : option string := ThreadHandle.id h.

(** The options handed to the SDK. *)
Record Options : Type := mkOptions
  { cwd : option string;
    o_allowedTools : option (list string);
    o_mcpServers : jsval;
    o_continue : bool;
    o_resume : option string;
    o_forkSession : option bool;
    includePartialMessages : bool;
    o_model : option string;
    o_permissionMode : option string;
    o_permissionPromptToolName : option string }.

Definition buildOptions (h : ThreadHandle.t) (runOpts : RunOpts) : Options :=
  let internalState := ThreadHandle.internal h in
  let startOpts := opts internalState in
  let shouldResume := (resume_ internalState || truthy_str (resume startOpts))%bool in
  let resumeId :=
    if shouldResume then over (sessionId internalState) (ThreadHandle.id h)
    else None in
  mkOptions (workingDirectory startOpts) (allowedTools startOpts)
    (mcpServers startOpts) (default false (continue startOpts)) resumeId
    (forkSession startOpts) (default false (streamPartialMessages runOpts))
    (model startOpts)
    (over (permissionMode startOpts)
       (if default false (yolo startOpts) then Some "bypassPermissions" else None))
    (permissionPromptToolName startOpts).

(** The call [query({ prompt, options })] of the SDK. *)
Record Query : Type := mkQuery { prompt : PromptInput; query_options : Options }.

(** What the SDK's generator does: its messages, and how it ends ([None]
    when it completes, [Some e] when it throws [e]). *)
Record Backend : Type := mkBackend
  { messages : list jsval;
    ending : option JsError }.

Definition tryExtract (candidate : jsval) : string :=
  match candidate with
  | Some (JStr s) => s
  | Some (JArr items) =>
      trim
        (join newline
           (filter (fun s => nonempty s)
              (map (fun item =>
                      match get (Some item) "text" with
                      | Some (JStr t) => t
                      | _ => EmptyString
                      end) items)))
  | Some (JObj fields) =>
      match assoc "text" fields with
      | Some (JStr t) => t
      | _ => EmptyString
      end
  | _ => EmptyString
  end.

Definition extractClaudeAssistantText (message : jsval) : string :=
  if negb (truthy message) then EmptyString
  else
    let direct := tryExtract (get message "text" ?? get message "content") in
    if nonempty direct then direct
    else
      let nested :=
        tryExtract (get (get message "message") "text"
                    ?? get (get message "message") "content") in
      if nonempty nested then nested
      else tryExtract (get message "delta" ?? get message "partial").

Definition claudeResultIndicatesError (result : jsval) : bool :=
  (truthy (get result "is_error")
   || startsWith "error"
        (match get result "subtype" with
         | None | Some JNull => EmptyString
         | Some v => toString v
         end))%bool.

Definition buildClaudeResultErrorMessage (result : jsval) : string :=
  let summary :=
    get result "result"
    ?? (match get result "errors" with
        | Some (JArr errors) => str (join_array ", " errors)
        | _ => None
        end)
    ?? str "Claude run failed" in
  "Claude run failed: "
  ++ match summary with Some v => toString v | None => "undefined" end.

(** [(message?.type ?? '').toString().toLowerCase()] *)
Definition typeRaw_of (message : jsval) : string :=
  toLowerCase
    (match get message "type" with
     | None | Some JNull => EmptyString
     | Some v => toString v
     end).

Definition normalizeClaudeStreamMessage (message : jsval) (threadId : option string) :
    list CoderStreamEvent :=
  let provider := claude in
  let typeRaw := typeRaw_of message in
  if (includes "system" typeRaw || includes "session" typeRaw)%bool then
    [EvInit provider (get message "session_id" ?? option_map JStr threadId) None
       message]
  else if includes "partial" typeRaw then
    [EvMessage provider (str "assistant") (get message "text" ?? get message "content")
       (Some true) message]
  else if includes "assistant" typeRaw then
    [EvMessage provider (str "assistant") (str (extractClaudeAssistantText message))
       None message]
  else if includes "tool_use" typeRaw then
    [EvToolUse provider (get message "tool_name" ?? get message "tool")
       (get message "id") (get message "input") message]
  else if includes "tool-result" typeRaw then
    [EvToolResult provider (get message "tool_name" ?? get message "tool")
       (get message "tool_use_id" ?? get message "id") (get message "output")
       None None message]
  else if includes "permission" typeRaw then
    [EvPermission provider None None message]
  else if includes "result" typeRaw then
    if claudeResultIndicatesError message then
      [EvError provider None (str (buildClaudeResultErrorMessage message)) message]
    else
      ((if truthy (get message "usage")
        then [EvUsage provider (get message "usage") message] else [])
       ++ [EvDone provider message])%list
  else
    [EvProgress provider
       (str (if nonempty typeRaw then typeRaw else "claude.event")) None message].

Definition applyOutputSchemaPrompt (JSON_stringify : json -> string)
    (input : PromptInput) (schema : jsval) : PromptInput :=
  match schema with
  | None => input
  | Some schema =>
      let schemaSnippet := JSON_stringify schema in
      let systemPrompt :=
        STRUCTURED_OUTPUT_SUFFIX ++ newline ++ "Schema:" ++ newline ++ schemaSnippet in
      match input with
      | PromptText s => PromptText (s ++ newline ++ newline ++ systemPrompt)
      | PromptMessages ms => PromptMessages (("system", systemPrompt) :: ms)
      end
  end.

Inductive Outcome : Type :=
| Completed
| Threw (e : JsError).

(** The inner loop of [runStreamed] over the events of one message: [None]
    when it returned after an [error] event, else the new [sawDone]. *)
Fixpoint emit (events : list CoderStreamEvent) (sawDone : bool) :
    list CoderStreamEvent * option bool :=
  match events with
  | [] => ([], Some sawDone)
  | e :: rest =>
      if is_type error e then ([e], None)
      else
        let '(out, r) := emit rest (sawDone || is_type done e)%bool in
        (e :: out, r)
  end.

Definition synthesized_done : CoderStreamEvent :=
  EvDone claude (Some (JObj [("reason", JStr "completed")])).

(** The outer loop of [runStreamed] and what follows it. *)
Fixpoint consume (threadId : option string) (msgs : list jsval)
    (ending : option JsError) (sawDone : bool) : list CoderStreamEvent * Outcome :=
  match msgs with
  | [] =>
      match ending with
      | Some e => ([], Threw e)
      | None => (if sawDone then [] else [synthesized_done], Completed)
      end
  | m :: rest =>
      match emit (normalizeClaudeStreamMessage m threadId) sawDone with
      | (out, None) => (out, Completed)
      | (out, Some sawDone) =>
          let '(more, o) := consume threadId rest ending sawDone in
          ((out ++ more)%list, o)
      end
  end.

Section Builtins.

Variable JSON_parse : string -> jsval.
Variable JSON_stringify : json -> string.

(** The query that [run] and [runStreamed] start with.  Nothing is looked
    up before the SDK is called. *)
Definition start_query (h : ThreadHandle.t) (input : PromptInput) (runOpts : RunOpts) :
    Query :=
  mkQuery
    (applyOutputSchemaPrompt JSON_stringify (PromptText (toPrompt input))
       (outputSchema runOpts))
    (buildOptions h runOpts).

(** [runStreamed]: the query, the events a consumer that reads to the end
    receives, and how the iteration ends. *)
Definition runStreamed (h : ThreadHandle.t) (input : PromptInput) (runOpts : RunOpts)
    (sdk : Backend) : Query * (list CoderStreamEvent * Outcome) :=
  (start_query h input runOpts,
   consume (ThreadHandle.id h) (messages sdk) (ending sdk) false).

(** [message?.type?.toLowerCase?.()] *)
Definition lowered_type (message : jsval) : option string :=
  match get message "type" with
  | Some (JStr t) => Some (toLowerCase t)
  | _ => None
  end.

(** The loop of [run]: the last result message and the last assistant text. *)
Fixpoint scan (msgs : list jsval) (lastAssistant : string) (finalResult : jsval) :
    string * jsval :=
  match msgs with
  | [] => (lastAssistant, finalResult)
  | m :: rest =>
      match lowered_type m with
      | None => scan rest lastAssistant finalResult
      | Some type =>
          if negb (nonempty type) then scan rest lastAssistant finalResult
          else if includes "result" type then scan rest lastAssistant m
          else if includes "assistant" type
          then scan rest (extractClaudeAssistantText m) finalResult
          else scan rest lastAssistant finalResult
      end
  end.

Definition run (h : ThreadHandle.t) (input : PromptInput) (runOpts : RunOpts)
    (sdk : Backend) : Query * Settled RunResult.t :=
  let '(lastAssistant, finalResult) := scan (messages sdk) EmptyString None in
  (start_query h input runOpts,
   if (truthy finalResult && claudeResultIndicatesError finalResult)%bool then
     Rejected (new_Error (buildClaudeResultErrorMessage finalResult))
   else
     match ending sdk with
     | Some e => Rejected e
     | None =>
         Resolved
           (RunResult.make (ThreadHandle.id h) (str lastAssistant)
              (if truthy (outputSchema runOpts)
               then extractJsonPayload JSON_parse (Some lastAssistant) else None)
              None finalResult)
     end).

End Builtins.

End Claude.

(** ** A JSON reader to run the definitions on examples

    The theorems below hold for every [JSON_parse].  To evaluate the
    adapters on concrete texts this reader is put in its place: it reads
    JSON texts whose numbers are integers in plain notation and whose strings
    have no escape sequences, and rejects every other text. *)

Module Reader.

Definition dquote : ascii := ascii_of_nat 34.
Definition backslash : ascii := ascii_of_nat 92.

Definition json_ws (c : ascii) : bool :=
  let n := nat_of_ascii c in
  (Nat.eqb n 32 || Nat.eqb n 9 || Nat.eqb n 10 || Nat.eqb n 13)%bool.

Fixpoint skip_ws (s : string) : string :=
  match s with
  | String c r => if json_ws c then skip_ws r else s
  | EmptyString => EmptyString
  end.

Definition is_digit (c : ascii) : bool :=
  let n := nat_of_ascii c in (Nat.leb 48 n && Nat.leb n 57)%bool.

(** The characters of a string literal up to the closing quote. *)
Fixpoint chars (s : string) : option (string * string) :=
  match s with
  | EmptyString => None
  | String c r =>
      if Ascii.eqb c dquote then Some (EmptyString, r)
      else if (Ascii.eqb c backslash || Nat.ltb (nat_of_ascii c) 32)%bool then None
      else
        match chars r with
        | Some (body, rest) => Some (String c body, rest)
        | None => None
        end
  end.

Fixpoint digits (s : string) : string * string :=
  match s with
  | String c r =>
      if is_digit c then let '(d, rest) := digits r in (String c d, rest)
      else (EmptyString, s)
  | EmptyString => (EmptyString, EmptyString)
  end.

(** An integer literal: no leading zero, no fraction, no exponent. *)
Definition integer (s : string) : option (json * string) :=
  let '(negative, body) :=
    match s with
    | String "-" r => (true, r)
    | _ => (false, s)
    end in
  match digits body with
  | (EmptyString, _) => None
  | (String "0" (String _ _), _) => None
  | (d, rest) =>
      match rest with
      | String "." _ | String "e" _ | String "E" _ => None
      | _ =>
          Some (JNum (Finite (if (negative && negb (String.eqb d "0"))%bool
                              then String "-" d else d)), rest)
      end
  end.

Definition put (k : string) (v : json) (fields : list (string * json)) :
    list (string * json) :=
  (filter (fun kv => negb (String.eqb (fst kv) k)) fields ++ [(k, v)])%list.

Fixpoint value (fuel : nat) (s : string) : option (json * string) :=
  match fuel with
  | O => None
  | S fuel =>
      match skip_ws s with
      | String "{" r =>
          match skip_ws r with
          | String "}" rest => Some (JObj [], rest)
          | _ => members fuel r []
          end
      | String "[" r =>
          match skip_ws r with
          | String "]" rest => Some (JArr [], rest)
          | _ => elements fuel r []
          end
      | String "t" (String "r" (String "u" (String "e" rest))) =>
          Some (JBool true, rest)
      | String "f" (String "a" (String "l" (String "s" (String "e" rest)))) =>
          Some (JBool false, rest)
      | String "n" (String "u" (String "l" (String "l" rest))) => Some (JNull, rest)
      | String c r =>
          if Ascii.eqb c dquote then
            match chars r with
            | Some (body, rest) => Some (JStr body, rest)
            | None => None
            end
          else integer (String c r)
      | EmptyString => None
      end
  end
with elements (fuel : nat) (s : string) (acc : list json) : option (json * string) :=
  match fuel with
  | O => None
  | S fuel =>
      match value fuel s with
      | Some (v, rest) =>
          match skip_ws rest with
          | String "," rest => elements fuel rest (acc ++ [v])%list
          | String "]" rest => Some (JArr (acc ++ [v])%list, rest)
          | _ => None
          end
      | None => None
      end
  end
with members (fuel : nat) (s : string) (acc : list (string * json)) :
    option (json * string) :=
  match fuel with
  | O => None
  | S fuel =>
      match skip_ws s with
      | String c r =>
          if Ascii.eqb c dquote then
            match chars r with
            | Some (key, rest) =>
                match skip_ws rest with
                | String ":" rest =>
                    match value fuel rest with
                    | Some (v, rest) =>
                        match skip_ws rest with
                        | String "," rest => members fuel rest (put key v acc)
                        | String "}" rest => Some (JObj (put key v acc), rest)
                        | _ => None
                        end
                    | None => None
                    end
                | _ => None
                end
            | None => None
            end
          else None
      | EmptyString => None
      end
  end.

Definition parse (s : string) : jsval :=
  match value (2 * String.length s + 2) s with
  | Some (v, rest) =>
      match skip_ws rest with
      | EmptyString => Some v
      | _ => None
      end
  | None => None
  end.

(** A stand-in for [JSON.stringify(v, null, 2)] on examples: the schema is
    only pasted into the prompt. *)
Definition stringify (v : json) : string := toString v.

(** ["s"], a string literal of a JSON text. *)
Definition q (s : string) : string := String dquote (s ++ String dquote EmptyString).

End Reader.

(** ** Example data for the concrete runs below *)

Module Examples.

Import Reader.

(** The JSON text of an object with the single field [type]. *)
Definition line (type : string) : string :=
  "{" ++ q "type" ++ ":" ++ q type ++ "}".

Definition native (type : string) : jsval := Some (JObj [("type", JStr type)]).

(** A Gemini thread fresh from [startThread()] and its first streamed run. *)
Definition gemini_world : Gemini.World :=
  Gemini.mkWorld (Gemini.startThread no_opts no_opts) [] 0.

Definition gemini_spawned : Gemini.World * nat :=
  Gemini.spawnGeminiProcess gemini_world "hi" Gemini.stream_json no_run_opts.

Definition gemini_stream : Gemini.Stream :=
  Gemini.mkStream (fst gemini_spawned) (snd gemini_spawned) [] false true true true
    true Gemini.NotStarted [].

(** A Codex thread fresh from [startThread()] and its first streamed run
    against the SDK behaviour [sdk]. *)
Definition codex_world : Codex.World :=
  Codex.mkWorld (Codex.startThread no_opts no_opts) [] [].

Definition codex_stream (sdk : Codex.Backend) : Codex.Stream :=
  Codex.mkStream (fst (Codex.begin_run codex_world no_run_opts))
    (snd (Codex.begin_run codex_world no_run_opts)) "hi" no_run_opts sdk []
    Codex.NotStarted [].

Definition claude_thread : Claude.ThreadHandle.t :=
  Claude.startThread no_opts no_opts "0b5f7a86-0000-4000-8000-000000000001".

(** The streamed Gemini run, interrupted on the spot. *)
Definition gemini_interrupted : Gemini.World :=
  Gemini.interrupt (fst gemini_spawned) None.

(** An SDK that reports the start of the thread and then ends its sequence
    without a [turn.completed]. *)
Definition codex_silent : Codex.Backend :=
  Codex.mkBackend None None (Some "thread-1") [native "thread.started"] None.

(** An SDK whose iteration fails with an [AbortError] of its own, while
    nobody aborted the run. *)
Definition codex_self_abort : Codex.Backend :=
  Codex.mkBackend None None (Some "thread-1") [native "thread.started"]
    (Some (Codex.ThrownError (mkError "AbortError" None "socket closed"))).

Definition claude_reply : Claude.Backend :=
  Claude.mkBackend
    [Some (JObj [("type", JStr "assistant"); ("text", JStr "second answer")])] None.

(** A schema [{type: "object"}] and the options of a run that carries it. *)
Definition schema_opts : RunOpts :=
  mkRunOpts (Some (JObj [("type", JStr "object")])) None false.

(** The payload of the CLI: [{"response": "no JSON at all"}]. *)
Definition prose_payload : string :=
  "{" ++ q "response" ++ ":" ++ q "no JSON at all" ++ "}".

(** A text whose fenced block holds no JSON, with an object after it. *)
Definition fenced_prose_then_object : string :=
  "```json" ++ newline ++ "none" ++ newline ++ "``` but {" ++ q "x" ++ ":1}".

(** A non-streamed run during which the thread is interrupted. *)
Definition interrupted_meanwhile : list Gemini.Meanwhile :=
  [Gemini.MInterrupt (Some "stop")].

End Examples.

(** A streamed Gemini run in which the CLI prints a [result] line and a
    [message] line after it, and then exits with status 0; the consumer
    reads to the end. *)
Definition gemini_events_after_done : list Gemini.Event :=
  [Gemini.Line (Examples.line "result"); Gemini.Line (Examples.line "message");
   Gemini.Exit (Some 0) []; Gemini.Next; Gemini.Next; Gemini.Next].

(** A streamed Gemini run that is interrupted, whose process then dies on a
    signal, and a late output line. *)
Definition gemini_events_interrupted : list Gemini.Event :=
  [Gemini.Next; Gemini.Line (Examples.line "message"); Gemini.Interrupt None;
   Gemini.Elapse 250; Gemini.Exit None []; Gemini.Line (Examples.line "message");
   Gemini.Next; Gemini.Next; Gemini.Next].

Definition claude_result_then_more : Claude.Backend :=
  Claude.mkBackend [Examples.native "result"; Examples.native "assistant"] None.

(** ** Predicates of the proofs *)

(** The session data a thread started with the resume value [r] has. *)
Definition resumed_with (r : string) (o : StartOpts) (w : Gemini.World) : Prop :=
  Gemini.session w = (Some r, Some r, o).

(** What can happen to a streamed Gemini run while nobody aborts it, the
    process is alive and the consumer keeps reading. *)
Definition quiet (ev : Gemini.Event) : bool :=
  match ev with
  | Gemini.Line _ | Gemini.Close | Gemini.Elapse _ | Gemini.Next => true
  | _ => false
  end.

(** The events the lines of a trace normalise to, in order. *)
Definition events_of_lines (parse : string -> jsval) (evs : list Gemini.Event) :
    list CoderStreamEvent :=
  flat_map
    (fun ev =>
       match ev with
       | Gemini.Line line =>
           match parse line with
           | Some event => Gemini.normalizeGeminiEvent (Some event)
           | None => []
           end
       | _ => []
       end) evs.

(** The error [onExit] pushes for an exit code other than 0. *)
Definition exit_error (code : option Z) : JsError :=
  new_Error ("gemini exited with code " ++ show_code code).

Definition not_ended (st : Gemini.Status) : Prop :=
  match st with Gemini.Ended _ => False | _ => True end.

(** A streamed run in its quiet phase, having produced the events [out]:
    nothing finished it, its listeners are attached, it is not aborted, and
    the events are delivered or still queued. *)
Definition Quiet (out : list CoderStreamEvent) (s : Gemini.Stream) : Prop :=
  Gemini.finished s = false
  /\ Gemini.lineOn s = true
  /\ Gemini.exitOn s = true
  /\ Gemini.run_aborted (Gemini.world s) (Gemini.active s) = false
  /\ not_ended (Gemini.status s)
  /\ exists queued,
       Gemini.queue s = map Gemini.Ev queued
       /\ (Gemini.delivered s ++ queued)%list = out
       /\ (Gemini.status s = Gemini.Waiting -> queued = []).

(** The claim about terminal outcomes as the specification states it: the
    delivered events and the way the iteration ends hold exactly one
    terminal outcome (a [done] or [error] event, or a thrown error), and no
    event follows it. *)
Definition one_terminal_outcome (delivered : list CoderStreamEvent) (threw : bool) :
    bool :=
  if threw then forallb (fun e => negb (is_terminal e)) delivered
  else
    match rev delivered with
    | last :: before =>
        (is_terminal last && forallb (fun e => negb (is_terminal e)) before)%bool
    | [] => false
    end.

Definition not_cancelled (e : CoderStreamEvent) : Prop := type_of e <> cancelled.

(** The events of a run keep the [cancelled] event for the end: no event
    before it is a [cancelled], and at most the interrupted [error] follows. *)
Definition cancel_pair_last (delivered : list CoderStreamEvent) : Prop :=
  exists before tail,
    delivered = (before ++ tail)%list
    /\ Forall not_cancelled before
    /\ (tail = []
        \/ exists c e,
             type_of c = cancelled /\ type_of e = error
             /\ (tail = [c] \/ tail = [c; e])).

(** Nothing follows an [error] event. *)
Definition error_last (delivered : list CoderStreamEvent) : Prop :=
  forall before e after,
    delivered = (before ++ e :: after)%list -> type_of e = error -> after = [].

(** The part of a streamed Gemini run the consumer's view depends on. *)
Record View : Type := mkView
  { v_status : Gemini.Status;
    v_queue : list Gemini.Entry;
    v_finished : bool;
    v_delivered : list CoderStreamEvent }.

Definition view (s : Gemini.Stream) : View :=
  mkView (Gemini.status s) (Gemini.queue s) (Gemini.finished s) (Gemini.delivered s).

Definition v_resume (entry : Gemini.Entry) (v : View) : View :=
  match entry with
  | Gemini.DONE =>
      mkView (Gemini.Ended Gemini.Completed) (v_queue v) (v_finished v) (v_delivered v)
  | Gemini.Err e =>
      mkView (Gemini.Ended (Gemini.Threw e)) (v_queue v) (v_finished v) (v_delivered v)
  | Gemini.Ev e =>
      mkView Gemini.Suspended (v_queue v) (v_finished v) (v_delivered v ++ [e])%list
  end.

Definition v_push (entry : Gemini.Entry) (v : View) : View :=
  match v_status v with
  | Gemini.Waiting => v_resume entry v
  | _ => mkView (v_status v) (v_queue v ++ [entry])%list (v_finished v) (v_delivered v)
  end.

Definition v_push_all (entries : list Gemini.Entry) (v : View) : View :=
  fold_left (fun v e => v_push e v) entries v.

Definition v_finish (v : View) : View :=
  mkView (v_status v) (v_queue v) true (v_delivered v).

Definition v_next (v : View) : View :=
  match v_status v with
  | Gemini.NotStarted | Gemini.Suspended =>
      match v_queue v with
      | entry :: rest =>
          v_resume entry (mkView (v_status v) rest (v_finished v) (v_delivered v))
      | [] =>
          if v_finished v then v_resume Gemini.DONE v
          else mkView Gemini.Waiting [] (v_finished v) (v_delivered v)
      end
  | _ => v
  end.

Definition v_abandon (v : View) : View :=
  match v_status v with
  | Gemini.Suspended | Gemini.NotStarted =>
      mkView (Gemini.Ended Gemini.Returned) (v_queue v) (v_finished v) (v_delivered v)
  | _ => v
  end.

(** What the controller appends when it finishes a stream. *)
Inductive Tail : list Gemini.Entry -> Prop :=
| tail_cancelled (c e : CoderStreamEvent) :
    type_of c = cancelled -> type_of e = error ->
    Tail [Gemini.Ev c; Gemini.Ev e; Gemini.DONE]
| tail_error (e : JsError) : Tail [Gemini.Err e; Gemini.DONE]
| tail_done : Tail [Gemini.DONE].

(** The moves of a view: nothing, events of a line being pushed, the
    controller finishing the stream, the consumer reading or leaving. *)
Inductive vstep : View -> View -> Prop :=
| vstep_same (v : View) : vstep v v
| vstep_line (v : View) (evs : list CoderStreamEvent) :
    v_finished v = false -> Forall not_cancelled evs ->
    vstep v (v_push_all (map Gemini.Ev evs) v)
| vstep_finish (v : View) (tl : list Gemini.Entry) :
    v_finished v = false -> Tail tl ->
    vstep v (v_push_all tl (v_finish v))
| vstep_next (v : View) : vstep v (v_next v)
| vstep_abandon (v : View) : vstep v (v_abandon v).

(** What is left to read once the stream is finished. *)
Definition Rest (d : list CoderStreamEvent) (q : list Gemini.Entry) : Prop :=
  (Forall not_cancelled d
   /\ exists evs tl,
        q = (map Gemini.Ev evs ++ tl)%list /\ Forall not_cancelled evs /\ Tail tl)
  \/ (exists before c e,
        d = (before ++ [c])%list /\ Forall not_cancelled before
        /\ type_of c = cancelled /\ type_of e = error
        /\ q = [Gemini.Ev e; Gemini.DONE])
  \/ (exists before c e,
        d = (before ++ [c; e])%list /\ Forall not_cancelled before
        /\ type_of c = cancelled /\ type_of e = error
        /\ q = [Gemini.DONE]).

(** The invariant of a view. *)
Definition Shaped (v : View) : Prop :=
  match v_status v with
  | Gemini.Ended _ => cancel_pair_last (v_delivered v)
  | st =>
      (st = Gemini.Waiting -> v_queue v = [])
      /\ (if v_finished v then Rest (v_delivered v) (v_queue v)
          else Forall not_cancelled (v_delivered v)
               /\ exists evs,
                    v_queue v = map Gemini.Ev evs /\ Forall not_cancelled evs)
  end.

(** The invariant of the generator of the Codex adapter. *)
Definition CodexShaped (s : Codex.Stream) : Prop :=
  match Codex.phase s with
  | Codex.NotStarted => Codex.delivered s = []
  | Codex.InTry =>
      Forall not_cancelled (Codex.delivered s) /\ Forall not_cancelled (Codex.buffer s)
  | Codex.InCatch =>
      exists before c e,
        Forall not_cancelled before /\ type_of c = cancelled /\ type_of e = error
        /\ ((Codex.delivered s = (before ++ [c])%list /\ Codex.buffer s = [e])
            \/ (Codex.delivered s = (before ++ [c; e])%list /\ Codex.buffer s = []))
  | Codex.Ended _ => cancel_pair_last (Codex.delivered s)
  end.

Definition is_cancelled_entry (entry : Gemini.Entry) : Prop :=
  match entry with
  | Gemini.Ev e => type_of e = cancelled
  | _ => False
  end.

(** A [cancelled] event is delivered or queued. *)
Definition has_cancelled (v : View) : Prop :=
  Exists (fun e => type_of e = cancelled) (v_delivered v)
  \/ Exists is_cancelled_entry (v_queue v).

(** The [aborted] flag of the run of a stream. *)
Definition stream_aborted (s : Gemini.Stream) : bool :=
  Gemini.run_aborted (Gemini.world s) (Gemini.active s).

(** A function on runs that never lowers [aborted]. *)
Definition keeps_aborted (f : Gemini.ActiveRun -> Gemini.ActiveRun) : Prop :=
  forall a, Gemini.aborted a = true -> Gemini.aborted (f a) = true.

(** ** Predicates of the further properties *)

(** The run the thread of a Gemini world is busy with. *)
Definition gemini_current (w : Gemini.World) : option nat :=
  Gemini.currentRun (Gemini.state_of w).

Definition codex_current (w : Codex.World) : option nat :=
  Codex.currentRun (Codex.state_of w).

(** The invariant that ties the [currentRun] slot of a Gemini thread to the
    generator of its streamed run: the slot holds the run until the
    generator has run its [finally] block; a generator that was left before
    it was entered never runs it. *)
Definition Held (s : Gemini.Stream) : Prop :=
  match Gemini.status s with
  | Gemini.NotStarted =>
      Gemini.delivered s = [] /\ gemini_current (Gemini.world s) = Some (Gemini.active s)
  | Gemini.Suspended =>
      Gemini.delivered s <> [] /\ gemini_current (Gemini.world s) = Some (Gemini.active s)
  | Gemini.Waiting => gemini_current (Gemini.world s) = Some (Gemini.active s)
  | Gemini.Ended o =>
      gemini_current (Gemini.world s) = None
      \/ (o = Gemini.Returned /\ Gemini.delivered s = [])
  end.

(** A streamed Gemini run nobody has read from. *)
Definition Unread (s : Gemini.Stream) : Prop :=
  (Gemini.status s = Gemini.NotStarted
   \/ Gemini.status s = Gemini.Ended Gemini.Returned)
  /\ gemini_current (Gemini.world s) = Some (Gemini.active s).

Definition gemini_is_next (ev : Gemini.Event) : bool :=
  match ev with Gemini.Next => true | _ => false end.

(** The same for the generator of the Codex adapter. *)
Definition CodexHeld (s : Codex.Stream) : Prop :=
  match Codex.phase s with
  | Codex.NotStarted =>
      Codex.delivered s = [] /\ codex_current (Codex.world s) = Some (Codex.active s)
  | Codex.InTry | Codex.InCatch =>
      Codex.delivered s <> [] /\ codex_current (Codex.world s) = Some (Codex.active s)
  | Codex.Ended o =>
      codex_current (Codex.world s) = None
      \/ (o = Codex.Returned /\ Codex.delivered s = [])
  end.

Definition CodexUnread (s : Codex.Stream) : Prop :=
  (Codex.phase s = Codex.NotStarted \/ Codex.phase s = Codex.Ended Codex.Returned)
  /\ codex_current (Codex.world s) = Some (Codex.active s).

Definition codex_is_next (ev : Codex.Event) : bool :=
  match ev with Codex.Next => true | _ => false end.

(** A run that is aborted with the reason [x]. *)
Definition aborted_with (x : string) (a : Gemini.ActiveRun) : Prop :=
  Gemini.aborted a = true /\ Gemini.abortReason a = Some x.

(** A run nothing has touched since it was spawned: the process is alive and
    has received no signal, the run is not aborted and no kill timer is
    armed. *)
Definition untouched (a : Gemini.ActiveRun) : Prop :=
  Gemini.running (Gemini.child a) = true
  /\ Gemini.killed (Gemini.child a) = false
  /\ Gemini.exitCode (Gemini.child a) = None
  /\ Gemini.received (Gemini.child a) = []
  /\ Gemini.aborted a = false
  /\ Gemini.abortReason a = None
  /\ Gemini.softKillTimer a = None
  /\ Gemini.hardKillTimer a = None.

Definition is_elapse (m : Gemini.Meanwhile) : bool :=
  match m with Gemini.MElapse _ => true | _ => false end.

(** The first failure the SDK shows to a non-streamed Codex run that reads
    all its events: of [createThread], of [runStreamed], or of the iteration. *)
Definition sdk_failure (sdk : Codex.Backend) : option Codex.Thrown :=
  match Codex.createThread_throws sdk with
  | Some t => Some t
  | None =>
      match Codex.runStreamed_throws sdk with
      | Some t => Some t
      | None => Codex.ending sdk
      end
  end.

(** The run [r] of the world is there and satisfies [P]. *)
Definition run_is (P : Gemini.ActiveRun -> Prop) (w : Gemini.World) (r : nat) : Prop :=
  exists a, Gemini.runs w !! r = Some a /\ P a.

(** A native Codex event that [collectRunSummary] reads without throwing:
    it is an object or another value that has properties, and no
    [turn.failed]. *)
Definition benign (event : jsval) : bool :=
  (negb (nullish event) && negb (Codex.is_str (get event "type") "turn.failed"))%bool.

(** What can happen to a streamed Gemini run that is being aborted, before
    its output closes and its process exits. *)
Definition calm (ev : Gemini.Event) : bool :=
  match ev with
  | Gemini.Line _ | Gemini.Elapse _ | Gemini.Next | Gemini.Interrupt _
  | Gemini.ExternalAbort _ => true
  | _ => false
  end.

(** A streamed run that nothing has finished, with its listeners attached,
    having produced the events [out], delivered or still queued. *)
Definition Flow (out : list CoderStreamEvent) (s : Gemini.Stream) : Prop :=
  Gemini.finished s = false
  /\ Gemini.lineOn s = true
  /\ Gemini.exitOn s = true
  /\ not_ended (Gemini.status s)
  /\ exists queued,
       Gemini.queue s = map Gemini.Ev queued
       /\ (Gemini.delivered s ++ queued)%list = out
       /\ (Gemini.status s = Gemini.Waiting -> queued = []).

(** A streamed run that flows while its run is aborted with the reason [x]. *)
Definition Stopping (x : string) (out : list CoderStreamEvent) (s : Gemini.Stream) :
    Prop :=
  Flow out s /\ run_is (aborted_with x) (Gemini.world s) (Gemini.active s).

(** A streamed run that flows, holds the thread, and whose run nothing has
    touched. *)
Definition Running (out : list CoderStreamEvent) (s : Gemini.Stream) : Prop :=
  Flow out s
  /\ gemini_current (Gemini.world s) = Some (Gemini.active s)
  /\ run_is untouched (Gemini.world s) (Gemini.active s).

Definition codex_is_return (ev : Codex.Event) : bool :=
  match ev with Codex.Return => true | _ => false end.

(** A streamed Codex run against an SDK that does not throw: the events
    delivered, those of the current native event still to be yielded, and
    those of the native events still to come make up [all]. *)
Definition CodexFlow (all : list CoderStreamEvent) (s : Codex.Stream) : Prop :=
  Codex.createThread_throws (Codex.backend s) = None
  /\ Codex.runStreamed_throws (Codex.backend s) = None
  /\ Codex.ending (Codex.backend s) = None
  /\ match Codex.phase s with
     | Codex.NotStarted =>
         Codex.delivered s = [] /\ Codex.buffer s = []
         /\ flat_map Codex.normalizeCodexEvent (Codex.events (Codex.backend s)) = all
     | Codex.InTry =>
         (Codex.delivered s ++ Codex.buffer s
          ++ flat_map Codex.normalizeCodexEvent (Codex.events (Codex.backend s)))%list
         = all
     | Codex.InCatch => False
     | Codex.Ended o => o = Codex.Completed /\ Codex.delivered s = all
     end.

(** The events the messages of the Claude SDK normalise to, in order. *)
Definition claude_events (threadId : option string) (msgs : list jsval) :
    list CoderStreamEvent :=
  flat_map (fun m => Claude.normalizeClaudeStreamMessage m threadId) msgs.

Definition no_error (e : CoderStreamEvent) : bool := negb (is_type error e).

(** An SDK run that answers, then reports a failed result, sends one more
    message and dies. *)
Definition claude_low_credit : Claude.Backend :=
  Claude.mkBackend
    [Some (JObj [("type", JStr "assistant"); ("text", JStr "on it")]);
     Some (JObj [("type", JStr "result"); ("is_error", JBool true);
                 ("result", JStr "Credit balance is too low")]);
     Some (JObj [("type", JStr "assistant"); ("text", JStr "more")])]
    (Some (new_Error "Claude Code process exited with code 1")).

(** The character [c] occurs in [s]. *)
Fixpoint occurs (c : ascii) (s : string) : bool :=
  match s with
  | EmptyString => false
  | String a r => (Ascii.eqb a c || occurs c r)%bool
  end.

(** A string of white space only. *)
Fixpoint blank (s : string) : bool :=
  match s with
  | EmptyString => true
  | String a r => (is_ws a && blank r)%bool
  end.

(** The identity of a Gemini thread: the id on the handle, the id in the
    state and the resume token. *)
Definition ident (h : Gemini.ThreadHandle.t) :
    option string * option string * option string :=
  (Gemini.ThreadHandle.id h, Gemini.id (Gemini.ThreadHandle.internal h),
   Gemini.resumeToken (Gemini.ThreadHandle.internal h)).

(** The handle shows the id of the state, and a thread that knows its
    session id resumes with it. *)
Definition Synced (h : Gemini.ThreadHandle.t) : Prop :=
  Gemini.ThreadHandle.id h = Gemini.id (Gemini.ThreadHandle.internal h)
  /\ (truthy_str (Gemini.id (Gemini.ThreadHandle.internal h)) = true ->
      Gemini.resumeToken (Gemini.ThreadHandle.internal h)
      = Gemini.id (Gemini.ThreadHandle.internal h)).

(** The worlds a Gemini thread can be in: it was started or resumed, and
    since then it was run, streamed from, interrupted, and time passed. *)
Inductive Reachable (parse : string -> jsval) (stringify : json -> string) :
    Gemini.World -> Prop :=
| reach_start (defaultOpts opts : StartOpts) :
    Reachable parse stringify
      (Gemini.mkWorld (Gemini.startThread defaultOpts opts) [] 0)
| reach_resume (defaultOpts : StartOpts) (threadId : string) (opts : StartOpts) :
    Reachable parse stringify
      (Gemini.mkWorld (Gemini.resumeThread defaultOpts threadId opts) [] 0)
| reach_run (w : Gemini.World) (input : PromptInput) (ropts : RunOpts)
    (meanwhile : list Gemini.Meanwhile) (outcome : Gemini.ChildOutcome)
    (listing : list Gemini.GeminiSessionEntry) :
    Reachable parse stringify w ->
    Reachable parse stringify
      (fst (Gemini.runInternal parse stringify w input ropts meanwhile outcome listing))
| reach_stream (w : Gemini.World) (input : PromptInput) (ropts : RunOpts)
    (s0 : Gemini.Stream) (evs : list Gemini.Event) :
    Reachable parse stringify w ->
    Gemini.runStreamedInternal stringify w input ropts = Resolved s0 ->
    Reachable parse stringify (Gemini.world (Gemini.run_events parse s0 evs))
| reach_interrupt (w : Gemini.World) (reason : option string) :
    Reachable parse stringify w ->
    Reachable parse stringify (Gemini.interrupt w reason)
| reach_elapse (w : Gemini.World) (ms : Z) :
    Reachable parse stringify w ->
    Reachable parse stringify (Gemini.elapse ms w).

(** The text of a complete (not partial) message event, when it is a
    string. *)
Definition final_text (e : CoderStreamEvent) : option string :=
  match e with
  | EvMessage _ _ text None _ => as_string text
  | _ => None
  end.

(** The call [createThread] makes for a thread state. *)
Definition codex_thread_call (st : Codex.CodexThreadState) : Codex.SdkCall :=
  if truthy_str (Codex.id st) then
    Codex.ResumeThread (default "" (Codex.id st)) (Codex.options st)
  else Codex.StartThread (Codex.options st).

(** An SDK run of two answers, and one whose turn fails after the first. *)
Definition codex_item (text : string) : jsval :=
  Some (JObj [("type", JStr "item.completed");
              ("item", JObj [("type", JStr "agent_message"); ("text", JStr text)])]).

Definition codex_two_answers : Codex.Backend :=
  Codex.mkBackend None None (Some "thread-1")
    [Examples.native "thread.started"; codex_item "draft"; codex_item "final";
     Examples.native "turn.completed"] None.

Definition codex_turn_fails : Codex.Backend :=
  Codex.mkBackend None None (Some "thread-1")
    [Examples.native "thread.started"; codex_item "draft";
     Some (JObj [("type", JStr "turn.failed");
                 ("error", JObj [("message", JStr "rate limit exceeded")])]);
     codex_item "late"] None.

(** The hard kill timer of a run cannot fire before its soft kill timer. *)
Definition soft_first (a : Gemini.ActiveRun) : bool :=
  match Gemini.hardKillTimer a with
  | Some th =>
      if Gemini.pending th then
        match Gemini.softKillTimer a with
        | Some ts => (Gemini.pending ts && (Gemini.due ts <=? Gemini.due th))%bool
        | None => false
        end
      else true
  | None => true
  end.

(** A run whose process was sent nothing, or one [SIGTERM] and nothing
    else, and whose timers keep it so: they are armed only on an aborted
    run, and while the process lives unsignalled the soft one comes first. *)
Definition Gentle (a : Gemini.ActiveRun) : Prop :=
  (Gemini.aborted a = false ->
   Gemini.softKillTimer a = None /\ Gemini.hardKillTimer a = None)
  /\ ((Gemini.received (Gemini.child a) = []
       /\ Gemini.killed (Gemini.child a) = false
       /\ (Gemini.running (Gemini.child a) = true -> soft_first a = true))
      \/ (Gemini.received (Gemini.child a) = [Gemini.SIGTERM]
          /\ Gemini.killed (Gemini.child a) = true)).

Definition AllGentle (w : Gemini.World) : Prop := Forall Gentle (Gemini.runs w).



(** How [run] of the Claude adapter reads a message of the SDK: as a result
    when its lower-cased type contains [result], else as an answer when it
    contains [assistant]. *)
Definition claude_is_result (m : jsval) : bool :=
  match Claude.lowered_type m with
  | Some t => includes "result" t
  | None => false
  end.

Definition claude_is_answer (m : jsval) : bool :=
  match Claude.lowered_type m with
  | Some t => (negb (includes "result" t) && includes "assistant" t)%bool
  | None => false
  end.

(** An SDK run of two answers, closed by a result message. *)
Definition claude_two_answers : Claude.Backend :=
  Claude.mkBackend
    [Some (JObj [("type", JStr "system"); ("session_id", JStr "s-1")]);
     Some (JObj [("type", JStr "assistant"); ("text", JStr "draft")]);
     Some (JObj [("type", JStr "assistant"); ("text", JStr "final")]);
     Some (JObj [("type", JStr "result"); ("subtype", JStr "success")])]
    None.

(** ** [parseGeminiSessionList]: the output of [gemini --list-sessions] *)

Module GeminiSessions.

Definition LF : ascii := ascii_of_nat 10.
Definition CR : ascii := ascii_of_nat 13.

(** [\d] *)
Definition is_digit (c : ascii) : bool :=
  let n := nat_of_ascii c in (Nat.leb 48 n && Nat.leb n 57)%bool.

(** What [.] does not match, below 256: the line terminators. *)
Definition line_terminator (c : ascii) : bool :=
  (Ascii.eqb c LF || Ascii.eqb c CR)%bool.

(** Puts [c] in front of the first piece. *)
Definition cons_first (c : ascii) (pieces : list string) : list string :=
  match pieces with
  | p :: ps => String c p :: ps
  | [] => [String c EmptyString]
  end.

(** [output.split(/\r?\n/)] *)
Fixpoint split_lines (s : string) : list string :=
  match s with
  | EmptyString => [EmptyString]
  | String c r =>
      if Ascii.eqb c LF then EmptyString :: split_lines r
      else
        match r with
        | String c' r' =>
            if (Ascii.eqb c CR && Ascii.eqb c' LF)%bool
            then EmptyString :: split_lines r'
            else cons_first c (split_lines r)
        | EmptyString => cons_first c (split_lines r)
        end
  end.

(** [(\d+)]: the digits at the start of [s], and what follows them. *)
Fixpoint digits (s : string) : string * string :=
  match s with
  | String c r =>
      if is_digit c then (String c (fst (digits r)), snd (digits r))
      else (EmptyString, s)
  | EmptyString => (EmptyString, EmptyString)
  end.

(** [\]\s*$] at the start of [s]. *)
Definition closes (s : string) : bool :=
  match s with
  | String b w => (Ascii.eqb b "]" && blank w)%bool
  | EmptyString => false
  end.

(** [(.+?)\]\s*$] at the start of [s]: the group stops as early as it can. *)
Fixpoint group_lazy (s : string) : option string :=
  match s with
  | EmptyString => None
  | String c r =>
      if line_terminator c then None
      else if closes r then Some (String c EmptyString)
      else option_map (String c) (group_lazy r)
  end.

(** [.*\[(.+?)\]\s*$] at the start of [s]: [.*] takes as much as it can
    and gives back one character at a time. *)
Fixpoint tail_greedy (s : string) : option string :=
  match s with
  | EmptyString => None
  | String c r =>
      match (if line_terminator c then None else tail_greedy r) with
      | Some g => Some g
      | None => if Ascii.eqb c "[" then group_lazy r else None
      end
  end.

(** [/^\s*(\d+)\.\s.*\[(.+?)\]\s*$/.exec(line)]: the two groups.  Nothing
    that [\s*] or [\d+] would give back can match what follows them. *)
Definition lineRegex (line : string) : option (string * string) :=
  let s := trimStart line in
  let d := fst (digits s) in
  if nonempty d then
    match snd (digits s) with
    | String dot (String sp rest) =>
        if (Ascii.eqb dot "." && is_ws sp)%bool
        then option_map (fun g => (d, g)) (tail_greedy rest)
        else None
    | _ => None
    end
  else None.

Section Builtins.

(** [Number.parseInt(s, 10)]; [None] is [NaN]. *)
Variable Number_parseInt : string -> option number.

(** One turn of the loop of [parseGeminiSessionList]. *)
Definition parse_line (line : string) : list Gemini.GeminiSessionEntry :=
  match lineRegex line with
  | None => []
  | Some (d, g) =>
      match Number_parseInt d with
      | None => []
      | Some index =>
          [Gemini.mkEntry index (if nonempty (trim g) then Some (trim g) else None)]
      end
  end.

Definition parseGeminiSessionList (output : string) : list Gemini.GeminiSessionEntry :=
  flat_map parse_line (split_lines output).

End Builtins.

End GeminiSessions.

(** [Number.parseInt] on a short string of digits: the number without its
    leading zeros. *)
Fixpoint drop_zeros (s : string) : string :=
  match s with
  | String c r => if (Ascii.eqb c "0" && nonempty r)%bool then drop_zeros r else s
  | EmptyString => EmptyString
  end.

Definition small_parseInt (s : string) : option number := Some (Finite (drop_zeros s)).

(** A listing as the CLI prints it. *)
Definition session_listing : string :=
  "Available sessions for this project (2):" ++ newline
  ++ "  1. Fix the login form (2 days ago) [0a1b-11]" ++ newline
  ++ "  2. Write the release notes (1 hour ago) [7c9d-22]" ++ newline.

(** * Properties *)

(** ** Interrupting a thread that has nothing to interrupt *)

Lemma gemini_abortChild_noop (w : Gemini.World) (reason : option string) :
  Gemini.no_live_run w = true -> Gemini.abortChild w reason = w.
Proof.
  unfold Gemini.no_live_run, Gemini.abortChild.
  destruct (Gemini.currentRun (Gemini.state_of w)) as [r|]; [|reflexivity].
  destruct (Gemini.runs w !! r) as [a|]; [|reflexivity].
  intros ->. reflexivity.
Qed.

Lemma codex_abortCurrentRun_noop (w : Codex.World) (reason : option string) :
  Codex.no_live_run w = true -> Codex.abortCurrentRun w reason = w.
Proof.
  unfold Codex.no_live_run, Codex.abortCurrentRun.
  destruct (Codex.currentRun (Codex.state_of w)) as [r|]; [|reflexivity].
  destruct (Codex.runs w !! r) as [a|]; [|reflexivity].
  destruct (Codex.controller a); [reflexivity|].
  intros H. apply bool_decide_eq_true in H. destruct H as [x Hx]. discriminate.
Qed.

(** The Codex adapter raises [aborted] and the signal together. *)
Lemma codex_abort_sets_both (a : Codex.ActiveRun) (w : Codex.World) (r : nat)
    (reason : option string) :
  Codex.currentRun (Codex.state_of w) = Some r ->
  Codex.runs w !! r = Some a ->
  Codex.controller a = None ->
  exists a',
    Codex.runs (Codex.abortCurrentRun w reason) !! r = Some a'
    /\ Codex.aborted a' = true
    /\ Codex.controller a' = Some (default "Interrupted" reason)
    /\ Codex.abortReason a' = Some (default "Interrupted" reason).
Proof.
  intros Hc Hr Hs. unfold Codex.abortCurrentRun. rewrite Hc, Hr, Hs. simpl.
  rewrite list_lookup_alter_eq, Hr. simpl. eauto.
Qed.

(** C10: on the Gemini and on the Codex adapter, [interrupt] on a thread
    with no run in flight, or whose current run is already aborted, changes
    nothing: the world after it is the world before it, so no signal is
    sent, no timer is started, and the session id, the resume token and the
    current-run slot are what they were.  ([interrupt] has no way to throw:
    it returns the world.) *)
Theorem C10_interrupt_without_live_run_changes_nothing :
  forall (gw : Gemini.World) (cw : Codex.World) (reason : option string),
    Gemini.no_live_run gw = true ->
    Codex.no_live_run cw = true ->
    Gemini.interrupt gw reason = gw /\ Codex.interrupt cw reason = cw.
Proof.
  intros gw cw reason Hg Hc. split.
  - unfold Gemini.interrupt. now apply gemini_abortChild_noop.
  - unfold Codex.interrupt. now apply codex_abortCurrentRun_noop.
Qed.

Lemma C10_witness :
  Gemini.no_live_run Examples.gemini_interrupted = true
  /\ Codex.no_live_run Examples.codex_world = true
  /\ Gemini.interrupt Examples.gemini_interrupted (Some "again")
     = Examples.gemini_interrupted
  /\ Codex.interrupt Examples.codex_world (Some "again") = Examples.codex_world.
Proof.
  split; [reflexivity|]. split; [reflexivity|].
  apply (C10_interrupt_without_live_run_changes_nothing
           Examples.gemini_interrupted Examples.codex_world (Some "again"));
    reflexivity.
Defined.

(** ** Escalation after an abort *)

(** Once a signal has been delivered, the callback of a kill timer sends
    nothing: it looks at [killed], not at whether the process is gone. *)
Lemma kill_timer_after_delivery (sig sig' : Gemini.Signal) (c : Gemini.ChildProcess) :
  Gemini.running c = true ->
  Gemini.kill_unless_killed sig' (Gemini.kill sig c) = Gemini.kill sig c.
Proof.
  intros Hr. unfold Gemini.kill_unless_killed, Gemini.kill. rewrite Hr. reflexivity.
Qed.

(** A process that is gone receives nothing from [kill]. *)
Lemma kill_after_exit (sig : Gemini.Signal) (code : option Z) (c : Gemini.ChildProcess) :
  Gemini.kill sig (Gemini.exits code c) = Gemini.exits code c.
Proof. reflexivity. Qed.

(** [abortChild] on a live run arms the two timers, 250 ms and 1500 ms after
    the abort. *)
Lemma abort_arms_timers (now : Z) (reason : option string) (a : Gemini.ActiveRun) :
  Gemini.softKillTimer a = None ->
  Gemini.hardKillTimer a = None ->
  Gemini.softKillTimer (Gemini.abort_active now reason a)
  = Some (Gemini.mkTimeout (now + 250) true)
  /\ Gemini.hardKillTimer (Gemini.abort_active now reason a)
     = Some (Gemini.mkTimeout (now + 1500) true)
  /\ Gemini.aborted (Gemini.abort_active now reason a) = true.
Proof. intros Hs Hh. unfold Gemini.abort_active. rewrite Hs, Hh. auto. Qed.

(** C6, at the failing input: a streamed run is interrupted at time 0 and
    its process ignores SIGTERM.  After 250 ms the soft timer has delivered
    SIGTERM; at 1500 ms the hard timer fires, finds [killed] set by that
    delivery, and sends nothing: the process is still running and SIGTERM is
    all it ever received. *)
Theorem C6_no_hard_kill_after_soft_kill :
  map (fun a => (Gemini.received (Gemini.child a), Gemini.running (Gemini.child a)))
    (Gemini.runs (Gemini.elapse 250 Examples.gemini_interrupted))
  = [([Gemini.SIGTERM], true)]
  /\ Gemini.clock (Gemini.elapse 1250 (Gemini.elapse 250 Examples.gemini_interrupted))
     = 1500
  /\ map (fun a => (Gemini.received (Gemini.child a),
                    Gemini.running (Gemini.child a),
                    option_map Gemini.pending (Gemini.hardKillTimer a)))
       (Gemini.runs (Gemini.elapse 1250 (Gemini.elapse 250 Examples.gemini_interrupted)))
     = [([Gemini.SIGTERM], true, Some false)].
Proof. vm_compute. auto. Qed.

(** ** One run per thread *)

(** The Gemini adapter rejects a run on a busy thread before it spawns
    anything: the world stays as it is. *)
Lemma gemini_busy_rejects (parse : string -> jsval) (stringify : json -> string)
    (w : Gemini.World) (r : nat) (input : PromptInput) (ropts : RunOpts)
    (meanwhile : list Gemini.Meanwhile) (outcome : Gemini.ChildOutcome)
    (listing : list Gemini.GeminiSessionEntry) :
  Gemini.currentRun (Gemini.state_of w) = Some r ->
  Gemini.runInternal parse stringify w input ropts meanwhile outcome listing
  = (w, Rejected (new_Error "Gemini adapter only supports one in-flight run per thread."))
  /\ Gemini.runStreamedInternal stringify w input ropts
     = Rejected (new_Error "Gemini adapter only supports one in-flight run per thread.").
Proof.
  intros H. unfold Gemini.runInternal, Gemini.runStreamedInternal, Gemini.assertIdle.
  rewrite H. auto.
Qed.

(** So does the Codex adapter, before any call of the SDK. *)
Lemma codex_busy_rejects (parse : string -> jsval) (w : Codex.World) (r : nat)
    (input : PromptInput) (ropts : RunOpts) (sdk : Codex.Backend)
    (interrupts : list (option string)) :
  Codex.currentRun (Codex.state_of w) = Some r ->
  Codex.runInternal parse w input ropts sdk interrupts
  = (w, Codex.Throw (Codex.ThrownError
          (new_Error "Codex adapter only supports one in-flight run per thread.")))
  /\ Codex.runStreamedInternal w input ropts sdk
     = Codex.Throw (Codex.ThrownError
          (new_Error "Codex adapter only supports one in-flight run per thread.")).
Proof.
  intros H. unfold Codex.runInternal, Codex.runStreamedInternal, Codex.assertIdle.
  rewrite H. auto.
Qed.

(** A started run occupies the slot until its cleanup. *)
Lemma gemini_spawn_occupies (w : Gemini.World) (prompt : string) (mode : Gemini.Format)
    (ropts : RunOpts) :
  Gemini.currentRun (Gemini.state_of (fst (Gemini.spawnGeminiProcess w prompt mode ropts)))
  = Some (snd (Gemini.spawnGeminiProcess w prompt mode ropts)).
Proof. reflexivity. Qed.

(** C4, at the failing input: the Claude adapter.  Its thread state has no
    slot for a run in flight, and [run] and [runStreamed] go to the SDK
    whatever else is going on: a second call on the same handle, made while
    the first query is still open, starts a second query and resolves. *)
Theorem C4_claude_does_not_reject_a_second_run :
  forall (parse : string -> jsval) (stringify : json -> string)
         (h : Claude.ThreadHandle.t) (input : PromptInput) (ropts : RunOpts)
         (sdk : Claude.Backend),
    fst (Claude.run parse stringify h input ropts sdk)
    = Claude.start_query stringify h input ropts
    /\ fst (Claude.runStreamed stringify h input ropts sdk)
       = Claude.start_query stringify h input ropts
    /\ snd (Claude.run parse stringify Examples.claude_thread (PromptText "second")
              no_run_opts Examples.claude_reply)
       = Resolved
           (RunResult.make (Claude.ThreadHandle.id Examples.claude_thread)
              (Some (JStr "second answer")) None None None).
Proof.
  intros. split; [|split].
  - unfold Claude.run. destruct (Claude.scan _ _ _). reflexivity.
  - reflexivity.
  - reflexivity.
Qed.

(** ** A stream that ends without a terminal event *)

(** C5, at the failing input: the Codex SDK reports [thread.started] and
    then ends its sequence without [turn.completed].  The consumer receives
    the [init] event and the end of the iteration; no [done] event is made
    up. *)
Theorem C5_codex_synthesizes_no_done :
  Codex.delivered
    (Codex.run_events (Examples.codex_stream Examples.codex_silent)
       [Codex.Next; Codex.Next])
  = [EvInit codex None None (Examples.native "thread.started")]
  /\ Codex.phase
       (Codex.run_events (Examples.codex_stream Examples.codex_silent)
          [Codex.Next; Codex.Next])
     = Codex.Ended Codex.Completed.
Proof. vm_compute. auto. Qed.

(** ** [cancelled] without an abort *)

(** C3, at the failing input: nobody aborts the run, and the iteration of
    the Codex SDK fails with an error named [AbortError].  The adapter
    yields [cancelled] and the interrupted [error], although the [aborted]
    flag of the run is still false and its signal was never aborted. *)
Theorem C3_codex_cancelled_without_abort :
  Codex.delivered
    (Codex.run_events (Examples.codex_stream Examples.codex_self_abort)
       [Codex.Next; Codex.Next; Codex.Next; Codex.Next])
  = [EvInit codex None None (Examples.native "thread.started");
     Codex.createCancelledEvent "socket closed";
     Codex.createInterruptedErrorEvent (Some "socket closed")]
  /\ map (fun a => (Codex.aborted a, Codex.controller a))
       (Codex.runs
          (Codex.world
             (Codex.run_events (Examples.codex_stream Examples.codex_self_abort)
                [Codex.Next; Codex.Next; Codex.Next; Codex.Next])))
     = [(false, None)].
Proof. vm_compute. auto. Qed.

(** ** Resume-token resolution *)

Lemma resolve_order (st : Gemini.GeminiThreadState) :
  Gemini.resolveResumeTarget st
  = Gemini.first_present
      [Gemini.resumeToken st; Gemini.id st; resume (Gemini.opts st)].
Proof.
  unfold Gemini.resolveResumeTarget, Gemini.first_present. simpl.
  destruct (truthy_str (Gemini.resumeToken st)); [reflexivity|].
  destruct (truthy_str (Gemini.id st)); [reflexivity|].
  destruct (resume (Gemini.opts st)) as [c|]; simpl; [|reflexivity].
  destruct (nonempty c); reflexivity.
Qed.

(** The resolved token is what [--resume] carries to the CLI. *)
Lemma resume_flag_carries_target (o : StartOpts) (prompt t : string) (f : Gemini.Format) :
  nonempty t = true ->
  exists front, Gemini.buildGeminiArgs o prompt f (Some t) = (front ++ ["--resume"; t])%list.
Proof.
  intros Ht. unfold Gemini.buildGeminiArgs. simpl. rewrite Ht. eauto.
Qed.

Lemma spawn_uses_resolved_target (w : Gemini.World) (prompt : string)
    (mode : Gemini.Format) (ropts : RunOpts) :
  Gemini.runs (fst (Gemini.spawnGeminiProcess w prompt mode ropts))
    !! snd (Gemini.spawnGeminiProcess w prompt mode ropts)
  = Some (Gemini.mkActive
            (Gemini.mkChild
               (Gemini.geminiPath (geminiBinaryPath (Gemini.opts (Gemini.state_of w))))
               (Gemini.buildGeminiArgs (Gemini.opts (Gemini.state_of w)) prompt mode
                  (Gemini.resolveResumeTarget (Gemini.state_of w)))
               None false None true [] false)
            None (signal ropts) false None None None).
Proof.
  unfold Gemini.spawnGeminiProcess. simpl.
  rewrite lookup_app_r by reflexivity. now rewrite Nat.sub_diag.
Qed.

Section SessionKept.

Variable parse : string -> jsval.
Variable stringify : json -> string.

Lemma session_update_run r f w :
  Gemini.session (Gemini.update_run r f w) = Gemini.session w.
Proof. reflexivity. Qed.

Lemma session_abortChild w reason :
  Gemini.session (Gemini.abortChild w reason) = Gemini.session w.
Proof.
  unfold Gemini.abortChild.
  destruct (Gemini.currentRun _); [|reflexivity].
  destruct (_ !! _); [|reflexivity].
  destruct (Gemini.aborted _); reflexivity.
Qed.

Lemma session_external_abort r reason w :
  Gemini.session (Gemini.external_abort r reason w) = Gemini.session w.
Proof.
  unfold Gemini.external_abort.
  destruct (_ !! _) as [a|]; [|reflexivity].
  destruct (Gemini.linked a); [|reflexivity].
  destruct (Gemini.controller a); [reflexivity|].
  now rewrite session_abortChild.
Qed.

Lemma session_cleanup r w :
  Gemini.session (Gemini.cleanup r w) = Gemini.session w.
Proof.
  unfold Gemini.cleanup. rewrite session_update_run.
  destruct (Gemini.currentRun _) as [r'|]; [|reflexivity].
  destruct (Nat.eqb r' r); reflexivity.
Qed.

Lemma session_meanwhile r w m :
  Gemini.session (Gemini.meanwhile_step r w m) = Gemini.session w.
Proof.
  destruct m; simpl.
  - apply session_abortChild.
  - apply session_external_abort.
  - reflexivity.
Qed.

Lemma session_meanwhiles r ms : forall w,
  Gemini.session (fold_left (Gemini.meanwhile_step r) ms w) = Gemini.session w.
Proof.
  induction ms as [|m ms IH]; intros w; simpl; [reflexivity|].
  now rewrite IH, session_meanwhile.
Qed.

Lemma session_finally o s :
  Gemini.session (Gemini.world (Gemini.finally o s)) = Gemini.session (Gemini.world s).
Proof.
  unfold Gemini.finally. simpl.
  destruct (_ && _)%bool; [rewrite session_abortChild|]; apply session_cleanup.
Qed.

Lemma session_resume_with e s :
  Gemini.session (Gemini.world (Gemini.resume_with e s))
  = Gemini.session (Gemini.world s).
Proof.
  destruct e; unfold Gemini.resume_with;
    [reflexivity | apply session_finally | apply session_finally].
Qed.

Lemma session_push e s :
  Gemini.session (Gemini.world (Gemini.push e s)) = Gemini.session (Gemini.world s).
Proof.
  unfold Gemini.push. destruct (Gemini.status s); try reflexivity.
  apply session_resume_with.
Qed.

Lemma session_push_all es : forall s,
  Gemini.session (Gemini.world (Gemini.push_all es s))
  = Gemini.session (Gemini.world s).
Proof.
  induction es as [|e es IH]; intros s; simpl; [reflexivity|].
  unfold Gemini.push_all in *. simpl. now rewrite IH, session_push.
Qed.

(** With an id on the thread and no session id in the payload, nothing is
    captured. *)
Lemma capture_keeps (h : Gemini.ThreadHandle.t) (payload : jsval) :
  truthy_str (Gemini.id (Gemini.ThreadHandle.internal h)) = true ->
  Gemini.extractSessionId payload = None ->
  Gemini.captureGeminiSessionMetadata h payload = h.
Proof.
  intros Hid Hno. unfold Gemini.captureGeminiSessionMetadata. now rewrite Hno, Hid.
Qed.

Lemma resumed_resolves r o w :
  nonempty r = true -> resumed_with r o w ->
  Gemini.resolveResumeTarget (Gemini.state_of w) = Some r.
Proof.
  unfold resumed_with, Gemini.session. intros Hr H. injection H as Hi Ht Ho.
  unfold Gemini.resolveResumeTarget. rewrite Ht. simpl. now rewrite Hr.
Qed.

Lemma same_world (w : Gemini.World) :
  Gemini.mkWorld (Gemini.thread w) (Gemini.runs w) (Gemini.clock w) = w.
Proof. destruct w; reflexivity. Qed.

Opaque Gemini.push_all Gemini.push Gemini.finally Gemini.resume_with.

Lemma step_keeps_session r o (s : Gemini.Stream) (ev : Gemini.Event) :
  nonempty r = true ->
  Gemini.event_without_session_id parse ev ->
  resumed_with r o (Gemini.world s) ->
  resumed_with r o (Gemini.world (Gemini.step parse s ev)).
Proof.
  intros Hr Hev H. unfold resumed_with in *.
  assert (Hw := H). unfold Gemini.session in Hw. injection Hw as Hid Htok Hop.
  destruct ev; simpl.
  - destruct (Gemini.lineOn s); [|exact H]. unfold Gemini.handleLine.
    destruct (Gemini.finished s); [exact H|].
    simpl in Hev. unfold Gemini.line_without_session_id in Hev.
    destruct (parse line) as [event|]; [|exact H].
    rewrite session_push_all. simpl.
    rewrite capture_keeps; [now rewrite same_world| |exact Hev].
    unfold Gemini.state_of in Hid. rewrite Hid. exact Hr.
  - destruct (Gemini.closeOn s); [|exact H]. unfold Gemini.handleClose. simpl.
    destruct (_ || _)%bool; [exact H|]. now rewrite session_push_all.
  - destruct (Gemini.exitOn s); [|exact H]. unfold Gemini.onExit. simpl.
    destruct (Gemini.finished s); [exact H|]. simpl.
    destruct (Gemini.run_aborted _ _); [now rewrite session_push_all|].
    destruct (negb (bool_decide _)); [now rewrite session_push_all|].
    rewrite session_push. simpl.
    unfold Gemini.state_of in *. simpl.
    rewrite Hid, Htok. simpl. rewrite Hr. simpl. exact H.
  - destruct gone; simpl.
    + destruct (Gemini.errorOn s); [|exact H]. unfold Gemini.onError. simpl.
      destruct (Gemini.finished s); [exact H|]. now rewrite session_push_all.
    + destruct (Gemini.errorOn s); [|exact H]. unfold Gemini.onError. simpl.
      destruct (Gemini.finished s); [exact H|]. now rewrite session_push_all.
  - unfold Gemini.interrupt. now rewrite session_abortChild.
  - now rewrite session_external_abort.
  - exact H.
  - unfold Gemini.next. destruct (Gemini.status s); try exact H.
    + destruct (Gemini.queue s); [destruct (Gemini.finished s)|]; simpl;
        try exact H; now rewrite session_resume_with.
    + destruct (Gemini.queue s); [destruct (Gemini.finished s)|]; simpl;
        try exact H; now rewrite session_resume_with.
  - unfold Gemini.abandon. destruct (Gemini.status s); try exact H.
    now rewrite session_finally.
Qed.

Transparent Gemini.push_all Gemini.push Gemini.finally Gemini.resume_with.

Lemma run_events_keep_session r o (evs : list Gemini.Event) : forall s,
  nonempty r = true ->
  Forall (Gemini.event_without_session_id parse) evs ->
  resumed_with r o (Gemini.world s) ->
  resumed_with r o (Gemini.world (Gemini.run_events parse s evs)).
Proof.
  induction evs as [|ev evs IH]; intros s Hr Hall H; simpl; [exact H|].
  inversion Hall; subst. apply IH; auto. now apply step_keeps_session.
Qed.

Lemma after_exit_keeps_session r o run ropts stdout stderr code listing w :
  nonempty r = true ->
  Gemini.extractSessionId (Some (Gemini.parseGeminiJson parse stdout)) = None ->
  resumed_with r o w ->
  resumed_with r o
    (fst (Gemini.after_exit parse run ropts stdout stderr code listing w)).
Proof.
  intros Hr Hno H. unfold Gemini.after_exit.
  destruct (Gemini.run_aborted w run); [exact H|].
  destruct (negb (bool_decide _)); [exact H|].
  assert (Hw := H). unfold resumed_with, Gemini.session, Gemini.state_of in Hw.
  injection Hw as Hid Htok Hop.
  rewrite capture_keeps; [| rewrite Hid; exact Hr | exact Hno].
  rewrite Hid, Htok. simpl. rewrite Hr. simpl. rewrite same_world.
  destruct (Gemini.parseGeminiJson parse stdout); simpl; try exact H;
    destruct (if truthy (outputSchema ropts) then _ else _); exact H.
Qed.

End SessionKept.

Lemma startThread_resumed (defaultOpts opts : StartOpts) (r : string)
    (runs : list Gemini.ActiveRun) (clock : Z) :
  resume (merge_opts defaultOpts opts) = Some r ->
  resumed_with r (merge_opts defaultOpts opts)
    (Gemini.mkWorld (Gemini.startThread defaultOpts opts) runs clock).
Proof.
  intros H.
  unfold resumed_with, Gemini.session, Gemini.startThread, Gemini.state_of,
    Gemini.createThreadHandle.
  cbn -[merge_opts]. now rewrite H.
Qed.

Lemma spawn_keeps_session (w : Gemini.World) (prompt : string) (mode : Gemini.Format)
    (ropts : RunOpts) :
  Gemini.session (fst (Gemini.spawnGeminiProcess w prompt mode ropts))
  = Gemini.session w.
Proof. reflexivity. Qed.

Lemma runInternal_keeps_session (parse : string -> jsval) (stringify : json -> string)
    (r : string) (o : StartOpts) (w : Gemini.World) (input : PromptInput)
    (ropts : RunOpts) (meanwhile : list Gemini.Meanwhile)
    (outcome : Gemini.ChildOutcome) (listing : list Gemini.GeminiSessionEntry) :
  nonempty r = true ->
  Gemini.outcome_without_session_id parse outcome ->
  resumed_with r o w ->
  resumed_with r o
    (fst (Gemini.runInternal parse stringify w input ropts meanwhile outcome listing)).
Proof.
  intros Hr Hno H. unfold Gemini.runInternal.
  destruct (Gemini.assertIdle _); [exact H|].
  unfold Gemini.during.
  destruct (Gemini.spawnGeminiProcess w _ Gemini.json_format ropts) as [w1 run] eqn:Hs.
  assert (H1 : resumed_with r o w1).
  { unfold resumed_with.
    change w1 with (fst (w1, run)). rewrite <- Hs. now rewrite spawn_keeps_session. }
  set (w2 := fold_left (Gemini.meanwhile_step run) meanwhile w1).
  assert (H2 : resumed_with r o w2).
  { unfold resumed_with, w2. now rewrite session_meanwhiles. }
  destruct outcome as [stdout stderr code|e].
  - destruct (Gemini.after_exit parse run ropts stdout stderr code listing _)
      as [w3 res] eqn:Ha.
    simpl. unfold resumed_with. rewrite session_cleanup.
    change w3 with (fst (w3, res)). rewrite <- Ha.
    apply after_exit_keeps_session; auto.
  - simpl. unfold resumed_with. now rewrite session_cleanup.
Qed.

(** C7: the resume token of a Gemini run is the first present one of the
    token cached on the thread state, the thread's session id and the
    [resume] value of the start options, and it is what the [--resume] flag
    hands to the CLI.  A thread started with the resume value [r] still
    resolves to [r] after a first run, non-streamed or streamed, in which no
    native session id showed up. *)
Theorem C7_resume_token_resolution :
  forall (parse : string -> jsval) (stringify : json -> string)
         (defaultOpts opts : StartOpts) (r : string)
         (runs : list Gemini.ActiveRun) (clock : Z),
    resume (merge_opts defaultOpts opts) = Some r ->
    nonempty r = true ->
    (forall st : Gemini.GeminiThreadState,
        Gemini.resolveResumeTarget st
        = Gemini.first_present
            [Gemini.resumeToken st; Gemini.id st; resume (Gemini.opts st)])
    /\ (forall (w : Gemini.World) (prompt : string) (mode : Gemini.Format)
               (ropts : RunOpts),
          option_map (fun a => Gemini.spawnargs (Gemini.child a))
            (Gemini.runs (fst (Gemini.spawnGeminiProcess w prompt mode ropts))
               !! snd (Gemini.spawnGeminiProcess w prompt mode ropts))
          = Some (Gemini.buildGeminiArgs (Gemini.opts (Gemini.state_of w)) prompt mode
                    (Gemini.resolveResumeTarget (Gemini.state_of w))))
    /\ (forall (o : StartOpts) (prompt : string) (mode : Gemini.Format),
          exists front,
            Gemini.buildGeminiArgs o prompt mode (Some r)
            = (front ++ ["--resume"; r])%list)
    /\ (forall (input : PromptInput) (ropts : RunOpts)
               (meanwhile : list Gemini.Meanwhile) (outcome : Gemini.ChildOutcome)
               (listing : list Gemini.GeminiSessionEntry),
          Gemini.outcome_without_session_id parse outcome ->
          Gemini.resolveResumeTarget
            (Gemini.state_of
               (fst (Gemini.runInternal parse stringify
                       (Gemini.mkWorld (Gemini.startThread defaultOpts opts) runs clock)
                       input ropts meanwhile outcome listing)))
          = Some r)
    /\ (forall (input : PromptInput) (ropts : RunOpts) (s0 : Gemini.Stream)
               (evs : list Gemini.Event),
          Gemini.runStreamedInternal stringify
            (Gemini.mkWorld (Gemini.startThread defaultOpts opts) runs clock)
            input ropts = Resolved s0 ->
          Forall (Gemini.event_without_session_id parse) evs ->
          Gemini.resolveResumeTarget
            (Gemini.state_of (Gemini.world (Gemini.run_events parse s0 evs)))
          = Some r).
Proof.
  intros parse stringify defaultOpts opts r runs clock Hres Hr.
  pose proof (startThread_resumed defaultOpts opts r runs clock Hres) as H0.
  split; [exact resolve_order|].
  split; [intros; now rewrite spawn_uses_resolved_target|].
  split; [intros; now apply resume_flag_carries_target|].
  split.
  - intros input ropts meanwhile outcome listing Hno.
    eapply resumed_resolves; [exact Hr|].
    apply runInternal_keeps_session; eauto.
  - intros input ropts s0 evs Hs Hall.
    eapply resumed_resolves; [exact Hr|].
    apply run_events_keep_session; auto.
    unfold Gemini.runStreamedInternal in Hs. simpl in Hs. injection Hs as <-.
    exact H0.
Qed.

Lemma C7_witness :
  resume (merge_opts no_opts (Gemini.with_resume "session-7" no_opts)) = Some "session-7"
  /\ nonempty "session-7" = true
  /\ Gemini.resolveResumeTarget
       (Gemini.state_of
          (fst (Gemini.runInternal Reader.parse Reader.stringify
                  (Gemini.mkWorld
                     (Gemini.startThread no_opts (Gemini.with_resume "session-7" no_opts))
                     [] 0)
                  (PromptText "hi") no_run_opts [] (Gemini.Exited "plain words" "" (Some 0))
                  [Gemini.mkEntry (Finite "3") (Some "listed-session")])))
     = Some "session-7".
Proof.
  split; [reflexivity|]. split; [reflexivity|].
  apply (C7_resume_token_resolution Reader.parse Reader.stringify no_opts
           (Gemini.with_resume "session-7" no_opts) "session-7" [] 0
           eq_refl eq_refl).
  reflexivity.
Defined.

(** ** Structured output *)

Lemma extract_is_span_of_candidate (parse : string -> jsval) (text : string) :
  extractJsonPayload parse (Some text)
  = outermost_span parse
      (match match_fenced text with Some block => block | None => text end).
Proof.
  unfold extractJsonPayload, outermost_span.
  destruct text as [|c rest]; [reflexivity|]. reflexivity.
Qed.

Lemma run_aborted_after_exit (w : Gemini.World) (r : nat) (code : option Z) :
  Gemini.run_aborted
    (Gemini.update_run r (fun a => Gemini.set_child (Gemini.exits code (Gemini.child a)) a) w)
    r
  = Gemini.run_aborted w r.
Proof.
  unfold Gemini.run_aborted, Gemini.update_run. simpl.
  rewrite list_lookup_alter_eq. destruct (Gemini.runs w !! r); reflexivity.
Qed.

(** The result of a non-streamed run on an idle thread whose child exits. *)
Lemma runInternal_exited (parse : string -> jsval) (stringify : json -> string)
    (w : Gemini.World) (input : PromptInput) (ropts : RunOpts)
    (meanwhile : list Gemini.Meanwhile) (stdout stderr : string) (code : option Z)
    (listing : list Gemini.GeminiSessionEntry) :
  Gemini.assertIdle (Gemini.state_of w) = None ->
  snd (Gemini.runInternal parse stringify w input ropts meanwhile
         (Gemini.Exited stdout stderr code) listing)
  = snd (Gemini.after_exit parse (snd (Gemini.during stringify w input ropts meanwhile))
           ropts stdout stderr code listing
           (Gemini.update_run (snd (Gemini.during stringify w input ropts meanwhile))
              (fun a => Gemini.set_child (Gemini.exits code (Gemini.child a)) a)
              (fst (Gemini.during stringify w input ropts meanwhile)))).
Proof.
  intros Hidle. unfold Gemini.runInternal. rewrite Hidle.
  destruct (Gemini.during stringify w input ropts meanwhile) as [w1 r]. simpl.
  destruct (Gemini.after_exit _ _ _ _ _ _ _ _). reflexivity.
Qed.

(** After a clean exit of a run that was not aborted, a payload that is not
    [null] and whose text is a string gives a resolved result, whatever the
    extraction makes of the text. *)
Lemma after_exit_resolves (parse : string -> jsval) (r : nat) (ropts : RunOpts)
    (stdout stderr t : string) (listing : list Gemini.GeminiSessionEntry)
    (w : Gemini.World) :
  Gemini.run_aborted w r = false ->
  Gemini.parseGeminiJson parse stdout <> JNull ->
  get (Some (Gemini.parseGeminiJson parse stdout)) "response"
    ?? get (Some (Gemini.parseGeminiJson parse stdout)) "text" ?? Some (JStr stdout)
  = Some (JStr t) ->
  exists res,
    snd (Gemini.after_exit parse r ropts stdout stderr (Some 0) listing w) = Resolved res
    /\ RunResult.text res = Some (JStr t)
    /\ RunResult.raw res = Some (Gemini.parseGeminiJson parse stdout)
    /\ RunResult.json res
       = (if truthy (outputSchema ropts) then extractJsonPayload parse (Some t) else None)
         ?? get (Some (Gemini.parseGeminiJson parse stdout)) "json".
Proof.
  intros Hab Hnn Htext. unfold Gemini.after_exit. rewrite Hab.
  rewrite bool_decide_eq_true_2 by reflexivity. cbn [negb]. cbv zeta.
  unfold Gemini.str. rewrite Htext.
  assert (Hany : exists v,
             (if truthy (outputSchema ropts)
              then Gemini.extractJsonPayload_any parse (Some (JStr t))
              else Resolved None)
             = Resolved v
             /\ v = (if truthy (outputSchema ropts)
                     then extractJsonPayload parse (Some t) else None)).
  { destruct (truthy (outputSchema ropts)); [|eauto].
    unfold Gemini.extractJsonPayload_any. simpl.
    destruct t as [|c t']; simpl; eauto. }
  destruct Hany as (v & -> & ->).
  destruct (Gemini.parseGeminiJson parse stdout); try congruence;
    eexists; repeat split; reflexivity.
Qed.

Lemma both_attempts_fail (parse : string -> jsval) (text : string) :
  fenced_attempt parse text = None ->
  raw_attempt parse text = None ->
  outermost_span parse (candidate_of text) = None.
Proof.
  unfold fenced_attempt, raw_attempt, candidate_of.
  destruct (match_fenced text); auto.
Qed.

(** C8 as stated fails: the text has a fenced block that holds no JSON and
    an object after the block.  Trying the fenced block and, failing that,
    the raw text would give the object; the code looks at the fenced block
    only and yields nothing. *)
Lemma C8_counterexample :
  fenced_attempt Reader.parse Examples.fenced_prose_then_object = None
  /\ extraction_as_specified Reader.parse Examples.fenced_prose_then_object
     = Some (JObj [("x", JNum (Finite "1"))])
  /\ extractJsonPayload Reader.parse (Some Examples.fenced_prose_then_object) = None.
Proof. vm_compute. auto. Qed.

(** The example of the specification: a fenced block within prose. *)
Example extract_fenced_example :
  extractJsonPayload Reader.parse
    (Some ("Here it is: ```json" ++ newline ++ "{" ++ Reader.q "x" ++ ":1}" ++ newline
           ++ "``` as asked."))
  = Some (JObj [("x", JNum (Finite "1"))]).
Proof. reflexivity. Qed.

(** C8, amended: with an output schema, the extraction takes the fenced
    block tagged as JSON when the text has one and the raw text otherwise,
    and parses the outermost [{...}] span of that one candidate.  For every
    text on which this fails (so whenever both the fenced block and the raw
    text fail) the extraction yields nothing, and the run resolves all the
    same: on Gemini its [json] field is then only what the payload of the
    CLI itself carried, on Codex the result mapped from the summary has no
    [json]. *)
Theorem C8_structured_output_extraction :
  forall (parse : string -> jsval) (stringify : json -> string) (text : string)
         (w : Gemini.World) (input : PromptInput) (ropts : RunOpts)
         (meanwhile : list Gemini.Meanwhile) (stdout stderr : string)
         (listing : list Gemini.GeminiSessionEntry)
         (items : list jsval) (usage : jsval) (threadId : option string),
    outermost_span parse (candidate_of text) = None ->
    Gemini.assertIdle (Gemini.state_of w) = None ->
    Gemini.run_aborted (fst (Gemini.during stringify w input ropts meanwhile))
      (snd (Gemini.during stringify w input ropts meanwhile)) = false ->
    truthy (outputSchema ropts) = true ->
    Gemini.parseGeminiJson parse stdout <> JNull ->
    get (Some (Gemini.parseGeminiJson parse stdout)) "response"
      ?? get (Some (Gemini.parseGeminiJson parse stdout)) "text" ?? Some (JStr stdout)
    = Some (JStr text) ->
    (forall any : string,
        extractJsonPayload parse (Some any) = outermost_span parse (candidate_of any))
    /\ (fenced_attempt parse text = None -> raw_attempt parse text = None ->
        extractJsonPayload parse (Some text) = None)
    /\ extractJsonPayload parse (Some text) = None
    /\ exists res,
         snd (Gemini.runInternal parse stringify w input ropts meanwhile
                (Gemini.Exited stdout stderr (Some 0)) listing) = Resolved res
         /\ RunResult.text res = Some (JStr text)
         /\ RunResult.json res = get (Some (Gemini.parseGeminiJson parse stdout)) "json"
         /\ RunResult.json
              (Codex.mapRunResult parse (Codex.mkSummary items text None usage) threadId)
            = None.
Proof.
  intros parse stringify text w input ropts meanwhile stdout stderr listing
    items usage threadId Hfail Hidle Hab Hschema Hnn Htext.
  assert (Hnone : extractJsonPayload parse (Some text) = None)
    by (rewrite extract_is_span_of_candidate; exact Hfail).
  split; [intros any; apply extract_is_span_of_candidate|].
  split; [intros; exact Hnone|].
  split; [exact Hnone|].
  rewrite runInternal_exited by exact Hidle.
  destruct (after_exit_resolves parse
              (snd (Gemini.during stringify w input ropts meanwhile)) ropts stdout
              stderr text listing
              (Gemini.update_run (snd (Gemini.during stringify w input ropts meanwhile))
                 (fun a => Gemini.set_child (Gemini.exits (Some 0) (Gemini.child a)) a)
                 (fst (Gemini.during stringify w input ropts meanwhile))))
    as (res & Hres & Ht & _ & Hj); auto.
  { now rewrite run_aborted_after_exit. }
  exists res. split; [exact Hres|]. split; [exact Ht|].
  split; [rewrite Hj, Hschema, Hnone; reflexivity|].
  unfold Codex.mapRunResult. simpl. exact Hnone.
Qed.

Lemma C8_witness :
  outermost_span Reader.parse (candidate_of Examples.fenced_prose_then_object) = None
  /\ extractJsonPayload Reader.parse (Some Examples.fenced_prose_then_object) = None
  /\ exists res,
       snd (Gemini.runInternal Reader.parse Reader.stringify Examples.gemini_world
              (PromptText "hi") Examples.schema_opts []
              (Gemini.Exited Examples.fenced_prose_then_object "" (Some 0)) [])
       = Resolved res
       /\ RunResult.text res = Some (JStr Examples.fenced_prose_then_object)
       /\ RunResult.json res
          = get (Some (Gemini.parseGeminiJson Reader.parse
                         Examples.fenced_prose_then_object)) "json"
       /\ RunResult.json
            (Codex.mapRunResult Reader.parse
               (Codex.mkSummary [] Examples.fenced_prose_then_object None None)
               (Some "thread-1"))
          = None.
Proof.
  split; [reflexivity|].
  apply (C8_structured_output_extraction Reader.parse Reader.stringify
           Examples.fenced_prose_then_object Examples.gemini_world (PromptText "hi")
           Examples.schema_opts [] Examples.fenced_prose_then_object "" [] [] None
           (Some "thread-1"));
    try reflexivity.
  vm_compute. discriminate.
Defined.

(** A text with no JSON at all gives nothing, on either attempt. *)
Example extract_nothing_from_prose :
  fenced_attempt Reader.parse "no JSON at all" = None
  /\ raw_attempt Reader.parse "no JSON at all" = None
  /\ extractJsonPayload Reader.parse (Some "no JSON at all") = None.
Proof. vm_compute. auto. Qed.

(** ** Output that is not JSON *)

(** C9 as stated fails for a run that was interrupted: the process exits
    with status 0, its output is no JSON, and the run rejects with the abort
    error. *)
Lemma C9_counterexample :
  ~ (forall (w : Gemini.World) (input : PromptInput) (ropts : RunOpts)
            (meanwhile : list Gemini.Meanwhile) (stdout stderr : string)
            (listing : list Gemini.GeminiSessionEntry),
        Gemini.assertIdle (Gemini.state_of w) = None ->
        Reader.parse stdout = None ->
        exists res,
          snd (Gemini.runInternal Reader.parse Reader.stringify w input ropts meanwhile
                 (Gemini.Exited stdout stderr (Some 0)) listing) = Resolved res
          /\ RunResult.text res = Some (JStr stdout)).
Proof.
  intros H.
  destruct (H Examples.gemini_world (PromptText "hi") no_run_opts
              Examples.interrupted_meanwhile "not json" "" [] eq_refl eq_refl)
    as (res & Hres & _).
  vm_compute in Hres. discriminate.
Qed.

Example interrupted_run_rejects :
  snd (Gemini.runInternal Reader.parse Reader.stringify Examples.gemini_world
         (PromptText "hi") no_run_opts Examples.interrupted_meanwhile
         (Gemini.Exited "not json" "" (Some 0)) [])
  = Rejected (Gemini.createAbortError (Some "stop")).
Proof. reflexivity. Qed.

(** C9, amended: a non-streamed Gemini run that was not aborted, whose
    process exits with status 0 and whose output is not valid JSON, resolves;
    the payload is the output wrapped as [{response: stdout}] and the text of
    the result is the raw output. *)
Theorem C9_output_that_is_not_json :
  forall (parse : string -> jsval) (stringify : json -> string)
         (w : Gemini.World) (input : PromptInput) (ropts : RunOpts)
         (meanwhile : list Gemini.Meanwhile) (stdout stderr : string)
         (listing : list Gemini.GeminiSessionEntry),
    Gemini.assertIdle (Gemini.state_of w) = None ->
    Gemini.run_aborted (fst (Gemini.during stringify w input ropts meanwhile))
      (snd (Gemini.during stringify w input ropts meanwhile)) = false ->
    parse stdout = None ->
    exists res,
      snd (Gemini.runInternal parse stringify w input ropts meanwhile
             (Gemini.Exited stdout stderr (Some 0)) listing) = Resolved res
      /\ RunResult.text res = Some (JStr stdout)
      /\ RunResult.raw res = Some (JObj [("response", JStr stdout)]).
Proof.
  intros parse stringify w input ropts meanwhile stdout stderr listing
    Hidle Hab Hparse.
  rewrite runInternal_exited by exact Hidle.
  assert (Hp : Gemini.parseGeminiJson parse stdout = JObj [("response", JStr stdout)])
    by (unfold Gemini.parseGeminiJson; now rewrite Hparse).
  destruct (after_exit_resolves parse
              (snd (Gemini.during stringify w input ropts meanwhile)) ropts stdout
              stderr stdout listing
              (Gemini.update_run (snd (Gemini.during stringify w input ropts meanwhile))
                 (fun a => Gemini.set_child (Gemini.exits (Some 0) (Gemini.child a)) a)
                 (fst (Gemini.during stringify w input ropts meanwhile))))
    as (res & Hres & Ht & Hraw & _).
  - now rewrite run_aborted_after_exit.
  - rewrite Hp. discriminate.
  - rewrite Hp. reflexivity.
  - exists res. rewrite <- Hp. auto.
Qed.

Lemma C9_witness :
  Gemini.assertIdle (Gemini.state_of Examples.gemini_world) = None
  /\ Reader.parse "plain words, no JSON" = None
  /\ exists res,
       snd (Gemini.runInternal Reader.parse Reader.stringify Examples.gemini_world
              (PromptText "hi") no_run_opts [Gemini.MElapse 40]
              (Gemini.Exited "plain words, no JSON" "" (Some 0)) [])
       = Resolved res
       /\ RunResult.text res = Some (JStr "plain words, no JSON")
       /\ RunResult.raw res = Some (JObj [("response", JStr "plain words, no JSON")]).
Proof.
  split; [reflexivity|]. split; [reflexivity|].
  apply (C9_output_that_is_not_json Reader.parse Reader.stringify
           Examples.gemini_world (PromptText "hi") no_run_opts [Gemini.MElapse 40]
           "plain words, no JSON" "" []); reflexivity.
Defined.

(** ** Exit after the output closed *)

Section QuietRun.

Variable parse : string -> jsval.

Lemma run_events_app (s : Gemini.Stream) (a b : list Gemini.Event) :
  Gemini.run_events parse s (a ++ b)
  = Gemini.run_events parse (Gemini.run_events parse s a) b.
Proof. unfold Gemini.run_events. apply fold_left_app. Qed.

Lemma events_of_lines_app (a b : list Gemini.Event) :
  events_of_lines parse (a ++ b)
  = (events_of_lines parse a ++ events_of_lines parse b)%list.
Proof. unfold events_of_lines. apply flat_map_app. Qed.

(** Pushing events onto a quiet run delivers the first one to a waiting
    consumer and queues the others. *)
Lemma quiet_push_all (evs : list CoderStreamEvent) : forall out s,
  Quiet out s ->
  Quiet (out ++ evs) (Gemini.push_all (map Gemini.Ev evs) s)
  /\ Gemini.world (Gemini.push_all (map Gemini.Ev evs) s) = Gemini.world s
  /\ Gemini.closeOn (Gemini.push_all (map Gemini.Ev evs) s) = Gemini.closeOn s.
Proof.
  induction evs as [|e evs IH]; intros out s H.
  - simpl. rewrite app_nil_r. auto.
  - change (Gemini.push_all (map Gemini.Ev (e :: evs)) s)
      with (Gemini.push_all (map Gemini.Ev evs) (Gemini.push (Gemini.Ev e) s)).
    assert (Hp : Quiet (out ++ [e]) (Gemini.push (Gemini.Ev e) s)
                 /\ Gemini.world (Gemini.push (Gemini.Ev e) s) = Gemini.world s
                 /\ Gemini.closeOn (Gemini.push (Gemini.Ev e) s) = Gemini.closeOn s).
    { destruct H as (Hf & Hl & He & Ha & Hn & queued & Hq & Hout & Hw).
      unfold Gemini.push.
      destruct (Gemini.status s) eqn:Hst; simpl in Hn; try contradiction.
      - unfold Quiet; simpl. repeat split; auto.
        exists (queued ++ [e])%list. rewrite map_app, Hq.
        split; [reflexivity|].
        split; [now rewrite app_assoc, Hout | discriminate].
      - unfold Quiet; simpl. repeat split; auto.
        exists (queued ++ [e])%list. rewrite map_app, Hq.
        split; [reflexivity|].
        split; [now rewrite app_assoc, Hout | discriminate].
      - unfold Quiet; simpl. rewrite (Hw eq_refl) in *. repeat split; auto.
        exists []. simpl in Hq. rewrite Hq. rewrite app_nil_r in Hout. subst out.
        split; [reflexivity|]. split; [now rewrite app_nil_r | discriminate]. }
    destruct Hp as (Hq & Hw & Hc).
    destruct (IH _ _ Hq) as (Hq' & Hw' & Hc').
    rewrite <- app_assoc in Hq'. simpl in Hq'.
    split; [exact Hq'|]. split; congruence.
Qed.

Lemma run_aborted_elapse (ms : Z) (w : Gemini.World) (r : nat) :
  Gemini.run_aborted (Gemini.elapse ms w) r = Gemini.run_aborted w r.
Proof.
  unfold Gemini.run_aborted, Gemini.elapse. simpl. rewrite list_lookup_fmap.
  destruct (Gemini.runs w !! r) as [a|]; [|reflexivity]. simpl.
  unfold Gemini.fire_timers.
  destruct (Gemini.is_due _ (Gemini.softKillTimer a)); simpl;
    destruct (Gemini.is_due _ _); reflexivity.
Qed.

Lemma quiet_step (out : list CoderStreamEvent) (s : Gemini.Stream) (ev : Gemini.Event) :
  quiet ev = true ->
  Quiet out s ->
  Quiet (out ++ events_of_lines parse [ev]) (Gemini.step parse s ev).
Proof.
  intros Hev H. destruct ev; try discriminate; simpl; rewrite ?app_nil_r.
  - (* a line *)
    destruct H as (Hf & Hl & He & Ha & Hn & Hq). rewrite Hl.
    unfold Gemini.handleLine. rewrite Hf.
    destruct (parse line) as [event|]; [|rewrite app_nil_r; repeat split; auto].
    apply quiet_push_all. repeat split; auto.
  - (* the output closes *)
    destruct H as (Hf & Hl & He & Ha & Hn & Hq).
    destruct (Gemini.closeOn s); [|repeat split; auto].
    unfold Gemini.handleClose. simpl. rewrite Hf, Ha. simpl. repeat split; auto.
  - (* time passes *)
    destruct H as (Hf & Hl & He & Ha & Hn & Hq).
    repeat split; auto. simpl. now rewrite run_aborted_elapse.
  - (* the consumer asks for the next event *)
    destruct H as (Hf & Hl & He & Ha & Hn & queued & Hq & Hout & Hw).
    unfold Gemini.next.
    destruct (Gemini.status s) eqn:Hst; simpl in Hn; try contradiction.
    + rewrite Hq, Hf. destruct queued as [|e queued]; simpl.
      * unfold Quiet; simpl. repeat split; auto. exists []. auto.
      * unfold Quiet; simpl. repeat split; auto. exists queued.
        split; [reflexivity|]. split; [now rewrite <- app_assoc | discriminate].
    + rewrite Hq, Hf. destruct queued as [|e queued]; simpl.
      * unfold Quiet; simpl. repeat split; auto. exists []. auto.
      * unfold Quiet; simpl. repeat split; auto. exists queued.
        split; [reflexivity|]. split; [now rewrite <- app_assoc | discriminate].
    + unfold Quiet. rewrite Hst. repeat split; auto. exists queued. auto.
Qed.

Lemma quiet_run (evs : list Gemini.Event) : forall out s,
  forallb quiet evs = true ->
  Quiet out s ->
  Quiet (out ++ events_of_lines parse evs) (Gemini.run_events parse s evs).
Proof.
  induction evs as [|ev evs IH]; intros out s Hall H.
  - simpl. now rewrite app_nil_r.
  - simpl in Hall. apply andb_true_iff in Hall as [Hev Hall].
    change (ev :: evs) with ([ev] ++ evs)%list.
    rewrite events_of_lines_app, app_assoc. simpl.
    apply IH; [exact Hall|]. now apply quiet_step.
Qed.

End QuietRun.

Section ExitAfterClose.

Variable parse : string -> jsval.
Variable stringify : json -> string.

Lemma ended_ignores_next (s : Gemini.Stream) (o : Gemini.Outcome) (k : nat) :
  Gemini.status s = Gemini.Ended o ->
  Gemini.run_events parse s (repeat Gemini.Next k) = s.
Proof.
  intros H. induction k as [|k IH]; [reflexivity|].
  simpl. unfold Gemini.next. rewrite H. exact IH.
Qed.

(** Reading a queue of events that ends in an error: the events are
    delivered, then the iteration throws. *)
Lemma drain_to_error (e : JsError) (rest : list Gemini.Entry)
    (queued : list CoderStreamEvent) : forall s,
  Gemini.status s = Gemini.NotStarted \/ Gemini.status s = Gemini.Suspended ->
  Gemini.queue s = (map Gemini.Ev queued ++ Gemini.Err e :: rest)%list ->
  Gemini.status
    (Gemini.run_events parse s (repeat Gemini.Next (length queued + 1)))
  = Gemini.Ended (Gemini.Threw e)
  /\ Gemini.delivered
       (Gemini.run_events parse s (repeat Gemini.Next (length queued + 1)))
     = (Gemini.delivered s ++ queued)%list.
Proof.
  induction queued as [|x queued IH]; intros s Hst Hq.
  - simpl in *. unfold Gemini.next.
    destruct Hst as [-> | ->]; rewrite Hq; simpl; now rewrite app_nil_r.
  - simpl in Hq. simpl.
    assert (Hn : Gemini.status (Gemini.next s) = Gemini.Suspended
                 /\ Gemini.queue (Gemini.next s)
                    = (map Gemini.Ev queued ++ Gemini.Err e :: rest)%list
                 /\ Gemini.delivered (Gemini.next s) = (Gemini.delivered s ++ [x])%list).
    { unfold Gemini.next. destruct Hst as [-> | ->]; rewrite Hq; simpl; auto. }
    destruct Hn as (H1 & H2 & H3).
    destruct (IH (Gemini.next s) (or_intror H1) H2) as (Ha & Hb).
    split; [exact Ha|]. rewrite Hb, H3, <- app_assoc. reflexivity.
Qed.

Lemma run_aborted_exits (w : Gemini.World) (r : nat) (code : option Z) :
  Gemini.run_aborted
    (Gemini.update_run r
       (fun a => Gemini.set_child (Gemini.exits code (Gemini.child a)) a) w) r
  = Gemini.run_aborted w r.
Proof. apply run_aborted_after_exit. Qed.

(** The exit with a status other than 0 on a quiet run: the error reaches a
    waiting consumer at once, or stands in the queue behind the events that
    are still to be read. *)
Lemma exit_on_quiet (out : list CoderStreamEvent) (s : Gemini.Stream)
    (code : option Z) (listing : list Gemini.GeminiSessionEntry) :
  code <> Some 0 ->
  Quiet out s ->
  (Gemini.status (Gemini.step parse s (Gemini.Exit code listing))
   = Gemini.Ended (Gemini.Threw (exit_error code))
   /\ Gemini.delivered (Gemini.step parse s (Gemini.Exit code listing)) = out)
  \/ ((Gemini.status (Gemini.step parse s (Gemini.Exit code listing)) = Gemini.NotStarted
       \/ Gemini.status (Gemini.step parse s (Gemini.Exit code listing))
          = Gemini.Suspended)
      /\ exists queued,
           Gemini.queue (Gemini.step parse s (Gemini.Exit code listing))
           = (map Gemini.Ev queued
              ++ [Gemini.Err (exit_error code); Gemini.DONE])%list
           /\ (Gemini.delivered (Gemini.step parse s (Gemini.Exit code listing))
               ++ queued)%list = out).
Proof.
  intros Hcode (Hf & Hl & He & Ha & Hn & queued & Hq & Hout & Hw).
  simpl. rewrite He. unfold Gemini.onExit. simpl. rewrite Hf. simpl.
  rewrite run_aborted_exits, Ha.
  rewrite bool_decide_eq_false_2 by exact Hcode. simpl.
  unfold Gemini.push at 2. simpl.
  destruct (Gemini.status s) eqn:Hst; simpl in Hn; try contradiction.
  - right. unfold Gemini.push; simpl. split; [auto|].
    exists queued. rewrite Hq, <- app_assoc. auto.
  - right. unfold Gemini.push; simpl. split; [auto|].
    exists queued. rewrite Hq, <- app_assoc. auto.
  - left. unfold Gemini.push; simpl. rewrite (Hw eq_refl) in Hout.
    rewrite app_nil_r in Hout. auto.
Qed.

Lemma stream_starts_quiet (w : Gemini.World) (input : PromptInput) (ropts : RunOpts)
    (s0 : Gemini.Stream) :
  Gemini.runStreamedInternal stringify w input ropts = Resolved s0 ->
  Quiet [] s0.
Proof.
  unfold Gemini.runStreamedInternal.
  destruct (Gemini.assertIdle _); [discriminate|].
  simpl. intros H. injection H as <-.
  unfold Quiet. simpl. repeat split; auto.
  - unfold Gemini.run_aborted. simpl.
    rewrite list_lookup_middle by reflexivity. reflexivity.
  - exists []. auto.
Qed.

(** The non-streamed path: a run that was not aborted and whose process
    exits with a status other than 0 rejects with the exit error. *)
Lemma runInternal_bad_exit (w : Gemini.World) (input : PromptInput) (ropts : RunOpts)
    (meanwhile : list Gemini.Meanwhile) (stdout stderr : string) (code : option Z)
    (listing : list Gemini.GeminiSessionEntry) :
  Gemini.assertIdle (Gemini.state_of w) = None ->
  Gemini.run_aborted (fst (Gemini.during stringify w input ropts meanwhile))
    (snd (Gemini.during stringify w input ropts meanwhile)) = false ->
  code <> Some 0 ->
  snd (Gemini.runInternal parse stringify w input ropts meanwhile
         (Gemini.Exited stdout stderr code) listing)
  = Rejected (new_Error ("gemini exited with code " ++ show_code code ++ ": " ++ stderr)).
Proof.
  intros Hidle Hab Hcode. rewrite runInternal_exited by exact Hidle.
  unfold Gemini.after_exit. rewrite run_aborted_after_exit, Hab.
  now rewrite bool_decide_eq_false_2 by exact Hcode.
Qed.

End ExitAfterClose.

(** C2: a Gemini run is not aborted, its output closes, and afterwards its
    process exits with a status other than 0 (or on a signal, status
    [null]).  The close of the output ends nothing: the stream is not
    finished, the iteration is not over, and only events of output lines are
    delivered or queued.  After the exit a consumer that reads on receives
    the events of the lines and then the thrown exit error: the iteration
    never completes normally.  The non-streamed run rejects with the exit
    error. *)
Theorem C2_exit_after_close_is_an_error :
  forall (parse : string -> jsval) (stringify : json -> string)
         (w : Gemini.World) (input : PromptInput) (ropts : RunOpts)
         (s0 : Gemini.Stream) (before between : list Gemini.Event)
         (code : option Z) (listing : list Gemini.GeminiSessionEntry)
         (meanwhile : list Gemini.Meanwhile) (stdout stderr : string),
    Gemini.runStreamedInternal stringify w input ropts = Resolved s0 ->
    forallb quiet before = true ->
    forallb quiet between = true ->
    code <> Some 0 ->
    (Gemini.finished (Gemini.run_events parse s0 (before ++ [Gemini.Close])) = false
     /\ not_ended (Gemini.status (Gemini.run_events parse s0 (before ++ [Gemini.Close])))
     /\ exists queued,
          Gemini.queue (Gemini.run_events parse s0 (before ++ [Gemini.Close]))
          = map Gemini.Ev queued
          /\ (Gemini.delivered (Gemini.run_events parse s0 (before ++ [Gemini.Close]))
              ++ queued)%list = events_of_lines parse before)
    /\ (exists n, forall m, (n <= m)%nat ->
          Gemini.status
            (Gemini.run_events parse s0
               (before ++ Gemini.Close :: between
                ++ Gemini.Exit code listing :: repeat Gemini.Next m))
          = Gemini.Ended (Gemini.Threw (exit_error code))
          /\ Gemini.delivered
               (Gemini.run_events parse s0
                  (before ++ Gemini.Close :: between
                   ++ Gemini.Exit code listing :: repeat Gemini.Next m))
             = events_of_lines parse (before ++ between))
    /\ (Gemini.run_aborted (fst (Gemini.during stringify w input ropts meanwhile))
          (snd (Gemini.during stringify w input ropts meanwhile)) = false ->
        snd (Gemini.runInternal parse stringify w input ropts meanwhile
               (Gemini.Exited stdout stderr code) listing)
        = Rejected (new_Error ("gemini exited with code " ++ show_code code
                               ++ ": " ++ stderr))).
Proof.
  intros parse stringify w input ropts s0 before between code listing meanwhile
    stdout stderr Hs Hb Hbt Hcode.
  pose proof (stream_starts_quiet stringify w input ropts s0 Hs) as H0.
  assert (H1 : Quiet (events_of_lines parse before)
                 (Gemini.run_events parse s0 (before ++ [Gemini.Close]))).
  { replace (events_of_lines parse before)
      with ([] ++ events_of_lines parse (before ++ [Gemini.Close]))%list
      by (rewrite events_of_lines_app; simpl; now rewrite app_nil_r).
    apply quiet_run; [|exact H0].
    rewrite forallb_app, Hb. reflexivity. }
  split; [|split].
  - destruct H1 as (Hf & _ & _ & _ & Hn & queued & Hq & Hout & _).
    split; [exact Hf|]. split; [exact Hn|]. exists queued. auto.
  - assert (H2 : Quiet (events_of_lines parse (before ++ between))
                   (Gemini.run_events parse s0 (before ++ Gemini.Close :: between))).
    { change (before ++ Gemini.Close :: between)%list
        with (before ++ [Gemini.Close] ++ between)%list.
      rewrite app_assoc, run_events_app, (events_of_lines_app parse before between).
      apply quiet_run; assumption. }
    set (s2 := Gemini.run_events parse s0 (before ++ Gemini.Close :: between)) in *.
    assert (Hsplit : forall m,
               Gemini.run_events parse s0
                 (before ++ Gemini.Close :: between
                  ++ Gemini.Exit code listing :: repeat Gemini.Next m)
               = Gemini.run_events parse
                   (Gemini.step parse s2 (Gemini.Exit code listing))
                   (repeat Gemini.Next m)).
    { intros m. unfold s2.
      change (before ++ Gemini.Close :: between
              ++ Gemini.Exit code listing :: repeat Gemini.Next m)%list
        with (before ++ (Gemini.Close :: between)
              ++ Gemini.Exit code listing :: repeat Gemini.Next m)%list.
      rewrite app_assoc, run_events_app. reflexivity. }
    destruct (exit_on_quiet parse _ s2 code listing Hcode H2)
      as [(Hst & Hd) | (Hst & queued & Hq & Hd)].
    + exists 0%nat. intros m _. rewrite Hsplit.
      rewrite (ended_ignores_next parse _ _ m Hst). auto.
    + exists (length queued + 1)%nat. intros m Hm. rewrite Hsplit.
      replace m with ((length queued + 1) + (m - (length queued + 1)))%nat by lia.
      rewrite repeat_app, run_events_app.
      destruct (drain_to_error parse (exit_error code) [Gemini.DONE] queued _ Hst Hq)
        as (Ha & Hb').
      rewrite (ended_ignores_next parse _ _ _ Ha).
      split; [exact Ha|]. now rewrite Hb', Hd.
  - intros Hab. apply runInternal_bad_exit; auto.
    unfold Gemini.runStreamedInternal in Hs.
    destruct (Gemini.assertIdle _); [discriminate|reflexivity].
Qed.

Lemma C2_witness :
  Gemini.runStreamedInternal Reader.stringify Examples.gemini_world (PromptText "hi")
    no_run_opts = Resolved Examples.gemini_stream
  /\ exists n, forall m, (n <= m)%nat ->
       Gemini.status
         (Gemini.run_events Reader.parse Examples.gemini_stream
            ([Gemini.Next; Gemini.Line (Examples.line "message")]
             ++ Gemini.Close :: [Gemini.Elapse 2]
             ++ Gemini.Exit (Some 1) [] :: repeat Gemini.Next m))
       = Gemini.Ended (Gemini.Threw (exit_error (Some 1)))
       /\ Gemini.delivered
            (Gemini.run_events Reader.parse Examples.gemini_stream
               ([Gemini.Next; Gemini.Line (Examples.line "message")]
                ++ Gemini.Close :: [Gemini.Elapse 2]
                ++ Gemini.Exit (Some 1) [] :: repeat Gemini.Next m))
          = events_of_lines Reader.parse
              ([Gemini.Next; Gemini.Line (Examples.line "message")]
               ++ [Gemini.Elapse 2]).
Proof.
  split; [reflexivity|].
  apply (C2_exit_after_close_is_an_error Reader.parse Reader.stringify
           Examples.gemini_world (PromptText "hi") no_run_opts Examples.gemini_stream
           [Gemini.Next; Gemini.Line (Examples.line "message")] [Gemini.Elapse 2]
           (Some 1) [] [] "" "");
    [reflexivity | reflexivity | reflexivity | discriminate].
Defined.

(** The scenario of the specification: a line, the close of the output, and
    the exit with status 1 two ticks later. *)
Example exit_one_after_close :
  Gemini.status
    (Gemini.run_events Reader.parse Examples.gemini_stream
       [Gemini.Next; Gemini.Line (Examples.line "message"); Gemini.Close;
        Gemini.Elapse 1; Gemini.Elapse 1; Gemini.Exit (Some 1) []; Gemini.Next])
  = Gemini.Ended (Gemini.Threw (new_Error "gemini exited with code 1")).
Proof. reflexivity. Qed.

(** ** Terminal outcomes of a streamed run *)

Lemma plain_is_shaped (d : list CoderStreamEvent) :
  Forall not_cancelled d -> cancel_pair_last d.
Proof. intros H. exists d, []. rewrite app_nil_r. auto. Qed.

Lemma rest_is_shaped (d : list CoderStreamEvent) (q : list Gemini.Entry) :
  Rest d q -> cancel_pair_last d.
Proof.
  intros [(H & _) | [(b & c & e & -> & Hb & Hc & He & _)
                    | (b & c & e & -> & Hb & Hc & He & _)]].
  - now apply plain_is_shaped.
  - exists b, [c]. split; [reflexivity|]. split; [exact Hb|]. right. exists c, e. auto.
  - exists b, [c; e]. split; [reflexivity|]. split; [exact Hb|]. right.
    exists c, e. auto.
Qed.

Lemma shaped_delivered (v : View) : Shaped v -> cancel_pair_last (v_delivered v).
Proof.
  unfold Shaped. destruct (v_status v); try (intros H; exact H);
    intros (_ & H); destruct (v_finished v);
    try (now apply rest_is_shaped in H); now apply plain_is_shaped.
Qed.

(** Pushing an event that is no [cancelled] onto a view that is not finished. *)
Lemma shaped_push_plain (e : CoderStreamEvent) (v : View) :
  not_cancelled e -> v_finished v = false -> Shaped v ->
  Shaped (v_push (Gemini.Ev e) v) /\ v_finished (v_push (Gemini.Ev e) v) = false.
Proof.
  intros He Hf H. destruct v as [st q fin d]. simpl in Hf. subst fin.
  unfold Shaped, v_push in *. simpl in *.
  destruct st; simpl in *.
  - destruct H as (Hw & Hd & evs & -> & Hevs). split; [|reflexivity].
    split; [discriminate|]. split; [exact Hd|]. exists (evs ++ [e])%list.
    rewrite map_app. split; [reflexivity|]. apply Forall_app. auto.
  - destruct H as (Hw & Hd & evs & -> & Hevs). split; [|reflexivity].
    split; [discriminate|]. split; [exact Hd|]. exists (evs ++ [e])%list.
    rewrite map_app. split; [reflexivity|]. apply Forall_app. auto.
  - destruct H as (Hw & Hd & evs & Hq & Hevs). split; [|reflexivity].
    rewrite (Hw eq_refl) in *. split; [discriminate|].
    split; [apply Forall_app; auto|]. exists []. auto.
  - split; [exact H|reflexivity].
Qed.

Lemma shaped_push_plains (evs : list CoderStreamEvent) : forall v,
  Forall not_cancelled evs -> v_finished v = false -> Shaped v ->
  Shaped (v_push_all (map Gemini.Ev evs) v).
Proof.
  induction evs as [|e evs IH]; intros v Hall Hf H; [exact H|].
  inversion Hall as [|? ? Hx Hxs]; subst. simpl.
  destruct (shaped_push_plain e v) as (Hs1 & Hs2); auto.
Qed.

(** The controller finishes the stream. *)
Lemma shaped_finish (tl : list Gemini.Entry) (v : View) :
  Tail tl -> v_finished v = false -> Shaped v -> Shaped (v_push_all tl (v_finish v)).
Proof.
  intros Ht Hf H. destruct v as [st q fin d]. simpl in Hf. subst fin.
  unfold Shaped in H. simpl in H.
  destruct st.
  - destruct H as (_ & Hd & evs & -> & Hevs).
    destruct Ht; unfold Shaped; simpl; (split; [discriminate|]); left;
      (split; [exact Hd|]); exists evs; eexists;
      (split; [rewrite <- ?app_assoc; reflexivity|]); (split; [exact Hevs|]);
      constructor; auto.
  - destruct H as (_ & Hd & evs & -> & Hevs).
    destruct Ht; unfold Shaped; simpl; (split; [discriminate|]); left;
      (split; [exact Hd|]); exists evs; eexists;
      (split; [rewrite <- ?app_assoc; reflexivity|]); (split; [exact Hevs|]);
      constructor; auto.
  - destruct H as (Hw & Hd & evs & Hq & Hevs). rewrite (Hw eq_refl) in *.
    destruct Ht; unfold Shaped; simpl.
    + split; [discriminate|]. right. left. exists d, c, e. auto.
    + now apply plain_is_shaped.
    + now apply plain_is_shaped.
  - destruct Ht; unfold Shaped; simpl; exact H.
Qed.

Lemma shaped_next (v : View) : Shaped v -> Shaped (v_next v).
Proof.
  intros H. destruct v as [st q fin d].
  assert (Hmain : (st = Gemini.NotStarted \/ st = Gemini.Suspended) ->
                  Shaped (v_next (mkView st q fin d))).
  { intros Hst.
    assert (Hb : (if fin then Rest d q
                  else Forall not_cancelled d
                       /\ exists evs, q = map Gemini.Ev evs /\ Forall not_cancelled evs)).
    { destruct Hst as [-> | ->]; exact (proj2 H). }
    assert (Hn : v_next (mkView st q fin d)
                 = match q with
                   | entry :: rest => v_resume entry (mkView st rest fin d)
                   | [] => if fin then v_resume Gemini.DONE (mkView st q fin d)
                           else mkView Gemini.Waiting [] fin d
                   end)
      by (destruct Hst as [-> | ->]; reflexivity).
    rewrite Hn. clear Hn H.
    destruct fin.
    - destruct Hb as [(Hd & evs & tl & -> & Hevs & Ht)
                     | [(b & c & e & -> & Hbf & Hc & He & ->)
                       | (b & c & e & -> & Hbf & Hc & He & ->)]].
      + destruct evs as [|x evs]; simpl.
        * destruct Ht; simpl; unfold Shaped; simpl.
          -- split; [discriminate|]. right. left. exists d, c, e. auto.
          -- now apply plain_is_shaped.
          -- now apply plain_is_shaped.
        * inversion Hevs; subst. unfold Shaped; simpl. split; [discriminate|].
          left. split; [apply Forall_app; auto|]. exists evs, tl. auto.
      + simpl. unfold Shaped; simpl. split; [discriminate|]. right. right.
        exists b, c, e. rewrite <- app_assoc. auto.
      + simpl. unfold Shaped; simpl. exists b, [c; e]. split; [reflexivity|].
        split; [exact Hbf|]. right. exists c, e. auto.
    - destruct Hb as (Hd & evs & -> & Hevs).
      destruct evs as [|x evs]; simpl.
      + unfold Shaped; simpl. split; [reflexivity|]. split; [exact Hd|].
        exists []. auto.
      + inversion Hevs; subst. unfold Shaped; simpl. split; [discriminate|].
        split; [apply Forall_app; auto|]. exists evs. auto. }
  destruct st; [apply Hmain; auto | apply Hmain; auto | exact H | exact H].
Qed.

Lemma shaped_abandon (v : View) : Shaped v -> Shaped (v_abandon v).
Proof.
  intros H. pose proof (shaped_delivered v H) as Hd.
  destruct v as [st q fin d]. destruct st; try exact H; exact Hd.
Qed.

Lemma vstep_shaped (v v' : View) : vstep v v' -> Shaped v -> Shaped v'.
Proof.
  intros Hs H. destruct Hs.
  - exact H.
  - now apply shaped_push_plains.
  - now apply shaped_finish.
  - now apply shaped_next.
  - now apply shaped_abandon.
Qed.

(** The normaliser of the Gemini adapter never makes a [cancelled] event. *)
Lemma gemini_normalize_not_cancelled (ev : jsval) :
  Forall not_cancelled (Gemini.normalizeGeminiEvent ev).
Proof.
  unfold Gemini.normalizeGeminiEvent, not_cancelled.
  repeat match goal with
         | |- context [if ?c then _ else _] => destruct c
         end;
    repeat constructor; discriminate.
Qed.

Lemma view_push (e : Gemini.Entry) (s : Gemini.Stream) :
  view (Gemini.push e s) = v_push e (view s).
Proof.
  destruct s as [w a q fin lo co eo ero st d].
  unfold Gemini.push, v_push. simpl.
  destruct st; try reflexivity. destruct e; reflexivity.
Qed.

Lemma view_push_all (es : list Gemini.Entry) : forall s,
  view (Gemini.push_all es s) = v_push_all es (view s).
Proof.
  induction es as [|e es IH]; intros s; [reflexivity|].
  change (Gemini.push_all (e :: es) s) with (Gemini.push_all es (Gemini.push e s)).
  rewrite IH, view_push. reflexivity.
Qed.

Lemma view_next (s : Gemini.Stream) : view (Gemini.next s) = v_next (view s).
Proof.
  destruct s as [w a q fin lo co eo ero st d].
  unfold Gemini.next, v_next. simpl.
  destruct st; try reflexivity;
    (destruct q as [|e q]; [destruct fin; reflexivity | destruct e; reflexivity]).
Qed.

Lemma view_abandon (s : Gemini.Stream) : view (Gemini.abandon s) = v_abandon (view s).
Proof.
  destruct s as [w a q fin lo co eo ero st d].
  unfold Gemini.abandon, v_abandon. simpl. destruct st; reflexivity.
Qed.

Lemma cancelled_tail_is_tail (s : Gemini.Stream) : Tail (Gemini.cancelled_tail s).
Proof. unfold Gemini.cancelled_tail. now constructor. Qed.

(** Every step of the streamed run is a move of its view. *)
Opaque Gemini.push_all Gemini.push.

Lemma step_is_vstep (parse : string -> jsval) (s : Gemini.Stream) (ev : Gemini.Event) :
  vstep (view s) (view (Gemini.step parse s ev)).
Proof.
  destruct s as [w a q fin lo co eo ero st d].
  change (view (Gemini.mkStream w a q fin lo co eo ero st d))
    with (mkView st q fin d).
  destruct ev; simpl.
  - destruct lo; [|apply vstep_same]. unfold Gemini.handleLine. simpl.
    destruct fin; [apply vstep_same|].
    destruct (parse line) as [event|]; [|apply vstep_same].
    rewrite view_push_all.
    apply (vstep_line (mkView st q false d));
      [reflexivity|apply gemini_normalize_not_cancelled].
  - destruct co; [|apply vstep_same]. unfold Gemini.handleClose. simpl.
    destruct fin; simpl; [apply vstep_same|].
    destruct (negb _); [apply vstep_same|].
    rewrite view_push_all.
    apply (vstep_finish (mkView st q false d));
      [reflexivity|apply cancelled_tail_is_tail].
  - destruct eo; [|apply vstep_same]. unfold Gemini.onExit. simpl.
    destruct fin; simpl; [apply vstep_same|].
    destruct (Gemini.run_aborted _ _).
    + rewrite view_push_all.
      apply (vstep_finish (mkView st q false d));
        [reflexivity|apply cancelled_tail_is_tail].
    + destruct (negb _).
      * rewrite view_push_all.
        apply (vstep_finish (mkView st q false d)); [reflexivity|constructor].
      * rewrite view_push.
        apply (vstep_finish (mkView st q false d) [Gemini.DONE]);
          [reflexivity|constructor].
  - destruct gone; simpl;
      (destruct ero; [|apply vstep_same]; unfold Gemini.onError; simpl;
       destruct fin; [apply vstep_same|];
       rewrite view_push_all;
       apply (vstep_finish (mkView st q false d)); [reflexivity|constructor]).
  - apply vstep_same.
  - apply vstep_same.
  - apply vstep_same.
  - rewrite view_next. apply vstep_next.
  - rewrite view_abandon. apply vstep_abandon.
Qed.

Transparent Gemini.push_all Gemini.push.

Lemma run_events_shaped (parse : string -> jsval) (evs : list Gemini.Event) :
  forall s, Shaped (view s) -> Shaped (view (Gemini.run_events parse s evs)).
Proof.
  induction evs as [|ev evs IH]; intros s H; [exact H|].
  simpl. apply IH. eapply vstep_shaped; [apply step_is_vstep|exact H].
Qed.

(** Once the iteration is over, nothing more is delivered. *)
Lemma v_push_all_ended (es : list Gemini.Entry) : forall v o,
  v_status v = Gemini.Ended o ->
  v_status (v_push_all es v) = Gemini.Ended o
  /\ v_delivered (v_push_all es v) = v_delivered v.
Proof.
  induction es as [|e es IH]; intros v o H; [auto|].
  simpl. destruct (IH (v_push e v) o) as (Ha & Hb).
  - unfold v_push. rewrite H. reflexivity.
  - split; [exact Ha|]. rewrite Hb. unfold v_push. rewrite H. reflexivity.
Qed.

Lemma vstep_ended (v v' : View) (o : Gemini.Outcome) :
  vstep v v' -> v_status v = Gemini.Ended o ->
  v_status v' = Gemini.Ended o /\ v_delivered v' = v_delivered v.
Proof.
  intros Hs H. destruct Hs.
  - auto.
  - now apply v_push_all_ended.
  - now apply (v_push_all_ended tl (v_finish v) o).
  - unfold v_next. rewrite H. auto.
  - unfold v_abandon. rewrite H. auto.
Qed.

Lemma run_events_ended (parse : string -> jsval) (evs : list Gemini.Event) :
  forall s o,
    Gemini.status s = Gemini.Ended o ->
    Gemini.status (Gemini.run_events parse s evs) = Gemini.Ended o
    /\ Gemini.delivered (Gemini.run_events parse s evs) = Gemini.delivered s.
Proof.
  induction evs as [|ev evs IH]; intros s o H; [auto|].
  simpl. destruct (vstep_ended _ _ o (step_is_vstep parse s ev) H) as (Ha & Hb).
  destruct (IH (Gemini.step parse s ev) o Ha) as (Hc & Hd).
  split; [exact Hc|]. rewrite Hd. exact Hb.
Qed.

(** *** The Codex generator *)

Lemma codex_normalize_not_cancelled (ev : jsval) :
  Forall not_cancelled (Codex.normalizeCodexEvent ev).
Proof.
  unfold Codex.normalizeCodexEvent, not_cancelled.
  repeat match goal with
         | |- context [if ?c then _ else _] => destruct c
         end;
    repeat constructor; discriminate.
Qed.

Lemma codex_finally_shaped (completed threw : bool) (o : Codex.Outcome)
    (s : Codex.Stream) :
  cancel_pair_last (Codex.delivered s) ->
  CodexShaped (Codex.finally completed threw o s).
Proof. intros H. exact H. Qed.

Lemma codex_catch_shaped (t : Codex.Thrown) (s : Codex.Stream) :
  Forall not_cancelled (Codex.delivered s) -> CodexShaped (Codex.catch t s).
Proof.
  intros H. unfold Codex.catch. destruct (Codex.isAbortError t).
  - unfold CodexShaped. simpl.
    set (reason := default "Interrupted" _).
    exists (Codex.delivered s), (Codex.createCancelledEvent reason),
      (Codex.createInterruptedErrorEvent (Some reason)).
    split; [exact H|]. split; [reflexivity|]. split; [reflexivity|].
    left. split; reflexivity.
  - apply codex_finally_shaped. now apply plain_is_shaped.
Qed.

Lemma codex_pump_shaped (evs : list jsval) : forall s,
  Forall not_cancelled (Codex.delivered s) -> CodexShaped (Codex.pump evs s).
Proof.
  induction evs as [|ev evs IH]; intros s H; simpl.
  - destruct (Codex.ending (Codex.backend s)).
    + now apply codex_catch_shaped.
    + apply codex_finally_shaped. now apply plain_is_shaped.
  - pose proof (codex_normalize_not_cancelled ev) as Hn.
    destruct (Codex.normalizeCodexEvent ev) as [|e more]; [now apply IH|].
    inversion Hn as [|? ? He Hmore]; subst.
    unfold CodexShaped. simpl. split; [apply Forall_app; auto|exact Hmore].
Qed.

Lemma codex_shaped_delivered (s : Codex.Stream) :
  CodexShaped s -> cancel_pair_last (Codex.delivered s).
Proof.
  unfold CodexShaped. destruct (Codex.phase s).
  - intros ->. now apply plain_is_shaped.
  - intros (H & _). now apply plain_is_shaped.
  - intros (b & c & e & Hb & Hc & He & [(-> & _) | (-> & _)]).
    + exists b, [c]. split; [reflexivity|]. split; [exact Hb|]. right.
      exists c, e. auto.
    + exists b, [c; e]. split; [reflexivity|]. split; [exact Hb|]. right.
      exists c, e. auto.
  - auto.
Qed.

Lemma codex_step_shaped (s : Codex.Stream) (ev : Codex.Event) :
  CodexShaped s -> CodexShaped (Codex.step s ev).
Proof.
  intros H. destruct ev; simpl; try exact H.
  - (* the consumer asks for the next event *)
    unfold Codex.next. unfold CodexShaped in H.
    destruct (Codex.phase s) eqn:Hph.
    + destruct (Codex.createThread_throws _).
      * apply codex_catch_shaped. rewrite H. constructor.
      * destruct (Codex.runStreamed_throws _).
        -- apply codex_catch_shaped. simpl. rewrite H. constructor.
        -- apply codex_pump_shaped. simpl. rewrite H. constructor.
    + destruct H as (Hd & Hb).
      destruct (Codex.buffer s) as [|e more].
      * now apply codex_pump_shaped.
      * inversion Hb as [|? ? He Hmore]; subst.
        unfold CodexShaped. simpl. split; [apply Forall_app; auto|exact Hmore].
    + destruct H as (b & c & e & Hb & Hc & He & [(Hd & Hbuf) | (Hd & Hbuf)]);
        rewrite Hbuf.
      * unfold CodexShaped. simpl. exists b, c, e. split; [exact Hb|].
        split; [exact Hc|]. split; [exact He|]. right.
        rewrite Hd, <- app_assoc. auto.
      * apply codex_finally_shaped. rewrite Hd. exists b, [c; e].
        split; [reflexivity|]. split; [exact Hb|]. right. exists c, e. auto.
    + unfold CodexShaped. rewrite Hph. exact H.
  - (* the consumer leaves *)
    pose proof (codex_shaped_delivered s H) as Hd.
    unfold Codex.abandon. destruct (Codex.phase s) eqn:Hph.
    + exact Hd.
    + now apply codex_finally_shaped.
    + now apply codex_finally_shaped.
    + exact H.
Qed.

Lemma codex_run_events_shaped (evs : list Codex.Event) : forall s,
  CodexShaped s -> CodexShaped (Codex.run_events s evs).
Proof.
  induction evs as [|ev evs IH]; intros s H; [exact H|].
  simpl. apply IH. now apply codex_step_shaped.
Qed.

Lemma codex_step_ended (s : Codex.Stream) (o : Codex.Outcome) (ev : Codex.Event) :
  Codex.phase s = Codex.Ended o ->
  Codex.phase (Codex.step s ev) = Codex.Ended o
  /\ Codex.delivered (Codex.step s ev) = Codex.delivered s.
Proof.
  intros H. destruct ev; simpl; auto.
  - unfold Codex.next. rewrite H. auto.
  - unfold Codex.abandon. rewrite H. auto.
Qed.

Lemma codex_run_events_ended (evs : list Codex.Event) : forall s o,
  Codex.phase s = Codex.Ended o ->
  Codex.phase (Codex.run_events s evs) = Codex.Ended o
  /\ Codex.delivered (Codex.run_events s evs) = Codex.delivered s.
Proof.
  induction evs as [|ev evs IH]; intros s o H; [auto|].
  simpl. destruct (codex_step_ended s o ev H) as (Ha & Hb).
  destruct (IH (Codex.step s ev) o Ha) as (Hc & Hd).
  split; [exact Hc|]. now rewrite Hd.
Qed.

(** *** The Claude generator *)

Lemma is_type_spec (t : EventType) (e : CoderStreamEvent) :
  is_type t e = true <-> type_of e = t.
Proof.
  unfold is_type. split.
  - destruct (type_of e), t; simpl; intros H; try discriminate; reflexivity.
  - intros ->. destruct t; reflexivity.
Qed.

Lemma emit_spec (evs : list CoderStreamEvent) : forall sawDone,
  match Claude.emit evs sawDone with
  | (out, None) =>
      exists before e,
        out = (before ++ [e])%list /\ type_of e = error
        /\ Forall (fun x => type_of x <> error) before
  | (out, Some saw) =>
      out = evs /\ Forall (fun x => type_of x <> error) out
      /\ (saw = true -> sawDone = true \/ existsb is_terminal out = true)
  end.
Proof.
  induction evs as [|e evs IH]; intros sawDone; cbn [Claude.emit].
  - auto.
  - destruct (is_type error e) eqn:He.
    + apply is_type_spec in He. exists [], e. auto.
    + assert (Hne : type_of e <> error).
      { intros Heq. apply is_type_spec in Heq. congruence. }
      specialize (IH (sawDone || is_type done e)%bool).
      destruct (Claude.emit evs (sawDone || is_type done e)%bool) as [out [saw|]].
      * destruct IH as (-> & Hall & Hsaw). split; [reflexivity|].
        split; [constructor; auto|]. intros Hs. cbn [existsb].
        destruct (Hsaw Hs) as [Hor | Hex].
        -- apply orb_true_iff in Hor as [Hd | Hd]; [auto|].
           right. unfold is_terminal. rewrite Hd. reflexivity.
        -- right. rewrite Hex. apply orb_true_r.
      * destruct IH as (before & x & -> & Hx & Hall).
        exists (e :: before), x. split; [reflexivity|]. split; [exact Hx|].
        constructor; auto.
Qed.

Lemma error_last_app (a b : list CoderStreamEvent) :
  Forall (fun x => type_of x <> error) a -> error_last b -> error_last (a ++ b).
Proof.
  induction a as [|x a IH]; intros Ha Hb; [exact Hb|].
  inversion Ha as [|? ? Hx Hrest]; subst.
  intros before e after Heq He.
  destruct before as [|y before]; simpl in Heq.
  - injection Heq as <- _. contradiction.
  - injection Heq as <- Heq. eapply IH; eauto.
Qed.

Lemma error_last_single (before : list CoderStreamEvent) (e : CoderStreamEvent) :
  Forall (fun x => type_of x <> error) before -> error_last (before ++ [e]).
Proof.
  intros H. apply error_last_app; [exact H|].
  intros b x after Heq _. destruct b as [|y b]; simpl in Heq.
  - now injection Heq as _ <-.
  - injection Heq as _ Heq. destruct b; discriminate.
Qed.

Lemma error_last_nil : error_last [].
Proof. intros b e a Heq. destruct b; discriminate. Qed.

Lemma claude_consume_spec (tid : option string) (ending : option JsError)
    (msgs : list jsval) : forall sawDone,
  error_last (fst (Claude.consume tid msgs ending sawDone))
  /\ (snd (Claude.consume tid msgs ending sawDone) = Claude.Completed ->
      sawDone = true
      \/ existsb is_terminal (fst (Claude.consume tid msgs ending sawDone)) = true).
Proof.
  induction msgs as [|m msgs IH]; intros sawDone; simpl.
  - destruct ending; simpl.
    + split; [apply error_last_nil|discriminate].
    + destruct sawDone; simpl; split; auto using error_last_nil.
      intros b e a Heq He. destruct b as [|y b]; simpl in Heq.
      * now injection Heq as _ <-.
      * injection Heq as _ Heq. destruct b; discriminate.
  - pose proof (emit_spec (Claude.normalizeClaudeStreamMessage m tid) sawDone) as He.
    destruct (Claude.emit _ sawDone) as [out [saw|]].
    + destruct He as (_ & Hall & Hsaw).
      specialize (IH saw).
      destruct (Claude.consume tid msgs ending saw) as [more o]. simpl in *.
      destruct IH as (Hlast & Hdone).
      split; [now apply error_last_app|].
      intros Ho. rewrite existsb_app.
      destruct (Hdone Ho) as [Hs | Hex].
      * destruct (Hsaw Hs) as [? | Hx]; [auto|]. right. now rewrite Hx.
      * right. rewrite Hex. apply orb_true_r.
    + destruct He as (before & e & -> & Hx & Hall). simpl.
      split; [now apply error_last_single|].
      intros _. right. rewrite existsb_app. cbn [existsb].
      unfold is_terminal. rewrite (proj2 (is_type_spec error e) Hx).
      now rewrite !orb_true_r.
Qed.

(** C1 as stated fails: the Gemini CLI prints a [result] line, then a
    [message] line, and exits with status 0.  The consumer receives [done]
    and after it [message]; the iteration then completes. *)
Lemma C1_counterexample :
  Gemini.status
    (Gemini.run_events Reader.parse Examples.gemini_stream gemini_events_after_done)
  = Gemini.Ended Gemini.Completed
  /\ map type_of
       (Gemini.delivered
          (Gemini.run_events Reader.parse Examples.gemini_stream
             gemini_events_after_done))
     = [done; message]
  /\ one_terminal_outcome
       (Gemini.delivered
          (Gemini.run_events Reader.parse Examples.gemini_stream
             gemini_events_after_done))
       false
     = false.
Proof. vm_compute. auto. Qed.

(** The same on the Claude adapter: a message after the [result] message is
    delivered after [done]. *)
Example claude_event_after_done :
  map type_of
    (fst (snd (Claude.runStreamed Reader.stringify Examples.claude_thread
                 (PromptText "hi") no_run_opts claude_result_then_more)))
  = [done; message].
Proof. reflexivity. Qed.

Lemma gemini_stream_starts_shaped (stringify : json -> string) (w : Gemini.World)
    (input : PromptInput) (ropts : RunOpts) (s0 : Gemini.Stream) :
  Gemini.runStreamedInternal stringify w input ropts = Resolved s0 ->
  Shaped (view s0).
Proof.
  unfold Gemini.runStreamedInternal.
  destruct (Gemini.assertIdle _); [discriminate|].
  simpl. intros H. injection H as <-.
  unfold Shaped. simpl. split; [discriminate|]. split; [constructor|].
  exists []. split; [reflexivity|constructor].
Qed.

Lemma codex_stream_starts_shaped (w : Codex.World) (input : PromptInput)
    (ropts : RunOpts) (sdk : Codex.Backend) (s0 : Codex.Stream) :
  Codex.runStreamedInternal w input ropts sdk = Codex.Ok s0 -> CodexShaped s0.
Proof.
  unfold Codex.runStreamedInternal.
  destruct (Codex.assertIdle _); [discriminate|].
  simpl. intros H. injection H as <-. reflexivity.
Qed.

(** C1, amended: what an adapter itself adds as the terminal outcome comes
    once and last.  On the Gemini and on the Codex adapter the delivered
    events hold at most one [cancelled] event, nothing but the interrupted
    [error] event follows it, and once the iteration is over (completed,
    thrown, or left by the consumer) nothing more is delivered.  On the
    Claude adapter nothing follows an [error] event, and a run whose SDK
    sequence ends normally delivers at least one [done] or [error] event. *)
Theorem C1_terminal_outcome_of_the_adapter_comes_last :
  forall (parse : string -> jsval) (stringify : json -> string)
         (gw : Gemini.World) (ginput : PromptInput) (gropts : RunOpts)
         (gs : Gemini.Stream) (gevs gmore : list Gemini.Event) (go : Gemini.Outcome)
         (cw : Codex.World) (cinput : PromptInput) (cropts : RunOpts)
         (csdk : Codex.Backend) (cs : Codex.Stream)
         (cevs cmore : list Codex.Event) (co : Codex.Outcome)
         (h : Claude.ThreadHandle.t) (input : PromptInput) (ropts : RunOpts)
         (sdk : Claude.Backend),
    Gemini.runStreamedInternal stringify gw ginput gropts = Resolved gs ->
    Codex.runStreamedInternal cw cinput cropts csdk = Codex.Ok cs ->
    (cancel_pair_last (Gemini.delivered (Gemini.run_events parse gs gevs))
     /\ (Gemini.status (Gemini.run_events parse gs gevs) = Gemini.Ended go ->
         Gemini.delivered (Gemini.run_events parse gs (gevs ++ gmore))
         = Gemini.delivered (Gemini.run_events parse gs gevs)))
    /\ (cancel_pair_last (Codex.delivered (Codex.run_events cs cevs))
        /\ (Codex.phase (Codex.run_events cs cevs) = Codex.Ended co ->
            Codex.delivered (Codex.run_events cs (cevs ++ cmore))
            = Codex.delivered (Codex.run_events cs cevs)))
    /\ (error_last (fst (snd (Claude.runStreamed stringify h input ropts sdk)))
        /\ (snd (snd (Claude.runStreamed stringify h input ropts sdk))
            = Claude.Completed ->
            existsb is_terminal
              (fst (snd (Claude.runStreamed stringify h input ropts sdk))) = true)).
Proof.
  intros parse stringify gw ginput gropts gs gevs gmore go cw cinput cropts csdk cs
    cevs cmore co h input ropts sdk Hg Hc.
  split; [|split].
  - split.
    + apply (shaped_delivered (view (Gemini.run_events parse gs gevs))).
      apply run_events_shaped. eapply gemini_stream_starts_shaped; eauto.
    + intros Hend. rewrite run_events_app.
      now destruct (run_events_ended parse gmore _ go Hend).
  - split.
    + apply codex_shaped_delivered, codex_run_events_shaped.
      eapply codex_stream_starts_shaped; eauto.
    + intros Hend. unfold Codex.run_events. rewrite fold_left_app.
      now destruct (codex_run_events_ended cmore _ co Hend).
  - unfold Claude.runStreamed. simpl.
    destruct (claude_consume_spec (Claude.ThreadHandle.id h) (Claude.ending sdk)
                (Claude.messages sdk) false) as (Ha & Hb).
    split; [exact Ha|]. intros Ho. destruct (Hb Ho) as [Hf | Hex]; [discriminate|exact Hex].
Qed.

Lemma C1_witness :
  Gemini.runStreamedInternal Reader.stringify Examples.gemini_world (PromptText "hi")
    no_run_opts = Resolved Examples.gemini_stream
  /\ Codex.runStreamedInternal Examples.codex_world (PromptText "hi") no_run_opts
       Examples.codex_self_abort
     = Codex.Ok (Examples.codex_stream Examples.codex_self_abort)
  /\ map type_of
       (Gemini.delivered
          (Gemini.run_events Reader.parse Examples.gemini_stream
             gemini_events_interrupted))
     = [message; cancelled; error]
  /\ cancel_pair_last
       (Gemini.delivered
          (Gemini.run_events Reader.parse Examples.gemini_stream
             gemini_events_interrupted))
  /\ cancel_pair_last
       (Codex.delivered
          (Codex.run_events (Examples.codex_stream Examples.codex_self_abort)
             [Codex.Next; Codex.Next; Codex.Next; Codex.Next])).
Proof.
  split; [reflexivity|]. split; [reflexivity|]. split; [reflexivity|].
  destruct (C1_terminal_outcome_of_the_adapter_comes_last
              Reader.parse Reader.stringify
              Examples.gemini_world (PromptText "hi") no_run_opts
              Examples.gemini_stream gemini_events_interrupted []
              Gemini.Completed
              Examples.codex_world (PromptText "hi") no_run_opts
              Examples.codex_self_abort
              (Examples.codex_stream Examples.codex_self_abort)
              [Codex.Next; Codex.Next; Codex.Next; Codex.Next] [] Codex.Completed
              Examples.claude_thread (PromptText "hi") no_run_opts
              claude_result_then_more eq_refl eq_refl)
    as ((Hg & _) & (Hc & _) & _).
  split; [exact Hg|exact Hc].
Defined.

(** ** [cancelled] on the Gemini adapter needs the abort *)

Lemma run_aborted_update (r r' : nat) (f : Gemini.ActiveRun -> Gemini.ActiveRun)
    (w : Gemini.World) :
  keeps_aborted f ->
  Gemini.run_aborted w r = true ->
  Gemini.run_aborted (Gemini.update_run r' f w) r = true.
Proof.
  intros Hf. unfold Gemini.run_aborted, Gemini.update_run. simpl.
  destruct (decide (r' = r)) as [->|Hne].
  - rewrite list_lookup_alter_eq. destruct (Gemini.runs w !! r); simpl; [apply Hf|auto].
  - now rewrite list_lookup_alter_ne.
Qed.

Lemma run_aborted_abortChild (w : Gemini.World) (reason : option string) (r : nat) :
  Gemini.run_aborted w r = true ->
  Gemini.run_aborted (Gemini.abortChild w reason) r = true.
Proof.
  intros H. unfold Gemini.abortChild.
  destruct (Gemini.currentRun _) as [r'|]; [|exact H].
  destruct (Gemini.runs w !! r'); [|exact H].
  destruct (Gemini.aborted _); [exact H|].
  apply run_aborted_update; [|exact H]. intros x _. reflexivity.
Qed.

Lemma run_aborted_external (w : Gemini.World) (reason : option string) (r r' : nat) :
  Gemini.run_aborted w r = true ->
  Gemini.run_aborted (Gemini.external_abort r' reason w) r = true.
Proof.
  intros H. unfold Gemini.external_abort.
  destruct (Gemini.runs w !! r') as [a|]; [|exact H].
  destruct (Gemini.linked a); [|exact H].
  destruct (Gemini.controller a).
  - apply run_aborted_update; [|exact H]. intros x Hx. exact Hx.
  - apply run_aborted_abortChild.
    do 2 (apply run_aborted_update; [intros x Hx; exact Hx|]). exact H.
Qed.

Lemma run_aborted_cleanup (w : Gemini.World) (r r' : nat) :
  Gemini.run_aborted w r = true ->
  Gemini.run_aborted (Gemini.cleanup r' w) r = true.
Proof.
  intros H. unfold Gemini.cleanup.
  apply run_aborted_update.
  - intros a Ha. exact Ha.
  - destruct (Gemini.currentRun _) as [x|]; [|exact H].
    destruct (Nat.eqb x r'); exact H.
Qed.

Lemma aborted_finally (o : Gemini.Outcome) (s : Gemini.Stream) :
  stream_aborted s = true -> stream_aborted (Gemini.finally o s) = true.
Proof.
  unfold stream_aborted, Gemini.finally. simpl. intros H.
  destruct (_ && _)%bool.
  - now apply run_aborted_abortChild, run_aborted_cleanup.
  - now apply run_aborted_cleanup.
Qed.

Lemma aborted_push (e : Gemini.Entry) (s : Gemini.Stream) :
  stream_aborted s = true -> stream_aborted (Gemini.push e s) = true.
Proof.
  intros H. unfold Gemini.push. destruct (Gemini.status s); try exact H.
  destruct e; [exact H | now apply aborted_finally | now apply aborted_finally].
Qed.

Lemma aborted_push_all (es : list Gemini.Entry) : forall s,
  stream_aborted s = true -> stream_aborted (Gemini.push_all es s) = true.
Proof.
  induction es as [|e es IH]; intros s H; [exact H|].
  change (Gemini.push_all (e :: es) s) with (Gemini.push_all es (Gemini.push e s)).
  now apply IH, aborted_push.
Qed.

Lemma aborted_next (s : Gemini.Stream) :
  stream_aborted s = true -> stream_aborted (Gemini.next s) = true.
Proof.
  intros H. destruct s as [w a q fin lo co eo ero st d].
  unfold Gemini.next. simpl.
  destruct st; try exact H;
    (destruct q as [|e q];
     [ destruct fin; [now apply (aborted_finally Gemini.Completed)|exact H]
     | destruct e; [exact H | now apply (aborted_finally Gemini.Completed)
                   | now apply (aborted_finally (Gemini.Threw e))] ]).
Qed.

Opaque Gemini.push_all Gemini.push Gemini.finally.

Lemma aborted_onError (e : JsError) (s : Gemini.Stream) :
  stream_aborted s = true ->
  stream_aborted
    (if Gemini.errorOn s then
       Gemini.onError e
         (Gemini.mkStream (Gemini.world s) (Gemini.active s) (Gemini.queue s)
            (Gemini.finished s) (Gemini.lineOn s) (Gemini.closeOn s)
            (Gemini.exitOn s) false (Gemini.status s) (Gemini.delivered s))
     else s) = true.
Proof.
  intros H. destruct s as [w a q fin lo co eo ero st d]. simpl.
  destruct ero; [|exact H]. unfold Gemini.onError. simpl.
  destruct fin; [exact H|]. apply aborted_push_all. exact H.
Qed.

(** No step of the run takes the [aborted] flag back. *)
Lemma aborted_step (parse : string -> jsval) (s : Gemini.Stream) (ev : Gemini.Event) :
  stream_aborted s = true -> stream_aborted (Gemini.step parse s ev) = true.
Proof.
  intros H. destruct ev.
  - destruct s as [w a q fin lo co eo ero st d]. simpl.
    destruct lo; [|exact H]. unfold Gemini.handleLine. simpl.
    destruct fin; [exact H|]. destruct (parse line); [|exact H].
    apply aborted_push_all. exact H.
  - destruct s as [w a q fin lo co eo ero st d]. simpl.
    destruct co; [|exact H]. unfold Gemini.handleClose. simpl.
    destruct (_ || _)%bool; [exact H|]. apply aborted_push_all. exact H.
  - destruct s as [w a q fin lo co eo ero st d]. simpl.
    assert (Hx : Gemini.run_aborted
                   (Gemini.update_run a
                      (fun x => Gemini.set_child (Gemini.exits code (Gemini.child x)) x) w)
                   a = true)
      by (rewrite run_aborted_after_exit; exact H).
    destruct eo; [|exact Hx]. unfold Gemini.onExit. simpl.
    destruct fin; [exact Hx|]. simpl.
    rewrite Hx. apply aborted_push_all. exact Hx.
  - unfold Gemini.step. destruct gone; apply aborted_onError; [|exact H].
    unfold stream_aborted, Gemini.set_world. simpl.
    apply run_aborted_update; [intros x Hx; exact Hx|exact H].
  - unfold stream_aborted. simpl. now apply run_aborted_abortChild.
  - unfold stream_aborted. simpl. now apply run_aborted_external.
  - unfold stream_aborted. simpl. now rewrite run_aborted_elapse.
  - now apply aborted_next.
  - destruct s as [w a q fin lo co eo ero st d].
    unfold Gemini.step, Gemini.abandon. simpl. destruct st; try exact H.
    now apply (aborted_finally Gemini.Returned).
Qed.

Transparent Gemini.push_all Gemini.push Gemini.finally.

Lemma has_cancelled_push (e : Gemini.Entry) (v : View) :
  ~ is_cancelled_entry e -> has_cancelled (v_push e v) -> has_cancelled v.
Proof.
  intros He. unfold has_cancelled, v_push.
  assert (Hq : Exists (fun x => type_of x = cancelled) (v_delivered v)
               \/ Exists is_cancelled_entry (v_queue v ++ [e]) -> has_cancelled v).
  { intros [H | H]; [now left|]. apply Exists_app in H as [H | H]; [now right|].
    inversion H as [? ? Hx|? ? Hx]; subst; [contradiction|inversion Hx]. }
  destruct (v_status v); simpl; try exact Hq.
  destruct e; simpl; try (intros H; exact H).
  intros [H | H]; [|now right].
  apply Exists_app in H as [H | H]; [now left|].
  inversion H as [? ? Hx|? ? Hx]; subst; [contradiction|inversion Hx].
Qed.

Lemma has_cancelled_push_all (es : list Gemini.Entry) : forall v,
  Forall (fun e => ~ is_cancelled_entry e) es ->
  has_cancelled (v_push_all es v) -> has_cancelled v.
Proof.
  induction es as [|e es IH]; intros v Hall H; [exact H|].
  inversion Hall as [|? ? He Hes]; subst. simpl in H.
  eapply has_cancelled_push; [exact He|]. now apply IH.
Qed.

Lemma plain_entries (evs : list CoderStreamEvent) :
  Forall not_cancelled evs ->
  Forall (fun e => ~ is_cancelled_entry e) (map Gemini.Ev evs).
Proof.
  induction 1 as [|e evs He Hall IH]; simpl; constructor; auto.
Qed.

Lemma has_cancelled_next (v : View) : has_cancelled (v_next v) -> has_cancelled v.
Proof.
  destruct v as [st q fin d]. unfold v_next, has_cancelled. simpl.
  assert (Hmain : has_cancelled
                    (match q with
                     | entry :: rest => v_resume entry (mkView st rest fin d)
                     | [] => if fin then v_resume Gemini.DONE (mkView st q fin d)
                             else mkView Gemini.Waiting [] fin d
                     end) ->
                  has_cancelled (mkView st q fin d)).
  { unfold has_cancelled. destruct q as [|e q]; simpl.
    - destruct fin; simpl; auto.
    - destruct e; simpl.
      + intros [H | H]; [|right; now constructor 2].
        apply Exists_app in H as [H | H]; [now left|].
        right. inversion H as [? ? Hx|? ? Hx]; subst; [now constructor|inversion Hx].
      + intros [H | H]; [now left|right; now constructor 2].
      + intros [H | H]; [now left|right; now constructor 2]. }
  destruct st; auto.
Qed.

Lemma has_cancelled_abandon (v : View) : has_cancelled (v_abandon v) -> has_cancelled v.
Proof. destruct v as [st q fin d]. destruct st; auto. Qed.

Opaque Gemini.push_all Gemini.push.

(** A step brings a [cancelled] event into the view only when the run is
    aborted. *)
Lemma new_cancelled_needs_abort (parse : string -> jsval) (s : Gemini.Stream)
    (ev : Gemini.Event) :
  has_cancelled (view (Gemini.step parse s ev)) ->
  has_cancelled (view s) \/ stream_aborted s = true.
Proof.
  destruct s as [w a q fin lo co eo ero st d].
  change (view (Gemini.mkStream w a q fin lo co eo ero st d))
    with (mkView st q fin d).
  destruct ev; simpl.
  - destruct lo; [|auto]. unfold Gemini.handleLine. simpl.
    destruct fin; [auto|]. destruct (parse line); [|auto].
    rewrite view_push_all. intros H. left.
    eapply has_cancelled_push_all; [|exact H].
    apply plain_entries, gemini_normalize_not_cancelled.
  - destruct co; [|auto]. unfold Gemini.handleClose. simpl.
    destruct fin; simpl; [auto|].
    unfold stream_aborted. simpl.
    destruct (Gemini.run_aborted w a); simpl; auto.
  - destruct eo; [|auto]. unfold Gemini.onExit. simpl.
    destruct fin; simpl; [auto|].
    rewrite run_aborted_after_exit. unfold stream_aborted. simpl.
    destruct (Gemini.run_aborted w a); [auto|].
    destruct (negb _).
    + rewrite view_push_all. intros H. left.
      apply (has_cancelled_push_all _ (mkView st q true d)) in H; [exact H|].
      repeat constructor; simpl; auto.
    + rewrite view_push. intros H. left.
      apply (has_cancelled_push _ (mkView st q true d)) in H; [exact H|].
      simpl; auto.
  - destruct gone; simpl;
      (destruct ero; [|auto]; unfold Gemini.onError; simpl;
       destruct fin; [auto|];
       rewrite view_push_all; intros H; left;
       apply (has_cancelled_push_all _ (mkView st q true d)) in H; [exact H|];
       repeat constructor; simpl; auto).
  - auto.
  - auto.
  - auto.
  - rewrite view_next. intros H. left. now apply has_cancelled_next in H.
  - rewrite view_abandon. intros H. left. now apply has_cancelled_abandon in H.
Qed.

Transparent Gemini.push_all Gemini.push.

Lemma cancelled_needs_abort_run (parse : string -> jsval) (evs : list Gemini.Event) :
  forall s,
    (has_cancelled (view s) -> stream_aborted s = true) ->
    has_cancelled (view (Gemini.run_events parse s evs)) ->
    stream_aborted (Gemini.run_events parse s evs) = true.
Proof.
  induction evs as [|ev evs IH]; intros s K H; [now apply K|].
  simpl in *. apply IH; [|exact H].
  intros Hc. apply aborted_step.
  destruct (new_cancelled_needs_abort parse s ev Hc) as [Hv | Ha]; auto.
Qed.

(** On the Gemini adapter a [cancelled] event is delivered only to a run
    whose [aborted] flag is set: a crash or an exit with a status other than
    0 of a run that was not aborted never yields it. *)
Lemma gemini_cancelled_only_when_aborted (parse : string -> jsval)
    (stringify : json -> string) (w : Gemini.World) (input : PromptInput)
    (ropts : RunOpts) (s0 : Gemini.Stream) (evs : list Gemini.Event) :
  Gemini.runStreamedInternal stringify w input ropts = Resolved s0 ->
  Exists (fun e => type_of e = cancelled)
    (Gemini.delivered (Gemini.run_events parse s0 evs)) ->
  stream_aborted (Gemini.run_events parse s0 evs) = true.
Proof.
  intros Hs Hex. apply cancelled_needs_abort_run; [|now left].
  unfold Gemini.runStreamedInternal in Hs.
  destruct (Gemini.assertIdle _); [discriminate|].
  simpl in Hs. injection Hs as <-.
  intros [H | H]; inversion H.
Qed.

(** The exit, or the close of the output, of an aborted run that has not
    finished appends the [cancelled] event, the interrupted [error] and the
    end of the stream, whatever the exit code. *)
Lemma run_abortReason_after_exit (w : Gemini.World) (r : nat) (code : option Z) :
  Gemini.run_abortReason
    (Gemini.update_run r (fun a => Gemini.set_child (Gemini.exits code (Gemini.child a)) a) w)
    r
  = Gemini.run_abortReason w r.
Proof.
  unfold Gemini.run_abortReason, Gemini.update_run. simpl.
  rewrite list_lookup_alter_eq. destruct (Gemini.runs w !! r); reflexivity.
Qed.

Opaque Gemini.push_all Gemini.push.

Lemma exit_of_aborted_run (parse : string -> jsval) (s : Gemini.Stream)
    (code : option Z) (listing : list Gemini.GeminiSessionEntry) :
  Gemini.finished s = false ->
  Gemini.exitOn s = true ->
  stream_aborted s = true ->
  view (Gemini.step parse s (Gemini.Exit code listing))
  = v_push_all (Gemini.cancelled_tail s) (v_finish (view s)).
Proof.
  intros Hf He Ha. destruct s as [w a q fin lo co eo ero st d].
  simpl in Hf, He. subst fin eo. unfold stream_aborted in Ha. simpl in Ha.
  unfold Gemini.cancelled_tail at 1. simpl. unfold Gemini.onExit. simpl.
  rewrite run_aborted_after_exit, Ha. rewrite view_push_all.
  unfold Gemini.cancelled_tail. simpl.
  rewrite run_abortReason_after_exit. reflexivity.
Qed.

Lemma close_of_aborted_run (parse : string -> jsval) (s : Gemini.Stream) :
  Gemini.finished s = false ->
  Gemini.closeOn s = true ->
  stream_aborted s = true ->
  view (Gemini.step parse s Gemini.Close)
  = v_push_all (Gemini.cancelled_tail s) (v_finish (view s)).
Proof.
  intros Hf Hc Ha. destruct s as [w a q fin lo co eo ero st d].
  simpl in Hf, Hc. subst fin co. unfold stream_aborted in Ha. simpl in Ha.
  unfold Gemini.cancelled_tail at 1. simpl. unfold Gemini.handleClose. simpl. rewrite Ha. simpl.
  rewrite view_push_all. reflexivity.
Qed.

Transparent Gemini.push_all Gemini.push.

(** The scenario of the specification: the run is not cancelled and the
    process is killed from outside (status 137).  The consumer gets the
    thrown exit error and no [cancelled] event. *)
Example oom_kill_is_no_cancellation :
  Gemini.status
    (Gemini.run_events Reader.parse Examples.gemini_stream
       [Gemini.Next; Gemini.Line (Examples.line "message"); Gemini.Exit (Some 137) [];
        Gemini.Next])
  = Gemini.Ended (Gemini.Threw (new_Error "gemini exited with code 137"))
  /\ map type_of
       (Gemini.delivered
          (Gemini.run_events Reader.parse Examples.gemini_stream
             [Gemini.Next; Gemini.Line (Examples.line "message");
              Gemini.Exit (Some 137) []; Gemini.Next]))
     = [message].
Proof. vm_compute. auto. Qed.

(** ** The one-run-per-thread slot over the life of a run *)

Section GeminiSlot.

Variable parse : string -> jsval.
Variable stringify : json -> string.

Lemma current_update_run r f w :
  gemini_current (Gemini.update_run r f w) = gemini_current w.
Proof. reflexivity. Qed.

Lemma current_abortChild w reason :
  gemini_current (Gemini.abortChild w reason) = gemini_current w.
Proof.
  unfold Gemini.abortChild.
  destruct (Gemini.currentRun _); [|reflexivity].
  destruct (_ !! _); [|reflexivity].
  destruct (Gemini.aborted _); reflexivity.
Qed.

Lemma current_external_abort r reason w :
  gemini_current (Gemini.external_abort r reason w) = gemini_current w.
Proof.
  unfold Gemini.external_abort.
  destruct (_ !! _) as [a|]; [|reflexivity].
  destruct (Gemini.linked a); [|reflexivity].
  destruct (Gemini.controller a); [reflexivity|].
  now rewrite current_abortChild.
Qed.

Lemma current_meanwhile r w m :
  gemini_current (Gemini.meanwhile_step r w m) = gemini_current w.
Proof.
  destruct m; simpl.
  - apply current_abortChild.
  - apply current_external_abort.
  - reflexivity.
Qed.

Lemma current_meanwhiles r ms : forall w,
  gemini_current (fold_left (Gemini.meanwhile_step r) ms w) = gemini_current w.
Proof.
  induction ms as [|m ms IH]; intros w; simpl; [reflexivity|].
  now rewrite IH, current_meanwhile.
Qed.

Lemma current_capture (h : Gemini.ThreadHandle.t) (payload : jsval) :
  Gemini.currentRun (Gemini.ThreadHandle.internal
                       (Gemini.captureGeminiSessionMetadata h payload))
  = Gemini.currentRun (Gemini.ThreadHandle.internal h).
Proof.
  unfold Gemini.captureGeminiSessionMetadata.
  destruct (Gemini.extractSessionId payload); [reflexivity|].
  destruct (truthy_str _); [reflexivity|].
  destruct (Gemini.extractSessionIndex payload) as [i|]; [|reflexivity].
  destruct (nonempty i); reflexivity.
Qed.

Lemma current_list (entries : list Gemini.GeminiSessionEntry) (h : Gemini.ThreadHandle.t) :
  Gemini.currentRun (Gemini.ThreadHandle.internal
                       (Gemini.updateSessionMetadataFromList entries h))
  = Gemini.currentRun (Gemini.ThreadHandle.internal h).
Proof.
  unfold Gemini.updateSessionMetadataFromList.
  destruct (last entries) as [latest|]; [|reflexivity].
  destruct (truthy_str (Gemini.entry_id latest)).
  - destruct (Gemini.entry_id latest); reflexivity.
  - destruct (Gemini.index latest); [|reflexivity].
    destruct (negb _); reflexivity.
Qed.

Lemma current_after_exit r ropts stdout stderr code listing w :
  gemini_current (fst (Gemini.after_exit parse r ropts stdout stderr code listing w))
  = gemini_current w.
Proof.
  unfold Gemini.after_exit.
  destruct (Gemini.run_aborted w r); [reflexivity|].
  destruct (negb (bool_decide _)); [reflexivity|].
  set (h := Gemini.captureGeminiSessionMetadata _ _).
  set (h' := if (_ || _)%bool then _ else _).
  assert (Hh : Gemini.currentRun (Gemini.ThreadHandle.internal h')
               = gemini_current w).
  { unfold h'. destruct (_ || _)%bool; [rewrite current_list|];
      unfold h; apply current_capture. }
  destruct (Gemini.parseGeminiJson parse stdout); try exact Hh;
    destruct (if truthy (outputSchema ropts) then _ else _); exact Hh.
Qed.

Lemma current_cleanup r w :
  gemini_current w = Some r -> gemini_current (Gemini.cleanup r w) = None.
Proof.
  intros H. unfold Gemini.cleanup. rewrite current_update_run.
  unfold gemini_current in H. rewrite H, Nat.eqb_refl. reflexivity.
Qed.

Lemma current_cleanup_none r w :
  gemini_current w = None -> gemini_current (Gemini.cleanup r w) = None.
Proof.
  intros H. unfold Gemini.cleanup. rewrite current_update_run.
  unfold gemini_current in H. rewrite H. exact H.
Qed.

Lemma current_spawn w prompt mode ropts :
  gemini_current (fst (Gemini.spawnGeminiProcess w prompt mode ropts))
  = Some (snd (Gemini.spawnGeminiProcess w prompt mode ropts)).
Proof. reflexivity. Qed.

Lemma current_during w input ropts meanwhile :
  gemini_current (fst (Gemini.during stringify w input ropts meanwhile))
  = Some (snd (Gemini.during stringify w input ropts meanwhile)).
Proof.
  unfold Gemini.during.
  destruct (Gemini.spawnGeminiProcess _ _ _ _) as [w' r] eqn:E. simpl.
  rewrite current_meanwhiles.
  change w' with (fst (w', r)). change r with (snd (w', r)) at 2.
  rewrite <- E. apply current_spawn.
Qed.

Lemma runInternal_releases w input ropts meanwhile outcome listing :
  Gemini.assertIdle (Gemini.state_of w) = None ->
  gemini_current
    (fst (Gemini.runInternal parse stringify w input ropts meanwhile outcome listing))
  = None.
Proof.
  intros Hidle. unfold Gemini.runInternal. rewrite Hidle.
  pose proof (current_during w input ropts meanwhile) as Hd.
  destruct (Gemini.during stringify w input ropts meanwhile) as [w1 r]. simpl in Hd.
  destruct outcome as [stdout stderr code|e].
  - pose proof (current_after_exit r ropts stdout stderr code listing
                  (Gemini.update_run r
                     (fun a => Gemini.set_child (Gemini.exits code (Gemini.child a)) a) w1))
      as Ha.
    destruct (Gemini.after_exit _ _ _ _ _ _ _ _) as [w2 res]. simpl in *.
    apply current_cleanup. rewrite Ha. exact Hd.
  - simpl. now apply current_cleanup.
Qed.

End GeminiSlot.

Section GeminiHeld.

Variable parse : string -> jsval.
Variable stringify : json -> string.

Lemma held_ext (s s' : Gemini.Stream) :
  Gemini.status s' = Gemini.status s ->
  Gemini.delivered s' = Gemini.delivered s ->
  Gemini.active s' = Gemini.active s ->
  gemini_current (Gemini.world s') = gemini_current (Gemini.world s) ->
  Held s -> Held s'.
Proof.
  unfold Held. intros -> -> -> ->. auto.
Qed.

Lemma current_finally (o : Gemini.Outcome) (s : Gemini.Stream) :
  gemini_current (Gemini.world s) = Some (Gemini.active s) ->
  gemini_current (Gemini.world (Gemini.finally o s)) = None.
Proof.
  intros H. unfold Gemini.finally. simpl.
  destruct (_ && _)%bool; [rewrite current_abortChild|]; now apply current_cleanup.
Qed.

Lemma held_finally (o : Gemini.Outcome) (s : Gemini.Stream) :
  gemini_current (Gemini.world s) = Some (Gemini.active s) ->
  Held (Gemini.finally o s).
Proof.
  intros H. pose proof (current_finally o s H) as Hf.
  unfold Held. unfold Gemini.finally in *. simpl in *. left. exact Hf.
Qed.

Lemma held_resume_with (e : Gemini.Entry) (s : Gemini.Stream) :
  gemini_current (Gemini.world s) = Some (Gemini.active s) ->
  Held (Gemini.resume_with e s).
Proof.
  intros H. destruct e as [e| |e]; unfold Gemini.resume_with.
  - unfold Held. simpl. split; [|exact H]. now destruct (Gemini.delivered s).
  - now apply held_finally.
  - now apply held_finally.
Qed.

Lemma held_push (e : Gemini.Entry) (s : Gemini.Stream) :
  Held s -> Held (Gemini.push e s).
Proof.
  intros H. unfold Gemini.push.
  destruct (Gemini.status s) eqn:Hst;
    try (eapply held_ext; [| | | |exact H]; simpl; auto; fail).
  apply held_resume_with. unfold Held in H. now rewrite Hst in H.
Qed.

Lemma held_push_all (es : list Gemini.Entry) : forall s,
  Held s -> Held (Gemini.push_all es s).
Proof.
  induction es as [|e es IH]; intros s H; [exact H|].
  change (Gemini.push_all (e :: es) s) with (Gemini.push_all es (Gemini.push e s)).
  apply IH. now apply held_push.
Qed.

Opaque Gemini.push_all Gemini.push Gemini.finally Gemini.resume_with.

Lemma held_next (s : Gemini.Stream) : Held s -> Held (Gemini.next s).
Proof.
  intros H. unfold Gemini.next.
  destruct (Gemini.status s) eqn:Hst; try exact H.
  - unfold Held in H. rewrite Hst in H. destruct H as [Hd Hc].
    destruct (Gemini.queue s) as [|entry rest].
    + destruct (Gemini.finished s).
      * now apply held_resume_with.
      * unfold Held. simpl. exact Hc.
    + now apply held_resume_with.
  - unfold Held in H. rewrite Hst in H. destruct H as [Hd Hc].
    destruct (Gemini.queue s) as [|entry rest].
    + destruct (Gemini.finished s).
      * now apply held_resume_with.
      * unfold Held. simpl. exact Hc.
    + now apply held_resume_with.
Qed.

Lemma held_abandon (s : Gemini.Stream) : Held s -> Held (Gemini.abandon s).
Proof.
  intros H. unfold Gemini.abandon.
  destruct (Gemini.status s) eqn:Hst; try exact H.
  - unfold Held in *. rewrite Hst in H. simpl. right. tauto.
  - unfold Held in H. rewrite Hst in H. destruct H as [Hd Hc].
    now apply held_finally.
Qed.

Lemma held_step (s : Gemini.Stream) (ev : Gemini.Event) :
  Held s -> Held (Gemini.step parse s ev).
Proof.
  intros H. destruct ev; simpl.
  - destruct (Gemini.lineOn s); [|exact H]. unfold Gemini.handleLine.
    destruct (Gemini.finished s); [exact H|].
    destruct (parse line) as [event|]; [|exact H].
    apply held_push_all. eapply held_ext; [| | | |exact H]; simpl; auto.
    apply current_capture.
  - destruct (Gemini.closeOn s); [|exact H]. unfold Gemini.handleClose. simpl.
    destruct (_ || _)%bool.
    + eapply held_ext; [| | | |exact H]; simpl; auto.
    + apply held_push_all. eapply held_ext; [| | | |exact H]; simpl; auto.
  - destruct (Gemini.exitOn s).
    + unfold Gemini.onExit. simpl.
      destruct (Gemini.finished s).
      * eapply held_ext; [| | | |exact H]; simpl; auto.
      * simpl. destruct (Gemini.run_aborted _ _).
        { apply held_push_all. eapply held_ext; [| | | |exact H]; simpl; auto. }
        destruct (negb (bool_decide _)).
        { apply held_push_all. eapply held_ext; [| | | |exact H]; simpl; auto. }
        apply held_push. eapply held_ext; [| | | |exact H]; simpl; auto.
        destruct (_ || _)%bool; [apply current_list|reflexivity].
    + eapply held_ext; [| | | |exact H]; simpl; auto.
  - destruct gone; simpl.
    + destruct (Gemini.errorOn s).
      * unfold Gemini.onError. simpl. destruct (Gemini.finished s).
        { eapply held_ext; [| | | |exact H]; simpl; auto. }
        apply held_push_all. eapply held_ext; [| | | |exact H]; simpl; auto.
      * eapply held_ext; [| | | |exact H]; simpl; auto.
    + destruct (Gemini.errorOn s); [|exact H].
      unfold Gemini.onError. simpl. destruct (Gemini.finished s).
      { eapply held_ext; [| | | |exact H]; simpl; auto. }
      apply held_push_all. eapply held_ext; [| | | |exact H]; simpl; auto.
  - eapply held_ext; [| | | |exact H]; simpl; auto.
    unfold Gemini.interrupt. apply current_abortChild.
  - eapply held_ext; [| | | |exact H]; simpl; auto.
    apply current_external_abort.
  - eapply held_ext; [| | | |exact H]; simpl; auto.
  - now apply held_next.
  - now apply held_abandon.
Qed.

Transparent Gemini.push_all Gemini.push Gemini.finally Gemini.resume_with.

Lemma held_run (evs : list Gemini.Event) : forall s,
  Held s -> Held (Gemini.run_events parse s evs).
Proof.
  induction evs as [|ev evs IH]; intros s H; [exact H|].
  simpl. apply IH. now apply held_step.
Qed.

Lemma stream_starts_held (w : Gemini.World) (input : PromptInput) (ropts : RunOpts)
    (s0 : Gemini.Stream) :
  Gemini.runStreamedInternal stringify w input ropts = Resolved s0 -> Held s0.
Proof.
  unfold Gemini.runStreamedInternal. destruct (Gemini.assertIdle _); [discriminate|].
  intros H. injection H as <-. unfold Held. simpl. auto.
Qed.

End GeminiHeld.

Section GeminiUnread.

Variable parse : string -> jsval.
Variable stringify : json -> string.

Lemma unread_ext (s s' : Gemini.Stream) :
  Gemini.status s' = Gemini.status s ->
  Gemini.active s' = Gemini.active s ->
  gemini_current (Gemini.world s') = gemini_current (Gemini.world s) ->
  Unread s -> Unread s' /\ Gemini.active s' = Gemini.active s.
Proof.
  unfold Unread. intros -> Ha ->. rewrite Ha. auto.
Qed.

Lemma unread_push (e : Gemini.Entry) (s : Gemini.Stream) :
  Unread s -> Unread (Gemini.push e s) /\ Gemini.active (Gemini.push e s) = Gemini.active s.
Proof.
  intros H. unfold Gemini.push.
  destruct H as [[Hst|Hst] Hc]; rewrite Hst;
    (apply unread_ext; simpl; auto; split; auto).
Qed.

Lemma unread_push_all (es : list Gemini.Entry) : forall s,
  Unread s ->
  Unread (Gemini.push_all es s)
  /\ Gemini.active (Gemini.push_all es s) = Gemini.active s.
Proof.
  induction es as [|e es IH]; intros s H; [auto|].
  change (Gemini.push_all (e :: es) s) with (Gemini.push_all es (Gemini.push e s)).
  destruct (unread_push e s H) as [Hu Ha].
  destruct (IH _ Hu) as [Hu' Ha']. split; [exact Hu'|congruence].
Qed.

Opaque Gemini.push_all Gemini.push.

Lemma unread_step (s : Gemini.Stream) (ev : Gemini.Event) :
  gemini_is_next ev = false ->
  Unread s ->
  Unread (Gemini.step parse s ev)
  /\ Gemini.active (Gemini.step parse s ev) = Gemini.active s.
Proof.
  intros Hev H. destruct ev; simpl; try discriminate.
  - destruct (Gemini.lineOn s); [|auto]. unfold Gemini.handleLine.
    destruct (Gemini.finished s); [auto|].
    destruct (parse line) as [event|]; [|auto].
    match goal with |- context [Gemini.push_all ?es ?t] =>
      destruct (unread_ext s t) as [Hu Ha]; simpl; auto;
      [apply current_capture|];
      destruct (unread_push_all es t Hu) as [Hu' Ha'] end.
    split; [exact Hu'|congruence].
  - destruct (Gemini.closeOn s); [|auto]. unfold Gemini.handleClose. simpl.
    destruct (_ || _)%bool.
    + apply unread_ext; simpl; auto.
    + match goal with |- context [Gemini.push_all ?es ?t] =>
        destruct (unread_ext s t) as [Hu Ha]; simpl; auto;
        destruct (unread_push_all es t Hu) as [Hu' Ha'] end.
      split; [exact Hu'|]. rewrite Ha'. reflexivity.
  - destruct (Gemini.exitOn s).
    + unfold Gemini.onExit. simpl.
      destruct (Gemini.finished s).
      * apply unread_ext; simpl; auto.
      * simpl. destruct (Gemini.run_aborted _ _).
        { match goal with |- context [Gemini.push_all ?es ?t] =>
            destruct (unread_ext s t) as [Hu Ha]; simpl; auto;
            destruct (unread_push_all es t Hu) as [Hu' Ha'] end.
          split; [exact Hu'|]. rewrite Ha'. reflexivity. }
        destruct (negb (bool_decide _)).
        { match goal with |- context [Gemini.push_all ?es ?t] =>
            destruct (unread_ext s t) as [Hu Ha]; simpl; auto;
            destruct (unread_push_all es t Hu) as [Hu' Ha'] end.
          split; [exact Hu'|]. rewrite Ha'. reflexivity. }
        match goal with |- context [Gemini.push ?e ?t] =>
          destruct (unread_ext s t) as [Hu Ha]; simpl; auto;
          [destruct (_ || _)%bool; [apply current_list|reflexivity]|];
          destruct (unread_push e t Hu) as [Hu' Ha'] end.
        split; [exact Hu'|]. rewrite Ha'. reflexivity.
    + apply unread_ext; simpl; auto.
  - destruct gone; simpl.
    + destruct (Gemini.errorOn s).
      * unfold Gemini.onError. simpl. destruct (Gemini.finished s).
        { apply unread_ext; simpl; auto. }
        match goal with |- context [Gemini.push_all ?es ?t] =>
          destruct (unread_ext s t) as [Hu Ha]; simpl; auto;
          destruct (unread_push_all es t Hu) as [Hu' Ha'] end.
        split; [exact Hu'|]. rewrite Ha'. reflexivity.
      * apply unread_ext; simpl; auto.
    + destruct (Gemini.errorOn s); [|auto].
      unfold Gemini.onError. simpl. destruct (Gemini.finished s).
      { apply unread_ext; simpl; auto. }
      match goal with |- context [Gemini.push_all ?es ?t] =>
        destruct (unread_ext s t) as [Hu Ha]; simpl; auto;
        destruct (unread_push_all es t Hu) as [Hu' Ha'] end.
      split; [exact Hu'|]. rewrite Ha'. reflexivity.
  - split; [|reflexivity]. apply (unread_ext s); simpl; auto.
    unfold Gemini.interrupt. apply current_abortChild.
  - split; [|reflexivity]. apply (unread_ext s); simpl; auto.
    apply current_external_abort.
  - split; [|reflexivity]. apply (unread_ext s); simpl; auto.
  - unfold Gemini.abandon. destruct H as [[Hst|Hst] Hc]; rewrite Hst.
    + split; [|reflexivity]. split; [right; reflexivity|exact Hc].
    + split; [|reflexivity]. split; [right; exact Hst|exact Hc].
Qed.

Transparent Gemini.push_all Gemini.push.

Lemma unread_run (evs : list Gemini.Event) : forall s,
  forallb (fun ev => negb (gemini_is_next ev)) evs = true ->
  Unread s ->
  Unread (Gemini.run_events parse s evs)
  /\ Gemini.active (Gemini.run_events parse s evs) = Gemini.active s.
Proof.
  induction evs as [|ev evs IH]; intros s Hall H; [auto|].
  simpl in Hall. apply andb_prop in Hall as [Hev Hall].
  apply negb_true_iff in Hev.
  destruct (unread_step s ev Hev H) as [Hu Ha].
  destruct (IH _ Hall Hu) as [Hu' Ha']. simpl. split; [exact Hu'|congruence].
Qed.

Lemma stream_starts_unread (w : Gemini.World) (input : PromptInput) (ropts : RunOpts)
    (s0 : Gemini.Stream) :
  Gemini.runStreamedInternal stringify w input ropts = Resolved s0 -> Unread s0.
Proof.
  unfold Gemini.runStreamedInternal. destruct (Gemini.assertIdle _); [discriminate|].
  intros H. injection H as <-. unfold Unread. simpl. auto.
Qed.

End GeminiUnread.

(** X1: a non-streamed Gemini run that starts on an idle thread leaves the
    thread idle when it settles, whether it resolves or rejects, whatever
    happened while the process ran: the [finally] block of [runInternal]
    runs [cleanup], which clears [state.currentRun]. *)
Theorem gemini_run_releases_the_thread :
  forall (parse : string -> jsval) (stringify : json -> string)
         (w : Gemini.World) (input : PromptInput) (ropts : RunOpts)
         (meanwhile : list Gemini.Meanwhile) (outcome : Gemini.ChildOutcome)
         (listing : list Gemini.GeminiSessionEntry),
    Gemini.assertIdle (Gemini.state_of w) = None ->
    Gemini.assertIdle
      (Gemini.state_of
         (fst (Gemini.runInternal parse stringify w input ropts meanwhile outcome listing)))
    = None.
Proof.
  intros parse stringify w input ropts meanwhile outcome listing Hidle.
  pose proof (runInternal_releases parse stringify w input ropts meanwhile outcome
                listing Hidle) as H.
  unfold gemini_current in H. unfold Gemini.assertIdle. now rewrite H.
Qed.

Lemma gemini_run_releases_the_thread_witness :
  Gemini.assertIdle (Gemini.state_of Examples.gemini_world) = None
  /\ Gemini.assertIdle
       (Gemini.state_of
          (fst (Gemini.runInternal Reader.parse Reader.stringify Examples.gemini_world
                  (PromptText "hi") no_run_opts [Gemini.MInterrupt None]
                  (Gemini.Failed (new_Error "spawn gemini ENOENT")) [])))
     = None.
Proof.
  split; [reflexivity|].
  apply (gemini_run_releases_the_thread Reader.parse Reader.stringify
           Examples.gemini_world (PromptText "hi") no_run_opts [Gemini.MInterrupt None]
           (Gemini.Failed (new_Error "spawn gemini ENOENT")) []).
  reflexivity.
Defined.

(** X2: once the generator of a streamed Gemini run has ended (it completed,
    it threw, or the consumer left it after at least one event), the thread
    is idle again. *)
Theorem gemini_stream_end_releases_the_thread :
  forall (parse : string -> jsval) (stringify : json -> string)
         (w : Gemini.World) (input : PromptInput) (ropts : RunOpts)
         (s0 : Gemini.Stream) (evs : list Gemini.Event) (o : Gemini.Outcome),
    Gemini.runStreamedInternal stringify w input ropts = Resolved s0 ->
    Gemini.status (Gemini.run_events parse s0 evs) = Gemini.Ended o ->
    o <> Gemini.Returned \/ Gemini.delivered (Gemini.run_events parse s0 evs) <> [] ->
    Gemini.assertIdle (Gemini.state_of (Gemini.world (Gemini.run_events parse s0 evs)))
    = None.
Proof.
  intros parse stringify w input ropts s0 evs o Hs0 Hst Ho.
  pose proof (held_run parse evs s0 (stream_starts_held stringify w input ropts s0 Hs0))
    as H.
  unfold Held in H. rewrite Hst in H. unfold Gemini.assertIdle.
  destruct H as [H|[H1 H2]].
  - unfold gemini_current in H. now rewrite H.
  - destruct Ho as [Ho|Ho]; contradiction.
Qed.

Lemma gemini_stream_end_releases_the_thread_witness :
  Gemini.runStreamedInternal Reader.stringify Examples.gemini_world (PromptText "hi")
    no_run_opts = Resolved Examples.gemini_stream
  /\ Gemini.status
       (Gemini.run_events Reader.parse Examples.gemini_stream
          [Gemini.Next; Gemini.Line (Examples.line "message"); Gemini.Return])
     = Gemini.Ended Gemini.Returned
  /\ Gemini.assertIdle
       (Gemini.state_of
          (Gemini.world
             (Gemini.run_events Reader.parse Examples.gemini_stream
                [Gemini.Next; Gemini.Line (Examples.line "message"); Gemini.Return])))
     = None.
Proof.
  split; [reflexivity|]. split; [vm_compute; reflexivity|].
  apply (gemini_stream_end_releases_the_thread Reader.parse Reader.stringify
           Examples.gemini_world (PromptText "hi") no_run_opts Examples.gemini_stream
           [Gemini.Next; Gemini.Line (Examples.line "message"); Gemini.Return]
           Gemini.Returned).
  - reflexivity.
  - vm_compute; reflexivity.
  - right. vm_compute. discriminate.
Defined.

(** X3: [runStreamed] spawns the process and takes the thread at once, and
    only the [finally] block of the generator gives it back.  As long as the
    consumer has not asked for a first event the thread stays busy, also
    after the process exited and after [return()] on the generator that was
    never entered: every further run on the thread is rejected. *)
Theorem gemini_unread_stream_keeps_the_thread_busy :
  forall (parse : string -> jsval) (stringify : json -> string)
         (w : Gemini.World) (input : PromptInput) (ropts : RunOpts)
         (s0 : Gemini.Stream) (evs : list Gemini.Event)
         (input' : PromptInput) (ropts' : RunOpts),
    Gemini.runStreamedInternal stringify w input ropts = Resolved s0 ->
    forallb (fun ev => negb (gemini_is_next ev)) evs = true ->
    gemini_current (Gemini.world (Gemini.run_events parse s0 evs))
    = Some (Gemini.active s0)
    /\ Gemini.runStreamedInternal stringify
         (Gemini.world (Gemini.run_events parse s0 evs)) input' ropts'
       = Rejected (new_Error "Gemini adapter only supports one in-flight run per thread.").
Proof.
  intros parse stringify w input ropts s0 evs input' ropts' Hs0 Hall.
  destruct (unread_run parse evs s0 Hall (stream_starts_unread stringify w input ropts s0 Hs0))
    as [[_ Hc] Ha].
  rewrite Ha in Hc. split; [exact Hc|].
  unfold Gemini.runStreamedInternal, Gemini.assertIdle.
  unfold gemini_current in Hc. now rewrite Hc.
Qed.

Lemma gemini_unread_stream_keeps_the_thread_busy_witness :
  Gemini.runStreamedInternal Reader.stringify Examples.gemini_world (PromptText "hi")
    no_run_opts = Resolved Examples.gemini_stream
  /\ Gemini.runStreamedInternal Reader.stringify
       (Gemini.world
          (Gemini.run_events Reader.parse Examples.gemini_stream
             [Gemini.Line (Examples.line "result"); Gemini.Close;
              Gemini.Exit (Some 0) []; Gemini.Return]))
       (PromptText "again") no_run_opts
     = Rejected (new_Error "Gemini adapter only supports one in-flight run per thread.").
Proof.
  split; [reflexivity|].
  apply (gemini_unread_stream_keeps_the_thread_busy Reader.parse Reader.stringify
           Examples.gemini_world (PromptText "hi") no_run_opts Examples.gemini_stream
           [Gemini.Line (Examples.line "result"); Gemini.Close;
            Gemini.Exit (Some 0) []; Gemini.Return]
           (PromptText "again") no_run_opts).
  - reflexivity.
  - reflexivity.
Defined.

Section CodexSlot.

Variable parse : string -> jsval.

Lemma ccurrent_update_run r f w :
  codex_current (Codex.update_run r f w) = codex_current w.
Proof. reflexivity. Qed.

Lemma ccurrent_abort w reason :
  codex_current (Codex.abortCurrentRun w reason) = codex_current w.
Proof.
  unfold Codex.abortCurrentRun.
  destruct (Codex.currentRun _); [|reflexivity].
  destruct (_ !! _) as [a|]; [|reflexivity].
  destruct (Codex.controller a); reflexivity.
Qed.

Lemma ccurrent_interrupts (rs : list (option string)) : forall w,
  codex_current (fold_left Codex.interrupt rs w) = codex_current w.
Proof.
  induction rs as [|r rs IH]; intros w; simpl; [reflexivity|].
  rewrite IH. apply ccurrent_abort.
Qed.

Lemma ccurrent_external r reason w :
  codex_current (Codex.external_abort r reason w) = codex_current w.
Proof.
  unfold Codex.external_abort.
  destruct (_ !! _) as [a|]; [|reflexivity].
  destruct (Codex.linked a); [|reflexivity].
  now rewrite ccurrent_abort.
Qed.

Lemma ccurrent_createThread w :
  codex_current (Codex.createThread w) = codex_current w.
Proof.
  unfold Codex.createThread.
  destruct (Codex.id _) as [i|]; [destruct (nonempty i)|]; reflexivity.
Qed.

Lemma ccurrent_adopt t w :
  codex_current (Codex.adopt_thread_id t w) = codex_current w.
Proof. unfold Codex.adopt_thread_id. destruct (truthy_str t); reflexivity. Qed.

Lemma ccurrent_try_run input ropts sdk w :
  codex_current (fst (Codex.try_run parse input ropts sdk w)) = codex_current w.
Proof.
  unfold Codex.try_run.
  destruct (Codex.createThread_throws sdk); [reflexivity|].
  destruct (Codex.runStreamed_throws sdk); simpl; [apply ccurrent_createThread|].
  destruct (Codex.collectRunSummary _ _ _); simpl.
  - rewrite ccurrent_adopt. apply ccurrent_createThread.
  - apply ccurrent_createThread.
Qed.

Lemma codex_runInternal_releases w input ropts sdk interrupts :
  Codex.assertIdle (Codex.state_of w) = None ->
  codex_current (fst (Codex.runInternal parse w input ropts sdk interrupts)) = None.
Proof.
  intros Hidle. unfold Codex.runInternal. rewrite Hidle.
  unfold Codex.begin_run.
  set (w1 := fold_left Codex.interrupt interrupts _).
  assert (H1 : codex_current w1 = Some (length (Codex.runs w))).
  { unfold w1. rewrite ccurrent_interrupts. reflexivity. }
  pose proof (ccurrent_try_run (Codex.normalizeInput input) ropts sdk w1) as H2.
  destruct (Codex.try_run _ _ _ _ _) as [w2 res]. simpl in *.
  rewrite H1 in H2.
  assert (H3 : Codex.currentRun
                 (Codex.state_of (Codex.stopExternal (length (Codex.runs w)) w2))
               = Some (length (Codex.runs w))) by exact H2.
  rewrite H3, Nat.eqb_refl. reflexivity.
Qed.

Lemma ccurrent_finally (completed threw : bool) (o : Codex.Outcome) (s : Codex.Stream) :
  codex_current (Codex.world s) = Some (Codex.active s) ->
  codex_current (Codex.world (Codex.finally completed threw o s)) = None.
Proof.
  intros H. unfold Codex.finally. simpl.
  set (w1 := if (_ && _ && _)%bool then _ else _).
  assert (H1 : codex_current w1 = Some (Codex.active s)).
  { unfold w1. destruct (_ && _ && _)%bool; [rewrite ccurrent_abort|]; exact H. }
  assert (H3 : Codex.currentRun (Codex.state_of (Codex.stopExternal (Codex.active s) w1))
               = Some (Codex.active s)) by exact H1.
  rewrite H3, Nat.eqb_refl. reflexivity.
Qed.

Lemma cheld_finally (completed threw : bool) (o : Codex.Outcome) (s : Codex.Stream) :
  codex_current (Codex.world s) = Some (Codex.active s) ->
  CodexHeld (Codex.finally completed threw o s).
Proof.
  intros H. pose proof (ccurrent_finally completed threw o s H) as Hf.
  unfold CodexHeld. unfold Codex.finally in *. simpl in *. left. exact Hf.
Qed.

Lemma cheld_yield e rest ph (s : Codex.Stream) :
  ph = Codex.InTry \/ ph = Codex.InCatch ->
  codex_current (Codex.world s) = Some (Codex.active s) ->
  CodexHeld (Codex.yield e rest ph s).
Proof.
  intros [->| ->] H; unfold CodexHeld; simpl; (split; [|exact H]);
    now destruct (Codex.delivered s).
Qed.

Lemma cheld_catch t (s : Codex.Stream) :
  codex_current (Codex.world s) = Some (Codex.active s) ->
  CodexHeld (Codex.catch t s).
Proof.
  intros H. unfold Codex.catch. destruct (Codex.isAbortError t).
  - apply cheld_yield; auto.
  - now apply cheld_finally.
Qed.

Lemma cheld_pump (evs : list jsval) : forall s,
  codex_current (Codex.world s) = Some (Codex.active s) ->
  CodexHeld (Codex.pump evs s).
Proof.
  induction evs as [|ev evs IH]; intros s H; simpl.
  - destruct (Codex.ending (Codex.backend s)).
    + now apply cheld_catch.
    + now apply cheld_finally.
  - destruct (Codex.normalizeCodexEvent ev); [now apply IH|].
    apply cheld_yield; auto.
Qed.

Lemma cheld_ext (s s' : Codex.Stream) :
  Codex.phase s' = Codex.phase s ->
  Codex.delivered s' = Codex.delivered s ->
  Codex.active s' = Codex.active s ->
  codex_current (Codex.world s') = codex_current (Codex.world s) ->
  CodexHeld s -> CodexHeld s'.
Proof. unfold CodexHeld. intros -> -> -> ->. auto. Qed.

Lemma cheld_step (s : Codex.Stream) (ev : Codex.Event) :
  CodexHeld s -> CodexHeld (Codex.step s ev).
Proof.
  intros H. destruct ev; simpl.
  - eapply cheld_ext; [| | | |exact H]; simpl; auto.
    unfold Codex.interrupt. apply ccurrent_abort.
  - eapply cheld_ext; [| | | |exact H]; simpl; auto. apply ccurrent_external.
  - unfold Codex.next. unfold CodexHeld in H.
    destruct (Codex.phase s) eqn:Hph.
    + destruct H as [Hd Hc].
      destruct (Codex.createThread_throws _); [now apply cheld_catch|].
      destruct (Codex.runStreamed_throws _).
      * apply cheld_catch. simpl.
        change (codex_current (Codex.createThread (Codex.world s)) = Some (Codex.active s)).
        now rewrite ccurrent_createThread.
      * apply cheld_pump. simpl. rewrite ccurrent_adopt.
        change (codex_current (Codex.createThread (Codex.world s)) = Some (Codex.active s)).
        now rewrite ccurrent_createThread.
    + destruct H as [Hd Hc].
      destruct (Codex.buffer s); [now apply cheld_pump|]. apply cheld_yield; auto.
    + destruct H as [Hd Hc].
      destruct (Codex.buffer s); [now apply cheld_finally|]. apply cheld_yield; auto.
    + unfold CodexHeld. now rewrite Hph.
  - unfold Codex.abandon. unfold CodexHeld in H.
    destruct (Codex.phase s) eqn:Hph.
    + unfold CodexHeld. simpl. right. tauto.
    + now apply cheld_finally.
    + now apply cheld_finally.
    + unfold CodexHeld. now rewrite Hph.
Qed.

Lemma cheld_run (evs : list Codex.Event) : forall s,
  CodexHeld s -> CodexHeld (Codex.run_events s evs).
Proof.
  induction evs as [|ev evs IH]; intros s H; [exact H|].
  simpl. apply IH. now apply cheld_step.
Qed.

Lemma codex_stream_starts_held w input ropts sdk s0 :
  Codex.runStreamedInternal w input ropts sdk = Codex.Ok s0 -> CodexHeld s0.
Proof.
  unfold Codex.runStreamedInternal. destruct (Codex.assertIdle _); [discriminate|].
  intros H. injection H as <-. unfold CodexHeld. simpl. auto.
Qed.

Lemma cunread_step (s : Codex.Stream) (ev : Codex.Event) :
  codex_is_next ev = false ->
  CodexUnread s ->
  CodexUnread (Codex.step s ev) /\ Codex.active (Codex.step s ev) = Codex.active s.
Proof.
  intros Hev [Hph Hc]. destruct ev; simpl; try discriminate.
  - split; [|reflexivity]. split; [exact Hph|]. simpl.
    unfold Codex.interrupt. now rewrite ccurrent_abort.
  - split; [|reflexivity]. split; [exact Hph|]. simpl.
    now rewrite ccurrent_external.
  - unfold Codex.abandon. destruct Hph as [Hph|Hph]; rewrite Hph.
    + split; [|reflexivity]. split; [right; reflexivity|exact Hc].
    + split; [|reflexivity]. split; [right; exact Hph|exact Hc].
Qed.

Lemma cunread_run (evs : list Codex.Event) : forall s,
  forallb (fun ev => negb (codex_is_next ev)) evs = true ->
  CodexUnread s ->
  CodexUnread (Codex.run_events s evs)
  /\ Codex.active (Codex.run_events s evs) = Codex.active s.
Proof.
  induction evs as [|ev evs IH]; intros s Hall H; [auto|].
  simpl in Hall. apply andb_prop in Hall as [Hev Hall].
  apply negb_true_iff in Hev.
  destruct (cunread_step s ev Hev H) as [Hu Ha].
  destruct (IH _ Hall Hu) as [Hu' Ha']. simpl. split; [exact Hu'|congruence].
Qed.

Lemma calls_abort w reason :
  Codex.calls (Codex.abortCurrentRun w reason) = Codex.calls w.
Proof.
  unfold Codex.abortCurrentRun.
  destruct (Codex.currentRun _); [|reflexivity].
  destruct (_ !! _) as [a|]; [|reflexivity].
  destruct (Codex.controller a); reflexivity.
Qed.

Lemma calls_finally completed threw o (s : Codex.Stream) :
  Codex.calls (Codex.world (Codex.finally completed threw o s))
  = Codex.calls (Codex.world s).
Proof.
  unfold Codex.finally. simpl.
  set (w1 := if (_ && _ && _)%bool then _ else _).
  assert (H1 : Codex.calls w1 = Codex.calls (Codex.world s)).
  { unfold w1. destruct (_ && _ && _)%bool; [apply calls_abort|reflexivity]. }
  destruct (Codex.currentRun _) as [r'|]; [destruct (Nat.eqb r' _)|]; exact H1.
Qed.

Lemma calls_step (s : Codex.Stream) (ev : Codex.Event) :
  codex_is_next ev = false ->
  Codex.calls (Codex.world (Codex.step s ev)) = Codex.calls (Codex.world s).
Proof.
  intros Hev. destruct ev; simpl; try discriminate.
  - unfold Codex.interrupt. apply calls_abort.
  - unfold Codex.external_abort.
    destruct (_ !! _) as [a|]; [|reflexivity].
    destruct (Codex.linked a); [|reflexivity]. now rewrite calls_abort.
  - unfold Codex.abandon. destruct (Codex.phase s); try reflexivity;
      apply calls_finally.
Qed.

Lemma calls_run (evs : list Codex.Event) : forall s,
  forallb (fun ev => negb (codex_is_next ev)) evs = true ->
  Codex.calls (Codex.world (Codex.run_events s evs)) = Codex.calls (Codex.world s).
Proof.
  induction evs as [|ev evs IH]; intros s Hall; [reflexivity|].
  simpl in Hall. apply andb_prop in Hall as [Hev Hall].
  apply negb_true_iff in Hev. simpl. rewrite IH by exact Hall.
  now apply calls_step.
Qed.

End CodexSlot.

(** X4: a non-streamed Codex run that starts
    on an idle thread leaves the thread idle when it settles, whether the SDK
    answered or threw and whatever interrupts arrived: the [finally] block
    of [runInternal] clears [state.currentRun]. *)
Theorem codex_run_releases_the_thread :
  forall (parse : string -> jsval) (w : Codex.World) (input : PromptInput)
         (ropts : RunOpts) (sdk : Codex.Backend) (interrupts : list (option string)),
    Codex.assertIdle (Codex.state_of w) = None ->
    Codex.assertIdle
      (Codex.state_of (fst (Codex.runInternal parse w input ropts sdk interrupts)))
    = None.
Proof.
  intros parse w input ropts sdk interrupts Hidle.
  pose proof (codex_runInternal_releases parse w input ropts sdk interrupts Hidle) as H.
  unfold codex_current in H. unfold Codex.assertIdle. now rewrite H.
Qed.

Lemma codex_run_releases_the_thread_witness :
  Codex.assertIdle (Codex.state_of Examples.codex_world) = None
  /\ Codex.assertIdle
       (Codex.state_of
          (fst (Codex.runInternal Reader.parse Examples.codex_world (PromptText "hi")
                  no_run_opts Examples.codex_self_abort [Some "stop"])))
     = None.
Proof.
  split; [reflexivity|].
  apply (codex_run_releases_the_thread Reader.parse Examples.codex_world
           (PromptText "hi") no_run_opts Examples.codex_self_abort [Some "stop"]).
  reflexivity.
Defined.

(** X5: once the generator of a
    streamed Codex run has ended (it completed, it threw, or the consumer
    left it after at least one event), the thread is idle again. *)
Theorem codex_stream_end_releases_the_thread :
  forall (w : Codex.World) (input : PromptInput) (ropts : RunOpts)
         (sdk : Codex.Backend) (s0 : Codex.Stream) (evs : list Codex.Event)
         (o : Codex.Outcome),
    Codex.runStreamedInternal w input ropts sdk = Codex.Ok s0 ->
    Codex.phase (Codex.run_events s0 evs) = Codex.Ended o ->
    o <> Codex.Returned \/ Codex.delivered (Codex.run_events s0 evs) <> [] ->
    Codex.assertIdle (Codex.state_of (Codex.world (Codex.run_events s0 evs))) = None.
Proof.
  intros w input ropts sdk s0 evs o Hs0 Hph Ho.
  pose proof (cheld_run evs s0 (codex_stream_starts_held w input ropts sdk s0 Hs0)) as H.
  unfold CodexHeld in H. rewrite Hph in H. unfold Codex.assertIdle.
  destruct H as [H|[H1 H2]].
  - unfold codex_current in H. now rewrite H.
  - destruct Ho as [Ho|Ho]; contradiction.
Qed.

Lemma codex_stream_end_releases_the_thread_witness :
  Codex.runStreamedInternal Examples.codex_world (PromptText "hi") no_run_opts
    Examples.codex_silent
  = Codex.Ok (Examples.codex_stream Examples.codex_silent)
  /\ Codex.phase
       (Codex.run_events (Examples.codex_stream Examples.codex_silent)
          [Codex.Next; Codex.Interrupt None; Codex.Next])
     = Codex.Ended Codex.Completed
  /\ Codex.assertIdle
       (Codex.state_of
          (Codex.world
             (Codex.run_events (Examples.codex_stream Examples.codex_silent)
                [Codex.Next; Codex.Interrupt None; Codex.Next])))
     = None.
Proof.
  split; [reflexivity|]. split; [vm_compute; reflexivity|].
  apply (codex_stream_end_releases_the_thread Examples.codex_world (PromptText "hi")
           no_run_opts Examples.codex_silent (Examples.codex_stream Examples.codex_silent)
           [Codex.Next; Codex.Interrupt None; Codex.Next] Codex.Completed).
  - reflexivity.
  - vm_compute; reflexivity.
  - left. discriminate.
Defined.

(** X6: [runStreamed] of the
    Codex adapter takes the thread when it is called, before the generator is
    entered and before the SDK is asked anything.  As long as the consumer
    has not asked for a first event the thread stays busy, also after
    [return()] on the generator that was never entered, and the SDK has not
    been called. *)
Theorem codex_unread_stream_keeps_the_thread_busy :
  forall (w : Codex.World) (input : PromptInput) (ropts : RunOpts)
         (sdk : Codex.Backend) (s0 : Codex.Stream) (evs : list Codex.Event)
         (input' : PromptInput) (ropts' : RunOpts) (sdk' : Codex.Backend),
    Codex.runStreamedInternal w input ropts sdk = Codex.Ok s0 ->
    forallb (fun ev => negb (codex_is_next ev)) evs = true ->
    codex_current (Codex.world (Codex.run_events s0 evs)) = Some (Codex.active s0)
    /\ Codex.runStreamedInternal (Codex.world (Codex.run_events s0 evs)) input' ropts' sdk'
       = Codex.Throw (Codex.ThrownError
           (new_Error "Codex adapter only supports one in-flight run per thread."))
    /\ Codex.calls (Codex.world (Codex.run_events s0 evs)) = Codex.calls w.
Proof.
  intros w input ropts sdk s0 evs input' ropts' sdk' Hs0 Hall.
  assert (Hcalls : Codex.calls (Codex.world s0) = Codex.calls w).
  { revert Hs0. unfold Codex.runStreamedInternal.
    destruct (Codex.assertIdle _); [discriminate|].
    intros H. injection H as <-. reflexivity. }
  rewrite <- Hcalls, <- (calls_run evs s0 Hall).
  cut (codex_current (Codex.world (Codex.run_events s0 evs)) = Some (Codex.active s0)
       /\ Codex.runStreamedInternal (Codex.world (Codex.run_events s0 evs)) input'
            ropts' sdk'
          = Codex.Throw (Codex.ThrownError
              (new_Error "Codex adapter only supports one in-flight run per thread.")));
    [tauto|].
  assert (Hu : CodexUnread s0).
  { revert Hs0. unfold Codex.runStreamedInternal.
    destruct (Codex.assertIdle _); [discriminate|].
    intros H. injection H as <-. unfold CodexUnread. simpl. auto. }
  destruct (cunread_run evs s0 Hall Hu) as [[_ Hc] Ha].
  rewrite Ha in Hc. split; [exact Hc|].
  unfold Codex.runStreamedInternal, Codex.assertIdle.
  unfold codex_current in Hc. now rewrite Hc.
Qed.

Lemma codex_unread_stream_keeps_the_thread_busy_witness :
  Codex.runStreamedInternal Examples.codex_world (PromptText "hi") no_run_opts
    Examples.codex_silent
  = Codex.Ok (Examples.codex_stream Examples.codex_silent)
  /\ Codex.runStreamedInternal
       (Codex.world
          (Codex.run_events (Examples.codex_stream Examples.codex_silent)
             [Codex.Interrupt (Some "stop"); Codex.Return]))
       (PromptText "again") no_run_opts Examples.codex_silent
     = Codex.Throw (Codex.ThrownError
         (new_Error "Codex adapter only supports one in-flight run per thread."))
  /\ Codex.calls
       (Codex.world
          (Codex.run_events (Examples.codex_stream Examples.codex_silent)
             [Codex.Interrupt (Some "stop"); Codex.Return]))
     = [].
Proof.
  split; [reflexivity|].
  apply (codex_unread_stream_keeps_the_thread_busy Examples.codex_world (PromptText "hi")
           no_run_opts Examples.codex_silent (Examples.codex_stream Examples.codex_silent)
           [Codex.Interrupt (Some "stop"); Codex.Return]
           (PromptText "again") no_run_opts Examples.codex_silent).
  - reflexivity.
  - reflexivity.
Defined.

(** ** Interrupts and their reasons *)

Lemma gemini_interrupt_leaves_no_live_run (w : Gemini.World) (reason : option string) :
  Gemini.no_live_run (Gemini.abortChild w reason) = true.
Proof.
  unfold Gemini.abortChild, Gemini.no_live_run.
  destruct (Gemini.currentRun (Gemini.state_of w)) as [r|] eqn:Hc; [|now rewrite Hc].
  destruct (Gemini.runs w !! r) as [a|] eqn:Hr; [|now rewrite Hc, Hr].
  destruct (Gemini.aborted a) eqn:Ha; [now rewrite Hc, Hr|].
  change (Gemini.currentRun (Gemini.state_of (Gemini.update_run r _ w)))
    with (Gemini.currentRun (Gemini.state_of w)).
  rewrite Hc. unfold Gemini.update_run. simpl.
  rewrite list_lookup_alter_eq, Hr. reflexivity.
Qed.

Lemma codex_interrupt_leaves_no_live_run (w : Codex.World) (reason : option string) :
  Codex.no_live_run (Codex.abortCurrentRun w reason) = true.
Proof.
  unfold Codex.abortCurrentRun, Codex.no_live_run.
  destruct (Codex.currentRun (Codex.state_of w)) as [r|] eqn:Hc; [|now rewrite Hc].
  destruct (Codex.runs w !! r) as [a|] eqn:Hr; [|now rewrite Hc, Hr].
  destruct (Codex.controller a) eqn:Ha.
  - rewrite Hc, Hr, Ha. apply bool_decide_eq_true. eauto.
  - change (Codex.currentRun (Codex.state_of (Codex.update_run r _ w)))
      with (Codex.currentRun (Codex.state_of w)).
    rewrite Hc. unfold Codex.update_run. simpl.
    rewrite list_lookup_alter_eq, Hr. reflexivity.
Qed.

(** X7: on the Gemini and on the Codex
    adapter a second [interrupt] changes nothing after a first one: the run
    keeps the reason of the first interrupt, its signal is not aborted again
    and no further timer is armed. *)
Theorem interrupt_twice_is_interrupt_once :
  forall (gw : Gemini.World) (cw : Codex.World) (first second : option string),
    Gemini.interrupt (Gemini.interrupt gw first) second = Gemini.interrupt gw first
    /\ Codex.interrupt (Codex.interrupt cw first) second = Codex.interrupt cw first.
Proof.
  intros gw cw first second. split.
  - unfold Gemini.interrupt at 1. apply gemini_abortChild_noop.
    apply gemini_interrupt_leaves_no_live_run.
  - unfold Codex.interrupt at 1. apply codex_abortCurrentRun_noop.
    apply codex_interrupt_leaves_no_live_run.
Qed.

Section GeminiReasons.

Variable parse : string -> jsval.
Variable stringify : json -> string.

Lemma run_is_update (P : Gemini.ActiveRun -> Prop) (f : Gemini.ActiveRun -> Gemini.ActiveRun)
    (r r' : nat) (w : Gemini.World) :
  (forall a, P a -> P (f a)) ->
  run_is P w r -> run_is P (Gemini.update_run r' f w) r.
Proof.
  intros Hf (a & Hr & Ha). unfold run_is, Gemini.update_run. simpl.
  destruct (decide (r' = r)) as [->|Hne].
  - rewrite list_lookup_alter_eq, Hr. simpl. eauto.
  - rewrite list_lookup_alter_ne by exact Hne. eauto.
Qed.

Lemma fire_timers_untouched (now : Z) (a : Gemini.ActiveRun) :
  untouched a -> Gemini.fire_timers now a = a.
Proof.
  intros (_ & _ & _ & _ & _ & _ & Hs & Hh). unfold Gemini.fire_timers.
  rewrite Hs. simpl. rewrite Hh. reflexivity.
Qed.

Lemma untouched_elapse (ms : Z) (w : Gemini.World) (r : nat) :
  run_is untouched w r -> run_is untouched (Gemini.elapse ms w) r.
Proof.
  intros (a & Hr & Ha). exists a. split; [|exact Ha].
  unfold Gemini.elapse. simpl. rewrite list_lookup_fmap, Hr. simpl.
  now rewrite fire_timers_untouched.
Qed.

Lemma untouched_elapses (ms : list Gemini.Meanwhile) (r : nat) : forall w,
  forallb is_elapse ms = true ->
  gemini_current w = Some r ->
  run_is untouched w r ->
  gemini_current (fold_left (Gemini.meanwhile_step r) ms w) = Some r
  /\ run_is untouched (fold_left (Gemini.meanwhile_step r) ms w) r.
Proof.
  induction ms as [|m ms IH]; intros w Hall Hc Hu; [auto|].
  simpl in Hall. apply andb_prop in Hall as [Hm Hall].
  destruct m; try discriminate. simpl. apply IH; auto.
  now apply untouched_elapse.
Qed.

Lemma untouched_spawn (w : Gemini.World) (prompt : string) (mode : Gemini.Format)
    (ropts : RunOpts) :
  run_is untouched (fst (Gemini.spawnGeminiProcess w prompt mode ropts))
    (snd (Gemini.spawnGeminiProcess w prompt mode ropts)).
Proof.
  eexists. split; [apply spawn_uses_resolved_target|].
  unfold untouched. simpl. repeat split; reflexivity.
Qed.

Lemma interrupt_untouched (w : Gemini.World) (r : nat) (reason : option string) :
  gemini_current w = Some r ->
  run_is untouched w r ->
  run_is (aborted_with (default "Interrupted" reason)) (Gemini.interrupt w reason) r.
Proof.
  intros Hc (a & Hr & Ha). unfold Gemini.interrupt, Gemini.abortChild.
  unfold gemini_current in Hc. rewrite Hc, Hr.
  destruct Ha as (_ & _ & _ & _ & Hab & _). rewrite Hab.
  unfold run_is, Gemini.update_run. simpl. rewrite list_lookup_alter_eq, Hr. simpl.
  eexists. split; [reflexivity|]. unfold aborted_with. simpl. auto.
Qed.

Lemma aborted_with_abortChild (x : string) (w : Gemini.World) (r : nat)
    (reason : option string) :
  run_is (aborted_with x) w r -> run_is (aborted_with x) (Gemini.abortChild w reason) r.
Proof.
  intros H. unfold Gemini.abortChild.
  destruct (Gemini.currentRun _) as [r'|]; [|exact H].
  destruct (Gemini.runs w !! r') as [a'|] eqn:Hr'; [|exact H].
  destruct (Gemini.aborted a') eqn:Hab; [exact H|].
  destruct H as (a & Hr & Ha1 & Ha2).
  assert (Hne : r' <> r).
  { intros ->. rewrite Hr in Hr'. injection Hr' as ->. congruence. }
  exists a. unfold Gemini.update_run. simpl.
  rewrite list_lookup_alter_ne by exact Hne. unfold aborted_with. auto.
Qed.

Lemma aborted_with_meanwhile (x : string) (w : Gemini.World) (r r0 : nat)
    (m : Gemini.Meanwhile) :
  run_is (aborted_with x) w r ->
  run_is (aborted_with x) (Gemini.meanwhile_step r0 w m) r.
Proof.
  intros H. destruct m; simpl.
  - now apply aborted_with_abortChild.
  - unfold Gemini.external_abort.
    destruct (Gemini.runs w !! r0) as [a0|]; [|exact H].
    destruct (Gemini.linked a0); [|exact H].
    destruct (Gemini.controller a0).
    + apply run_is_update; [|exact H]. intros a [? ?]. split; assumption.
    + apply aborted_with_abortChild.
      apply run_is_update; [intros a [? ?]; split; assumption|].
      apply run_is_update; [intros a [? ?]; split; assumption|exact H].
  - destruct H as (a & Hr & Ha1 & Ha2).
    exists (Gemini.fire_timers (Gemini.clock w + Z.max ms 0) a).
    unfold Gemini.elapse. simpl. rewrite list_lookup_fmap, Hr. split; [reflexivity|].
    unfold Gemini.fire_timers, aborted_with.
    destruct (Gemini.is_due _ (Gemini.softKillTimer a)); simpl;
      destruct (Gemini.is_due _ _); simpl; auto.
Qed.

Lemma aborted_with_meanwhiles (x : string) (r r0 : nat) (ms : list Gemini.Meanwhile) :
  forall w,
    run_is (aborted_with x) w r ->
    run_is (aborted_with x) (fold_left (Gemini.meanwhile_step r0) ms w) r.
Proof.
  induction ms as [|m ms IH]; intros w H; [exact H|].
  simpl. apply IH. now apply aborted_with_meanwhile.
Qed.

Lemma during_interrupted (w : Gemini.World) (input : PromptInput) (ropts : RunOpts)
    (before after : list Gemini.Meanwhile) (reason : option string) :
  forallb is_elapse before = true ->
  run_is (aborted_with (default "Interrupted" reason))
    (fst (Gemini.during stringify w input ropts
            (before ++ Gemini.MInterrupt reason :: after)))
    (snd (Gemini.during stringify w input ropts
            (before ++ Gemini.MInterrupt reason :: after))).
Proof.
  intros Hb. unfold Gemini.during.
  pose proof (untouched_spawn w
                (Gemini.applyOutputSchemaPrompt stringify input (outputSchema ropts))
                Gemini.json_format ropts) as Hu.
  pose proof (current_spawn w
                (Gemini.applyOutputSchemaPrompt stringify input (outputSchema ropts))
                Gemini.json_format ropts) as Hc.
  destruct (Gemini.spawnGeminiProcess _ _ _ _) as [w1 r]. simpl in *.
  rewrite fold_left_app. simpl.
  destruct (untouched_elapses before r w1 Hb Hc Hu) as [Hc' Hu'].
  apply aborted_with_meanwhiles. now apply interrupt_untouched.
Qed.

Lemma after_exit_aborted (x : string) (r : nat) (ropts : RunOpts)
    (stdout stderr : string) (code : option Z)
    (listing : list Gemini.GeminiSessionEntry) (w : Gemini.World) :
  run_is (aborted_with x) w r ->
  snd (Gemini.after_exit parse r ropts stdout stderr code listing
         (Gemini.update_run r
            (fun a => Gemini.set_child (Gemini.exits code (Gemini.child a)) a) w))
  = Rejected (Gemini.createAbortError (Some x)).
Proof.
  intros (a & Hr & Ha1 & Ha2).
  assert (H1 : Gemini.run_aborted
                 (Gemini.update_run r
                    (fun a => Gemini.set_child (Gemini.exits code (Gemini.child a)) a) w) r
               = true).
  { rewrite run_aborted_after_exit. unfold Gemini.run_aborted. now rewrite Hr. }
  assert (H2 : Gemini.run_abortReason
                 (Gemini.update_run r
                    (fun a => Gemini.set_child (Gemini.exits code (Gemini.child a)) a) w) r
               = Some x).
  { unfold Gemini.run_abortReason, Gemini.update_run. simpl.
    rewrite list_lookup_alter_eq, Hr. exact Ha2. }
  unfold Gemini.after_exit. rewrite H1, H2. reflexivity.
Qed.

End GeminiReasons.

(** X8: a non-streamed
    Gemini run that is interrupted while its process runs rejects with an
    [AbortError] (code [interrupted]) whose message is the reason of the
    first interrupt, ["Interrupted"] when none was given.  It does so
    whatever the process printed and whatever its exit status was, also
    status 0, and whatever interrupts, external aborts or timers came
    after. *)
Theorem gemini_interrupted_run_rejects_with_the_reason :
  forall (parse : string -> jsval) (stringify : json -> string)
         (w : Gemini.World) (input : PromptInput) (ropts : RunOpts)
         (before after : list Gemini.Meanwhile) (reason : option string)
         (stdout stderr : string) (code : option Z)
         (listing : list Gemini.GeminiSessionEntry),
    Gemini.assertIdle (Gemini.state_of w) = None ->
    forallb is_elapse before = true ->
    snd (Gemini.runInternal parse stringify w input ropts
           (before ++ Gemini.MInterrupt reason :: after)
           (Gemini.Exited stdout stderr code) listing)
    = Rejected (mkError "AbortError" (Some "interrupted")
                  (default "Interrupted" reason)).
Proof.
  intros parse stringify w input ropts before after reason stdout stderr code listing
    Hidle Hb.
  rewrite runInternal_exited by exact Hidle.
  apply (after_exit_aborted parse (default "Interrupted" reason)).
  now apply during_interrupted.
Qed.

Lemma gemini_interrupted_run_rejects_with_the_reason_witness :
  Gemini.assertIdle (Gemini.state_of Examples.gemini_world) = None
  /\ snd (Gemini.runInternal Reader.parse Reader.stringify Examples.gemini_world
            (PromptText "hi") no_run_opts
            ([Gemini.MElapse 10]
             ++ Gemini.MInterrupt (Some "user pressed stop")
                :: [Gemini.MElapse 300; Gemini.MInterrupt (Some "again")])
            (Gemini.Exited Examples.prose_payload "" (Some 0)) [])
     = Rejected (mkError "AbortError" (Some "interrupted") "user pressed stop").
Proof.
  split; [reflexivity|].
  apply (gemini_interrupted_run_rejects_with_the_reason Reader.parse Reader.stringify
           Examples.gemini_world (PromptText "hi") no_run_opts [Gemini.MElapse 10]
           [Gemini.MElapse 300; Gemini.MInterrupt (Some "again")]
           (Some "user pressed stop") Examples.prose_payload "" (Some 0) []).
  - reflexivity.
  - reflexivity.
Defined.

Section CodexReasons.

Variable parse : string -> jsval.

Lemma collect_event_benign (acc : Codex.CodexRunSummary) (ev : jsval) :
  benign ev = true -> exists acc', Codex.collect_event acc ev = Codex.Ok acc'.
Proof.
  unfold benign. intros H. apply andb_prop in H as [Hn Hf].
  apply negb_true_iff in Hn, Hf. unfold Codex.collect_event. rewrite Hn.
  destruct (Codex.is_str _ "item.completed"); [eauto|].
  destruct (Codex.is_str _ "turn.completed"); [eauto|].
  rewrite Hf. eauto.
Qed.

Lemma collect_events_benign (evs : list jsval) : forall acc,
  forallb benign evs = true -> exists acc', Codex.collect_events acc evs = Codex.Ok acc'.
Proof.
  induction evs as [|ev evs IH]; intros acc Hall; simpl; [eauto|].
  simpl in Hall. apply andb_prop in Hall as [Hev Hall].
  destruct (collect_event_benign acc ev Hev) as [acc' ->]. now apply IH.
Qed.

Lemma try_run_fails (input : string) (ropts : RunOpts) (sdk : Codex.Backend)
    (w : Codex.World) (t : Codex.Thrown) :
  sdk_failure sdk = Some t ->
  forallb benign (Codex.events sdk) = true ->
  snd (Codex.try_run parse input ropts sdk w) = Codex.Throw t.
Proof.
  unfold sdk_failure, Codex.try_run. intros Hf Hb.
  destruct (Codex.createThread_throws sdk); [now injection Hf as ->|].
  destruct (Codex.runStreamed_throws sdk); [now injection Hf as ->|].
  unfold Codex.collectRunSummary.
  destruct (collect_events_benign (Codex.events sdk) (Codex.mkSummary [] "" None None) Hb)
    as [acc ->].
  rewrite Hf. reflexivity.
Qed.

Lemma runs_try_run (input : string) (ropts : RunOpts) (sdk : Codex.Backend)
    (w : Codex.World) :
  Codex.runs (fst (Codex.try_run parse input ropts sdk w)) = Codex.runs w.
Proof.
  unfold Codex.try_run.
  assert (Hc : forall w, Codex.runs (Codex.createThread w) = Codex.runs w).
  { intros w0. unfold Codex.createThread.
    destruct (Codex.id _) as [i|]; [destruct (nonempty i)|]; reflexivity. }
  destruct (Codex.createThread_throws sdk); [reflexivity|].
  destruct (Codex.runStreamed_throws sdk); simpl; [apply Hc|].
  destruct (Codex.collectRunSummary _ _ _); simpl; [|apply Hc].
  unfold Codex.adopt_thread_id. destruct (truthy_str _); simpl; apply Hc.
Qed.

Lemma interrupts_after_first (rs : list (option string)) : forall w,
  Codex.no_live_run w = true -> fold_left Codex.interrupt rs w = w.
Proof.
  induction rs as [|r rs IH]; intros w H; [reflexivity|].
  simpl. unfold Codex.interrupt at 2.
  rewrite codex_abortCurrentRun_noop by exact H. now apply IH.
Qed.

End CodexReasons.

(** X9: a non-streamed
    Codex run is interrupted and the SDK answers with an abort-shaped error
    (from [createThread], from [runStreamed], or at the end of events it
    could read).  The run rejects with an [AbortError] (code [interrupted])
    whose message is the reason of the first interrupt, ["Interrupted"] when
    none was given, not the message of the SDK's error. *)
Theorem codex_interrupted_run_rejects_with_the_reason :
  forall (parse : string -> jsval) (w : Codex.World) (input : PromptInput)
         (ropts : RunOpts) (sdk : Codex.Backend) (t : Codex.Thrown)
         (first : option string) (later : list (option string)),
    Codex.assertIdle (Codex.state_of w) = None ->
    sdk_failure sdk = Some t ->
    Codex.isAbortError t = true ->
    forallb benign (Codex.events sdk) = true ->
    snd (Codex.runInternal parse w input ropts sdk (first :: later))
    = Codex.Throw
        (Codex.ThrownError
           (mkError "AbortError" (Some "interrupted") (default "Interrupted" first))).
Proof.
  intros parse w input ropts sdk t first later Hidle Hf Ht Hb.
  unfold Codex.runInternal. rewrite Hidle. unfold Codex.begin_run.
  set (r := length (Codex.runs w)).
  set (w0 := Codex.set_state _ _).
  assert (Hc0 : Codex.currentRun (Codex.state_of w0) = Some r) by reflexivity.
  assert (Hr0 : Codex.runs w0 !! r = Some (Codex.mkActive None (signal ropts) false None)).
  { unfold w0, r. simpl. rewrite lookup_app_r by lia.
    now rewrite Nat.sub_diag. }
  destruct (codex_abort_sets_both _ w0 r (Some (default "Interrupted" first)) Hc0 Hr0
              eq_refl) as (a' & Hr1 & _ & _ & Hreason).
  simpl fold_left. fold (Codex.interrupt w0 first) in Hr1.
  rewrite interrupts_after_first
    by (unfold Codex.interrupt; apply codex_interrupt_leaves_no_live_run).
  pose proof (try_run_fails parse (Codex.normalizeInput input) ropts sdk
                (Codex.interrupt w0 first) t Hf Hb) as Hres.
  pose proof (runs_try_run parse (Codex.normalizeInput input) ropts sdk
                (Codex.interrupt w0 first)) as Hruns.
  destruct (Codex.try_run _ _ _ _ _) as [w2 res]. simpl in Hres, Hruns. subst res.
  rewrite Ht.
  assert (Hx : Codex.run_abortReason w2 r = Some (default "Interrupted" first)).
  { unfold Codex.run_abortReason. rewrite Hruns, Hr1. exact Hreason. }
  rewrite Hx. simpl.
  destruct (Codex.currentRun _) as [r'|]; [destruct (Nat.eqb r' r)|]; reflexivity.
Qed.

Lemma codex_interrupted_run_rejects_with_the_reason_witness :
  Codex.assertIdle (Codex.state_of Examples.codex_world) = None
  /\ sdk_failure Examples.codex_self_abort
     = Some (Codex.ThrownError (mkError "AbortError" None "socket closed"))
  /\ snd (Codex.runInternal Reader.parse Examples.codex_world (PromptText "hi")
            no_run_opts Examples.codex_self_abort [Some "user pressed stop"; None])
     = Codex.Throw
         (Codex.ThrownError
            (mkError "AbortError" (Some "interrupted") "user pressed stop")).
Proof.
  split; [reflexivity|]. split; [reflexivity|].
  apply (codex_interrupted_run_rejects_with_the_reason Reader.parse Examples.codex_world
           (PromptText "hi") no_run_opts Examples.codex_self_abort
           (Codex.ThrownError (mkError "AbortError" None "socket closed"))
           (Some "user pressed stop") [None]);
    reflexivity.
Defined.

(** ** What a streamed Gemini run delivers *)

Section GeminiFlow.

Variable parse : string -> jsval.
Variable stringify : json -> string.

Lemma push_ev_frame (e : CoderStreamEvent) (s : Gemini.Stream) :
  Gemini.world (Gemini.push (Gemini.Ev e) s) = Gemini.world s
  /\ Gemini.active (Gemini.push (Gemini.Ev e) s) = Gemini.active s
  /\ Gemini.finished (Gemini.push (Gemini.Ev e) s) = Gemini.finished s
  /\ Gemini.lineOn (Gemini.push (Gemini.Ev e) s) = Gemini.lineOn s
  /\ Gemini.exitOn (Gemini.push (Gemini.Ev e) s) = Gemini.exitOn s.
Proof. unfold Gemini.push. destruct (Gemini.status s); simpl; auto. Qed.

Lemma push_evs_frame (evs : list CoderStreamEvent) : forall s,
  Gemini.world (Gemini.push_all (map Gemini.Ev evs) s) = Gemini.world s
  /\ Gemini.active (Gemini.push_all (map Gemini.Ev evs) s) = Gemini.active s
  /\ Gemini.finished (Gemini.push_all (map Gemini.Ev evs) s) = Gemini.finished s
  /\ Gemini.lineOn (Gemini.push_all (map Gemini.Ev evs) s) = Gemini.lineOn s
  /\ Gemini.exitOn (Gemini.push_all (map Gemini.Ev evs) s) = Gemini.exitOn s.
Proof.
  induction evs as [|e evs IH]; intros s; [simpl; auto|].
  change (Gemini.push_all (map Gemini.Ev (e :: evs)) s)
    with (Gemini.push_all (map Gemini.Ev evs) (Gemini.push (Gemini.Ev e) s)).
  destruct (IH (Gemini.push (Gemini.Ev e) s)) as (-> & -> & -> & -> & ->).
  apply push_ev_frame.
Qed.

Lemma flow_push (e : CoderStreamEvent) (out : list CoderStreamEvent) (s : Gemini.Stream) :
  Flow out s -> Flow (out ++ [e]) (Gemini.push (Gemini.Ev e) s).
Proof.
  intros (Hf & Hl & He & Hn & queued & Hq & Hout & Hw).
  unfold Gemini.push.
  destruct (Gemini.status s) eqn:Hst; simpl in Hn; try contradiction.
  - unfold Flow. simpl. repeat split; auto.
    exists (queued ++ [e])%list. rewrite Hq, map_app, app_assoc, Hout.
    repeat split; auto. discriminate.
  - unfold Flow. simpl. repeat split; auto.
    exists (queued ++ [e])%list. rewrite Hq, map_app, app_assoc, Hout.
    repeat split; auto. discriminate.
  - unfold Flow. simpl. repeat split; auto.
    exists []. rewrite (Hw eq_refl) in *. simpl in Hq. rewrite app_nil_r in Hout.
    rewrite Hq, app_nil_r, Hout. auto.
Qed.

Lemma flow_push_all (evs : list CoderStreamEvent) : forall out s,
  Flow out s -> Flow (out ++ evs) (Gemini.push_all (map Gemini.Ev evs) s).
Proof.
  induction evs as [|e evs IH]; intros out s H.
  - simpl. now rewrite app_nil_r.
  - change (Gemini.push_all (map Gemini.Ev (e :: evs)) s)
      with (Gemini.push_all (map Gemini.Ev evs) (Gemini.push (Gemini.Ev e) s)).
    replace (out ++ e :: evs)%list with ((out ++ [e]) ++ evs)%list
      by (now rewrite <- app_assoc).
    apply IH. now apply flow_push.
Qed.

Lemma flow_frame (out : list CoderStreamEvent) (s s' : Gemini.Stream) :
  Gemini.finished s' = Gemini.finished s ->
  Gemini.lineOn s' = Gemini.lineOn s ->
  Gemini.exitOn s' = Gemini.exitOn s ->
  Gemini.status s' = Gemini.status s ->
  Gemini.queue s' = Gemini.queue s ->
  Gemini.delivered s' = Gemini.delivered s ->
  Flow out s -> Flow out s'.
Proof. unfold Flow. intros -> -> -> -> -> ->. auto. Qed.

Lemma flow_next (out : list CoderStreamEvent) (s : Gemini.Stream) :
  Flow out s ->
  Flow out (Gemini.next s)
  /\ Gemini.world (Gemini.next s) = Gemini.world s
  /\ Gemini.active (Gemini.next s) = Gemini.active s.
Proof.
  intros (Hf & Hl & He & Hn & queued & Hq & Hout & Hw).
  unfold Gemini.next.
  destruct (Gemini.status s) eqn:Hst; simpl in Hn; try contradiction.
  - rewrite Hq, Hf. destruct queued as [|e queued]; simpl.
    + unfold Flow; simpl. repeat split; auto. exists []. auto.
    + unfold Flow; simpl. repeat split; auto. exists queued.
      split; [reflexivity|]. split; [now rewrite <- app_assoc | discriminate].
  - rewrite Hq, Hf. destruct queued as [|e queued]; simpl.
    + unfold Flow; simpl. repeat split; auto. exists []. auto.
    + unfold Flow; simpl. repeat split; auto. exists queued.
      split; [reflexivity|]. split; [now rewrite <- app_assoc | discriminate].
  - split; [|auto]. unfold Flow. rewrite Hst. repeat split; auto. exists queued. auto.
Qed.

(** A step that does not finish the stream keeps it flowing. *)
Lemma flow_step (out : list CoderStreamEvent) (s : Gemini.Stream) (ev : Gemini.Event) :
  calm ev = true ->
  Flow out s ->
  Flow (out ++ events_of_lines parse [ev]) (Gemini.step parse s ev).
Proof.
  intros Hev H. destruct ev; try discriminate; simpl; rewrite ?app_nil_r.
  - destruct H as (Hf & Hl & He & Hn & Hq). rewrite Hl.
    unfold Gemini.handleLine. rewrite Hf.
    destruct (parse line) as [event|]; [|rewrite app_nil_r; repeat split; auto].
    apply flow_push_all. repeat split; auto.
  - eapply flow_frame; [| | | | | |exact H]; reflexivity.
  - eapply flow_frame; [| | | | | |exact H]; reflexivity.
  - eapply flow_frame; [| | | | | |exact H]; reflexivity.
  - now apply flow_next.
Qed.

Lemma quiet_flows (out : list CoderStreamEvent) (s : Gemini.Stream) :
  Quiet out s -> Flow out s.
Proof. intros (Hf & Hl & He & Ha & Hn & Hq). repeat split; auto. Qed.

(** Reading a queue of events that ends in the end-of-stream mark: the
    events are delivered, then the iteration completes. *)
Lemma drain_to_done (rest : list Gemini.Entry) (queued : list CoderStreamEvent) :
  forall s,
    Gemini.status s = Gemini.NotStarted \/ Gemini.status s = Gemini.Suspended ->
    Gemini.queue s = (map Gemini.Ev queued ++ Gemini.DONE :: rest)%list ->
    Gemini.status (Gemini.run_events parse s (repeat Gemini.Next (length queued + 1)))
    = Gemini.Ended Gemini.Completed
    /\ Gemini.delivered
         (Gemini.run_events parse s (repeat Gemini.Next (length queued + 1)))
       = (Gemini.delivered s ++ queued)%list.
Proof.
  induction queued as [|x queued IH]; intros s Hst Hq.
  - simpl in *. unfold Gemini.next.
    destruct Hst as [-> | ->]; rewrite Hq; simpl; now rewrite app_nil_r.
  - simpl in Hq. simpl.
    assert (Hn : Gemini.status (Gemini.next s) = Gemini.Suspended
                 /\ Gemini.queue (Gemini.next s)
                    = (map Gemini.Ev queued ++ Gemini.DONE :: rest)%list
                 /\ Gemini.delivered (Gemini.next s) = (Gemini.delivered s ++ [x])%list).
    { unfold Gemini.next. destruct Hst as [-> | ->]; rewrite Hq; simpl; auto. }
    destruct Hn as (H1 & H2 & H3).
    destruct (IH (Gemini.next s) (or_intror H1) H2) as (Ha & Hb).
    split; [exact Ha|]. rewrite Hb, H3, <- app_assoc. reflexivity.
Qed.

(** A stream whose queue ends in the end-of-stream mark completes for a
    consumer that reads on, having delivered [out]. *)
Lemma completes (out : list CoderStreamEvent) (s : Gemini.Stream) :
  (Gemini.status s = Gemini.Ended Gemini.Completed /\ Gemini.delivered s = out)
  \/ ((Gemini.status s = Gemini.NotStarted \/ Gemini.status s = Gemini.Suspended)
      /\ exists queued,
           Gemini.queue s = (map Gemini.Ev queued ++ [Gemini.DONE])%list
           /\ (Gemini.delivered s ++ queued)%list = out) ->
  exists n, forall m, (n <= m)%nat ->
    Gemini.status (Gemini.run_events parse s (repeat Gemini.Next m))
    = Gemini.Ended Gemini.Completed
    /\ Gemini.delivered (Gemini.run_events parse s (repeat Gemini.Next m)) = out.
Proof.
  intros [(Hst & Hd) | (Hst & queued & Hq & Hd)].
  - exists 0%nat. intros m _. rewrite (ended_ignores_next parse _ _ m Hst). auto.
  - exists (length queued + 1)%nat. intros m Hm.
    replace m with ((length queued + 1) + (m - (length queued + 1)))%nat by lia.
    rewrite repeat_app, run_events_app.
    destruct (drain_to_done [] queued _ Hst Hq) as (Ha & Hb).
    rewrite (ended_ignores_next parse _ _ _ Ha).
    split; [exact Ha|]. now rewrite Hb, Hd.
Qed.


End GeminiFlow.



Section GeminiStopping.

Variable parse : string -> jsval.
Variable stringify : json -> string.

Lemma stream_starts_running (w : Gemini.World) (input : PromptInput) (ropts : RunOpts)
    (s0 : Gemini.Stream) :
  Gemini.runStreamedInternal stringify w input ropts = Resolved s0 ->
  Running [] s0.
Proof.
  intros Hs0. split; [|split].
  - apply quiet_flows. eapply stream_starts_quiet. exact Hs0.
  - eapply stream_starts_unread. exact Hs0.
  - revert Hs0. unfold Gemini.runStreamedInternal.
    destruct (Gemini.assertIdle _); [discriminate|].
    intros H. injection H as <-. apply untouched_spawn.
Qed.

Lemma run_aborted_untouched (w : Gemini.World) (r : nat) :
  run_is untouched w r -> Gemini.run_aborted w r = false.
Proof.
  intros (a & Hr & _ & _ & _ & _ & Ha & _). unfold Gemini.run_aborted. now rewrite Hr.
Qed.

Lemma running_step (out : list CoderStreamEvent) (s : Gemini.Stream) (ev : Gemini.Event) :
  quiet ev = true ->
  Running out s ->
  Running (out ++ events_of_lines parse [ev]) (Gemini.step parse s ev)
  /\ Gemini.active (Gemini.step parse s ev) = Gemini.active s.
Proof.
  intros Hev (Hflow & Hc & Hu). destruct ev; try discriminate.
  - pose proof (flow_step parse out s (Gemini.Line line) eq_refl Hflow) as Hflow'.
    split; [split; [exact Hflow'|]|]; simpl.
    + destruct (Gemini.lineOn s); [|auto]. unfold Gemini.handleLine.
      destruct (Gemini.finished s); [auto|].
      destruct (parse line) as [event|]; [|auto].
      match goal with |- context [Gemini.push_all (map Gemini.Ev ?es) ?t] =>
        destruct (push_evs_frame es t) as (-> & -> & _) end.
      simpl. split; [|exact Hu].
      unfold gemini_current, Gemini.state_of. simpl. rewrite current_capture. exact Hc.
    + destruct (Gemini.lineOn s); [|auto]. unfold Gemini.handleLine.
      destruct (Gemini.finished s); [auto|].
      destruct (parse line) as [event|]; [|auto].
      match goal with |- context [Gemini.push_all (map Gemini.Ev ?es) ?t] =>
        destruct (push_evs_frame es t) as (_ & -> & _) end.
      reflexivity.
  - assert (Hs : Gemini.step parse s Gemini.Close
                 = if Gemini.closeOn s then
                     Gemini.mkStream (Gemini.world s) (Gemini.active s) (Gemini.queue s)
                       (Gemini.finished s) (Gemini.lineOn s) false (Gemini.exitOn s)
                       (Gemini.errorOn s) (Gemini.status s) (Gemini.delivered s)
                   else s).
    { simpl. destruct (Gemini.closeOn s); [|reflexivity].
      unfold Gemini.handleClose. simpl.
      rewrite (run_aborted_untouched _ _ Hu). now rewrite orb_true_r. }
    rewrite Hs. simpl. rewrite app_nil_r.
    destruct (Gemini.closeOn s);
      [|split; [split; [exact Hflow|split; assumption]|reflexivity]].
    split; [|reflexivity]. split; [|split; assumption].
    eapply flow_frame; [| | | | | |exact Hflow]; reflexivity.
  - pose proof (flow_step parse out s (Gemini.Elapse ms) eq_refl Hflow) as Hflow'.
    split; [|reflexivity]. split; [exact Hflow'|]. simpl. split; [exact Hc|].
    now apply untouched_elapse.
  - pose proof (flow_step parse out s Gemini.Next eq_refl Hflow) as Hflow'.
    destruct (flow_next out s Hflow) as (_ & Hw & Ha).
    split; [|exact Ha]. split; [exact Hflow'|]. simpl. rewrite Hw, Ha. auto.
Qed.

Lemma running_run (evs : list Gemini.Event) : forall out s,
  forallb quiet evs = true ->
  Running out s ->
  Running (out ++ events_of_lines parse evs) (Gemini.run_events parse s evs)
  /\ Gemini.active (Gemini.run_events parse s evs) = Gemini.active s.
Proof.
  induction evs as [|ev evs IH]; intros out s Hall H.
  - simpl. now rewrite app_nil_r.
  - simpl in Hall. apply andb_true_iff in Hall as [Hev Hall].
    change (ev :: evs) with ([ev] ++ evs)%list.
    rewrite events_of_lines_app, app_assoc. simpl.
    destruct (running_step out s ev Hev H) as [H1 Ha1].
    destruct (IH _ _ Hall H1) as [H2 Ha2]. split; [exact H2|congruence].
Qed.

Lemma interrupt_running (out : list CoderStreamEvent) (s : Gemini.Stream)
    (reason : option string) :
  Running out s ->
  Stopping (default "Interrupted" reason) out
    (Gemini.step parse s (Gemini.Interrupt reason)).
Proof.
  intros (Hflow & Hc & Hu). split.
  - eapply flow_frame; [| | | | | |exact Hflow]; reflexivity.
  - simpl. now apply interrupt_untouched.
Qed.

Lemma stopping_step (x : string) (out : list CoderStreamEvent) (s : Gemini.Stream)
    (ev : Gemini.Event) :
  calm ev = true ->
  Stopping x out s ->
  Stopping x (out ++ events_of_lines parse [ev]) (Gemini.step parse s ev).
Proof.
  intros Hev (Hflow & Hab).
  split; [now apply flow_step|].
  destruct ev; try discriminate; simpl.
  - destruct (Gemini.lineOn s); [|auto]. unfold Gemini.handleLine.
    destruct (Gemini.finished s); [auto|].
    destruct (parse line) as [event|]; [|auto].
    match goal with |- context [Gemini.push_all (map Gemini.Ev ?es) ?t] =>
      destruct (push_evs_frame es t) as (-> & -> & _) end.
    exact Hab.
  - unfold Gemini.interrupt. now apply aborted_with_abortChild.
  - now apply (aborted_with_meanwhile x _ _ _ (Gemini.MExternalAbort reason)).
  - now apply (aborted_with_meanwhile x _ _ 0%nat (Gemini.MElapse ms)).
  - destruct (flow_next out s Hflow) as (_ & -> & ->). exact Hab.
Qed.

Lemma stopping_run (x : string) (evs : list Gemini.Event) : forall out s,
  forallb calm evs = true ->
  Stopping x out s ->
  Stopping x (out ++ events_of_lines parse evs) (Gemini.run_events parse s evs).
Proof.
  induction evs as [|ev evs IH]; intros out s Hall H.
  - simpl. now rewrite app_nil_r.
  - simpl in Hall. apply andb_true_iff in Hall as [Hev Hall].
    change (ev :: evs) with ([ev] ++ evs)%list.
    rewrite events_of_lines_app, app_assoc. simpl.
    apply IH; [exact Hall|]. now apply stopping_step.
Qed.

(** The exit of the process of a run that is being aborted, whatever the
    exit status. *)
Lemma exit_on_stopping (x : string) (out : list CoderStreamEvent) (s : Gemini.Stream)
    (code : option Z) (listing : list Gemini.GeminiSessionEntry) :
  Stopping x out s ->
  (Gemini.status (Gemini.step parse s (Gemini.Exit code listing)) = Gemini.NotStarted
   \/ Gemini.status (Gemini.step parse s (Gemini.Exit code listing)) = Gemini.Suspended)
  /\ exists queued,
       Gemini.queue (Gemini.step parse s (Gemini.Exit code listing))
       = (map Gemini.Ev queued ++ [Gemini.DONE])%list
       /\ (Gemini.delivered (Gemini.step parse s (Gemini.Exit code listing)) ++ queued)%list
          = (out ++ [Gemini.cancelledEvent x;
                     Gemini.interruptedErrorEvent (Some x)])%list.
Proof.
  intros ((Hf & Hl & He & Hn & queued & Hq & Hout & Hw) & (a & Hr & Ha1 & Ha2)).
  assert (H1 : Gemini.run_aborted
                 (Gemini.update_run (Gemini.active s)
                    (fun a => Gemini.set_child (Gemini.exits code (Gemini.child a)) a)
                    (Gemini.world s)) (Gemini.active s) = true).
  { rewrite run_aborted_after_exit. unfold Gemini.run_aborted. now rewrite Hr. }
  assert (H2 : Gemini.run_abortReason
                 (Gemini.update_run (Gemini.active s)
                    (fun a => Gemini.set_child (Gemini.exits code (Gemini.child a)) a)
                    (Gemini.world s)) (Gemini.active s) = Some x).
  { rewrite run_abortReason_after_exit. unfold Gemini.run_abortReason. now rewrite Hr. }
  simpl. rewrite He. unfold Gemini.onExit. simpl. rewrite Hf. simpl. rewrite H1.
  unfold Gemini.cancelled_tail. simpl. rewrite H2. simpl.
  unfold Gemini.push at 3. simpl.
  destruct (Gemini.status s) eqn:Hst; simpl in Hn; try contradiction.
  - unfold Gemini.push; simpl. split; [auto|].
    exists (queued ++ [Gemini.cancelledEvent x; Gemini.interruptedErrorEvent (Some x)])%list.
    rewrite Hq, map_app, app_assoc, Hout, <- !app_assoc. split; reflexivity.
  - unfold Gemini.push; simpl. split; [auto|].
    exists (queued ++ [Gemini.cancelledEvent x; Gemini.interruptedErrorEvent (Some x)])%list.
    rewrite Hq, map_app, app_assoc, Hout, <- !app_assoc. split; reflexivity.
  - unfold Gemini.push; simpl. split; [auto|].
    rewrite (Hw eq_refl) in *. rewrite app_nil_r in Hout. simpl in Hq.
    exists [Gemini.interruptedErrorEvent (Some x)].
    rewrite Hq, Hout. split; [reflexivity|]. now rewrite <- app_assoc.
Qed.

End GeminiStopping.

(** X11: a streamed
    Gemini run is interrupted while its process runs, and the process exits
    afterwards (its output does not close between the interrupt and the
    exit).  Whatever the exit status (also 0), a consumer that reads on
    receives the events of the output lines printed before the exit and then
    exactly a [cancelled] event and an [error] event with code
    [interrupted], both carrying the reason of the first interrupt
    (["Interrupted"] when none was given), and the iteration completes
    without throwing. *)
Theorem gemini_interrupted_stream_ends_with_the_cancelled_pair :
  forall (parse : string -> jsval) (stringify : json -> string)
         (w : Gemini.World) (input : PromptInput) (ropts : RunOpts)
         (s0 : Gemini.Stream) (before between : list Gemini.Event)
         (reason : option string) (code : option Z)
         (listing : list Gemini.GeminiSessionEntry),
    Gemini.runStreamedInternal stringify w input ropts = Resolved s0 ->
    forallb quiet before = true ->
    forallb calm between = true ->
    exists n, forall m, (n <= m)%nat ->
      Gemini.status
        (Gemini.run_events parse s0
           (before ++ Gemini.Interrupt reason :: between
            ++ Gemini.Exit code listing :: repeat Gemini.Next m))
      = Gemini.Ended Gemini.Completed
      /\ Gemini.delivered
           (Gemini.run_events parse s0
              (before ++ Gemini.Interrupt reason :: between
               ++ Gemini.Exit code listing :: repeat Gemini.Next m))
         = (events_of_lines parse (before ++ between)
            ++ [EvCancelled gemini
                  (Some (JObj [("reason", JStr (default "Interrupted" reason))]));
                EvError gemini (Some (JStr "interrupted"))
                  (Some (JStr (default "Interrupted" reason)))
                  (Some (JObj [("reason", JStr (default "Interrupted" reason))]))])%list.
Proof.
  intros parse stringify w input ropts s0 before between reason code listing Hs0 Hb Hc.
  destruct (running_run parse before [] s0 Hb
              (stream_starts_running stringify w input ropts s0 Hs0)) as [H1 _].
  simpl in H1.
  pose proof (interrupt_running parse _ _ reason H1) as H2.
  pose proof (stopping_run parse _ between _ _ Hc H2) as H3.
  rewrite <- events_of_lines_app in H3.
  destruct (completes parse _ _
              (or_intror (exit_on_stopping parse _ _ _ code listing H3))) as [n Hn].
  exists n. intros m Hm.
  rewrite run_events_app. simpl. rewrite run_events_app. simpl.
  apply Hn. exact Hm.
Qed.

Lemma gemini_interrupted_stream_ends_with_the_cancelled_pair_witness :
  Gemini.runStreamedInternal Reader.stringify Examples.gemini_world (PromptText "hi")
    no_run_opts = Resolved Examples.gemini_stream
  /\ exists n, forall m, (n <= m)%nat ->
       Gemini.status
         (Gemini.run_events Reader.parse Examples.gemini_stream
            ([Gemini.Next; Gemini.Line (Examples.line "message")]
             ++ Gemini.Interrupt (Some "stop") :: [Gemini.Elapse 250; Gemini.Next]
             ++ Gemini.Exit (Some 0) [] :: repeat Gemini.Next m))
       = Gemini.Ended Gemini.Completed
       /\ Gemini.delivered
            (Gemini.run_events Reader.parse Examples.gemini_stream
               ([Gemini.Next; Gemini.Line (Examples.line "message")]
                ++ Gemini.Interrupt (Some "stop") :: [Gemini.Elapse 250; Gemini.Next]
                ++ Gemini.Exit (Some 0) [] :: repeat Gemini.Next m))
          = (events_of_lines Reader.parse
               ([Gemini.Next; Gemini.Line (Examples.line "message")]
                ++ [Gemini.Elapse 250; Gemini.Next])
             ++ [EvCancelled gemini (Some (JObj [("reason", JStr "stop")]));
                 EvError gemini (Some (JStr "interrupted")) (Some (JStr "stop"))
                   (Some (JObj [("reason", JStr "stop")]))])%list.
Proof.
  split; [reflexivity|].
  apply (gemini_interrupted_stream_ends_with_the_cancelled_pair Reader.parse
           Reader.stringify Examples.gemini_world (PromptText "hi") no_run_opts
           Examples.gemini_stream [Gemini.Next; Gemini.Line (Examples.line "message")]
           [Gemini.Elapse 250; Gemini.Next] (Some "stop") (Some 0) []).
  - reflexivity.
  - reflexivity.
  - reflexivity.
Defined.

Section GeminiLeaving.

Variable parse : string -> jsval.

Lemma cleanup_untouched (w : Gemini.World) (r : nat) :
  gemini_current w = Some r ->
  run_is untouched w r ->
  gemini_current (Gemini.cleanup r w) = None
  /\ exists a,
       Gemini.runs (Gemini.cleanup r w) !! r = Some a
       /\ Gemini.received (Gemini.child a) = [Gemini.SIGTERM]
       /\ Gemini.killed (Gemini.child a) = true
       /\ Gemini.running (Gemini.child a) = true
       /\ Gemini.aborted a = false
       /\ Gemini.abortReason a = None
       /\ Gemini.softKillTimer a = None
       /\ Gemini.hardKillTimer a = None.
Proof.
  intros Hc (a & Hr & Hrun & Hk & Hx & Hrec & Hab & Hre & Hs & Hh).
  split; [now apply current_cleanup|].
  unfold Gemini.cleanup, Gemini.update_run. simpl.
  rewrite list_lookup_alter_eq.
  assert (Hr' : Gemini.runs
                  (match Gemini.currentRun (Gemini.state_of w) with
                   | Some r' =>
                       if Nat.eqb r' r
                       then Gemini.set_state
                              (Gemini.set_currentRun None (Gemini.state_of w)) w
                       else w
                   | None => w
                   end) !! r = Some a).
  { destruct (Gemini.currentRun _) as [r'|]; [destruct (Nat.eqb r' r)|]; exact Hr. }
  rewrite Hr'. simpl. eexists. split; [reflexivity|].
  unfold Gemini.cleanup_active. simpl. rewrite Hk, Hx. unfold Gemini.kill. simpl.
  rewrite Hrun. simpl. rewrite Hrec. auto 10.
Qed.

End GeminiLeaving.

(** X12: the consumer of a streamed
    Gemini run leaves the loop after an event while the process still runs
    and nobody aborted the run.  The [finally] block of the generator gives
    the thread back and [cleanup] sends the process one [SIGTERM]; the call
    of [abortChild] that follows finds no current run any more, so the run is
    not marked as aborted, no kill timer is armed, and however much time
    passes no [SIGKILL] follows. *)
Theorem gemini_early_return_sends_sigterm_only :
  forall (parse : string -> jsval) (stringify : json -> string)
         (w : Gemini.World) (input : PromptInput) (ropts : RunOpts)
         (s0 : Gemini.Stream) (evs : list Gemini.Event) (ms : Z),
    Gemini.runStreamedInternal stringify w input ropts = Resolved s0 ->
    forallb quiet evs = true ->
    Gemini.status (Gemini.run_events parse s0 evs) = Gemini.Suspended ->
    Gemini.status (Gemini.run_events parse s0 (evs ++ [Gemini.Return]))
    = Gemini.Ended Gemini.Returned
    /\ gemini_current (Gemini.world (Gemini.run_events parse s0 (evs ++ [Gemini.Return])))
       = None
    /\ exists a,
         Gemini.runs (Gemini.world (Gemini.run_events parse s0 (evs ++ [Gemini.Return])))
           !! Gemini.active s0 = Some a
         /\ Gemini.received (Gemini.child a) = [Gemini.SIGTERM]
         /\ Gemini.running (Gemini.child a) = true
         /\ Gemini.aborted a = false
         /\ Gemini.abortReason a = None
         /\ Gemini.softKillTimer a = None
         /\ Gemini.hardKillTimer a = None
         /\ Gemini.runs
              (Gemini.elapse ms
                 (Gemini.world (Gemini.run_events parse s0 (evs ++ [Gemini.Return]))))
              !! Gemini.active s0 = Some a.
Proof.
  intros parse stringify w input ropts s0 evs ms Hs0 Hq Hst.
  destruct (running_run parse evs [] s0 Hq
              (stream_starts_running stringify w input ropts s0 Hs0))
    as [(Hflow & Hc & Hu) Ha].
  rewrite run_events_app. simpl.
  set (s1 := Gemini.run_events parse s0 evs) in *.
  unfold Gemini.abandon. rewrite Hst. rewrite <- Ha.
  destruct (cleanup_untouched (Gemini.world s1) (Gemini.active s1) Hc Hu)
    as (Hc' & a & Hr & Hrec & Hk & Hrun & Hab & Hre & Hs & Hh).
  assert (Hw : Gemini.world (Gemini.finally Gemini.Returned s1)
               = Gemini.cleanup (Gemini.active s1) (Gemini.world s1)).
  { unfold Gemini.finally. simpl. destruct (_ && _)%bool; [|reflexivity].
    apply gemini_abortChild_noop. unfold Gemini.no_live_run.
    unfold gemini_current in Hc'. now rewrite Hc'. }
  rewrite Hw. split; [reflexivity|]. split; [exact Hc'|].
  exists a. repeat (split; [assumption|]).
  rewrite list_lookup_fmap, Hr. simpl.
  unfold Gemini.fire_timers. rewrite Hs. simpl. rewrite Hh. reflexivity.
Qed.

Lemma gemini_early_return_sends_sigterm_only_witness :
  Gemini.runStreamedInternal Reader.stringify Examples.gemini_world (PromptText "hi")
    no_run_opts = Resolved Examples.gemini_stream
  /\ Gemini.status
       (Gemini.run_events Reader.parse Examples.gemini_stream
          [Gemini.Next; Gemini.Line (Examples.line "message")])
     = Gemini.Suspended
  /\ exists a,
       Gemini.runs
         (Gemini.world
            (Gemini.run_events Reader.parse Examples.gemini_stream
               ([Gemini.Next; Gemini.Line (Examples.line "message")] ++ [Gemini.Return])))
         !! Gemini.active Examples.gemini_stream = Some a
       /\ Gemini.received (Gemini.child a) = [Gemini.SIGTERM]
       /\ Gemini.aborted a = false
       /\ Gemini.runs
            (Gemini.elapse 5000
               (Gemini.world
                  (Gemini.run_events Reader.parse Examples.gemini_stream
                     ([Gemini.Next; Gemini.Line (Examples.line "message")]
                      ++ [Gemini.Return]))))
            !! Gemini.active Examples.gemini_stream = Some a.
Proof.
  split; [reflexivity|]. split; [vm_compute; reflexivity|].
  destruct (gemini_early_return_sends_sigterm_only Reader.parse Reader.stringify
              Examples.gemini_world (PromptText "hi") no_run_opts Examples.gemini_stream
              [Gemini.Next; Gemini.Line (Examples.line "message")] 5000
              eq_refl eq_refl eq_refl)
    as (_ & _ & a & H1 & H2 & _ & H3 & _ & _ & _ & H4).
  exists a. auto.
Defined.

(** ** What a streamed Codex run delivers *)

Lemma codex_normalize_nonempty (ev : jsval) : Codex.normalizeCodexEvent ev <> [].
Proof.
  unfold Codex.normalizeCodexEvent.
  repeat match goal with
         | |- context [if ?c then _ else _] => destruct c
         end; discriminate.
Qed.

Lemma take_app_one {A} (l : list A) (x : A) (rest : list A) :
  take (length l + 1) (l ++ x :: rest) = (l ++ [x])%list.
Proof.
  rewrite take_app_ge by lia. replace (length l + 1 - length l)%nat with 1%nat by lia.
  reflexivity.
Qed.

Lemma codex_flow_next (all : list CoderStreamEvent) (s : Codex.Stream) :
  CodexFlow all s ->
  CodexFlow all (Codex.next s)
  /\ Codex.delivered (Codex.next s) = take (length (Codex.delivered s) + 1) all
  /\ ((length all <= length (Codex.delivered s))%nat ->
      Codex.phase (Codex.next s) = Codex.Ended Codex.Completed).
Proof.
  intros (H1 & H2 & H3 & Hph). unfold Codex.next.
  destruct (Codex.phase s) eqn:Hp.
  - destruct Hph as (Hd & Hb & Hall). rewrite H1, H2.
    destruct (Codex.events (Codex.backend s)) as [|ev rest] eqn:Hev.
    + simpl in Hall. subst all. simpl. rewrite H3.
      unfold CodexFlow, Codex.finally. simpl. rewrite Hd. simpl. tauto.
    + simpl. simpl in Hall.
      destruct (Codex.normalizeCodexEvent ev) as [|e more] eqn:Hn;
        [now apply codex_normalize_nonempty in Hn|].
      unfold CodexFlow, Codex.yield. simpl. rewrite Hd, <- Hall. simpl.
      repeat split; auto. intros Hle. lia.
  - destruct (Codex.buffer s) as [|e more] eqn:Hb.
    + destruct (Codex.events (Codex.backend s)) as [|ev rest] eqn:Hev.
      * simpl. rewrite H3. simpl in Hph. rewrite app_nil_r in Hph.
        unfold CodexFlow, Codex.finally. simpl. rewrite Hph.
        repeat split; auto. rewrite take_ge by lia. reflexivity.
      * simpl. simpl in Hph.
        destruct (Codex.normalizeCodexEvent ev) as [|e more] eqn:Hn;
          [now apply codex_normalize_nonempty in Hn|].
        unfold CodexFlow, Codex.yield. simpl. rewrite <- Hph. simpl.
        rewrite <- !app_assoc. repeat split; auto.
        -- now rewrite take_app_one.
        -- rewrite length_app. simpl. intros Hle. lia.
    + unfold CodexFlow, Codex.yield. simpl. rewrite H1, H2, H3, <- Hph. simpl.
      rewrite <- !app_assoc. repeat split; auto.
      * now rewrite take_app_one.
      * rewrite length_app. simpl. intros Hle. lia.
  - contradiction.
  - destruct Hph as [-> Hd]. split; [|split].
    + unfold CodexFlow. rewrite Hp. auto.
    + rewrite Hd. rewrite take_ge by lia. reflexivity.
    + intros _. exact Hp.
Qed.

Lemma codex_flow_world (all : list CoderStreamEvent) (s : Codex.Stream) (w : Codex.World) :
  CodexFlow all s -> CodexFlow all (Codex.set_world w s).
Proof. unfold CodexFlow. simpl. auto. Qed.

Lemma codex_flow_prefix (all : list CoderStreamEvent) (s : Codex.Stream) :
  CodexFlow all s -> (length (Codex.delivered s) <= length all)%nat.
Proof.
  intros (_ & _ & _ & Hph). destruct (Codex.phase s).
  - destruct Hph as (-> & _). simpl. lia.
  - rewrite <- Hph, length_app. lia.
  - contradiction.
  - destruct Hph as [_ ->]. lia.
Qed.

Lemma codex_flow_run (all : list CoderStreamEvent) (evs : list Codex.Event) : forall s,
  forallb (fun ev => negb (codex_is_return ev)) evs = true ->
  CodexFlow all s ->
  Codex.delivered (Codex.run_events s evs)
  = take (length (Codex.delivered s) + length (filter (fun ev => codex_is_next ev = true) evs))
      all
  /\ ((length all
       < length (Codex.delivered s)
         + length (filter (fun ev => codex_is_next ev = true) evs))%nat ->
      Codex.phase (Codex.run_events s evs) = Codex.Ended Codex.Completed).
Proof.
  induction evs as [|ev evs IH]; intros s Hall H.
  - simpl. pose proof (codex_flow_prefix all s H) as Hp. split; [|lia].
    rewrite Nat.add_0_r.
    destruct H as (_ & _ & _ & Hph). destruct (Codex.phase s).
    + destruct Hph as (-> & _). reflexivity.
    + rewrite <- Hph. rewrite take_app_ge by lia. rewrite Nat.sub_diag. simpl.
      now rewrite app_nil_r.
    + contradiction.
    + destruct Hph as [_ ->]. now rewrite take_ge by lia.
  - simpl in Hall. apply andb_prop in Hall as [Hev Hall].
    destruct ev; try discriminate.
    + apply (IH (Codex.step s (Codex.Interrupt reason)) Hall
               (codex_flow_world all s (Codex.interrupt (Codex.world s) reason) H)).
    + apply (IH (Codex.step s (Codex.ExternalAbort reason)) Hall
               (codex_flow_world all s
                  (Codex.external_abort (Codex.active s) reason (Codex.world s)) H)).
    + destruct (codex_flow_next all s H) as (Hn & Hdn & Hend).
      pose proof (codex_flow_prefix all s H) as Hp.
      destruct (IH (Codex.next s) Hall Hn) as [Hd Hph].
      rewrite filter_cons_True by reflexivity. simpl length.
      change (Codex.run_events s (Codex.Next :: evs))
        with (Codex.run_events (Codex.next s) evs).
      destruct (decide (length (Codex.delivered s) + 1 <= length all)%nat) as [Hle|Hgt].
      * assert (Hl : length (Codex.delivered (Codex.next s))
                     = (length (Codex.delivered s) + 1)%nat).
        { rewrite Hdn, length_take. lia. }
        rewrite Hl in *. split.
        -- rewrite Hd. f_equal. lia.
        -- intros Hlt. apply Hph. lia.
      * assert (He : Codex.phase (Codex.next s) = Codex.Ended Codex.Completed)
          by (apply Hend; lia).
        destruct (codex_run_events_ended evs (Codex.next s) _ He) as [He' Hd'].
        split; [|intros _; exact He'].
        rewrite Hd', Hdn. rewrite !take_ge by lia. reflexivity.
Qed.

(** X13: against an SDK that does not throw,
    a streamed Codex run delivers the events its native events normalise to,
    in order and one per call of [next()]: after [k] calls the consumer has
    the first [k] of them, whatever interrupts arrived in between; once they
    are all delivered the next call completes the iteration, and nothing
    else is ever delivered (no [done] is added). *)
Theorem codex_stream_delivers_in_order :
  forall (w : Codex.World) (input : PromptInput) (ropts : RunOpts)
         (sdk : Codex.Backend) (s0 : Codex.Stream) (evs : list Codex.Event),
    Codex.runStreamedInternal w input ropts sdk = Codex.Ok s0 ->
    Codex.createThread_throws sdk = None ->
    Codex.runStreamed_throws sdk = None ->
    Codex.ending sdk = None ->
    forallb (fun ev => negb (codex_is_return ev)) evs = true ->
    Codex.delivered (Codex.run_events s0 evs)
    = take (length (filter (fun ev => codex_is_next ev = true) evs))
        (flat_map Codex.normalizeCodexEvent (Codex.events sdk))
    /\ ((length (flat_map Codex.normalizeCodexEvent (Codex.events sdk))
         < length (filter (fun ev => codex_is_next ev = true) evs))%nat ->
        Codex.phase (Codex.run_events s0 evs) = Codex.Ended Codex.Completed).
Proof.
  intros w input ropts sdk s0 evs Hs0 H1 H2 H3 Hall.
  assert (H0 : CodexFlow (flat_map Codex.normalizeCodexEvent (Codex.events sdk)) s0
               /\ Codex.delivered s0 = []).
  { revert Hs0. unfold Codex.runStreamedInternal.
    destruct (Codex.assertIdle _); [discriminate|].
    intros H. injection H as <-. unfold CodexFlow. simpl. auto 10. }
  destruct H0 as [H0 Hd0].
  destruct (codex_flow_run _ evs s0 Hall H0) as [Hd Hph].
  rewrite Hd0 in Hd, Hph. simpl in Hd, Hph. auto.
Qed.

Lemma codex_stream_delivers_in_order_witness :
  Codex.runStreamedInternal Examples.codex_world (PromptText "hi") no_run_opts
    (Codex.mkBackend None None (Some "thread-1")
       [Examples.native "thread.started"; Examples.native "turn.completed"] None)
  = Codex.Ok
      (Examples.codex_stream
         (Codex.mkBackend None None (Some "thread-1")
            [Examples.native "thread.started"; Examples.native "turn.completed"] None))
  /\ Codex.delivered
       (Codex.run_events
          (Examples.codex_stream
             (Codex.mkBackend None None (Some "thread-1")
                [Examples.native "thread.started"; Examples.native "turn.completed"] None))
          [Codex.Next; Codex.Interrupt None; Codex.Next])
     = take 2
         (flat_map Codex.normalizeCodexEvent
            [Examples.native "thread.started"; Examples.native "turn.completed"]).
Proof.
  split; [reflexivity|].
  apply (codex_stream_delivers_in_order Examples.codex_world (PromptText "hi")
           no_run_opts
           (Codex.mkBackend None None (Some "thread-1")
              [Examples.native "thread.started"; Examples.native "turn.completed"] None)
           (Examples.codex_stream
              (Codex.mkBackend None None (Some "thread-1")
                 [Examples.native "thread.started"; Examples.native "turn.completed"]
                 None))
           [Codex.Next; Codex.Interrupt None; Codex.Next]);
    reflexivity.
Defined.

(** ** What a streamed Claude run delivers *)

Lemma emit_app (a b : list CoderStreamEvent) : forall sawDone,
  Claude.emit (a ++ b) sawDone
  = match Claude.emit a sawDone with
    | (out, None) => (out, None)
    | (out, Some saw) =>
        let '(more, r) := Claude.emit b saw in ((out ++ more)%list, r)
    end.
Proof.
  induction a as [|e a IH]; intros sawDone; simpl.
  - destruct (Claude.emit b sawDone). reflexivity.
  - destruct (is_type error e); [reflexivity|].
    rewrite IH. destruct (Claude.emit a _) as [out [saw|]]; [|reflexivity].
    destruct (Claude.emit b saw). reflexivity.
Qed.

(** The two nested loops of [runStreamed] are one loop over the events of
    all messages. *)
Lemma consume_is_emit (tid : option string) (ending : option JsError)
    (msgs : list jsval) : forall sawDone,
  Claude.consume tid msgs ending sawDone
  = match Claude.emit (claude_events tid msgs) sawDone with
    | (out, None) => (out, Claude.Completed)
    | (out, Some saw) =>
        match ending with
        | Some e => (out, Claude.Threw e)
        | None =>
            ((out ++ if saw then [] else [Claude.synthesized_done])%list,
             Claude.Completed)
        end
    end.
Proof.
  induction msgs as [|m msgs IH]; intros sawDone; simpl.
  - destruct ending; reflexivity.
  - unfold claude_events in *. simpl. rewrite emit_app.
    destruct (Claude.emit (Claude.normalizeClaudeStreamMessage m tid) sawDone)
      as [out [saw|]]; [|reflexivity].
    rewrite IH.
    destruct (Claude.emit _ saw) as [more [saw'|]]; [|reflexivity].
    destruct ending; [reflexivity|]. now rewrite <- app_assoc.
Qed.

Lemma emit_plain (evs : list CoderStreamEvent) : forall sawDone,
  forallb no_error evs = true ->
  Claude.emit evs sawDone = (evs, Some (sawDone || existsb (is_type done) evs)%bool).
Proof.
  induction evs as [|e evs IH]; intros sawDone Hall; simpl.
  - now rewrite orb_false_r.
  - simpl in Hall. apply andb_prop in Hall as [He Hall].
    unfold no_error in He. apply negb_true_iff in He. rewrite He.
    rewrite (IH _ Hall). now rewrite orb_assoc.
Qed.

Lemma emit_error (before after : list CoderStreamEvent) (e : CoderStreamEvent) :
  forall sawDone,
    forallb no_error before = true ->
    is_type error e = true ->
    Claude.emit (before ++ e :: after) sawDone = ((before ++ [e])%list, None).
Proof.
  induction before as [|b before IH]; intros sawDone Hall He; simpl.
  - now rewrite He.
  - simpl in Hall. apply andb_prop in Hall as [Hb Hall].
    unfold no_error in Hb. apply negb_true_iff in Hb. rewrite Hb.
    now rewrite (IH _ Hall He).
Qed.

(** X14: when no message of the SDK
    normalises to an [error] event, a streamed Claude run delivers exactly
    the events of all messages, in order.  If the SDK's generator ends
    normally, a [done] event with [raw = {reason: "completed"}] follows
    exactly if none of the events was a [done]; if the generator throws, the
    iteration throws the same error after the events and no [done] is
    added. *)
Theorem claude_stream_delivers_every_message :
  forall (stringify : json -> string) (h : Claude.ThreadHandle.t)
         (input : PromptInput) (ropts : RunOpts) (sdk : Claude.Backend),
    forallb no_error (claude_events (Claude.ThreadHandle.id h) (Claude.messages sdk))
    = true ->
    snd (Claude.runStreamed stringify h input ropts sdk)
    = match Claude.ending sdk with
      | Some e =>
          (claude_events (Claude.ThreadHandle.id h) (Claude.messages sdk), Claude.Threw e)
      | None =>
          ((claude_events (Claude.ThreadHandle.id h) (Claude.messages sdk)
            ++ if existsb (is_type done)
                    (claude_events (Claude.ThreadHandle.id h) (Claude.messages sdk))
               then [] else [EvDone claude (Some (JObj [("reason", JStr "completed")]))])%list,
           Claude.Completed)
      end.
Proof.
  intros stringify h input ropts sdk Hall.
  unfold Claude.runStreamed. simpl. rewrite consume_is_emit.
  rewrite (emit_plain _ false Hall). simpl. reflexivity.
Qed.

Lemma claude_stream_delivers_every_message_witness :
  forallb no_error
    (claude_events (Claude.ThreadHandle.id Examples.claude_thread)
       (Claude.messages Examples.claude_reply)) = true
  /\ snd (Claude.runStreamed Reader.stringify Examples.claude_thread (PromptText "hi")
            no_run_opts Examples.claude_reply)
     = ((claude_events (Claude.ThreadHandle.id Examples.claude_thread)
           (Claude.messages Examples.claude_reply)
         ++ [EvDone claude (Some (JObj [("reason", JStr "completed")]))])%list,
        Claude.Completed).
Proof.
  split; [reflexivity|].
  apply (claude_stream_delivers_every_message Reader.stringify Examples.claude_thread
           (PromptText "hi") no_run_opts Examples.claude_reply).
  reflexivity.
Defined.

(** X15: a streamed Claude run ends
    with the first [error] event its messages normalise to: the consumer
    receives the events before it and the [error] event, then the iteration
    completes without throwing.  What the SDK sends afterwards is not read,
    no [done] is added, and a failure of the SDK's generator after that
    message does not show. *)
Theorem claude_stream_stops_at_the_first_error :
  forall (stringify : json -> string) (h : Claude.ThreadHandle.t)
         (input : PromptInput) (ropts : RunOpts) (sdk : Claude.Backend)
         (before after : list CoderStreamEvent) (e : CoderStreamEvent),
    claude_events (Claude.ThreadHandle.id h) (Claude.messages sdk)
    = (before ++ e :: after)%list ->
    forallb no_error before = true ->
    is_type error e = true ->
    snd (Claude.runStreamed stringify h input ropts sdk)
    = ((before ++ [e])%list, Claude.Completed).
Proof.
  intros stringify h input ropts sdk before after e Hsplit Hb He.
  unfold Claude.runStreamed. simpl. rewrite consume_is_emit, Hsplit.
  now rewrite (emit_error before after e false Hb He).
Qed.

Lemma claude_stream_stops_at_the_first_error_witness :
  map type_of
    (fst (snd (Claude.runStreamed Reader.stringify Examples.claude_thread
                 (PromptText "hi") no_run_opts claude_low_credit)))
  = [message; error]
  /\ snd (snd (Claude.runStreamed Reader.stringify Examples.claude_thread
                 (PromptText "hi") no_run_opts claude_low_credit))
     = Claude.Completed.
Proof.
  pose proof (claude_stream_stops_at_the_first_error Reader.stringify
                Examples.claude_thread (PromptText "hi") no_run_opts claude_low_credit
                (take 1 (claude_events (Claude.ThreadHandle.id Examples.claude_thread)
                           (Claude.messages claude_low_credit)))
                (drop 2 (claude_events (Claude.ThreadHandle.id Examples.claude_thread)
                           (Claude.messages claude_low_credit)))
                (EvError claude None
                   (Some (JStr "Claude run failed: Credit balance is too low"))
                   (Some (JObj [("type", JStr "result"); ("is_error", JBool true);
                                ("result", JStr "Credit balance is too low")])))
                eq_refl eq_refl eq_refl) as H.
  rewrite H. split; reflexivity.
Defined.

(** ** Structured output: what [extractJsonPayload] finds *)

Section Strings.

Lemma append_nil_r (s : string) : s ++ "" = s.
Proof. induction s as [|a s IH]; simpl; [reflexivity|now rewrite IH]. Qed.

Lemma append_assoc (a b c : string) : (a ++ b) ++ c = a ++ (b ++ c).
Proof. induction a as [|x a IH]; simpl; [reflexivity|now rewrite IH]. Qed.

Lemma length_append (a b : string) :
  String.length (a ++ b) = (String.length a + String.length b)%nat.
Proof. induction a as [|x a IH]; simpl; [reflexivity|now rewrite IH]. Qed.

Lemma occurs_append (c : ascii) (a b : string) :
  occurs c (a ++ b) = (occurs c a || occurs c b)%bool.
Proof.
  induction a as [|x a IH]; simpl; [reflexivity|]. rewrite IH. now rewrite orb_assoc.
Qed.

Lemma trimStart_append (pre : string) (c : ascii) (r : string) :
  is_ws c = false ->
  trimStart (pre ++ String c r) = trimStart pre ++ String c r.
Proof.
  intros Hc. induction pre as [|a pre IH]; simpl.
  - now rewrite Hc.
  - destruct (is_ws a); [exact IH|reflexivity].
Qed.

Lemma trimEnd_append (a b : string) :
  trimEnd (a ++ b)
  = match trimEnd b with
    | EmptyString => trimEnd a
    | String _ _ => a ++ trimEnd b
    end.
Proof.
  induction a as [|x a IH]; simpl.
  - destruct (trimEnd b); reflexivity.
  - rewrite IH. destruct (trimEnd b) as [|y b'] eqn:Hb; [reflexivity|].
    destruct a; reflexivity.
Qed.

Lemma trimEnd_cons (c : ascii) (r : string) :
  is_ws c = false -> trimEnd (String c r) = String c (trimEnd r).
Proof. intros Hc. simpl. destruct (trimEnd r); [now rewrite Hc|reflexivity]. Qed.

Lemma trimEnd_blank (s : string) : blank s = true -> trimEnd s = "".
Proof.
  induction s as [|a s IH]; simpl; [reflexivity|].
  intros H. apply andb_prop in H as [Ha Hs]. rewrite (IH Hs). now rewrite Ha.
Qed.

Lemma occurs_trimStart (c : ascii) (s : string) :
  occurs c s = false -> occurs c (trimStart s) = false.
Proof.
  induction s as [|a s IH]; simpl; [auto|].
  intros H. apply orb_false_elim in H as [Ha Hs].
  destruct (is_ws a); [auto|]. simpl. now rewrite Ha, Hs.
Qed.

Lemma occurs_trimEnd (c : ascii) (s : string) :
  occurs c s = false -> occurs c (trimEnd s) = false.
Proof.
  induction s as [|a s IH]; simpl; [auto|].
  intros H. apply orb_false_elim in H as [Ha Hs]. specialize (IH Hs).
  destruct (trimEnd s) as [|y r'].
  - destruct (is_ws a); simpl; [reflexivity|]. now rewrite Ha.
  - simpl in *. now rewrite Ha, IH.
Qed.

Lemma indexOf_from_absent (c : ascii) (s : string) : forall i,
  occurs c s = false -> indexOf_from c s i = -1.
Proof.
  induction s as [|a s IH]; intros i H; simpl; [reflexivity|].
  simpl in H. apply orb_false_elim in H as [Ha Hs]. rewrite Ha. now apply IH.
Qed.

Lemma indexOf_from_first (c : ascii) (p r : string) : forall i,
  occurs c p = false ->
  indexOf_from c (p ++ String c r) i = i + Z.of_nat (String.length p).
Proof.
  induction p as [|a p IH]; intros i H; simpl.
  - rewrite Ascii.eqb_refl. lia.
  - simpl in H. apply orb_false_elim in H as [Ha Hp]. rewrite Ha.
    rewrite IH by exact Hp. lia.
Qed.

Lemma lastIndexOf_from_absent (c : ascii) (s : string) : forall i found,
  occurs c s = false -> lastIndexOf_from c s i found = found.
Proof.
  induction s as [|a s IH]; intros i found H; simpl; [reflexivity|].
  simpl in H. apply orb_false_elim in H as [Ha Hs]. rewrite Ha. now apply IH.
Qed.

Lemma lastIndexOf_from_last (c : ascii) (x q : string) : forall i found,
  occurs c q = false ->
  lastIndexOf_from c (x ++ String c q) i found = i + Z.of_nat (String.length x).
Proof.
  induction x as [|a x IH]; intros i found H; simpl.
  - rewrite Ascii.eqb_refl. rewrite lastIndexOf_from_absent by exact H. lia.
  - rewrite IH by exact H. lia.
Qed.

Lemma substring_skip (p s : string) (k : nat) :
  substring (String.length p) k (p ++ s) = substring 0 k s.
Proof. induction p as [|a p IH]; simpl; [reflexivity|exact IH]. Qed.

Lemma substring_prefix (m q : string) :
  substring 0 (String.length m) (m ++ q) = m.
Proof.
  induction m as [|a m IH]; simpl.
  - destruct q; reflexivity.
  - now rewrite IH.
Qed.

Lemma slice_middle (p m q : string) :
  slice (p ++ m ++ q) (Z.of_nat (String.length p))
    (Z.of_nat (String.length p) + Z.of_nat (String.length m))
  = m.
Proof.
  unfold slice, strlen. rewrite !length_append.
  assert (H1 : (Z.of_nat (String.length p) <? 0) = false) by (apply Z.ltb_ge; lia).
  assert (H2 : (Z.of_nat (String.length p) + Z.of_nat (String.length m) <? 0) = false)
    by (apply Z.ltb_ge; lia).
  rewrite H1, H2.
  rewrite Z.min_l by lia. rewrite Z.min_l by lia.
  rewrite Nat2Z.id.
  replace (Z.to_nat (Z.max (Z.of_nat (String.length p) + Z.of_nat (String.length m)
                            - Z.of_nat (String.length p)) 0))
    with (String.length m) by lia.
  rewrite substring_skip. apply substring_prefix.
Qed.

(** The outermost span of a text that is an object between two pieces of
    prose. *)
Lemma outermost_span_of_object (parse : string -> jsval) (pre body post : string) :
  occurs "{" pre = false ->
  occurs "}" post = false ->
  outermost_span parse (pre ++ "{" ++ body ++ "}" ++ post)
  = parse ("{" ++ body ++ "}").
Proof.
  intros Hpre Hpost. unfold outermost_span, trim.
  change (pre ++ "{" ++ body ++ "}" ++ post)
    with (pre ++ String "{" (body ++ String "}" post)).
  rewrite trimStart_append by reflexivity.
  set (p := trimStart pre).
  assert (Hp : occurs "{" p = false) by now apply occurs_trimStart.
  change (p ++ String "{" (body ++ String "}" post))
    with (p ++ (String "{" body ++ String "}" post)).
  rewrite <- append_assoc.
  assert (Ht : trimEnd ((p ++ String "{" body) ++ String "}" post)
               = (p ++ String "{" body) ++ String "}" (trimEnd post)).
  { rewrite trimEnd_append. rewrite trimEnd_cons by reflexivity. reflexivity. }
  rewrite Ht. set (q := trimEnd post).
  assert (Hq : occurs "}" q = false) by now apply occurs_trimEnd.
  assert (Hstart : indexOf "{" ((p ++ String "{" body) ++ String "}" q)
                   = Z.of_nat (String.length p)).
  { unfold indexOf. rewrite append_assoc. simpl.
    rewrite indexOf_from_first by exact Hp. lia. }
  assert (Hend : lastIndexOf "}" ((p ++ String "{" body) ++ String "}" q)
                 = Z.of_nat (String.length p) + Z.of_nat (String.length body) + 1).
  { unfold lastIndexOf. rewrite lastIndexOf_from_last by exact Hq.
    rewrite length_append. simpl. lia. }
  rewrite Hstart, Hend.
  assert (H1 : (Z.of_nat (String.length p) =? -1) = false) by (apply Z.eqb_neq; lia).
  assert (H2 : (Z.of_nat (String.length p) + Z.of_nat (String.length body) + 1 =? -1)
               = false) by (apply Z.eqb_neq; lia).
  assert (H3 : (Z.of_nat (String.length p) + Z.of_nat (String.length body) + 1
                <? Z.of_nat (String.length p)) = false) by (apply Z.ltb_ge; lia).
  rewrite H1, H2, H3. simpl. f_equal.
  replace ((p ++ String "{" body) ++ String "}" q)
    with (p ++ ("{" ++ body ++ "}") ++ q)
    by (rewrite !append_assoc; reflexivity).
  replace (Z.of_nat (String.length p) + Z.of_nat (String.length body) + 1 + 1)
    with (Z.of_nat (String.length p) + Z.of_nat (String.length ("{" ++ body ++ "}")))
    by (simpl; rewrite length_append; simpl; lia).
  apply slice_middle.
Qed.

End Strings.

(** X16: on a text without a fenced
    [```json] block, [extractJsonPayload] hands to [JSON.parse] exactly the
    span from the first [{] to the last [}] and returns what it parses to:
    the prose before the object (with no [{]) and the prose after it (with no
    [}]) are ignored, white space included. *)
Theorem extract_object_from_prose :
  forall (parse : string -> jsval) (pre body post : string),
    match_fenced (pre ++ "{" ++ body ++ "}" ++ post) = None ->
    occurs "{" pre = false ->
    occurs "}" post = false ->
    extractJsonPayload parse (Some (pre ++ "{" ++ body ++ "}" ++ post))
    = parse ("{" ++ body ++ "}").
Proof.
  intros parse pre body post Hf Hpre Hpost.
  rewrite extract_is_span_of_candidate, Hf.
  now apply outermost_span_of_object.
Qed.

Lemma extract_object_from_prose_witness :
  extractJsonPayload Reader.parse
    (Some ("Here you go: " ++ "{" ++ (Reader.q "ok" ++ ":true") ++ "}" ++ " Anything else?"))
  = Some (JObj [("ok", JBool true)]).
Proof.
  rewrite (extract_object_from_prose Reader.parse "Here you go: "
             (Reader.q "ok" ++ ":true") " Anything else?" eq_refl eq_refl eq_refl).
  reflexivity.
Defined.

Section Fences.

Lemma lower_backtick (a : ascii) :
  Ascii.eqb a "`" = false -> Ascii.eqb (lower "`") (lower a) = false.
Proof.
  destruct a as [[|] [|] [|] [|] [|] [|] [|] [|]]; vm_compute; congruence.
Qed.

Lemma lazy_until_fence_cons (c : ascii) (r : string) :
  lazy_until_fence (String c r)
  = if String.prefix fence r then Some (String c EmptyString)
    else option_map (String c) (lazy_until_fence r).
Proof. reflexivity. Qed.

Lemma ws_then_group_cons (c : ascii) (r : string) :
  ws_then_group (String c r)
  = if is_ws c then
      match ws_then_group r with
      | Some g => Some g
      | None => lazy_until_fence (String c r)
      end
    else lazy_until_fence (String c r).
Proof. reflexivity. Qed.

Lemma match_fenced_cons (a : ascii) (r : string) :
  match_fenced (String a r)
  = match match strip_prefix_ci "```json" (String a r) with
          | Some rest => ws_then_group rest
          | None => None
          end with
    | Some g => Some g
    | None => match_fenced r
    end.
Proof. reflexivity. Qed.

Lemma strip_prefix_plain (a : ascii) (r : string) :
  Ascii.eqb a "`" = false -> strip_prefix_ci "```json" (String a r) = None.
Proof.
  intros H. cbn [strip_prefix_ci]. now rewrite (lower_backtick a H).
Qed.

Lemma match_fenced_skip (pre s : string) :
  occurs "`" pre = false -> match_fenced (pre ++ s) = match_fenced s.
Proof.
  induction pre as [|a pre IH]; intros H; [reflexivity|].
  simpl in H. apply orb_false_elim in H as [Ha Hp].
  change (String a pre ++ s) with (String a (pre ++ s)).
  rewrite match_fenced_cons, (strip_prefix_plain a _ Ha). now apply IH.
Qed.

Lemma prefix_fence_plain (c : ascii) (r : string) :
  Ascii.eqb c "`" = false -> String.prefix fence (String c r) = false.
Proof.
  destruct c as [[|] [|] [|] [|] [|] [|] [|] [|]]; vm_compute; congruence.
Qed.

Lemma prefix_fence_self (post : string) : String.prefix fence (fence ++ post) = true.
Proof. destruct post; vm_compute; reflexivity. Qed.

Lemma lazy_until_fence_plain (c : ascii) (u post : string) :
  occurs "`" (String c u) = false ->
  lazy_until_fence (String c u ++ fence ++ post) = Some (String c u).
Proof.
  revert c. induction u as [|d u IH]; intros c H.
  - change (String c "" ++ fence ++ post) with (String c (fence ++ post)).
    now rewrite lazy_until_fence_cons, prefix_fence_self.
  - simpl in H. apply orb_false_elim in H as [Hc Hu].
    change (String c (String d u) ++ fence ++ post)
      with (String c (String d (u ++ fence ++ post))).
    rewrite lazy_until_fence_cons.
    assert (Hd : Ascii.eqb d "`" = false) by (now apply orb_false_elim in Hu as [? _]).
    rewrite (prefix_fence_plain d _ Hd).
    change (String d (u ++ fence ++ post)) with (String d u ++ fence ++ post).
    now rewrite (IH d Hu).
Qed.

Lemma ws_then_group_blank (sp : string) (c : ascii) (u post : string) :
  blank sp = true ->
  is_ws c = false ->
  occurs "`" (String c u) = false ->
  ws_then_group (sp ++ String c u ++ fence ++ post) = Some (String c u).
Proof.
  intros Hsp Hc Hu. induction sp as [|a sp IH].
  - change ("" ++ String c u ++ fence ++ post) with (String c (u ++ fence ++ post)).
    rewrite ws_then_group_cons, Hc.
    change (String c (u ++ fence ++ post)) with (String c u ++ fence ++ post).
    now apply lazy_until_fence_plain.
  - simpl in Hsp. apply andb_prop in Hsp as [Ha Hsp].
    change (String a sp ++ String c u ++ fence ++ post)
      with (String a (sp ++ String c u ++ fence ++ post)).
    rewrite ws_then_group_cons, Ha. now rewrite (IH Hsp).
Qed.

Lemma blank_no_backtick (s : string) : blank s = true -> occurs "`" s = false.
Proof.
  induction s as [|a s IH]; simpl; [reflexivity|].
  intros H. apply andb_prop in H as [Ha Hs]. rewrite (IH Hs), orb_false_r.
  apply Ascii.eqb_neq. intros ->. discriminate.
Qed.

(** The fenced block of a text whose first backtick opens a [```json]
    fence around an object. *)
Lemma match_fenced_object (pre sp1 body sp2 post : string) :
  occurs "`" pre = false ->
  blank sp1 = true ->
  blank sp2 = true ->
  occurs "`" body = false ->
  match_fenced (pre ++ "```json" ++ sp1 ++ "{" ++ body ++ "}" ++ sp2 ++ "```" ++ post)
  = Some ("{" ++ body ++ "}" ++ sp2).
Proof.
  intros Hpre H1 H2 Hbody. rewrite match_fenced_skip by exact Hpre.
  change ("```json" ++ sp1 ++ "{" ++ body ++ "}" ++ sp2 ++ "```" ++ post)
    with (String "`" (String "`" (String "`" (String "j" (String "s" (String "o"
           (String "n" (sp1 ++ "{" ++ body ++ "}" ++ sp2 ++ "```" ++ post)))))))).
  rewrite match_fenced_cons.
  change (strip_prefix_ci "```json"
            (String "`" (String "`" (String "`" (String "j" (String "s" (String "o"
               (String "n" (sp1 ++ "{" ++ body ++ "}" ++ sp2 ++ "```" ++ post)))))))))
    with (Some (sp1 ++ "{" ++ body ++ "}" ++ sp2 ++ "```" ++ post)).
  replace (sp1 ++ "{" ++ body ++ "}" ++ sp2 ++ "```" ++ post)
    with (sp1 ++ String "{" (body ++ "}" ++ sp2) ++ fence ++ post).
  2:{ unfold fence. simpl. rewrite !append_assoc. reflexivity. }
  rewrite ws_then_group_blank; [reflexivity|exact H1|reflexivity|].
  simpl. rewrite !occurs_append, Hbody. simpl.
  now rewrite (blank_no_backtick sp2 H2).
Qed.

End Fences.

(** X17: on a text whose first backtick
    opens a [```json] fence that holds an object (white space around it, no
    backtick inside) and is closed by [```], [extractJsonPayload] returns what
    [JSON.parse] makes of the object, whatever prose stands before the fence
    and whatever follows the closing fence, further braces and further
    fenced blocks included. *)
Theorem extract_object_from_fenced_block :
  forall (parse : string -> jsval) (pre sp1 body sp2 post : string),
    occurs "`" pre = false ->
    blank sp1 = true ->
    blank sp2 = true ->
    occurs "`" body = false ->
    extractJsonPayload parse
      (Some (pre ++ "```json" ++ sp1 ++ "{" ++ body ++ "}" ++ sp2 ++ "```" ++ post))
    = parse ("{" ++ body ++ "}").
Proof.
  intros parse pre sp1 body sp2 post Hpre H1 H2 Hbody.
  rewrite extract_is_span_of_candidate.
  rewrite (match_fenced_object pre sp1 body sp2 post Hpre H1 H2 Hbody).
  pose proof (outermost_span_of_object parse "" body sp2 eq_refl) as H.
  simpl in H. simpl. apply H.
  clear -H2. induction sp2 as [|a s IH]; [reflexivity|].
  simpl in *. apply andb_prop in H2 as [Ha Hs]. rewrite (IH Hs), orb_false_r.
  apply Ascii.eqb_neq. intros ->. discriminate.
Qed.

Lemma extract_object_from_fenced_block_witness :
  extractJsonPayload Reader.parse
    (Some ("Sure {as asked}: " ++ "```json" ++ newline ++ "{" ++ (Reader.q "n" ++ ":7")
           ++ "}" ++ newline ++ "```" ++ " and {more} ```json {} ```"))
  = Some (JObj [("n", JNum (Finite "7"))]).
Proof.
  rewrite (extract_object_from_fenced_block Reader.parse "Sure {as asked}: " newline
             (Reader.q "n" ++ ":7") newline " and {more} ```json {} ```"
             eq_refl eq_refl eq_refl eq_refl).
  reflexivity.
Defined.

Section Absent.

Variable c : ascii.

Lemma occurs_lazy (s g : string) :
  lazy_until_fence s = Some g -> occurs c s = false -> occurs c g = false.
Proof.
  revert g. induction s as [|a s IH]; intros g; [discriminate|].
  rewrite lazy_until_fence_cons. simpl. intros Hg H.
  apply orb_false_elim in H as [Ha Hs].
  destruct (String.prefix fence s).
  - injection Hg as <-. simpl. now rewrite Ha.
  - destruct (lazy_until_fence s) as [g'|]; [|discriminate].
    injection Hg as <-. simpl. rewrite Ha. now apply IH.
Qed.

Lemma occurs_ws_then_group (s g : string) :
  ws_then_group s = Some g -> occurs c s = false -> occurs c g = false.
Proof.
  revert g. induction s as [|a s IH]; intros g; [discriminate|].
  rewrite ws_then_group_cons. intros Hg H.
  assert (Hs : occurs c s = false) by (simpl in H; now apply orb_false_elim in H as [_ ?]).
  destruct (is_ws a).
  - destruct (ws_then_group s) as [g'|].
    + injection Hg as <-. now apply IH.
    + now apply (occurs_lazy (String a s)).
  - now apply (occurs_lazy (String a s)).
Qed.

Lemma occurs_strip (p s rest : string) :
  strip_prefix_ci p s = Some rest -> occurs c s = false -> occurs c rest = false.
Proof.
  revert s. induction p as [|x p IH]; intros s; simpl.
  - intros H. now injection H as <-.
  - destruct s as [|a s]; [discriminate|].
    destruct (Ascii.eqb _ _); [|discriminate].
    intros Hr H. simpl in H. apply orb_false_elim in H as [_ Hs]. now apply (IH s).
Qed.

Lemma occurs_match_fenced (text g : string) :
  match_fenced text = Some g -> occurs c text = false -> occurs c g = false.
Proof.
  revert g. induction text as [|a text IH]; intros g.
  - vm_compute. discriminate.
  - rewrite match_fenced_cons. intros Hg H.
    destruct (strip_prefix_ci "```json" (String a text)) as [rest|] eqn:Hs.
    + destruct (ws_then_group rest) as [g'|] eqn:Hw.
      * injection Hg as <-. apply (occurs_ws_then_group rest); [exact Hw|].
        now apply (occurs_strip "```json" (String a text)).
      * apply IH; [exact Hg|]. simpl in H. now apply orb_false_elim in H as [_ ?].
    + apply IH; [exact Hg|]. simpl in H. now apply orb_false_elim in H as [_ ?].
Qed.

Lemma occurs_candidate (text : string) :
  occurs c text = false -> occurs c (trim (candidate_of text)) = false.
Proof.
  intros H. unfold trim, candidate_of. apply occurs_trimEnd, occurs_trimStart.
  destruct (match_fenced text) as [g|] eqn:Hg; [|exact H].
  now apply (occurs_match_fenced text).
Qed.

End Absent.

(** X18: [extractJsonPayload] returns [undefined]
    for every text that has no [{] or has no [}], whatever [JSON.parse] would
    make of the text: a structured answer that is a JSON array, a string or a
    number is never extracted, fenced or not. *)
Theorem extract_needs_both_braces :
  forall (parse : string -> jsval) (text : string),
    occurs "{" text = false \/ occurs "}" text = false ->
    extractJsonPayload parse (Some text) = None.
Proof.
  intros parse text H. rewrite extract_is_span_of_candidate.
  change (match match_fenced text with Some block => block | None => text end)
    with (candidate_of text).
  unfold outermost_span. destruct H as [H|H].
  - unfold indexOf. rewrite indexOf_from_absent by now apply occurs_candidate.
    reflexivity.
  - unfold lastIndexOf at 1.
    rewrite lastIndexOf_from_absent by now apply occurs_candidate.
    simpl. now rewrite orb_true_r.
Qed.

Lemma extract_needs_both_braces_witness :
  Reader.parse "[1,2,3]" = Some (JArr [JNum (Finite "1"); JNum (Finite "2"); JNum (Finite "3")])
  /\ extractJsonPayload Reader.parse (Some "[1,2,3]") = None.
Proof.
  split; [reflexivity|].
  apply (extract_needs_both_braces Reader.parse "[1,2,3]"). left. reflexivity.
Defined.

(** ** The identity of a Gemini thread *)

Section GeminiIdentity.

Variable parse : string -> jsval.
Variable stringify : json -> string.

Lemma ident_abortChild w reason :
  ident (Gemini.thread (Gemini.abortChild w reason)) = ident (Gemini.thread w).
Proof.
  unfold Gemini.abortChild.
  destruct (Gemini.currentRun _); [|reflexivity].
  destruct (_ !! _); [|reflexivity].
  destruct (Gemini.aborted _); reflexivity.
Qed.

Lemma ident_external_abort r reason w :
  ident (Gemini.thread (Gemini.external_abort r reason w)) = ident (Gemini.thread w).
Proof.
  unfold Gemini.external_abort.
  destruct (_ !! _) as [a|]; [|reflexivity].
  destruct (Gemini.linked a); [|reflexivity].
  destruct (Gemini.controller a); [reflexivity|].
  now rewrite ident_abortChild.
Qed.

Lemma ident_cleanup r w :
  ident (Gemini.thread (Gemini.cleanup r w)) = ident (Gemini.thread w).
Proof.
  unfold Gemini.cleanup. simpl.
  destruct (Gemini.currentRun _) as [r'|]; [|reflexivity].
  destruct (Nat.eqb r' r); reflexivity.
Qed.

Lemma ident_meanwhiles r ms : forall w,
  ident (Gemini.thread (fold_left (Gemini.meanwhile_step r) ms w))
  = ident (Gemini.thread w).
Proof.
  induction ms as [|m ms IH]; intros w; simpl; [reflexivity|].
  rewrite IH. destruct m; simpl;
    [apply ident_abortChild|apply ident_external_abort|reflexivity].
Qed.

Lemma ident_finally o s :
  ident (Gemini.thread (Gemini.world (Gemini.finally o s)))
  = ident (Gemini.thread (Gemini.world s)).
Proof.
  unfold Gemini.finally. simpl.
  destruct (_ && _)%bool; [rewrite ident_abortChild|]; apply ident_cleanup.
Qed.

Lemma ident_resume_with e s :
  ident (Gemini.thread (Gemini.world (Gemini.resume_with e s)))
  = ident (Gemini.thread (Gemini.world s)).
Proof.
  destruct e; unfold Gemini.resume_with;
    [reflexivity | apply ident_finally | apply ident_finally].
Qed.

Lemma ident_push e s :
  ident (Gemini.thread (Gemini.world (Gemini.push e s)))
  = ident (Gemini.thread (Gemini.world s)).
Proof.
  unfold Gemini.push. destruct (Gemini.status s); try reflexivity.
  destruct e; unfold Gemini.resume_with;
    [reflexivity | apply ident_finally | apply ident_finally].
Qed.

Lemma ident_push_all es : forall s,
  ident (Gemini.thread (Gemini.world (Gemini.push_all es s)))
  = ident (Gemini.thread (Gemini.world s)).
Proof.
  induction es as [|e es IH]; intros s; [reflexivity|].
  change (Gemini.push_all (e :: es) s) with (Gemini.push_all es (Gemini.push e s)).
  now rewrite IH, ident_push.
Qed.

Lemma synced_ident (h h' : Gemini.ThreadHandle.t) :
  ident h' = ident h -> Synced h -> Synced h'.
Proof.
  unfold ident, Synced. intros H. injection H as -> -> ->. auto.
Qed.

Lemma synced_adopt (sid : string) (h : Gemini.ThreadHandle.t) : Synced (Gemini.adopt sid h).
Proof. unfold Synced. simpl. auto. Qed.

Lemma synced_capture (h : Gemini.ThreadHandle.t) (payload : jsval) :
  Synced h -> Synced (Gemini.captureGeminiSessionMetadata h payload).
Proof.
  intros H. unfold Gemini.captureGeminiSessionMetadata.
  destruct (Gemini.extractSessionId payload); [apply synced_adopt|].
  destruct (truthy_str (Gemini.id _)) eqn:Hid; [exact H|].
  destruct (Gemini.extractSessionIndex payload) as [i|]; [|exact H].
  destruct (nonempty i); [|exact H].
  destruct H as [H1 H2]. unfold Synced. simpl. split; [exact H1|]. congruence.
Qed.

Lemma synced_list (entries : list Gemini.GeminiSessionEntry) (h : Gemini.ThreadHandle.t) :
  Synced h -> Synced (Gemini.updateSessionMetadataFromList entries h).
Proof.
  intros H. unfold Gemini.updateSessionMetadataFromList.
  destruct (last entries) as [latest|]; [|exact H].
  destruct (truthy_str (Gemini.entry_id latest)).
  - destruct (Gemini.entry_id latest); [apply synced_adopt|exact H].
  - destruct (Gemini.index latest); [|exact H].
    destruct (truthy_str (Gemini.id _)) eqn:Hid; simpl; [exact H|].
    destruct H as [H1 H2]. unfold Synced. simpl. split; [exact H1|]. congruence.
Qed.

Opaque Gemini.push_all Gemini.push Gemini.finally Gemini.resume_with.

Lemma synced_step (s : Gemini.Stream) (ev : Gemini.Event) :
  Synced (Gemini.thread (Gemini.world s)) ->
  Synced (Gemini.thread (Gemini.world (Gemini.step parse s ev))).
Proof.
  intros H. destruct ev; simpl.
  - destruct (Gemini.lineOn s); [|exact H]. unfold Gemini.handleLine.
    destruct (Gemini.finished s); [exact H|].
    destruct (parse line) as [event|]; [|exact H].
    eapply synced_ident; [apply ident_push_all|]. simpl. now apply synced_capture.
  - destruct (Gemini.closeOn s); [|exact H]. unfold Gemini.handleClose. simpl.
    destruct (_ || _)%bool; [exact H|].
    eapply synced_ident; [apply ident_push_all|]. exact H.
  - destruct (Gemini.exitOn s); [|exact H]. unfold Gemini.onExit. simpl.
    destruct (Gemini.finished s); [exact H|]. simpl.
    destruct (Gemini.run_aborted _ _);
      [eapply synced_ident; [apply ident_push_all|]; exact H|].
    destruct (negb (bool_decide _));
      [eapply synced_ident; [apply ident_push_all|]; exact H|].
    eapply synced_ident; [apply ident_push|]. simpl.
    destruct (_ || _)%bool; [now apply synced_list|exact H].
  - destruct gone; simpl.
    + destruct (Gemini.errorOn s); [|exact H]. unfold Gemini.onError. simpl.
      destruct (Gemini.finished s); [exact H|].
      eapply synced_ident; [apply ident_push_all|]. exact H.
    + destruct (Gemini.errorOn s); [|exact H]. unfold Gemini.onError. simpl.
      destruct (Gemini.finished s); [exact H|].
      eapply synced_ident; [apply ident_push_all|]. exact H.
  - eapply synced_ident; [|exact H]. unfold Gemini.interrupt. apply ident_abortChild.
  - eapply synced_ident; [|exact H]. apply ident_external_abort.
  - exact H.
  - unfold Gemini.next. destruct (Gemini.status s); try exact H.
    + destruct (Gemini.queue s) as [|entry rest]; [destruct (Gemini.finished s)|];
        try exact H;
        (eapply synced_ident; [apply ident_resume_with|]; exact H).
    + destruct (Gemini.queue s) as [|entry rest]; [destruct (Gemini.finished s)|];
        try exact H;
        (eapply synced_ident; [apply ident_resume_with|]; exact H).
  - unfold Gemini.abandon. destruct (Gemini.status s); try exact H.
    eapply synced_ident; [apply ident_finally|]. exact H.
Qed.

Transparent Gemini.push_all Gemini.push Gemini.finally Gemini.resume_with.

Lemma synced_run_events (evs : list Gemini.Event) : forall s,
  Synced (Gemini.thread (Gemini.world s)) ->
  Synced (Gemini.thread (Gemini.world (Gemini.run_events parse s evs))).
Proof.
  induction evs as [|ev evs IH]; intros s H; [exact H|].
  simpl. apply IH. now apply synced_step.
Qed.

Lemma synced_after_exit r ropts stdout stderr code listing w :
  Synced (Gemini.thread w) ->
  Synced (Gemini.thread
            (fst (Gemini.after_exit parse r ropts stdout stderr code listing w))).
Proof.
  intros H. unfold Gemini.after_exit.
  destruct (Gemini.run_aborted w r); [exact H|].
  destruct (negb (bool_decide _)); [exact H|].
  set (h := Gemini.captureGeminiSessionMetadata _ _).
  set (h' := if (_ || _)%bool then _ else _).
  assert (Hh : Synced h').
  { unfold h'. destruct (_ || _)%bool; [apply synced_list|];
      unfold h; now apply synced_capture. }
  destruct (Gemini.parseGeminiJson parse stdout); try exact Hh;
    destruct (if truthy (outputSchema ropts) then _ else _); exact Hh.
Qed.

Lemma synced_runInternal w input ropts meanwhile outcome listing :
  Synced (Gemini.thread w) ->
  Synced (Gemini.thread
            (fst (Gemini.runInternal parse stringify w input ropts meanwhile outcome
                    listing))).
Proof.
  intros H. unfold Gemini.runInternal.
  destruct (Gemini.assertIdle _); [exact H|].
  assert (Hd : Synced (Gemini.thread (fst (Gemini.during stringify w input ropts meanwhile)))).
  { unfold Gemini.during.
    destruct (Gemini.spawnGeminiProcess _ _ _ _) as [w1 r] eqn:E. simpl.
    eapply synced_ident; [apply ident_meanwhiles|].
    replace w1 with (fst (Gemini.spawnGeminiProcess w
                            (Gemini.applyOutputSchemaPrompt stringify input
                               (outputSchema ropts)) Gemini.json_format ropts))
      by now rewrite E.
    exact H. }
  destruct (Gemini.during stringify w input ropts meanwhile) as [w1 r]. simpl in Hd.
  destruct outcome as [stdout stderr code|e].
  - pose proof (synced_after_exit r ropts stdout stderr code listing
                  (Gemini.update_run r
                     (fun a => Gemini.set_child (Gemini.exits code (Gemini.child a)) a) w1)
                  Hd) as Ha.
    destruct (Gemini.after_exit _ _ _ _ _ _ _ _) as [w2 res]. simpl in *.
    eapply synced_ident; [apply ident_cleanup|exact Ha].
  - simpl. eapply synced_ident; [apply ident_cleanup|exact Hd].
Qed.

Lemma reachable_synced (w : Gemini.World) :
  Reachable parse stringify w -> Synced (Gemini.thread w).
Proof.
  induction 1 as [d o|d i o|w input ropts meanwhile outcome listing _ IH
                  |w input ropts s0 evs _ IH Hs0|w reason _ IH|w ms _ IH].
  - unfold Synced. simpl. auto.
  - unfold Synced. simpl. auto.
  - now apply synced_runInternal.
  - apply synced_run_events.
    revert Hs0. unfold Gemini.runStreamedInternal.
    destruct (Gemini.assertIdle _); [discriminate|].
    intros E. injection E as <-. exact IH.
  - eapply synced_ident; [|exact IH]. unfold Gemini.interrupt. apply ident_abortChild.
  - exact IH.
Qed.

End GeminiIdentity.

(** X19: whatever happened to a Gemini thread since
    it was started or resumed (runs, streamed runs read in any way,
    interrupts, time), the id on its handle is the id in its state, which is
    what [getThreadId] returns; and once that id is a non-empty string, the
    resume token equals it, so every later process is spawned with
    [--resume] and that id. *)
Theorem gemini_thread_identity :
  forall (parse : string -> jsval) (stringify : json -> string) (w : Gemini.World),
    Reachable parse stringify w ->
    Gemini.ThreadHandle.id (Gemini.thread w) = Gemini.getThreadId (Gemini.thread w)
    /\ forall i : string,
         Gemini.getThreadId (Gemini.thread w) = Some i ->
         nonempty i = true ->
         Gemini.resolveResumeTarget (Gemini.state_of w) = Some i
         /\ forall (prompt : string) (mode : Gemini.Format) (ropts : RunOpts),
              exists front,
                option_map (fun a => Gemini.spawnargs (Gemini.child a))
                  (Gemini.runs (fst (Gemini.spawnGeminiProcess w prompt mode ropts))
                     !! snd (Gemini.spawnGeminiProcess w prompt mode ropts))
                = Some (front ++ ["--resume"; i])%list.
Proof.
  intros parse stringify w Hw.
  destruct (reachable_synced parse stringify w Hw) as [H1 H2].
  split; [exact H1|]. intros i Hi Hne.
  unfold Gemini.getThreadId in Hi.
  assert (Hr : Gemini.resolveResumeTarget (Gemini.state_of w) = Some i).
  { unfold Gemini.resolveResumeTarget, Gemini.state_of.
    rewrite H2 by (rewrite Hi; exact Hne). rewrite Hi. simpl. now rewrite Hne. }
  split; [exact Hr|]. intros prompt mode ropts.
  rewrite spawn_uses_resolved_target. simpl. rewrite Hr.
  destruct (resume_flag_carries_target (Gemini.opts (Gemini.state_of w)) prompt i mode Hne)
    as [front Hf].
  exists front. now rewrite Hf.
Qed.

Lemma gemini_thread_identity_witness :
  Gemini.getThreadId
    (Gemini.thread
       (Gemini.world
          (Gemini.run_events Reader.parse Examples.gemini_stream
             [Gemini.Line ("{" ++ Reader.q "type" ++ ":" ++ Reader.q "init" ++ ","
                           ++ Reader.q "session_id" ++ ":" ++ Reader.q "s-42" ++ "}");
              Gemini.Next; Gemini.Exit (Some 0) []; Gemini.Next])))
  = Some "s-42"
  /\ Gemini.resolveResumeTarget
       (Gemini.state_of
          (Gemini.world
             (Gemini.run_events Reader.parse Examples.gemini_stream
                [Gemini.Line ("{" ++ Reader.q "type" ++ ":" ++ Reader.q "init" ++ ","
                              ++ Reader.q "session_id" ++ ":" ++ Reader.q "s-42" ++ "}");
                 Gemini.Next; Gemini.Exit (Some 0) []; Gemini.Next])))
     = Some "s-42".
Proof.
  split; [vm_compute; reflexivity|].
  apply (gemini_thread_identity Reader.parse Reader.stringify
           (Gemini.world
              (Gemini.run_events Reader.parse Examples.gemini_stream
                 [Gemini.Line ("{" ++ Reader.q "type" ++ ":" ++ Reader.q "init" ++ ","
                               ++ Reader.q "session_id" ++ ":" ++ Reader.q "s-42" ++ "}");
                  Gemini.Next; Gemini.Exit (Some 0) []; Gemini.Next]))).
  - apply (reach_stream Reader.parse Reader.stringify Examples.gemini_world
             (PromptText "hi") no_run_opts Examples.gemini_stream).
    + apply reach_start.
    + reflexivity.
  - vm_compute; reflexivity.
  - reflexivity.
Defined.

(** ** What a run of the Gemini adapter learns about its session *)


Section GeminiAdoption.

Variable parse : string -> jsval.
Variable stringify : json -> string.

Lemma extractSessionId_nonempty (payload : jsval) (sid : string) :
  Gemini.extractSessionId payload = Some sid -> nonempty sid = true.
Proof.
  unfold Gemini.extractSessionId.
  destruct (_ ?? _) as [[| | |s| |]|]; try discriminate.
  destruct (nonempty s) eqn:Hs; [|discriminate]. intros H. now injection H as <-.
Qed.

Lemma extractSessionId_null (sid : string) :
  Gemini.extractSessionId (Some JNull) <> Some sid.
Proof. discriminate. Qed.

(** The world in which [runInternal] reads the output of a process that
    exited while nobody interrupted the run. *)
Lemma during_quiet (w : Gemini.World) (input : PromptInput) (ropts : RunOpts)
    (meanwhile : list Gemini.Meanwhile) (code : option Z) :
  forallb is_elapse meanwhile = true ->
  Gemini.run_aborted
    (Gemini.update_run (snd (Gemini.during stringify w input ropts meanwhile))
       (fun a => Gemini.set_child (Gemini.exits code (Gemini.child a)) a)
       (fst (Gemini.during stringify w input ropts meanwhile)))
    (snd (Gemini.during stringify w input ropts meanwhile)) = false
  /\ ident (Gemini.thread (fst (Gemini.during stringify w input ropts meanwhile)))
     = ident (Gemini.thread w).
Proof.
  intros Hm. unfold Gemini.during.
  pose proof (untouched_spawn w
                (Gemini.applyOutputSchemaPrompt stringify input (outputSchema ropts))
                Gemini.json_format ropts) as Hu.
  pose proof (current_spawn w
                (Gemini.applyOutputSchemaPrompt stringify input (outputSchema ropts))
                Gemini.json_format ropts) as Hc.
  assert (Hi : ident (Gemini.thread
                        (fst (Gemini.spawnGeminiProcess w
                                (Gemini.applyOutputSchemaPrompt stringify input
                                   (outputSchema ropts)) Gemini.json_format ropts)))
               = ident (Gemini.thread w)) by reflexivity.
  destruct (Gemini.spawnGeminiProcess _ _ _ _) as [w1 r]. simpl in *.
  destruct (untouched_elapses meanwhile r w1 Hm Hc Hu) as [_ Hu'].
  split.
  - rewrite run_aborted_after_exit. now apply run_aborted_untouched.
  - now rewrite ident_meanwhiles.
Qed.

(** What a run that was not interrupted and exited with status 0 leaves on
    the thread, and the thread id it reports. *)
Lemma run_exit_zero (w : Gemini.World) (input : PromptInput) (ropts : RunOpts)
    (meanwhile : list Gemini.Meanwhile) (stdout stderr : string)
    (listing : list Gemini.GeminiSessionEntry) :
  Gemini.assertIdle (Gemini.state_of w) = None ->
  forallb is_elapse meanwhile = true ->
  exists h : Gemini.ThreadHandle.t,
    ident h = ident (Gemini.thread w)
    /\ ident (Gemini.thread
                (fst (Gemini.runInternal parse stringify w input ropts meanwhile
                        (Gemini.Exited stdout stderr (Some 0)) listing)))
       = ident
           (let h1 :=
              Gemini.captureGeminiSessionMetadata h
                (Some (Gemini.parseGeminiJson parse stdout)) in
            if (negb (truthy_str (Gemini.id (Gemini.ThreadHandle.internal h1)))
                || negb (truthy_str (Gemini.resumeToken (Gemini.ThreadHandle.internal h1))))%bool
            then Gemini.updateSessionMetadataFromList listing h1 else h1)
    /\ forall res,
         snd (Gemini.runInternal parse stringify w input ropts meanwhile
                (Gemini.Exited stdout stderr (Some 0)) listing) = Resolved res ->
         RunResult.threadId res
         = Gemini.id
             (Gemini.ThreadHandle.internal
                (Gemini.thread
                   (fst (Gemini.runInternal parse stringify w input ropts meanwhile
                           (Gemini.Exited stdout stderr (Some 0)) listing)))).
Proof.
  intros Hidle Hm.
  destruct (during_quiet w input ropts meanwhile (Some 0) Hm) as [Hab Hid].
  unfold Gemini.runInternal. rewrite Hidle.
  destruct (Gemini.during stringify w input ropts meanwhile) as [w1 r]. simpl in Hab, Hid.
  exists (Gemini.thread w1). split; [exact Hid|].
  unfold Gemini.after_exit. rewrite Hab. simpl.
  set (h1 := Gemini.captureGeminiSessionMetadata _ _).
  set (h2 := if (_ || _)%bool then _ else _).
  destruct (Gemini.parseGeminiJson parse stdout) eqn:Hp;
    try (split; [apply ident_cleanup|discriminate]);
    (destruct (if truthy (outputSchema ropts) then _ else _) as [v|e];
     (split; [apply ident_cleanup|]);
     [intros res Hres; injection Hres as <-; simpl;
      destruct (Gemini.currentRun _) as [r'|]; [destruct (Nat.eqb r' r)|]; reflexivity
     |discriminate]).
Qed.

End GeminiAdoption.

(** X20: when a Gemini run that nobody
    interrupted exits with status 0 and its output carries a session id,
    the thread adopts it: afterwards the handle's id, [getThreadId] and
    the resume target are that id, whatever the thread knew before and
    whatever the session list says, and a result, if the run returns one,
    reports the same id. *)
Theorem gemini_run_adopts_the_session_id :
  forall (parse : string -> jsval) (stringify : json -> string)
         (w : Gemini.World) (input : PromptInput) (ropts : RunOpts)
         (meanwhile : list Gemini.Meanwhile) (stdout stderr : string)
         (listing : list Gemini.GeminiSessionEntry) (sid : string),
    Gemini.assertIdle (Gemini.state_of w) = None ->
    forallb is_elapse meanwhile = true ->
    Gemini.extractSessionId (Some (Gemini.parseGeminiJson parse stdout)) = Some sid ->
    Gemini.ThreadHandle.id
      (Gemini.thread
         (fst (Gemini.runInternal parse stringify w input ropts meanwhile
                 (Gemini.Exited stdout stderr (Some 0)) listing))) = Some sid
    /\ Gemini.getThreadId
         (Gemini.thread
            (fst (Gemini.runInternal parse stringify w input ropts meanwhile
                    (Gemini.Exited stdout stderr (Some 0)) listing))) = Some sid
    /\ Gemini.resolveResumeTarget
         (Gemini.state_of
            (fst (Gemini.runInternal parse stringify w input ropts meanwhile
                    (Gemini.Exited stdout stderr (Some 0)) listing))) = Some sid
    /\ forall res : RunResult.t,
         snd (Gemini.runInternal parse stringify w input ropts meanwhile
                (Gemini.Exited stdout stderr (Some 0)) listing) = Resolved res ->
         RunResult.threadId res = Some sid.
Proof.
  intros parse stringify w input ropts meanwhile stdout stderr listing sid Hidle Hm Hsid.
  destruct (run_exit_zero parse stringify w input ropts meanwhile stdout stderr listing
              Hidle Hm) as (h & _ & Hid & Hres).
  pose proof (extractSessionId_nonempty _ _ Hsid) as Hne.
  unfold Gemini.captureGeminiSessionMetadata in Hid. rewrite Hsid in Hid.
  simpl in Hid. rewrite Hne in Hid. simpl in Hid.
  unfold ident in Hid. injection Hid as H1 H2 H3.
  split; [exact H1|]. split; [exact H2|]. split.
  - unfold Gemini.resolveResumeTarget, Gemini.state_of. rewrite H3. simpl. now rewrite Hne.
  - intros res Hr. rewrite (Hres res Hr). exact H2.
Qed.

Lemma gemini_run_adopts_the_session_id_witness :
  Gemini.getThreadId
    (Gemini.thread
       (fst (Gemini.runInternal Reader.parse Reader.stringify Examples.gemini_world
               (PromptText "hi") no_run_opts [Gemini.MElapse 10]
               (Gemini.Exited
                  ("{" ++ Reader.q "session_id" ++ ":" ++ Reader.q "s-42" ++ ","
                   ++ Reader.q "response" ++ ":" ++ Reader.q "hello" ++ "}")
                  "" (Some 0))
               [Gemini.mkEntry (Finite "1") (Some "other")])))
  = Some "s-42".
Proof.
  apply (gemini_run_adopts_the_session_id Reader.parse Reader.stringify
           Examples.gemini_world (PromptText "hi") no_run_opts [Gemini.MElapse 10]
           ("{" ++ Reader.q "session_id" ++ ":" ++ Reader.q "s-42" ++ ","
            ++ Reader.q "response" ++ ":" ++ Reader.q "hello" ++ "}")
           "" [Gemini.mkEntry (Finite "1") (Some "other")] "s-42");
    vm_compute; reflexivity.
Defined.

(** X21: when a thread that has
    no session id yet finishes a run (not interrupted, exit status 0) whose
    output names no session id, it takes the id of the last session the CLI
    lists: handle id, [getThreadId], the resume target and the result's
    thread id are that id afterwards. *)
Theorem gemini_run_falls_back_to_the_session_list :
  forall (parse : string -> jsval) (stringify : json -> string)
         (w : Gemini.World) (input : PromptInput) (ropts : RunOpts)
         (meanwhile : list Gemini.Meanwhile) (stdout stderr : string)
         (listing : list Gemini.GeminiSessionEntry)
         (latest : Gemini.GeminiSessionEntry) (sid : string),
    Gemini.assertIdle (Gemini.state_of w) = None ->
    forallb is_elapse meanwhile = true ->
    truthy_str (Gemini.getThreadId (Gemini.thread w)) = false ->
    Gemini.extractSessionId (Some (Gemini.parseGeminiJson parse stdout)) = None ->
    last listing = Some latest ->
    Gemini.entry_id latest = Some sid ->
    nonempty sid = true ->
    Gemini.ThreadHandle.id
      (Gemini.thread
         (fst (Gemini.runInternal parse stringify w input ropts meanwhile
                 (Gemini.Exited stdout stderr (Some 0)) listing))) = Some sid
    /\ Gemini.getThreadId
         (Gemini.thread
            (fst (Gemini.runInternal parse stringify w input ropts meanwhile
                    (Gemini.Exited stdout stderr (Some 0)) listing))) = Some sid
    /\ Gemini.resolveResumeTarget
         (Gemini.state_of
            (fst (Gemini.runInternal parse stringify w input ropts meanwhile
                    (Gemini.Exited stdout stderr (Some 0)) listing))) = Some sid
    /\ forall res : RunResult.t,
         snd (Gemini.runInternal parse stringify w input ropts meanwhile
                (Gemini.Exited stdout stderr (Some 0)) listing) = Resolved res ->
         RunResult.threadId res = Some sid.
Proof.
  intros parse stringify w input ropts meanwhile stdout stderr listing latest sid
         Hidle Hm Hno Hsid Hlast Hentry Hne.
  destruct (run_exit_zero parse stringify w input ropts meanwhile stdout stderr listing
              Hidle Hm) as (h & Hh & Hid & Hres).
  unfold ident in Hh. injection Hh as _ Hh _.
  unfold Gemini.getThreadId in Hno. rewrite <- Hh in Hno.
  assert (Hcap : truthy_str
                   (Gemini.id
                      (Gemini.ThreadHandle.internal
                         (Gemini.captureGeminiSessionMetadata h
                            (Some (Gemini.parseGeminiJson parse stdout))))) = false).
  { unfold Gemini.captureGeminiSessionMetadata. rewrite Hsid, Hno.
    destruct (Gemini.extractSessionIndex _) as [i|]; [|exact Hno].
    destruct (nonempty i); exact Hno. }
  cbv zeta in Hid. rewrite Hcap in Hid. simpl in Hid.
  unfold Gemini.updateSessionMetadataFromList in Hid.
  rewrite Hlast, Hentry in Hid. simpl in Hid. rewrite Hne in Hid.
  unfold ident in Hid. simpl in Hid. injection Hid as H1 H2 H3.
  split; [exact H1|]. split; [exact H2|]. split.
  - unfold Gemini.resolveResumeTarget, Gemini.state_of. rewrite H3. simpl. now rewrite Hne.
  - intros res Hr. rewrite (Hres res Hr). exact H2.
Qed.

Lemma gemini_run_falls_back_to_the_session_list_witness :
  Gemini.getThreadId
    (Gemini.thread
       (fst (Gemini.runInternal Reader.parse Reader.stringify Examples.gemini_world
               (PromptText "hi") no_run_opts []
               (Gemini.Exited
                  ("{" ++ Reader.q "response" ++ ":" ++ Reader.q "hello" ++ "}")
                  "" (Some 0))
               [Gemini.mkEntry (Finite "1") (Some "older");
                Gemini.mkEntry (Finite "2") (Some "latest")])))
  = Some "latest".
Proof.
  apply (gemini_run_falls_back_to_the_session_list Reader.parse Reader.stringify
           Examples.gemini_world (PromptText "hi") no_run_opts []
           ("{" ++ Reader.q "response" ++ ":" ++ Reader.q "hello" ++ "}")
           "" [Gemini.mkEntry (Finite "1") (Some "older");
               Gemini.mkEntry (Finite "2") (Some "latest")]
           (Gemini.mkEntry (Finite "2") (Some "latest")) "latest");
    vm_compute; reflexivity.
Defined.

(** ** What a non-streamed Codex run returns and leaves behind *)

Section CodexRun.

Variable parse : string -> jsval.

Lemma thread_abort w reason :
  Codex.thread (Codex.abortCurrentRun w reason) = Codex.thread w.
Proof.
  unfold Codex.abortCurrentRun.
  destruct (Codex.currentRun _); [|reflexivity].
  destruct (_ !! _) as [a|]; [|reflexivity].
  destruct (Codex.controller a); reflexivity.
Qed.

Lemma world_interrupts (rs : list (option string)) : forall w,
  Codex.thread (fold_left Codex.interrupt rs w) = Codex.thread w
  /\ Codex.calls (fold_left Codex.interrupt rs w) = Codex.calls w.
Proof.
  induction rs as [|r rs IH]; intros w; simpl; [split; reflexivity|].
  destruct (IH (Codex.interrupt w r)) as [-> ->].
  unfold Codex.interrupt. split; [apply thread_abort|apply calls_abort].
Qed.

Lemma createThread_call w :
  Codex.createThread w = Codex.log (codex_thread_call (Codex.state_of w)) w.
Proof.
  unfold Codex.createThread, codex_thread_call.
  destruct (Codex.id _) as [i|]; simpl; [destruct (nonempty i)|]; reflexivity.
Qed.

(** What the [try] block leaves and returns when it returns. *)
Lemma try_run_ok input ropts sdk w res :
  snd (Codex.try_run parse input ropts sdk w) = Codex.Ok res ->
  exists summary,
    Codex.collectRunSummary parse sdk (outputSchema ropts) = Codex.Ok summary
    /\ res = Codex.mapRunResult parse summary (Codex.thread_id sdk)
    /\ fst (Codex.try_run parse input ropts sdk w)
       = Codex.adopt_thread_id (Codex.thread_id sdk)
           (Codex.log (Codex.RunStreamed input (outputSchema ropts))
              (Codex.createThread w)).
Proof.
  unfold Codex.try_run.
  destruct (Codex.createThread_throws sdk); [discriminate|].
  destruct (Codex.runStreamed_throws sdk); [discriminate|].
  destruct (Codex.collectRunSummary _ _ _) as [summary|]; [|discriminate].
  simpl. intros H. injection H as <-. eauto.
Qed.

(** The thread and the result of a run that resolves. *)
Lemma runInternal_ok w input ropts sdk interrupts res :
  snd (Codex.runInternal parse w input ropts sdk interrupts) = Codex.Ok res ->
  Codex.assertIdle (Codex.state_of w) = None
  /\ exists summary,
       Codex.collectRunSummary parse sdk (outputSchema ropts) = Codex.Ok summary
       /\ res = Codex.mapRunResult parse summary (Codex.thread_id sdk)
       /\ Codex.ThreadHandle.id
            (Codex.thread (fst (Codex.runInternal parse w input ropts sdk interrupts)))
          = (if truthy_str (Codex.thread_id sdk) then Codex.thread_id sdk
             else Codex.ThreadHandle.id (Codex.thread w))
       /\ Codex.id
            (Codex.state_of (fst (Codex.runInternal parse w input ropts sdk interrupts)))
          = (if truthy_str (Codex.thread_id sdk) then Codex.thread_id sdk
             else Codex.id (Codex.state_of w))
       /\ Codex.options
            (Codex.state_of (fst (Codex.runInternal parse w input ropts sdk interrupts)))
          = Codex.options (Codex.state_of w).
Proof.
  unfold Codex.runInternal.
  destruct (Codex.assertIdle _) eqn:Hidle; [discriminate|].
  split; [reflexivity|]. revert H.
  unfold Codex.begin_run.
  set (w0 := Codex.set_state _ _).
  destruct (world_interrupts interrupts w0) as [Ht _].
  set (w1 := fold_left Codex.interrupt interrupts w0) in *.
  pose proof (try_run_ok (Codex.normalizeInput input) ropts sdk w1) as Hok.
  destruct (Codex.try_run _ _ _ _ _) as [w2 result]. simpl in Hok.
  destruct result as [v|t]; [|destruct (Codex.isAbortError t); discriminate].
  intros H. simpl in H. injection H as ->.
  destruct (Hok res eq_refl) as (summary & Hs & Hres & Hw).
  exists summary. split; [exact Hs|]. split; [exact Hres|].
  subst w2. rewrite createThread_call.
  unfold Codex.adopt_thread_id.
  destruct (truthy_str (Codex.thread_id sdk)); simpl;
    (destruct (Codex.currentRun _) as [r'|]; [destruct (Nat.eqb r' _)|]);
    simpl; unfold Codex.state_of; simpl; rewrite ?Ht; repeat split; reflexivity.
Qed.

(** The first call of a run on an idle thread, when [createThread] does
    not throw. *)
Lemma runInternal_first_call w input ropts sdk interrupts :
  Codex.assertIdle (Codex.state_of w) = None ->
  Codex.createThread_throws sdk = None ->
  exists more,
    Codex.calls (fst (Codex.runInternal parse w input ropts sdk interrupts))
    = (Codex.calls w ++ codex_thread_call (Codex.state_of w) :: more)%list.
Proof.
  intros Hidle Hc. unfold Codex.runInternal. rewrite Hidle.
  unfold Codex.begin_run.
  set (w0 := Codex.set_state _ _).
  destruct (world_interrupts interrupts w0) as [Ht Hcalls].
  set (w1 := fold_left Codex.interrupt interrupts w0) in *.
  assert (Hst : codex_thread_call (Codex.state_of w1) = codex_thread_call (Codex.state_of w)).
  { unfold Codex.state_of. rewrite Ht. reflexivity. }
  assert (Htry : exists more,
             Codex.calls (fst (Codex.try_run parse (Codex.normalizeInput input) ropts sdk w1))
             = (Codex.calls w ++ codex_thread_call (Codex.state_of w) :: more)%list).
  { unfold Codex.try_run. rewrite Hc, createThread_call, Hst.
    exists [Codex.RunStreamed (Codex.normalizeInput input) (outputSchema ropts)].
    destruct (Codex.runStreamed_throws sdk); simpl.
    - rewrite Hcalls. simpl. now rewrite <- app_assoc.
    - destruct (Codex.collectRunSummary _ _ _); simpl;
        [unfold Codex.adopt_thread_id; destruct (truthy_str _); simpl|];
        rewrite Hcalls; simpl; now rewrite <- app_assoc. }
  destruct (Codex.try_run _ _ _ _ _) as [w2 result]. simpl in Htry.
  destruct Htry as [more Hm]. exists more.
  destruct (Codex.currentRun _) as [r'|]; [destruct (Nat.eqb r' _)|]; exact Hm.
Qed.

Lemma get_or_empty (x : jsval) (k : string) : get (x ?? Some (JObj [])) k = get x k.
Proof. destruct x as [[]|]; reflexivity. Qed.

Lemma default_last_app {A} (d : A) (l1 l2 : list A) :
  default d (last (l1 ++ l2)) = default (default d (last l1)) (last l2).
Proof.
  destruct l2 as [|x l2] using rev_ind; [now rewrite app_nil_r|].
  now rewrite app_assoc, !last_snoc.
Qed.

(** One native event: the text [collectRunSummary] keeps after it is the
    text of the last complete message the stream makes of it, if any. *)
Lemma collect_event_text acc ev acc' :
  Codex.collect_event acc ev = Codex.Ok acc' ->
  Codex.finalResponse acc'
  = default (Codex.finalResponse acc)
      (last (omap final_text (Codex.normalizeCodexEvent ev))).
Proof.
  unfold Codex.collect_event.
  destruct (nullish ev) eqn:Hn; [discriminate|].
  unfold Codex.normalizeCodexEvent.
  replace (ev ?? Some (JObj [])) with ev by (unfold coalesce; now rewrite Hn).
  destruct (get ev "type") as [[| | |t| |]|] eqn:Hty; simpl;
    try (intros H; injection H as <-; reflexivity).
  destruct (String.eqb t "item.completed") eqn:E.
  - apply String.eqb_eq in E. subst t. simpl.
    rewrite !get_or_empty.
    intros H. injection H as <-. simpl.
    destruct (Codex.is_str (get (get ev "item") "type") "agent_message"); simpl;
      [|reflexivity].
    destruct (get (get ev "item") "text") as [[| | |x| |]|]; reflexivity.
  - destruct (String.eqb t "turn.completed") eqn:E1.
    + apply String.eqb_eq in E1. subst t. simpl.
      intros H. injection H as <-. reflexivity.
    + destruct (String.eqb t "turn.failed") eqn:E2; [discriminate|].
      intros H. injection H as <-.
      repeat match goal with
             | |- context [if ?c then _ else _] => destruct c
             end; reflexivity.
Qed.

Lemma collect_events_text (evs : list jsval) : forall acc acc',
  Codex.collect_events acc evs = Codex.Ok acc' ->
  Codex.finalResponse acc'
  = default (Codex.finalResponse acc)
      (last (omap final_text (flat_map Codex.normalizeCodexEvent evs))).
Proof.
  induction evs as [|ev evs IH]; intros acc acc' H; simpl in *.
  - now injection H as <-.
  - destruct (Codex.collect_event acc ev) as [acc1|] eqn:E; [|discriminate].
    rewrite omap_app, default_last_app, <- (collect_event_text _ _ _ E).
    now apply IH.
Qed.

Lemma summary_text sdk schema summary :
  Codex.collectRunSummary parse sdk schema = Codex.Ok summary ->
  Codex.finalResponse summary
  = default ""
      (last (omap final_text (flat_map Codex.normalizeCodexEvent (Codex.events sdk)))).
Proof.
  unfold Codex.collectRunSummary.
  destruct (Codex.collect_events _ _) as [acc|] eqn:E; [|discriminate].
  destruct (Codex.ending sdk); [discriminate|].
  intros H. injection H as <-.
  pose proof (collect_events_text _ _ _ E) as Ht. simpl in Ht. rewrite <- Ht.
  destruct (_ && _)%bool; reflexivity.
Qed.

(** The events before a [turn.failed] are read, the failure is thrown. *)
Lemma collect_events_failed (before : list jsval) (failed : jsval) (after : list jsval) :
  forall acc,
    forallb benign before = true ->
    Codex.is_str (get failed "type") "turn.failed" = true ->
    Codex.collect_events acc (before ++ failed :: after)
    = Codex.Throw
        (Codex.ThrownError
           (new_Error (Codex.show_or (get (get failed "error") "message")
                         "Codex turn failed"))).
Proof.
  induction before as [|ev before IH]; intros acc Hb Hf; simpl.
  - unfold Codex.collect_event.
    destruct (nullish failed) eqn:Hn.
    { destruct failed as [[]|]; discriminate. }
    destruct (get failed "type") as [[| | |t| |]|]; try discriminate.
    simpl in Hf. apply String.eqb_eq in Hf. subst t. reflexivity.
  - simpl in Hb. apply andb_prop in Hb as [Hev Hb].
    destruct (collect_event_benign acc ev Hev) as [acc1 ->]. now apply IH.
Qed.

Opaque extractJsonPayload.


Transparent extractJsonPayload.

End CodexRun.

(** X22: a non-streamed Codex run that
    resolves while the SDK reports a thread id makes that id the thread's:
    the handle, [getThreadId] and the result carry it, and the next run on
    the thread asks the SDK to resume that thread, with the options the
    thread was created with. *)
Theorem codex_run_adopts_the_thread_id :
  forall (parse : string -> jsval) (w : Codex.World) (input : PromptInput)
         (ropts : RunOpts) (sdk : Codex.Backend) (interrupts : list (option string))
         (res : RunResult.t) (i : string),
    snd (Codex.runInternal parse w input ropts sdk interrupts) = Codex.Ok res ->
    Codex.thread_id sdk = Some i ->
    nonempty i = true ->
    Codex.ThreadHandle.id
      (Codex.thread (fst (Codex.runInternal parse w input ropts sdk interrupts)))
    = Some i
    /\ Codex.getThreadId
         (Codex.thread (fst (Codex.runInternal parse w input ropts sdk interrupts)))
       = Some i
    /\ RunResult.threadId res = Some i
    /\ forall (input' : PromptInput) (ropts' : RunOpts) (sdk' : Codex.Backend)
              (interrupts' : list (option string)),
         Codex.createThread_throws sdk' = None ->
         exists more,
           Codex.calls
             (fst (Codex.runInternal parse
                     (fst (Codex.runInternal parse w input ropts sdk interrupts))
                     input' ropts' sdk' interrupts'))
           = (Codex.calls (fst (Codex.runInternal parse w input ropts sdk interrupts))
              ++ Codex.ResumeThread i (Codex.options (Codex.state_of w)) :: more)%list.
Proof.
  intros parse w input ropts sdk interrupts res i Hres Hid Hne.
  destruct (runInternal_ok parse w input ropts sdk interrupts res Hres)
    as (Hidle & summary & _ & Hr & H1 & H2 & H3).
  rewrite Hid in H1, H2. simpl in H1, H2. rewrite Hne in H1, H2.
  split; [exact H1|]. split; [exact H2|]. split; [subst res; exact Hid|].
  intros input' ropts' sdk' interrupts' Hc.
  pose proof (codex_runInternal_releases parse w input ropts sdk interrupts Hidle) as Hrel.
  assert (Hidle' : Codex.assertIdle
                     (Codex.state_of
                        (fst (Codex.runInternal parse w input ropts sdk interrupts)))
                   = None).
  { unfold Codex.assertIdle. unfold codex_current in Hrel. now rewrite Hrel. }
  destruct (runInternal_first_call parse _ input' ropts' sdk' interrupts' Hidle' Hc)
    as [more Hm].
  exists more. rewrite Hm. unfold codex_thread_call. rewrite H2, H3. simpl.
  now rewrite Hne.
Qed.

Lemma codex_run_adopts_the_thread_id_witness :
  Codex.getThreadId
    (Codex.thread
       (fst (Codex.runInternal Reader.parse Examples.codex_world (PromptText "hi")
               no_run_opts Examples.codex_silent [])))
  = Some "thread-1".
Proof.
  apply (codex_run_adopts_the_thread_id Reader.parse Examples.codex_world
           (PromptText "hi") no_run_opts Examples.codex_silent []
           (RunResult.make (Some "thread-1") None None None
              (Some (JObj [("items", JArr []); ("finalResponse", JStr "")])))
           "thread-1");
    vm_compute; reflexivity.
Defined.

(** X23: the text of a
    non-streamed Codex run that resolves is the text of the last complete
    assistant message that [runStreamed] would deliver for the same native
    events (earlier messages, partial ones and ones whose text is no string
    do not count), and the result has no text when there is no such message
    or its text is empty. *)
Theorem codex_run_text_is_the_last_streamed_message :
  forall (parse : string -> jsval) (w : Codex.World) (input : PromptInput)
         (ropts : RunOpts) (sdk : Codex.Backend) (interrupts : list (option string))
         (res : RunResult.t),
    snd (Codex.runInternal parse w input ropts sdk interrupts) = Codex.Ok res ->
    RunResult.text res
    = match last (omap final_text
                    (flat_map Codex.normalizeCodexEvent (Codex.events sdk))) with
      | Some t => if nonempty t then Some (JStr t) else None
      | None => None
      end.
Proof.
  intros parse w input ropts sdk interrupts res Hres.
  destruct (runInternal_ok parse w input ropts sdk interrupts res Hres)
    as (_ & summary & Hs & -> & _).
  unfold Codex.mapRunResult. simpl.
  rewrite (summary_text parse sdk _ summary Hs).
  destruct (last _) as [t|]; reflexivity.
Qed.

Lemma codex_run_text_is_the_last_streamed_message_witness :
  RunResult.text
    (RunResult.make (Some "thread-1") (Some (JStr "final")) None None
       (Some (JObj [("items",
                     JArr [JObj [("type", JStr "agent_message"); ("text", JStr "draft")];
                           JObj [("type", JStr "agent_message"); ("text", JStr "final")]]);
                    ("finalResponse", JStr "final")])))
  = match last (omap final_text
                  (flat_map Codex.normalizeCodexEvent (Codex.events codex_two_answers))) with
    | Some t => if nonempty t then Some (JStr t) else None
    | None => None
    end.
Proof.
  apply (codex_run_text_is_the_last_streamed_message Reader.parse Examples.codex_world
           (PromptText "hi") no_run_opts codex_two_answers []).
  vm_compute. reflexivity.
Defined.

(** X24: when the SDK reports a failed
    turn, a non-streamed Codex run rejects with the message of that failure
    (["Codex turn failed"] when it has none), also when the run was
    interrupted meanwhile; the events after the failure are not read, and
    the thread keeps the id it had. *)
Theorem codex_turn_failed_rejects_the_run :
  forall (parse : string -> jsval) (w : Codex.World) (input : PromptInput)
         (ropts : RunOpts) (sdk : Codex.Backend) (interrupts : list (option string))
         (before : list jsval) (failed : jsval) (after : list jsval),
    Codex.assertIdle (Codex.state_of w) = None ->
    Codex.createThread_throws sdk = None ->
    Codex.runStreamed_throws sdk = None ->
    Codex.events sdk = (before ++ failed :: after)%list ->
    forallb benign before = true ->
    Codex.is_str (get failed "type") "turn.failed" = true ->
    snd (Codex.runInternal parse w input ropts sdk interrupts)
    = Codex.Throw
        (Codex.ThrownError
           (new_Error (Codex.show_or (get (get failed "error") "message")
                         "Codex turn failed")))
    /\ Codex.getThreadId
         (Codex.thread (fst (Codex.runInternal parse w input ropts sdk interrupts)))
       = Codex.getThreadId (Codex.thread w).
Proof.
  intros parse w input ropts sdk interrupts before failed after
         Hidle Hc Hr Hev Hb Hf.
  unfold Codex.runInternal. rewrite Hidle. unfold Codex.begin_run.
  set (w0 := Codex.set_state _ _).
  destruct (world_interrupts interrupts w0) as [Ht _].
  set (w1 := fold_left Codex.interrupt interrupts w0) in *.
  unfold Codex.try_run. rewrite Hc, Hr.
  unfold Codex.collectRunSummary. rewrite Hev.
  rewrite (collect_events_failed before failed after _ Hb Hf).
  rewrite createThread_call. simpl.
  destruct (Codex.currentRun _) as [r'|]; [destruct (Nat.eqb r' _)|];
    (split; [reflexivity|]); unfold Codex.getThreadId, Codex.state_of; simpl;
    now rewrite Ht.
Qed.

Lemma codex_turn_failed_rejects_the_run_witness :
  snd (Codex.runInternal Reader.parse Examples.codex_world (PromptText "hi")
         no_run_opts codex_turn_fails [Some "stop"])
  = Codex.Throw (Codex.ThrownError (new_Error "rate limit exceeded"))
  /\ Codex.getThreadId
       (Codex.thread
          (fst (Codex.runInternal Reader.parse Examples.codex_world (PromptText "hi")
                  no_run_opts codex_turn_fails [Some "stop"])))
     = None.
Proof.
  apply (codex_turn_failed_rejects_the_run Reader.parse Examples.codex_world
           (PromptText "hi") no_run_opts codex_turn_fails [Some "stop"]
           [Examples.native "thread.started"; codex_item "draft"]
           (Some (JObj [("type", JStr "turn.failed");
                        ("error", JObj [("message", JStr "rate limit exceeded")])]))
           [codex_item "late"]);
    reflexivity.
Defined.



(** ** The signals a Gemini process is sent *)

Section GeminiSignals.

Variable parse : string -> jsval.
Variable stringify : json -> string.

Lemma gentle_abort_active now reason a :
  Gemini.aborted a = false -> Gentle a -> Gentle (Gemini.abort_active now reason a).
Proof.
  intros Hab [Ht Hs]. destruct (Ht Hab) as [H1 H2].
  unfold Gentle, Gemini.abort_active, soft_first. simpl. rewrite H1, H2. simpl.
  split; [intros; discriminate|].
  destruct Hs as [(Hr & Hk & _)|[Hr Hk]]; [left|right]; repeat split; auto.
  intros _. unfold Gemini.SOFT_KILL_DELAY_MS, Gemini.HARD_KILL_DELAY_MS.
  apply Z.leb_le. lia.
Qed.

Lemma gentle_fire now a : Gentle a -> Gentle (Gemini.fire_timers now a).
Proof.
  destruct a as [[file args inp k code run rcv dst] ctl l ab ar soft hard].
  destruct soft as [[ds ps]|], hard as [[dh ph]|];
    try destruct (ds <=? now) eqn:E1; try destruct (dh <=? now) eqn:E2;
    destruct k, run, ab; try destruct ps; try destruct ph;
    unfold Gentle, Gemini.fire_timers, soft_first, Gemini.is_due, Gemini.fired,
      Gemini.kill_unless_killed, Gemini.kill;
    simpl; rewrite ?E1, ?E2; simpl; rewrite ?E1, ?E2; simpl;
    intros [Ht Hs];
    (split;
     [intros Hab; try discriminate Hab; destruct (Ht Hab); split; congruence|]);
    (destruct Hs as [(Hr & Hk & Hs)|[Hr Hk]]; try discriminate Hk; subst rcv);
    try (right; split; reflexivity);
    try (left; repeat split; try reflexivity; try (intros; discriminate);
         intros _; exact (Hs eq_refl)).
  all: try (discriminate (Hs eq_refl)).
  all: try (specialize (Hs eq_refl); apply Z.leb_le in Hs; apply Z.leb_le in E2;
            apply Z.leb_gt in E1; lia).
Qed.

Lemma gentle_cleanup_active a : Gentle a -> Gentle (Gemini.cleanup_active a).
Proof.
  destruct a as [[file args inp k code run rcv dst] ctl l ab ar soft hard].
  unfold Gentle, Gemini.cleanup_active, soft_first, Gemini.kill. simpl.
  intros [_ Hs]. split; [auto|].
  destruct Hs as [(-> & -> & _)|[-> ->]]; [|right; split; reflexivity].
  destruct code, run; simpl;
    (right; split; reflexivity) || (left; repeat split; reflexivity).
Qed.

Lemma gentle_exits code a :
  Gentle a -> Gentle (Gemini.set_child (Gemini.exits code (Gemini.child a)) a).
Proof.
  unfold Gentle, soft_first. simpl. intros [Ht Hs]. split; [exact Ht|].
  destruct Hs as [(Hr & Hk & _)|[Hr Hk]]; [left|right]; repeat split; auto.
  intros; discriminate.
Qed.

(** A change of the signal bookkeeping of a run. *)
Lemma gentle_relink a ctl l :
  Gentle a ->
  Gentle (Gemini.mkActive (Gemini.child a) ctl l (Gemini.aborted a)
            (Gemini.abortReason a) (Gemini.softKillTimer a) (Gemini.hardKillTimer a)).
Proof. intros H. exact H. Qed.

Lemma all_update_run r f w :
  (forall a, Gemini.runs w !! r = Some a -> Gentle a -> Gentle (f a)) ->
  AllGentle w -> AllGentle (Gemini.update_run r f w).
Proof.
  intros Hf H. unfold AllGentle, Gemini.update_run. simpl.
  apply Forall_alter; [exact H|]. intros a Ha. apply Hf.
  unfold AllGentle in H. exact Ha.
Qed.

Lemma all_abortChild w reason : AllGentle w -> AllGentle (Gemini.abortChild w reason).
Proof.
  intros H. unfold Gemini.abortChild.
  destruct (Gemini.currentRun _) as [r|]; [|exact H].
  destruct (_ !! _) as [a|] eqn:Ha; [|exact H].
  destruct (Gemini.aborted a) eqn:Hab; [exact H|].
  apply all_update_run; [|exact H].
  intros a' Ha' Hg. rewrite Ha in Ha'. injection Ha' as <-.
  now apply gentle_abort_active.
Qed.

Lemma all_external_abort r reason w :
  AllGentle w -> AllGentle (Gemini.external_abort r reason w).
Proof.
  intros H. unfold Gemini.external_abort.
  destruct (_ !! _) as [a|]; [|exact H].
  destruct (Gemini.linked a); [|exact H].
  destruct (Gemini.controller a).
  - apply all_update_run; [|exact H]. intros a' _ Hg. exact Hg.
  - apply all_abortChild.
    apply all_update_run; [intros a' _ Hg; exact Hg|].
    apply all_update_run; [intros a' _ Hg; exact Hg|exact H].
Qed.

Lemma all_elapse ms w : AllGentle w -> AllGentle (Gemini.elapse ms w).
Proof.
  unfold AllGentle, Gemini.elapse. simpl. intros H.
  apply Forall_fmap. eapply Forall_impl; [exact H|].
  intros a Ha. now apply gentle_fire.
Qed.

Lemma all_cleanup r w : AllGentle w -> AllGentle (Gemini.cleanup r w).
Proof.
  intros H. unfold Gemini.cleanup.
  apply all_update_run; [intros a _; apply gentle_cleanup_active|].
  destruct (Gemini.currentRun _) as [r'|]; [destruct (Nat.eqb r' r)|]; exact H.
Qed.

Lemma all_spawn w prompt mode ropts :
  AllGentle w -> AllGentle (fst (Gemini.spawnGeminiProcess w prompt mode ropts)).
Proof.
  unfold AllGentle, Gemini.spawnGeminiProcess. simpl. intros H.
  apply Forall_app. split; [exact H|].
  apply Forall_cons. split; [|apply Forall_nil_2].
  unfold Gentle, soft_first. simpl. split; [auto|]. left. auto.
Qed.

Lemma all_meanwhiles r ms : forall w,
  AllGentle w -> AllGentle (fold_left (Gemini.meanwhile_step r) ms w).
Proof.
  induction ms as [|m ms IH]; intros w H; [exact H|].
  simpl. apply IH. destruct m; simpl;
    [apply all_abortChild|apply all_external_abort|apply all_elapse]; exact H.
Qed.

Lemma runs_after_exit r ropts stdout stderr code listing w :
  Gemini.runs (fst (Gemini.after_exit parse r ropts stdout stderr code listing w))
  = Gemini.runs w.
Proof.
  unfold Gemini.after_exit.
  destruct (Gemini.run_aborted w r); [reflexivity|].
  destruct (negb (bool_decide _)); [reflexivity|].
  destruct (Gemini.parseGeminiJson parse stdout); try reflexivity;
    destruct (if truthy (outputSchema ropts) then _ else _); reflexivity.
Qed.

Lemma all_runInternal w input ropts meanwhile outcome listing :
  AllGentle w ->
  AllGentle (fst (Gemini.runInternal parse stringify w input ropts meanwhile outcome
                    listing)).
Proof.
  intros H. unfold Gemini.runInternal.
  destruct (Gemini.assertIdle _); [exact H|].
  assert (Hd : AllGentle (fst (Gemini.during stringify w input ropts meanwhile))).
  { unfold Gemini.during.
    pose proof (all_spawn w (Gemini.applyOutputSchemaPrompt stringify input
                               (outputSchema ropts)) Gemini.json_format ropts H) as Hs.
    destruct (Gemini.spawnGeminiProcess _ _ _ _) as [w1 r]. simpl in *.
    now apply all_meanwhiles. }
  destruct (Gemini.during stringify w input ropts meanwhile) as [w1 r]. simpl in Hd.
  destruct outcome as [stdout stderr code|e].
  - pose proof (runs_after_exit r ropts stdout stderr code listing
                  (Gemini.update_run r
                     (fun a => Gemini.set_child (Gemini.exits code (Gemini.child a)) a)
                     w1)) as Hr.
    destruct (Gemini.after_exit _ _ _ _ _ _ _ _) as [w2 res]. simpl in *.
    apply all_cleanup. unfold AllGentle. rewrite Hr.
    apply (all_update_run r _ w1); [intros a _; apply gentle_exits|exact Hd].
  - simpl. apply all_cleanup. exact Hd.
Qed.

Lemma all_finally o s :
  AllGentle (Gemini.world s) -> AllGentle (Gemini.world (Gemini.finally o s)).
Proof.
  intros H. unfold Gemini.finally. simpl.
  destruct (_ && _)%bool; [apply all_abortChild|]; now apply all_cleanup.
Qed.

Lemma all_resume_with e s :
  AllGentle (Gemini.world s) -> AllGentle (Gemini.world (Gemini.resume_with e s)).
Proof.
  intros H. destruct e; unfold Gemini.resume_with;
    [exact H | now apply all_finally | now apply all_finally].
Qed.

Lemma all_push e s :
  AllGentle (Gemini.world s) -> AllGentle (Gemini.world (Gemini.push e s)).
Proof.
  intros H. unfold Gemini.push. destruct (Gemini.status s); try exact H.
  now apply all_resume_with.
Qed.

Lemma all_push_all es : forall s,
  AllGentle (Gemini.world s) -> AllGentle (Gemini.world (Gemini.push_all es s)).
Proof.
  induction es as [|e es IH]; intros s H; [exact H|].
  change (Gemini.push_all (e :: es) s) with (Gemini.push_all es (Gemini.push e s)).
  apply IH. now apply all_push.
Qed.

Opaque Gemini.push_all Gemini.push Gemini.finally Gemini.resume_with.

Lemma all_step (s : Gemini.Stream) (ev : Gemini.Event) :
  AllGentle (Gemini.world s) -> AllGentle (Gemini.world (Gemini.step parse s ev)).
Proof.
  intros H. destruct ev; simpl.
  - destruct (Gemini.lineOn s); [|exact H]. unfold Gemini.handleLine.
    destruct (Gemini.finished s); [exact H|].
    destruct (parse line) as [event|]; [|exact H].
    apply all_push_all. exact H.
  - destruct (Gemini.closeOn s); [|exact H]. unfold Gemini.handleClose. simpl.
    destruct (_ || _)%bool; [exact H|]. apply all_push_all. exact H.
  - assert (He : AllGentle
                   (Gemini.update_run (Gemini.active s)
                      (fun a => Gemini.set_child (Gemini.exits code (Gemini.child a)) a)
                      (Gemini.world s))).
    { apply all_update_run; [intros a _; apply gentle_exits|exact H]. }
    destruct (Gemini.exitOn s); [|exact He]. unfold Gemini.onExit. simpl.
    destruct (Gemini.finished s); [exact He|]. simpl.
    destruct (Gemini.run_aborted _ _); [apply all_push_all; exact He|].
    destruct (negb (bool_decide _)); [apply all_push_all; exact He|].
    apply all_push. exact He.
  - destruct gone; simpl.
    + assert (He : AllGentle
                     (Gemini.update_run (Gemini.active s)
                        (fun a =>
                           Gemini.set_child
                             (Gemini.exits (Gemini.exitCode (Gemini.child a))
                                (Gemini.child a)) a)
                        (Gemini.world s))).
      { apply all_update_run; [intros a _; apply gentle_exits|exact H]. }
      destruct (Gemini.errorOn s); [|exact He]. unfold Gemini.onError. simpl.
      destruct (Gemini.finished s); [exact He|]. apply all_push_all. exact He.
    + destruct (Gemini.errorOn s); [|exact H]. unfold Gemini.onError. simpl.
      destruct (Gemini.finished s); [exact H|]. apply all_push_all. exact H.
  - unfold Gemini.interrupt. now apply all_abortChild.
  - now apply all_external_abort.
  - now apply all_elapse.
  - unfold Gemini.next. destruct (Gemini.status s); try exact H.
    + destruct (Gemini.queue s) as [|entry rest]; [destruct (Gemini.finished s)|];
        try exact H; apply all_resume_with; exact H.
    + destruct (Gemini.queue s) as [|entry rest]; [destruct (Gemini.finished s)|];
        try exact H; apply all_resume_with; exact H.
  - unfold Gemini.abandon. destruct (Gemini.status s); try exact H.
    now apply all_finally.
Qed.

Transparent Gemini.push_all Gemini.push Gemini.finally Gemini.resume_with.

Lemma all_run_events (evs : list Gemini.Event) : forall s,
  AllGentle (Gemini.world s) -> AllGentle (Gemini.world (Gemini.run_events parse s evs)).
Proof.
  induction evs as [|ev evs IH]; intros s H; [exact H|].
  simpl. apply IH. now apply all_step.
Qed.

Lemma reachable_gentle (w : Gemini.World) :
  Reachable parse stringify w -> AllGentle w.
Proof.
  induction 1 as [d o|d i o|w input ropts meanwhile outcome listing _ IH
                  |w input ropts s0 evs _ IH Hs0|w reason _ IH|w ms _ IH].
  - apply Forall_nil_2.
  - apply Forall_nil_2.
  - now apply all_runInternal.
  - apply all_run_events.
    revert Hs0. unfold Gemini.runStreamedInternal.
    destruct (Gemini.assertIdle _); [discriminate|].
    pose proof (all_spawn w (Gemini.applyOutputSchemaPrompt stringify input
                               (outputSchema ropts)) Gemini.stream_json ropts IH) as Hs.
    destruct (Gemini.spawnGeminiProcess _ _ _ _) as [w1 r]. simpl in Hs.
    intros E. injection E as <-. exact Hs.
  - unfold Gemini.interrupt. now apply all_abortChild.
  - now apply all_elapse.
Qed.

End GeminiSignals.

(** X25: whatever happened to a Gemini thread
    since it was started or resumed (runs, streamed runs read in any way,
    interrupts, aborts through the caller's signal, any amount of time), no
    process it spawned was ever sent [SIGKILL], and none was signalled
    twice: a process was sent one [SIGTERM] exactly if its [killed] flag is
    set, and nothing otherwise.  The hard kill timer finds [killed] set by
    the soft one and does nothing. *)
Theorem gemini_never_sends_sigkill :
  forall (parse : string -> jsval) (stringify : json -> string) (w : Gemini.World)
         (r : nat) (a : Gemini.ActiveRun),
    Reachable parse stringify w ->
    Gemini.runs w !! r = Some a ->
    Gemini.received (Gemini.child a)
    = if Gemini.killed (Gemini.child a) then [Gemini.SIGTERM] else [].
Proof.
  intros parse stringify w r a Hw Ha.
  pose proof (reachable_gentle parse stringify w Hw) as Hall.
  unfold AllGentle in Hall. rewrite Forall_lookup in Hall.
  destruct (Hall r a Ha) as [_ [(-> & -> & _)|[-> ->]]]; reflexivity.
Qed.

Lemma gemini_never_sends_sigkill_witness :
  exists a : Gemini.ActiveRun,
    Gemini.runs
      (Gemini.world
         (Gemini.run_events Reader.parse Examples.gemini_stream
            [Gemini.Interrupt None; Gemini.Elapse 300; Gemini.Elapse 5000]))
      !! 0%nat = Some a
    /\ Gemini.running (Gemini.child a) = true
    /\ Gemini.killed (Gemini.child a) = true
    /\ Gemini.received (Gemini.child a)
       = if Gemini.killed (Gemini.child a) then [Gemini.SIGTERM] else [].
Proof.
  eexists. split; [vm_compute; reflexivity|].
  split; [reflexivity|]. split; [reflexivity|].
  apply (gemini_never_sends_sigkill Reader.parse Reader.stringify
           (Gemini.world
              (Gemini.run_events Reader.parse Examples.gemini_stream
                 [Gemini.Interrupt None; Gemini.Elapse 300; Gemini.Elapse 5000]))
           0%nat).
  - apply (reach_stream Reader.parse Reader.stringify Examples.gemini_world
             (PromptText "hi") no_run_opts Examples.gemini_stream).
    + apply reach_start.
    + reflexivity.
  - vm_compute; reflexivity.
Defined.

(** ** What a non-streamed Claude run returns *)

Section ClaudeRun.

Lemma last_cons_default {A} (d x : A) (l : list A) :
  default d (last (x :: l)) = default x (last l).
Proof.
  destruct l as [|y l] using rev_ind; [reflexivity|].
  change (x :: l ++ [y])%list with ((x :: l) ++ [y])%list.
  now rewrite !last_snoc.
Qed.

Lemma scan_last (msgs : list jsval) : forall lastAssistant finalResult,
  Claude.scan msgs lastAssistant finalResult
  = (default lastAssistant
       (last (Claude.extractClaudeAssistantText
                <$> filter (fun m => claude_is_answer m = true) msgs)),
     default finalResult (last (filter (fun m => claude_is_result m = true) msgs))).
Proof.
  induction msgs as [|m msgs IH]; intros la fr; [reflexivity|].
  cbn [Claude.scan].
  destruct (Claude.lowered_type m) as [t|] eqn:Ht.
  - destruct (nonempty t) eqn:Hne; cbn [negb].
    + destruct (includes "result" t) eqn:Hr.
      * rewrite (filter_cons_True (fun m => claude_is_result m = true))
          by (unfold claude_is_result; now rewrite Ht).
        rewrite (filter_cons_False (fun m => claude_is_answer m = true))
          by (unfold claude_is_answer; rewrite Ht, Hr; discriminate).
        rewrite IH, last_cons_default. reflexivity.
      * rewrite (filter_cons_False (fun m => claude_is_result m = true))
          by (unfold claude_is_result; rewrite Ht, Hr; discriminate).
        destruct (includes "assistant" t) eqn:Ha.
        -- rewrite (filter_cons_True (fun m => claude_is_answer m = true))
             by (unfold claude_is_answer; now rewrite Ht, Hr, Ha).
           rewrite IH, fmap_cons, last_cons_default. reflexivity.
        -- rewrite (filter_cons_False (fun m => claude_is_answer m = true))
             by (unfold claude_is_answer; rewrite Ht, Hr, Ha; discriminate).
           apply IH.
    + destruct t; [|discriminate].
      rewrite (filter_cons_False (fun m => claude_is_result m = true))
        by (unfold claude_is_result; rewrite Ht; discriminate).
      rewrite (filter_cons_False (fun m => claude_is_answer m = true))
        by (unfold claude_is_answer; rewrite Ht; discriminate).
      apply IH.
  - rewrite (filter_cons_False (fun m => claude_is_result m = true))
      by (unfold claude_is_result; rewrite Ht; discriminate).
    rewrite (filter_cons_False (fun m => claude_is_answer m = true))
      by (unfold claude_is_answer; rewrite Ht; discriminate).
    apply IH.
Qed.

End ClaudeRun.

(** X27: when the SDK's generator ends
    normally and the last result message it sent (if any) reports no error,
    a non-streamed Claude run resolves; its text is the text extracted from
    the last assistant message (the empty string when there is none),
    earlier answers are dropped, its thread id is the id of the handle and
    its [raw] is that last result message. *)
Theorem claude_run_returns_the_last_answer :
  forall (parse : string -> jsval) (stringify : json -> string)
         (h : Claude.ThreadHandle.t) (input : PromptInput) (ropts : RunOpts)
         (sdk : Claude.Backend),
    Claude.ending sdk = None ->
    Claude.claudeResultIndicatesError
      (default None (last (filter (fun m => claude_is_result m = true)
                             (Claude.messages sdk)))) = false ->
    exists res,
      snd (Claude.run parse stringify h input ropts sdk) = Resolved res
      /\ RunResult.text res
         = Some (JStr (default ""
                         (last (Claude.extractClaudeAssistantText
                                  <$> filter (fun m => claude_is_answer m = true)
                                        (Claude.messages sdk)))))
      /\ RunResult.threadId res = Claude.getThreadId h
      /\ RunResult.raw res
         = default None (last (filter (fun m => claude_is_result m = true)
                                 (Claude.messages sdk))).
Proof.
  intros parse stringify h input ropts sdk Hend Hok.
  unfold Claude.run. rewrite scan_last. cbv beta iota zeta.
  unfold jsval in *. rewrite Hok, andb_false_r, Hend.
  eexists. split; [reflexivity|]. simpl. repeat split; reflexivity.
Qed.

Lemma claude_run_returns_the_last_answer_witness :
  exists res,
    snd (Claude.run Reader.parse Reader.stringify Examples.claude_thread
           (PromptText "hi") no_run_opts claude_two_answers) = Resolved res
    /\ RunResult.text res
       = Some (JStr (default ""
                       (last (Claude.extractClaudeAssistantText
                                <$> filter (fun m => claude_is_answer m = true)
                                      (Claude.messages claude_two_answers)))))
    /\ RunResult.threadId res = Claude.getThreadId Examples.claude_thread
    /\ RunResult.raw res
       = default None (last (filter (fun m => claude_is_result m = true)
                               (Claude.messages claude_two_answers))).
Proof.
  apply (claude_run_returns_the_last_answer Reader.parse Reader.stringify
           Examples.claude_thread (PromptText "hi") no_run_opts claude_two_answers);
    reflexivity.
Defined.

(** X28: a non-streamed Claude run
    judges by the last result message the SDK sent: when that message
    reports an error, the run rejects with ["Claude run failed: "] and the
    summary of that message, whether the SDK's generator ended normally or
    threw, and whatever was answered before or after. *)
Theorem claude_run_fails_on_the_last_result :
  forall (parse : string -> jsval) (stringify : json -> string)
         (h : Claude.ThreadHandle.t) (input : PromptInput) (ropts : RunOpts)
         (sdk : Claude.Backend) (result : jsval),
    last (filter (fun m => claude_is_result m = true) (Claude.messages sdk))
    = Some result ->
    Claude.claudeResultIndicatesError result = true ->
    snd (Claude.run parse stringify h input ropts sdk)
    = Rejected (new_Error (Claude.buildClaudeResultErrorMessage result)).
Proof.
  intros parse stringify h input ropts sdk result Hlast Herr.
  assert (Hres : claude_is_result result = true).
  { apply last_Some_elem_of in Hlast. apply list_elem_of_filter in Hlast. tauto. }
  assert (Htr : truthy result = true).
  { unfold claude_is_result, Claude.lowered_type in Hres.
    destruct result as [[| | | | |fields]|]; try discriminate. reflexivity. }
  unfold Claude.run. rewrite scan_last, Hlast. cbv beta iota zeta.
  cbn [from_option id].
  now rewrite Htr, Herr.
Qed.

Lemma claude_run_fails_on_the_last_result_witness :
  snd (Claude.run Reader.parse Reader.stringify Examples.claude_thread
         (PromptText "hi") no_run_opts claude_low_credit)
  = Rejected (new_Error "Claude run failed: Credit balance is too low").
Proof.
  apply (claude_run_fails_on_the_last_result Reader.parse Reader.stringify
           Examples.claude_thread (PromptText "hi") no_run_opts claude_low_credit
           (Some (JObj [("type", JStr "result"); ("is_error", JBool true);
                        ("result", JStr "Credit balance is too low")])));
    reflexivity.
Defined.

(** ** Reading the session list of the Gemini CLI *)

Section SessionList.

Import GeminiSessions.

Variable parseInt : string -> option number.

Lemma split_lines_no_lf (s : string) : occurs LF s = false -> split_lines s = [s].
Proof.
  induction s as [|c r IH]; [reflexivity|].
  intros H. simpl in H. apply orb_false_elim in H as [Hc Hr].
  cbn [split_lines]. rewrite Hc.
  destruct r as [|c' r'].
  - reflexivity.
  - assert (Hc' : Ascii.eqb c' LF = false).
    { simpl in Hr. now apply orb_false_elim in Hr as [? _]. }
    rewrite Hc', andb_false_r. now rewrite IH.
Qed.

(** Appending a line feed and more text closes the last line, without a
    carriage return that ended it, and the lines of the text follow. *)
Lemma split_lines_append (b : string) (a : string) :
  (exists ls l l',
     split_lines a = (ls ++ [l])%list
     /\ split_lines (a ++ String LF b) = (ls ++ l' :: split_lines b)%list
     /\ (l = l' \/ l = l' ++ String CR ""))
  /\ forall c,
       exists ls l l',
         split_lines (String c a) = (ls ++ [l])%list
         /\ split_lines (String c a ++ String LF b) = (ls ++ l' :: split_lines b)%list
         /\ (l = l' \/ l = l' ++ String CR "").
Proof.
  induction a as [|x a [IH1 IH2]].
  - split.
    + exists [], "", "". simpl. auto.
    + intros c. cbn [append split_lines].
      destruct (Ascii.eqb c LF) eqn:Hc.
      * exists [""], "", "". simpl. auto.
      * rewrite Ascii.eqb_refl, andb_true_r.
        destruct (Ascii.eqb c CR) eqn:Hr.
        -- apply Ascii.eqb_eq in Hr. subst c.
           exists [], (String CR ""), "". simpl. auto.
        -- exists [], (String c ""), (String c ""). simpl. auto.
  - split; [apply IH2|].
    intros c. cbn [append].
    change (split_lines (String c (String x a)))
      with (if Ascii.eqb c LF then "" :: split_lines (String x a)
            else if (Ascii.eqb c CR && Ascii.eqb x LF)%bool
                 then "" :: split_lines a
                 else cons_first c (split_lines (String x a))).
    change (split_lines (String c (String x (a ++ String LF b))))
      with (if Ascii.eqb c LF then "" :: split_lines (String x (a ++ String LF b))
            else if (Ascii.eqb c CR && Ascii.eqb x LF)%bool
                 then "" :: split_lines (a ++ String LF b)
                 else cons_first c (split_lines (String x (a ++ String LF b)))).
    destruct (Ascii.eqb c LF).
    + destruct (IH2 x) as (ls & l & l' & H1 & H2 & H3).
      exists ("" :: ls), l, l'. cbn [append] in H2. rewrite H1, H2. auto.
    + destruct (Ascii.eqb c CR && Ascii.eqb x LF)%bool.
      * destruct IH1 as (ls & l & l' & H1 & H2 & H3).
        exists ("" :: ls), l, l'. rewrite H1, H2. auto.
      * destruct (IH2 x) as (ls & l & l' & H1 & H2 & H3).
        cbn [append] in H2. rewrite H1, H2.
        destruct ls as [|p ps]; simpl.
        -- exists [], (String c l), (String c l'). simpl.
           split; [reflexivity|]. split; [reflexivity|].
           destruct H3 as [->| ->]; auto.
        -- exists (String c p :: ps), l, l'. auto.
Qed.

(** A carriage return at the end of the text stays on the last line. *)
Lemma split_lines_cr (a : string) :
  exists ls l,
    split_lines a = (ls ++ [l])%list
    /\ split_lines (a ++ String CR "") = (ls ++ [(l ++ String CR "")%string])%list.
Proof.
  assert (H : forall a,
             (exists ls l,
                split_lines a = (ls ++ [l])%list
                /\ split_lines (a ++ String CR "") = (ls ++ [(l ++ String CR "")%string])%list)
             /\ forall c,
                  exists ls l,
                    split_lines (String c a) = (ls ++ [l])%list
                    /\ split_lines (String c a ++ String CR "")
                       = (ls ++ [(l ++ String CR "")%string])%list).
  { clear a. induction a as [|x a [IH1 IH2]].
    - split.
      + exists [], "". simpl. auto.
      + intros c. cbn [append split_lines].
        destruct (Ascii.eqb c LF) eqn:Hc.
        * exists [""], "". simpl. auto.
        * rewrite andb_false_r. exists [], (String c ""). simpl. auto.
    - split; [apply IH2|].
      intros c. cbn [append].
      change (split_lines (String c (String x a)))
        with (if Ascii.eqb c LF then "" :: split_lines (String x a)
              else if (Ascii.eqb c CR && Ascii.eqb x LF)%bool
                   then "" :: split_lines a
                   else cons_first c (split_lines (String x a))).
      change (split_lines (String c (String x (a ++ String CR ""))))
        with (if Ascii.eqb c LF then "" :: split_lines (String x (a ++ String CR ""))
              else if (Ascii.eqb c CR && Ascii.eqb x LF)%bool
                   then "" :: split_lines (a ++ String CR "")
                   else cons_first c (split_lines (String x (a ++ String CR "")))).
      destruct (Ascii.eqb c LF).
      + destruct (IH2 x) as (ls & l & H1 & H2).
        exists ("" :: ls), l. cbn [append] in H2. rewrite H1, H2. auto.
      + destruct (Ascii.eqb c CR && Ascii.eqb x LF)%bool.
        * destruct IH1 as (ls & l & H1 & H2).
          exists ("" :: ls), l. rewrite H1, H2. auto.
        * destruct (IH2 x) as (ls & l & H1 & H2).
          cbn [append] in H2. rewrite H1, H2.
          destruct ls as [|p ps]; simpl.
          -- exists [], (String c l). simpl. auto.
          -- exists (String c p :: ps), l. auto. }
  apply H.
Qed.

Lemma blank_cr (w : string) : blank (w ++ String CR "") = blank w.
Proof.
  induction w as [|c w IH]; [reflexivity|]. simpl. now rewrite IH.
Qed.

Lemma closes_cr (s : string) :
  nonempty s = true -> closes (s ++ String CR "") = closes s.
Proof. destruct s as [|b w]; [discriminate|]. intros _. simpl. now rewrite blank_cr. Qed.

Lemma group_lazy_cr (s : string) : group_lazy (s ++ String CR "") = group_lazy s.
Proof.
  induction s as [|c r IH]; [reflexivity|].
  cbn [append group_lazy]. destruct (line_terminator c); [reflexivity|].
  destruct r as [|b w]; [reflexivity|].
  rewrite closes_cr by reflexivity. now rewrite IH.
Qed.

Lemma tail_greedy_cr (s : string) : tail_greedy (s ++ String CR "") = tail_greedy s.
Proof.
  induction s as [|c r IH]; [reflexivity|].
  cbn [append tail_greedy]. now rewrite IH, group_lazy_cr.
Qed.

Lemma trimStart_cr (l : string) :
  trimStart (l ++ String CR "")
  = match trimStart l with
    | EmptyString => EmptyString
    | s => s ++ String CR ""
    end.
Proof.
  induction l as [|c l IH]; [reflexivity|].
  cbn [append trimStart]. destruct (is_ws c); [exact IH|reflexivity].
Qed.

Lemma digits_cr (s : string) :
  digits (s ++ String CR "")
  = (fst (digits s), snd (digits s) ++ String CR "").
Proof.
  induction s as [|c r IH]; [reflexivity|].
  cbn [append digits]. destruct (is_digit c); [|reflexivity].
  now rewrite IH.
Qed.

(** A carriage return at the end of a line changes nothing. *)
Lemma lineRegex_cr (l : string) : lineRegex (l ++ String CR "") = lineRegex l.
Proof.
  unfold lineRegex. rewrite trimStart_cr.
  destruct (trimStart l) as [|c s] eqn:Hl; [reflexivity|].
  rewrite digits_cr. cbn [fst snd].
  destruct (nonempty (fst (digits (String c s)))); [|reflexivity].
  destruct (snd (digits (String c s))) as [|dot [|sp rest]]; cbn [append].
  - reflexivity.
  - destruct (Ascii.eqb dot "." && is_ws CR)%bool; reflexivity.
  - now rewrite tail_greedy_cr.
Qed.

Lemma tail_greedy_absent (s : string) : occurs "[" s = false -> tail_greedy s = None.
Proof.
  induction s as [|c r IH]; [reflexivity|].
  intros H. simpl in H. apply orb_false_elim in H as [Hc Hr].
  cbn [tail_greedy]. rewrite (IH Hr), Hc.
  destruct (line_terminator c); reflexivity.
Qed.

Lemma blank_absent (c : ascii) (s : string) :
  is_ws c = false -> blank s = true -> occurs c s = false.
Proof.
  intros Hc. induction s as [|a s IH]; [reflexivity|].
  simpl. intros H. apply andb_prop in H as [Ha Hs].
  rewrite (IH Hs), orb_false_r. apply Ascii.eqb_neq. intros ->. congruence.
Qed.

Lemma not_closes (id tail : string) :
  nonempty id = true -> closes (id ++ String "]" tail) = false.
Proof.
  destruct id as [|b w]; [discriminate|]. intros _. simpl.
  destruct (Ascii.eqb b "]"); [|reflexivity]. simpl.
  induction w as [|c w IH]; simpl; [reflexivity|].
  rewrite IH. apply andb_false_r.
Qed.

(** The lazy group takes all of [id] when the bracket that follows it is
    the last thing on the line. *)
Lemma group_lazy_id (id tail : string) :
  nonempty id = true ->
  occurs LF id = false -> occurs CR id = false ->
  blank tail = true ->
  group_lazy (id ++ String "]" tail) = Some id.
Proof.
  intros Hne Hlf Hcr Hb. induction id as [|c r IH]; [discriminate|].
  simpl in Hlf, Hcr. apply orb_false_elim in Hlf as [Hc1 Hr1].
  apply orb_false_elim in Hcr as [Hc2 Hr2].
  cbn [append group_lazy]. unfold line_terminator. rewrite Hc1, Hc2. cbn [orb].
  destruct r as [|b w].
  - simpl. now rewrite Hb.
  - rewrite not_closes by reflexivity.
    rewrite IH by (reflexivity || assumption). reflexivity.
Qed.

Lemma tail_greedy_id (title id tail : string) :
  occurs LF title = false -> occurs CR title = false ->
  nonempty id = true ->
  occurs LF id = false -> occurs CR id = false -> occurs "[" id = false ->
  blank tail = true ->
  tail_greedy (title ++ String "[" (id ++ String "]" tail)) = Some id.
Proof.
  intros Hlf Hcr Hne Hl Hc Hb Ht.
  induction title as [|c r IH].
  - cbn [append tail_greedy].
    rewrite tail_greedy_absent.
    + rewrite group_lazy_id by assumption.
      destruct (line_terminator "["); reflexivity.
    + rewrite occurs_append, Hb. simpl.
      apply blank_absent; [reflexivity|exact Ht].
  - simpl in Hlf, Hcr. apply orb_false_elim in Hlf as [Hc1 Hr1].
    apply orb_false_elim in Hcr as [Hc2 Hr2].
    cbn [append tail_greedy]. unfold line_terminator. rewrite Hc1, Hc2. cbn [orb].
    now rewrite IH.
Qed.

Lemma digits_all (d rest : string) (c : ascii) :
  forallb is_digit (list_ascii_of_string d) = true ->
  is_digit c = false ->
  digits (d ++ String c rest) = (d, String c rest).
Proof.
  intros Hd Hc. induction d as [|x d IH]; simpl.
  - now rewrite Hc.
  - simpl in Hd. apply andb_prop in Hd as [Hx Hd]. rewrite Hx, (IH Hd). reflexivity.
Qed.

Lemma digit_not_ws (c : ascii) : is_digit c = true -> is_ws c = false.
Proof.
  destruct c as [[|] [|] [|] [|] [|] [|] [|] [|]]; vm_compute; congruence.
Qed.

Lemma trimStart_blank_append (pre s : string) :
  blank pre = true -> trimStart (pre ++ s) = trimStart s.
Proof.
  induction pre as [|a pre IH]; [reflexivity|].
  simpl. intros H. apply andb_prop in H as [Ha Hp]. rewrite Ha. now apply IH.
Qed.

(** The two groups of a line of the list. *)
Lemma lineRegex_entry (indent d title id tail : string) (sp : ascii) :
  blank indent = true ->
  nonempty d = true ->
  forallb is_digit (list_ascii_of_string d) = true ->
  is_ws sp = true ->
  occurs LF title = false -> occurs CR title = false ->
  nonempty id = true ->
  occurs LF id = false -> occurs CR id = false -> occurs "[" id = false ->
  blank tail = true ->
  lineRegex (indent ++ d ++ String "." (String sp (title ++ String "[" (id ++ String "]" tail))))
  = Some (d, id).
Proof.
  intros Hi Hne Hd Hsp Ht1 Ht2 Hid Hi1 Hi2 Hi3 Htl.
  unfold lineRegex. rewrite trimStart_blank_append by exact Hi.
  assert (Hts : forall s, trimStart (d ++ s) = d ++ s).
  { destruct d as [|x d']; [discriminate|]. intros s. simpl.
    simpl in Hd. apply andb_prop in Hd as [Hx _].
    now rewrite (digit_not_ws x Hx). }
  rewrite Hts, digits_all by (assumption || reflexivity).
  cbn [fst snd]. rewrite Hne, Hsp, Ascii.eqb_refl. cbn [andb].
  rewrite tail_greedy_id by assumption. reflexivity.
Qed.

End SessionList.

(** X29: [parseGeminiSessionList]
    reads the output of [gemini --list-sessions] one line at a time and
    keeps the order of the lines: the entries of a text, a line feed and
    more text are the entries of the text followed by the entries of what
    follows the line feed.  A carriage return before the line feed makes no
    difference. *)
Theorem gemini_session_list_is_read_line_by_line :
  forall (parseInt : string -> option number) (a b : string),
    GeminiSessions.parseGeminiSessionList parseInt (a ++ newline ++ b)
    = (GeminiSessions.parseGeminiSessionList parseInt a
       ++ GeminiSessions.parseGeminiSessionList parseInt b)%list
    /\ GeminiSessions.parseGeminiSessionList parseInt
         (a ++ String GeminiSessions.CR (newline ++ b))
       = GeminiSessions.parseGeminiSessionList parseInt (a ++ newline ++ b).
Proof.
  intros parseInt a b.
  assert (Hlaw : forall a b,
             GeminiSessions.parseGeminiSessionList parseInt
               (a ++ String GeminiSessions.LF b)
             = (GeminiSessions.parseGeminiSessionList parseInt a
                ++ GeminiSessions.parseGeminiSessionList parseInt b)%list).
  { intros a0 b0. unfold GeminiSessions.parseGeminiSessionList.
    destruct (split_lines_append b0 a0) as [(ls & l & l' & H1 & H2 & H3) _].
    assert (Hl : GeminiSessions.parse_line parseInt l
                 = GeminiSessions.parse_line parseInt l').
    { unfold GeminiSessions.parse_line.
      destruct H3 as [->| ->]; [reflexivity|]. now rewrite lineRegex_cr. }
    rewrite H1, H2, !flat_map_app. cbn [flat_map].
    now rewrite Hl, app_nil_r, <- app_assoc. }
  assert (Hcr : forall a,
             GeminiSessions.parseGeminiSessionList parseInt
               (a ++ String GeminiSessions.CR "")
             = GeminiSessions.parseGeminiSessionList parseInt a).
  { intros a0. unfold GeminiSessions.parseGeminiSessionList.
    destruct (split_lines_cr a0) as (ls & l & H1 & H2).
    rewrite H1, H2, !flat_map_app. cbn [flat_map].
    unfold GeminiSessions.parse_line. now rewrite lineRegex_cr. }
  split.
  - apply Hlaw.
  - change (newline ++ b) with (String GeminiSessions.LF b).
    change (a ++ String GeminiSessions.CR (String GeminiSessions.LF b))
      with (a ++ (String GeminiSessions.CR "" ++ String GeminiSessions.LF b)).
    rewrite <- append_assoc, !Hlaw. now rewrite Hcr.
Qed.

(** X30: a line of the list that reads
    [<number>. <title> [<id>]] (white space around it, one white space
    character after the dot, an id without an opening bracket) gives one
    entry: its index is what [Number.parseInt] makes of the digits, its id
    is the text between the last opening bracket and the closing bracket at
    the end of the line, trimmed, whatever brackets the title holds; the
    entry has no id when that text is white space only. *)
Theorem gemini_session_list_entry :
  forall (parseInt : string -> option number) (indent d title id tail : string)
         (sp : ascii) (index : number),
    blank indent = true -> occurs GeminiSessions.LF indent = false ->
    nonempty d = true ->
    forallb GeminiSessions.is_digit (list_ascii_of_string d) = true ->
    parseInt d = Some index ->
    is_ws sp = true -> sp <> GeminiSessions.LF ->
    occurs GeminiSessions.LF title = false -> occurs GeminiSessions.CR title = false ->
    nonempty id = true ->
    occurs GeminiSessions.LF id = false -> occurs GeminiSessions.CR id = false ->
    occurs "[" id = false ->
    blank tail = true -> occurs GeminiSessions.LF tail = false ->
    GeminiSessions.parseGeminiSessionList parseInt
      (indent ++ d ++ "." ++ String sp (title ++ "[" ++ id ++ "]" ++ tail))
    = [Gemini.mkEntry index (if nonempty (trim id) then Some (trim id) else None)].
Proof.
  intros parseInt indent d title id tail sp index
         Hi Hil Hne Hd Hp Hsp Hspl Ht1 Ht2 Hid Hi1 Hi2 Hi3 Htl Htll.
  unfold GeminiSessions.parseGeminiSessionList.
  rewrite split_lines_no_lf.
  - cbn [flat_map]. rewrite app_nil_r. unfold GeminiSessions.parse_line.
    change ("." ++ String sp (title ++ "[" ++ id ++ "]" ++ tail))
      with (String "." (String sp (title ++ String "[" (id ++ String "]" tail)))).
    rewrite lineRegex_entry by assumption. now rewrite Hp.
  - rewrite !occurs_append. simpl. rewrite !occurs_append. simpl.
    rewrite !occurs_append. simpl. rewrite Hil, Ht1, Hi1, Htll.
    assert (Hdl : occurs GeminiSessions.LF d = false).
    { clear -Hd. induction d as [|x d IH]; [reflexivity|].
      simpl in *. apply andb_prop in Hd as [Hx Hd]. rewrite (IH Hd), orb_false_r.
      apply Ascii.eqb_neq. intros ->. discriminate. }
    rewrite Hdl. simpl.
    apply Ascii.eqb_neq in Hspl. now rewrite Hspl.
Qed.

Lemma gemini_session_list_entry_witness :
  GeminiSessions.parseGeminiSessionList small_parseInt
    ("  " ++ "02" ++ "."
     ++ String " " ("Write the [release] notes (1 hour ago) " ++ "[" ++ " 7c9d-22 " ++ "]"
                    ++ "  "))
  = [Gemini.mkEntry (Finite "2") (Some "7c9d-22")].
Proof.
  apply (gemini_session_list_entry small_parseInt "  " "02"
           "Write the [release] notes (1 hour ago) " " 7c9d-22 " "  " " " (Finite "2"));
    try reflexivity.
  discriminate.
Defined.
